(** * Intelligent Music Map: knowledge base and Transformers AI service

    A shallow embedding of [MusicKnowledgeBase] (semantic lookup over the
    catalog of music-theory rules) and of [TransformersAIService] (fallback
    embedding, confidence, form identification, similarity grouping, visual
    recommendation, pitch parsing, emotion inference and recognition), of
    the service factory, of the configuration and of the user store, with the
    properties their specification states about them and further properties
    that the code shows.

    JavaScript numbers are IEEE-754 binary64 values.  The code is written once,
    over an interface [Number]; the instance [float_Number] is the arithmetic
    the engine really performs (Rocq's primitive floats), the instance
    [R_Number] is the idealised arithmetic over the reals, used where a
    property is about exact values.  The ranking of [searchRules] and the norm
    of the fallback vector are proved on binary64, from the definition of the
    operations of the standard ([SpecFloat]) and the real number that a double
    denotes ([float_value]).

    Integer-valued quantities of the source (array lengths and indices, measure
    numbers, MIDI numbers, character codes) are [nat] or [Z]: the doubles that
    hold them are exact below 2^53.  Strings are sequences of code units below
    256 ([string]); [console.log] calls and the loading-status callback have no
    effect on any result and are left out. *)

From Stdlib Require Import ZArith List String Ascii Bool Arith Lia.
From Stdlib Require Import DecimalString.
From Stdlib Require Import Reals Lra.
From Stdlib Require Import Floats.
From Stdlib Require Import Sorted Permutation.
Import ListNotations.

Set Warnings "-inexact-float".

(** ** Numbers *)

Class Number (num : Type) : Type := {
  num_of_Z : Z -> num;
  nadd : num -> num -> num;
  nsub : num -> num -> num;
  nmul : num -> num -> num;
  ndiv : num -> num -> num;
  nsqrt : num -> num;
  nabs : num -> num;
  (** [nlt a b] is the JavaScript comparison [a < b] ([false] when a side is NaN). *)
  nlt : num -> num -> bool;
  (** [truthy a] is ToBoolean: [false] for [0], [-0] and [NaN]. *)
  truthy : num -> bool;
  (** [Math.min] and [Math.max] of two arguments. *)
  nmin : num -> num -> num;
  nmax : num -> num -> num;
}.

Declare Scope num_scope.
Delimit Scope num_scope with num.
Infix "+" := nadd : num_scope.
Infix "-" := nsub : num_scope.
Infix "*" := nmul : num_scope.
Infix "/" := ndiv : num_scope.
Infix "<?" := nlt : num_scope.

Module FloatNum.

Definition of_Z (z : Z) : float := SF2Prim (binary_normalize prec emax z 0 false).

Definition truthy (x : float) : bool := negb (PrimFloat.is_zero x || PrimFloat.is_nan x).

(** [Math.min]: NaN if an argument is NaN, and [-0] is below [+0]. *)
Definition min (a b : float) : float :=
  if PrimFloat.is_nan a then a
  else if PrimFloat.is_nan b then b
  else if PrimFloat.ltb a b then a
  else if PrimFloat.ltb b a then b
  else if PrimFloat.get_sign a then a else b.

Definition max (a b : float) : float :=
  if PrimFloat.is_nan a then a
  else if PrimFloat.is_nan b then b
  else if PrimFloat.ltb a b then b
  else if PrimFloat.ltb b a then a
  else if PrimFloat.get_sign a then b else a.

End FloatNum.

#[export] Instance float_Number : Number float := {|
  num_of_Z := FloatNum.of_Z;
  nadd := PrimFloat.add;
  nsub := PrimFloat.sub;
  nmul := PrimFloat.mul;
  ndiv := PrimFloat.div;
  nsqrt := PrimFloat.sqrt;
  nabs := PrimFloat.abs;
  nlt := PrimFloat.ltb;
  truthy := FloatNum.truthy;
  nmin := FloatNum.min;
  nmax := FloatNum.max;
|}.

#[export] Instance R_Number : Number R := {|
  num_of_Z := IZR;
  nadd := Rplus;
  nsub := Rminus;
  nmul := Rmult;
  ndiv := Rdiv;
  nsqrt := R_sqrt.sqrt;
  nabs := Rabs;
  nlt := fun a b => if Rlt_dec a b then true else false;
  truthy := fun a => if Req_dec_T a 0%R then false else true;
  nmin := Rmin;
  nmax := Rmax;
|}.

Section Numbers.
Context {num : Type} `{Number num}.

Definition zero : num := num_of_Z 0.
Definition one : num := num_of_Z 1.
Definition of_nat (n : nat) : num := num_of_Z (Z.of_nat n).

(** The number literal [n/d] written in decimal in the source, [dec 95 100]
    for [0.95]: on binary64 the correctly rounded quotient of two small
    integers is the double the literal denotes. *)
Definition dec (n d : Z) : num := (num_of_Z n / num_of_Z d)%num.

(** [a > b] *)
Definition ngt (a b : num) : bool := (b <? a)%num.

(** [a || b] on numbers *)
Definition num_or (a b : num) : num := if truthy a then a else b.

(** [arr.reduce((a, b) => a + b, 0)] *)
Definition sum (l : list num) : num := fold_left nadd l zero.

(** [arr.reduce((sum, val) => sum + val * val, 0)] *)
Definition sumsq (l : list num) : num := fold_left (fun s v => (s + v * v)%num) l zero.

End Numbers.

(** ** Arrays and strings *)

Section Arrays.
Context {A : Type}.

(** [arr.slice(start, end)], negative indices counting from the end. *)
Definition js_slice (start end_ : Z) (l : list A) : list A :=
  let len := Z.of_nat (List.length l) in
  let k := if (start <? 0)%Z then Z.max (len + start) 0 else Z.min start len in
  let final := if (end_ <? 0)%Z then Z.max (len + end_) 0 else Z.min end_ len in
  firstn (Z.to_nat (final - k)) (skipn (Z.to_nat k) l).

(** [arr[i] = f(arr[i])] for an index inside the array. *)
Fixpoint update_at (i : nat) (f : A -> A) (l : list A) : list A :=
  match l, i with
  | [], _ => []
  | x :: l', O => f x :: l'
  | x :: l', S i' => x :: update_at i' f l'
  end.

End Arrays.

Section Sort.
Context {num : Type} `{Number num} {A : Type}.
Variable comparefn : A -> A -> num.

(** [Array.prototype.sort(comparefn)]: a stable sort; [x] is moved before [y]
    only when [comparefn(y, x) > 0], a NaN result counting as 0.  This is the
    sort of every engine when [comparefn] is a consistent order; when a
    comparison gives NaN it need not be one, and the language then leaves the
    order to the engine: the properties about the order of a result take
    numbers for keys. *)
Fixpoint sort_insert (x : A) (sorted : list A) : list A :=
  match sorted with
  | [] => [x]
  | y :: rest => if ngt (comparefn y x) zero then x :: y :: rest
                 else y :: sort_insert x rest
  end.

Definition js_sort (l : list A) : list A :=
  fold_left (fun sorted x => sort_insert x sorted) l [].

End Sort.

Definition Z_to_string (z : Z) : string := NilZero.string_of_int (Z.to_int z).

Definition nat_to_string (n : nat) : string := Z_to_string (Z.of_nat n).

(** [arr.join(sep)] *)
Fixpoint join (sep : string) (l : list string) : string :=
  match l with
  | [] => EmptyString
  | [x] => x
  | x :: rest => (x ++ sep ++ join sep rest)%string
  end.

Definition code_in (lo hi : nat) (c : ascii) : bool :=
  let n := nat_of_ascii c in (lo <=? n)%nat && (n <=? hi)%nat.

(** [String.prototype.toLowerCase] on code units below 256: A-Z, and the
    Latin-1 capitals U+00C0-U+00DE except the multiplication sign U+00D7. *)
Definition lower_char (c : ascii) : ascii :=
  let n := nat_of_ascii c in
  if code_in 65 90 c || (code_in 192 222 c && negb (n =? 215)%nat)
  then ascii_of_nat (n + 32) else c.

Fixpoint toLowerCase (s : string) : string :=
  match s with
  | EmptyString => EmptyString
  | String c rest => String (lower_char c) (toLowerCase rest)
  end.

(** The class [\s] on code units below 256. *)
Definition is_space (c : ascii) : bool :=
  let n := nat_of_ascii c in code_in 9 13 c || (n =? 32)%nat || (n =? 160)%nat.

(** [text.split(/\s+/)]: the pieces between maximal runs of white space, the
    first and the last piece included when empty.  [word] is the piece being
    read, [in_space] tells that the previous code unit was white space. *)
Fixpoint split_spaces_from (s : string) (word : string) (in_space : bool) : list string :=
  match s with
  | EmptyString => [word]
  | String c rest =>
      if is_space c then
        if in_space then split_spaces_from rest word true
        else word :: split_spaces_from rest EmptyString true
      else split_spaces_from rest (word ++ String c EmptyString)%string false
  end.

Definition split_spaces (s : string) : list string := split_spaces_from s EmptyString false.

(** ** Cosine similarity

    [MusicKnowledgeBase.cosineSimilarity] and
    [TransformersAIService.cosineSimilarity] are the same function. *)

Section Cosine.
Context {num : Type} `{Number num}.

(** The loop over index [i], both arrays having the same length. *)
Fixpoint cosine_loop (vec1 vec2 : list num) (acc : num * num * num) : num * num * num :=
  match vec1, vec2 with
  | a :: vec1', b :: vec2' =>
      let '(dotProduct, norm1, norm2) := acc in
      cosine_loop vec1' vec2'
        (dotProduct + a * b, norm1 + a * a, norm2 + b * b)%num
  | _, _ => acc
  end.

Definition cosineSimilarity (vec1 vec2 : list num) : num :=
  if negb (List.length vec1 =? List.length vec2)%nat then zero
  else
    let '(dotProduct, norm1, norm2) := cosine_loop vec1 vec2 (zero, zero, zero) in
    let magnitude := (nsqrt norm1 * nsqrt norm2)%num in
    if ngt magnitude zero then (dotProduct / magnitude)%num else zero.

(** The dot product the loop accumulates. *)
Definition dot (vec1 vec2 : list num) : num :=
  fold_left (fun s ab => (s + fst ab * snd ab)%num) (combine vec1 vec2) zero.

End Cosine.

(** A binary64 vector has zero norm when the sum of squares that the code
    accumulates is [0] (or [-0]). *)
Definition zero_norm (v : list float) : bool := PrimFloat.is_zero (sumsq v).

(** ** Fallback embedding

    [TransformersAIService.generateFallbackEmbedding] and
    [MusicKnowledgeBase.generateSimpleEmbedding] have the same body. *)

Section Embedding.
Context {num : Type} `{Number num}.

(** The inner loop [for (let i = 0; i < word.length; i++)], from index [i] on. *)
Fixpoint embed_word (word : string) (idx i : nat) (embedding : list num) : list num :=
  match word with
  | EmptyString => embedding
  | String ch rest =>
      let charCode := nat_of_ascii ch in
      let position := ((charCode * (idx + 1)) mod 384)%nat in
      embed_word rest idx (i + 1)
        (update_at position (fun x => (x + one / of_nat (i + 1))%num) embedding)
  end.

(** [words.forEach((word, idx) => ...)], from index [idx] on. *)
Fixpoint embed_words (words : list string) (idx : nat) (embedding : list num) : list num :=
  match words with
  | [] => embedding
  | word :: rest => embed_words rest (idx + 1) (embed_word word idx 0 embedding)
  end.

(** The vector before normalisation. *)
Definition raw_embedding (text : string) : list num :=
  embed_words (split_spaces (toLowerCase text)) 0 (repeat zero 384).

Definition generateFallbackEmbedding (text : string) : list num :=
  let embedding := raw_embedding text in
  let magnitude := nsqrt (sumsq embedding) in
  if ngt magnitude zero then map (fun x => (x / magnitude)%num) embedding
  else embedding.

Definition generateSimpleEmbedding (text : string) : list num :=
  let embedding := raw_embedding text in
  let magnitude := nsqrt (sumsq embedding) in
  if ngt magnitude zero then map (fun x => (x / magnitude)%num) embedding
  else embedding.

End Embedding.

(** ** Data model *)

Inductive Category : Type :=
| cat_cadence | cat_phrase | cat_form | cat_tonality | cat_texture | cat_rhythm | cat_melody.

Definition Category_eqb (a b : Category) : bool :=
  match a, b with
  | cat_cadence, cat_cadence | cat_phrase, cat_phrase | cat_form, cat_form
  | cat_tonality, cat_tonality | cat_texture, cat_texture | cat_rhythm, cat_rhythm
  | cat_melody, cat_melody => true
  | _, _ => false
  end.

Record RuleFeatures : Type := {
  chordProgression : option (list Z);
  melodyContour : option string;
  rhythmPattern : option string;
}.

(** [interface TheoryRule]; [embedding] and [similarity] are optional fields. *)
Record TheoryRule (num : Type) : Type := {
  rule_id : string;
  rule_name : string;
  rule_description : string;
  rule_category : Category;
  rule_features : RuleFeatures;
  applicablePeriods : list string;
  rule_confidence : num;
  embedding : option (list num);
  similarity : option num;
}.

Arguments Build_TheoryRule {num}.
Arguments rule_id {num}.
Arguments rule_name {num}.
Arguments rule_description {num}.
Arguments rule_category {num}.
Arguments rule_features {num}.
Arguments applicablePeriods {num}.
Arguments rule_confidence {num}.
Arguments embedding {num}.
Arguments similarity {num}.

(** A rule as [createTheoryRules] writes it, without embedding or similarity. *)
Definition mkRule {num : Type} (id name description : string) (category : Category)
    (features : RuleFeatures) (periods : list string) (confidence : num) : TheoryRule num :=
  Build_TheoryRule id name description category features periods confidence None None.

(** [rule.embedding = e] *)
Definition set_embedding {num : Type} (r : TheoryRule num) (e : list num) : TheoryRule num :=
  Build_TheoryRule (rule_id r) (rule_name r) (rule_description r) (rule_category r)
    (rule_features r) (applicablePeriods r) (rule_confidence r) (Some e) (similarity r).

(** The object literal [{ ...rule, similarity: s }]: a new object with the
    fields of the rule (the copy is shallow, the arrays are those of the rule;
    [searchRules] writes to none of them) and the similarity. *)
Definition with_similarity {num : Type} (r : TheoryRule num) (s : num) : TheoryRule num :=
  Build_TheoryRule (rule_id r) (rule_name r) (rule_description r) (rule_category r)
    (rule_features r) (applicablePeriods r) (rule_confidence r) (embedding r) (Some s).

(** [rule.embedding || []] *)
Definition embedding_or_empty {num : Type} (r : TheoryRule num) : list num :=
  match embedding r with Some e => e | None => [] end.

(** ** The store of rule objects

    Rule objects are mutable and shared by reference: the catalog array holds
    references into a store, and so does every array of rules handed out. *)

Abbreviation loc := nat (only parsing).

Abbreviation Heap num := (list (TheoryRule num)) (only parsing).

Definition deref {num : Type} (h : Heap num) (l : loc) : option (TheoryRule num) :=
  nth_error h l.

(** A new object gets the next free address. *)
Definition alloc {num : Type} (o : TheoryRule num) (h : Heap num) : loc * Heap num :=
  (List.length h, h ++ [o]).

Definition store {num : Type} (l : loc) (o : TheoryRule num) (h : Heap num) : Heap num :=
  update_at l (fun _ => o) h.

Fixpoint alloc_all {num : Type} (objs : list (TheoryRule num)) (h : Heap num)
    : list loc * Heap num :=
  match objs with
  | [] => ([], h)
  | o :: rest =>
      let (l, h1) := alloc o h in
      let (ls, h2) := alloc_all rest h1 in
      (l :: ls, h2)
  end.

(** Reading through a reference that the store does not hold cannot happen in
    the source; the embedding makes it an error, [None]. *)
Definition bind {A B : Type} (c : option A) (k : A -> option B) : option B :=
  match c with Some a => k a | None => None end.

Notation "x <- c ;; k" := (bind c (fun x => k))
  (at level 61, c at next level, right associativity).

Fixpoint mapM {A B : Type} (f : A -> option B) (l : list A) : option (list B) :=
  match l with
  | [] => Some []
  | a :: rest => b <- f a ;; bs <- mapM f rest ;; Some (b :: bs)
  end.

(** ** MusicKnowledgeBase *)

Record KnowledgeBase : Type := {
  rules : list loc;
  isInitialized : bool;
}.

(** [new MusicKnowledgeBase()] *)
Definition new_KnowledgeBase : KnowledgeBase := {| rules := []; isInitialized := false |}.

Section KnowledgeBaseCode.
Context {num : Type} `{Number num}.
Local Open Scope string_scope.

Definition createTheoryRules : list (TheoryRule num) := [
  mkRule "cadence_authentic" "Authentic Cadence"
    "Dominant chord resolving to tonic chord (V-I), melody descends to tonic note, creates strong sense of closure"
    cat_cadence (Build_RuleFeatures (Some [5; 1]%Z) (Some "descending") None)
    ["baroque"; "classical"; "romantic"; "modern"] (dec 95 100);
  mkRule "cadence_half" "Half Cadence"
    "Any chord resolving to dominant chord, creates sense of incompleteness, often at phrase midpoint"
    cat_cadence (Build_RuleFeatures (Some [1; 5]%Z) None None)
    ["baroque"; "classical"; "romantic"] (dec 9 10);
  mkRule "cadence_plagal" "Plagal Cadence"
    "Subdominant chord resolving to tonic (IV-I), also called Amen cadence, softer closure"
    cat_cadence (Build_RuleFeatures (Some [4; 1]%Z) None None)
    ["baroque"; "classical"; "romantic"] (dec 85 100);
  mkRule "cadence_deceptive" "Deceptive Cadence"
    "Dominant chord resolving to submediant (V-vi), unexpected resolution, extends phrase"
    cat_cadence (Build_RuleFeatures (Some [5; 6]%Z) None None)
    ["baroque"; "classical"; "romantic"] (dec 85 100);
  mkRule "phrase_4bar" "Four-bar Phrase"
    "Standard phrase length of four measures, common in classical music, creates balanced structure"
    cat_phrase (Build_RuleFeatures None None (Some "4-bar"))
    ["classical"; "romantic"] (dec 9 10);
  mkRule "phrase_8bar" "Eight-bar Period"
    "Two four-bar phrases forming antecedent-consequent relationship, standard period structure"
    cat_phrase (Build_RuleFeatures None None (Some "8-bar"))
    ["classical"; "romantic"] (dec 9 10);
  mkRule "phrase_sentence" "Sentence Structure"
    "Basic idea (2 bars) repeated with variation, then continuation and cadence (4 bars)"
    cat_phrase (Build_RuleFeatures None None (Some "sentence"))
    ["classical"] (dec 85 100);
  mkRule "phrase_period" "Period Structure"
    "Antecedent phrase ending with half cadence, consequent phrase ending with authentic cadence"
    cat_phrase (Build_RuleFeatures None None (Some "period"))
    ["classical"; "romantic"] (dec 9 10);
  mkRule "form_binary" "Binary Form"
    "Two contrasting sections (AB), each typically repeated, common in dance movements"
    cat_form (Build_RuleFeatures None None None)
    ["baroque"; "classical"] (dec 9 10);
  mkRule "form_ternary" "Ternary Form"
    "Three-part form (ABA), first section returns after contrasting middle section"
    cat_form (Build_RuleFeatures None None None)
    ["baroque"; "classical"; "romantic"] (dec 9 10);
  mkRule "form_sonata" "Sonata Form"
    "Exposition with two themes, development section, recapitulation returning to tonic"
    cat_form (Build_RuleFeatures None None None)
    ["classical"; "romantic"] (dec 95 100);
  mkRule "form_rondo" "Rondo Form"
    "Main theme alternates with contrasting episodes (ABACA or ABACABA)"
    cat_form (Build_RuleFeatures None None None)
    ["classical"; "romantic"] (dec 9 10);
  mkRule "form_variation" "Theme and Variations"
    "Theme presented then varied through melodic, harmonic, rhythmic, or textural changes"
    cat_form (Build_RuleFeatures None None None)
    ["baroque"; "classical"; "romantic"] (dec 9 10);
  mkRule "tonality_major" "Major Tonality"
    "Bright, happy character, major third above tonic, stable and resolved feeling"
    cat_tonality (Build_RuleFeatures None None None)
    ["baroque"; "classical"; "romantic"; "modern"] (dec 95 100);
  mkRule "tonality_minor" "Minor Tonality"
    "Dark, sad character, minor third above tonic, often more dramatic or melancholic"
    cat_tonality (Build_RuleFeatures None None None)
    ["baroque"; "classical"; "romantic"; "modern"] (dec 95 100);
  mkRule "tonality_modulation" "Modulation"
    "Change of key center, often to dominant or relative major/minor, creates contrast"
    cat_tonality (Build_RuleFeatures None None None)
    ["baroque"; "classical"; "romantic"] (dec 85 100);
  mkRule "texture_homophonic" "Homophonic Texture"
    "Single melody with chordal accompaniment, most common in classical period"
    cat_texture (Build_RuleFeatures None None None)
    ["classical"; "romantic"] (dec 9 10);
  mkRule "texture_polyphonic" "Polyphonic Texture"
    "Multiple independent melodic lines, common in baroque fugues and inventions"
    cat_texture (Build_RuleFeatures None None None)
    ["baroque"; "classical"] (dec 9 10);
  mkRule "texture_monophonic" "Monophonic Texture"
    "Single unaccompanied melodic line, used for emphasis or contrast"
    cat_texture (Build_RuleFeatures None None None)
    ["baroque"; "classical"; "romantic"] (dec 85 100);
  mkRule "rhythm_syncopation" "Syncopation"
    "Emphasis on weak beats or off-beats, creates rhythmic tension and energy"
    cat_rhythm (Build_RuleFeatures None None (Some "syncopated"))
    ["baroque"; "classical"; "romantic"; "modern"] (dec 85 100);
  mkRule "rhythm_hemiola" "Hemiola"
    "Temporary shift from triple to duple meter feel, common before cadences"
    cat_rhythm (Build_RuleFeatures None None (Some "hemiola"))
    ["baroque"; "classical"] (dec 8 10);
  mkRule "rhythm_ostinato" "Ostinato"
    "Repeated rhythmic or melodic pattern, provides foundation and continuity"
    cat_rhythm (Build_RuleFeatures None None (Some "ostinato"))
    ["baroque"; "classical"; "romantic"; "modern"] (dec 85 100);
  mkRule "melody_sequence" "Melodic Sequence"
    "Repetition of melodic pattern at different pitch levels, creates momentum"
    cat_melody (Build_RuleFeatures None (Some "sequential") None)
    ["baroque"; "classical"; "romantic"] (dec 9 10);
  mkRule "melody_stepwise" "Stepwise Motion"
    "Melody moves by adjacent scale degrees, smooth and singable character"
    cat_melody (Build_RuleFeatures None (Some "stepwise") None)
    ["baroque"; "classical"; "romantic"] (dec 85 100);
  mkRule "melody_leap" "Melodic Leap"
    "Large interval jump in melody, creates emphasis and dramatic effect"
    cat_melody (Build_RuleFeatures None (Some "leaping") None)
    ["baroque"; "classical"; "romantic"] (dec 85 100);
  mkRule "melody_arch" "Arch Contour"
    "Melody rises to climax then descends, common phrase shape"
    cat_melody (Build_RuleFeatures None (Some "arch") None)
    ["baroque"; "classical"; "romantic"] (dec 85 100);
  mkRule "emotion_energetic" "Energetic Character"
    "Fast tempo, strong dynamics, rhythmic drive, ascending patterns, major mode"
    cat_melody (Build_RuleFeatures None None None)
    ["baroque"; "classical"; "romantic"; "modern"] (dec 85 100);
  mkRule "emotion_calm" "Calm Character"
    "Slow tempo, soft dynamics, smooth legato, consonant harmony, stable rhythm"
    cat_melody (Build_RuleFeatures None None None)
    ["baroque"; "classical"; "romantic"; "modern"] (dec 85 100);
  mkRule "emotion_dramatic" "Dramatic Character"
    "Strong contrasts, dissonance, dynamic extremes, irregular rhythm, tension"
    cat_melody (Build_RuleFeatures None None None)
    ["baroque"; "classical"; "romantic"; "modern"] (dec 85 100);
  mkRule "emotion_playful" "Playful Character"
    "Light staccato, quick tempo, major mode, simple harmony, dance-like rhythm"
    cat_melody (Build_RuleFeatures None None None)
    ["classical"; "romantic"] (dec 85 100)
].

(** The loop [for (const rule of this.rules) rule.embedding = ...] *)
Fixpoint embed_rules (ls : list loc) (h : Heap num) : option (Heap num) :=
  match ls with
  | [] => Some h
  | l :: rest =>
      rule <- deref h l ;;
      embed_rules rest (store l (set_embedding rule (generateSimpleEmbedding (rule_description rule))) h)
  end.

Definition initialize (kb : KnowledgeBase) (h : Heap num) : option (KnowledgeBase * Heap num) :=
  if isInitialized kb then Some (kb, h)
  else
    let (ls, h1) := alloc_all createTheoryRules h in
    h2 <- embed_rules ls h1 ;;
    Some ({| rules := ls; isInitialized := true |}, h2).

(** The last [map] of [searchRules]: one new object per item, a copy of the
    rule the item refers to, with the similarity of the item. *)
Fixpoint copy_with_similarity (items : list (loc * num)) (h : Heap num)
    : option (list loc * Heap num) :=
  match items with
  | [] => Some ([], h)
  | item :: rest =>
      rule <- deref h (fst item) ;;
      let (l, h1) := alloc (with_similarity rule (snd item)) h in
      r <- copy_with_similarity rest h1 ;;
      Some (l :: fst r, snd r)
  end.

(** The items [{ rule, similarity }] of [searchRules] are pairs of a reference
    and a number; [topK] is [None] when the caller leaves it out. *)
Definition searchRules (kb : KnowledgeBase) (queryEmbedding : list num) (topK : option Z)
    (h : Heap num) : option (list loc * Heap num) :=
  let topK := match topK with Some k => k | None => 5%Z end in
  scored <- mapM (fun rule =>
                    r <- deref h rule ;;
                    Some (rule, cosineSimilarity queryEmbedding (embedding_or_empty r)))
                 (rules kb) ;;
  let sorted := js_sort (fun a b => (snd b - snd a)%num) scored in
  copy_with_similarity (js_slice 0 topK sorted) h.

Definition searchByCategory (kb : KnowledgeBase) (category : Category) (h : Heap num)
    : option (list loc) :=
  objs <- mapM (fun l => r <- deref h l ;; Some (l, r)) (rules kb) ;;
  Some (map fst (filter (fun lr => Category_eqb (rule_category (snd lr)) category) objs)).

Definition getAllRules (kb : KnowledgeBase) : list loc := rules kb.

Fixpoint find_rule (id : string) (ls : list loc) (h : Heap num) : option (option loc) :=
  match ls with
  | [] => Some None
  | l :: rest =>
      r <- deref h l ;;
      if String.eqb (rule_id r) id then Some (Some l) else find_rule id rest h
  end.

Definition getRuleById (kb : KnowledgeBase) (id : string) (h : Heap num) : option (option loc) :=
  find_rule id (rules kb) h.

Definition updateRuleEmbedding (kb : KnowledgeBase) (ruleId : string) (e : list num)
    (h : Heap num) : option (Heap num) :=
  found <- find_rule ruleId (rules kb) h ;;
  match found with
  | Some l => rule <- deref h l ;; Some (store l (set_embedding rule e) h)
  | None => Some h
  end.

Definition getRulesCount (kb : KnowledgeBase) : nat := List.length (rules kb).

End KnowledgeBaseCode.

(** ** Scores, structures and relationships *)

(** Modelled from the spec: the declarations of [Note], [Measure],
    [MusicXMLData], [MusicStructure], [EmotionFeatures], [UserPreferences],
    [VisualScheme] (module [@/types]) and of [StructureRelationship] (module
    [MusicAnalysisEngine]) are not among the sources; the records below have
    the fields that the service reads and writes, typed as the data model of
    the specification gives them. *)
Record Note (num : Type) : Type := {
  pitch : string;
  duration : num;
}.

Arguments pitch {num}.
Arguments duration {num}.

Record Measure (num : Type) : Type := {
  measure_notes : list (Note num);
}.

Arguments measure_notes {num}.

Record MusicXMLData (num : Type) : Type := {
  measures : list (Measure num);
}.

Arguments measures {num}.

(** [notes] is optional: the service reads [structure.notes || []]. *)
Record MusicStructure (num : Type) : Type := {
  structure_id : string;
  level : string;
  startMeasure : Z;
  endMeasure : Z;
  structure_notes : option (list (Note num));
  structure_confidence : num;
}.

Arguments Build_MusicStructure {num}.
Arguments structure_id {num}.
Arguments level {num}.
Arguments startMeasure {num}.
Arguments endMeasure {num}.
Arguments structure_notes {num}.
Arguments structure_confidence {num}.

Inductive RelationshipType : Type :=
| rel_repeat | rel_similar | rel_contrast | rel_transition.

Definition RelationshipType_eqb (a b : RelationshipType) : bool :=
  match a, b with
  | rel_repeat, rel_repeat | rel_similar, rel_similar
  | rel_contrast, rel_contrast | rel_transition, rel_transition => true
  | _, _ => false
  end.

Record StructureRelationship (num : Type) : Type := {
  id1 : string;
  id2 : string;
  rel_type : RelationshipType;
  rel_similarity : num;
  rel_description : string;
}.

Arguments Build_StructureRelationship {num}.
Arguments id1 {num}.
Arguments id2 {num}.
Arguments rel_type {num}.
Arguments rel_similarity {num}.
Arguments rel_description {num}.

(** The result of [MusicAnalysisEngine.analyzeMusicStructure], kept in
    [lastAnalysis]. *)
Record Analysis (num : Type) : Type := {
  analysis_structures : list (MusicStructure num);
  relationships : list (StructureRelationship num);
}.

Arguments Build_Analysis {num}.
Arguments analysis_structures {num}.
Arguments relationships {num}.

Inductive Speed : Type := fast | moderate_speed | slow.
Inductive Intensity : Type := strong | moderate_intensity | weak.
Inductive Tension : Type := tense | neutral | relaxed.

Record EmotionFeatures : Type := {
  speed : Speed;
  intensity : Intensity;
  tension : Tension;
}.

(** A [Map<string, number>]: the entries in insertion order, keys distinct. *)
Definition JsMap (num : Type) : Type := list (string * num).

(** [map.get(key)] *)
Fixpoint map_get {num : Type} (m : JsMap num) (key : string) : option num :=
  match m with
  | [] => None
  | (k, v) :: rest => if String.eqb k key then Some v else map_get rest key
  end.

(** The two maps may be missing: [getPreferredItems] tests [!prefs]. *)
Record UserPreferences (num : Type) : Type := {
  shapePreferences : option (JsMap num);
  animationPreferences : option (JsMap num);
}.

Arguments Build_UserPreferences {num}.
Arguments shapePreferences {num}.
Arguments animationPreferences {num}.

Record Animation : Type := {
  animation_type : string;
  animation_duration : Z;
  easing : string;
}.

Record VisualElement : Type := {
  element_id : string;
  element_type : string;
  color : string;
  size : Z;
  animation : Animation;
}.

Record VisualScheme (num : Type) : Type := {
  scheme_id : string;
  elements : list VisualElement;
  layout : string;
  scheme_confidence : num;
}.

Arguments Build_VisualScheme {num}.
Arguments scheme_id {num}.
Arguments elements {num}.
Arguments layout {num}.
Arguments scheme_confidence {num}.

(** A group of [analyzeSimilarity]. *)
Record Group (num : Type) : Type := {
  groupId : string;
  structureIds : list string;
  similarityScore : num;
  commonFeatures : list string;
}.

Arguments Build_Group {num}.
Arguments groupId {num}.
Arguments structureIds {num}.
Arguments similarityScore {num}.
Arguments commonFeatures {num}.

(** ** TransformersAIService *)

(** The loaded pipeline, called on a text: the pooled output, or [None] when
    the call throws. *)
Definition EmbeddingModel (num : Type) : Type := string -> option (list num).

Record Service (num : Type) : Type := {
  embeddingModel : option (EmbeddingModel num);
  isModelLoaded : bool;
  knowledgeBase : KnowledgeBase;
  lastAnalysis : option (Analysis num);
}.

Arguments Build_Service {num}.
Arguments embeddingModel {num}.
Arguments isModelLoaded {num}.
Arguments knowledgeBase {num}.
Arguments lastAnalysis {num}.

(** [new TransformersAIService()] *)
Definition new_Service {num : Type} : Service num :=
  Build_Service None false new_KnowledgeBase None.

(** *** Pitch parsing *)

Local Open Scope string_scope.

Definition is_note_letter (c : ascii) : bool := code_in 65 71 c.

Definition is_digit (c : ascii) : bool := code_in 48 57 c.

Definition is_accidental (c : ascii) : bool := Ascii.eqb c "#" || Ascii.eqb c "b".

Fixpoint all_digits (s : string) : bool :=
  match s with
  | EmptyString => true
  | String c rest => is_digit c && all_digits rest
  end.

(** [pitch.match(/^([A-G])(#|b)?(\d+)?$/)]: the three groups, the optional
    ones [None] when they take part in no match. *)
Definition match_pitch (pitch : string) : option (ascii * option ascii * option string) :=
  match pitch with
  | EmptyString => None
  | String note rest =>
      if is_note_letter note then
        let '(accidental, rest') :=
          match rest with
          | String a r => if is_accidental a then (Some a, r) else (None, rest)
          | EmptyString => (None, rest)
          end in
        match rest' with
        | EmptyString => Some (note, accidental, None)
        | String _ _ => if all_digits rest' then Some (note, accidental, Some rest') else None
        end
      else None
  end.

Definition noteMap (note : ascii) : Z :=
  if Ascii.eqb note "C" then 0
  else if Ascii.eqb note "D" then 2
  else if Ascii.eqb note "E" then 4
  else if Ascii.eqb note "F" then 5
  else if Ascii.eqb note "G" then 7
  else if Ascii.eqb note "A" then 9
  else 11.

(** [parseInt] on a string of decimal digits (exact: the double that
    JavaScript returns is this integer while it is below 2^53). *)
Fixpoint parse_digits (s : string) (acc : Z) : Z :=
  match s with
  | EmptyString => acc
  | String c rest => parse_digits rest (10 * acc + (Z.of_nat (nat_of_ascii c) - 48))
  end.

Definition parseInt (s : string) : Z := parse_digits s 0.

Definition pitchToNumber (pitch : string) : Z :=
  match match_pitch pitch with
  | None => 60
  | Some (note, accidental, octave) =>
      let num := (noteMap note + parseInt (match octave with Some o => o | None => "4" end) * 12)%Z in
      let num := match accidental with
                 | Some a => if Ascii.eqb a "#" then (num + 1)%Z else num
                 | None => num
                 end in
      let num := match accidental with
                 | Some a => if Ascii.eqb a "b" then (num - 1)%Z else num
                 | None => num
                 end in
      num
  end.

(** The loop of [detectContour]: the numbers of rising and of falling steps. *)
Fixpoint count_steps (prev : Z) (rest : list Z) (ascending descending : nat) : nat * nat :=
  match rest with
  | [] => (ascending, descending)
  | p :: rest' =>
      if (prev <? p)%Z then count_steps p rest' (ascending + 1)%nat descending
      else if (p <? prev)%Z then count_steps p rest' ascending (descending + 1)%nat
      else count_steps p rest' ascending descending
  end.

(** [ascending > descending * 1.5] on counts is [2 * ascending > 3 * descending]. *)
Definition detectContour (pitches : list string) : string :=
  if (List.length pitches <? 2)%nat then "stable"
  else
    match map pitchToNumber pitches with
    | [] => "wave"
    | first :: rest =>
        let (ascending, descending) := count_steps first rest 0 0 in
        if (3 * descending <? 2 * ascending)%nat then "ascending"
        else if (3 * ascending <? 2 * descending)%nat then "descending"
        else "wave"
    end.

(** The inner loop of [detectRepetition] for one [patternLen]: the windows
    start at [0], [patternLen], [2 * patternLen], ... up to
    [pitches.length - patternLen]. *)
Definition count_pattern (pitches : list string) (patternLen : nat) : nat :=
  let pattern := join "," (js_slice 0 (Z.of_nat patternLen) pitches) in
  let starts := map (fun m => (m * patternLen)%nat)
                    (seq 0 ((List.length pitches - patternLen) / patternLen + 1)) in
  List.length
    (filter (fun i => String.eqb
                        (join "," (js_slice (Z.of_nat i) (Z.of_nat (i + patternLen)) pitches))
                        pattern)
            starts).

Definition detectRepetition (pitches : list string) : bool :=
  if (List.length pitches <? 4)%nat then false
  else existsb (fun patternLen => (2 <=? count_pattern pitches patternLen)%nat) [2; 3; 4]%nat.

(** *** Models, embeddings and confidence *)

Section ServiceCode.
Context {num : Type} `{Number num}.

(** [initializeModels]: [load] is what the dynamic import and [pipeline(...)]
    give, the model, or [None] when either throws (the inner [catch] then
    leaves [embeddingModel] as it is).  The outer [catch] marks the service as
    loaded all the same. *)
Definition initializeModels (load : option (EmbeddingModel num)) (s : Service num)
    (h : Heap num) : Service num * Heap num :=
  if isModelLoaded s then (s, h)
  else
    match initialize (knowledgeBase s) h with
    | Some (kb, h1) =>
        (Build_Service
           (match load with Some model => Some model | None => embeddingModel s end)
           true kb (lastAnalysis s), h1)
    | None => (Build_Service (embeddingModel s) true (knowledgeBase s) (lastAnalysis s), h)
    end.

Definition generateEmbedding (s : Service num) (text : string) : list num :=
  match embeddingModel s with
  | None => generateFallbackEmbedding text
  | Some model =>
      match model text with
      | Some output => output
      | None => generateFallbackEmbedding text
      end
  end.

Definition generateStructureDescription (structure : MusicStructure num)
    (musicData : MusicXMLData num) : string :=
  let measures := js_slice (startMeasure structure - 1) (endMeasure structure)
                           (measures musicData) in
  let notes := flat_map measure_notes measures in
  let pitches := map pitch notes in
  let durations := map duration notes in
  let avgDuration := num_or (sum durations / of_nat (List.length durations))%num one in
  let tempo := if (avgDuration <? dec 5 10)%num then "fast"
               else if ngt avgDuration (dec 15 10) then "slow" else "moderate" in
  let hasRepetition := detectRepetition pitches in
  let contour := detectContour pitches in
  "Musical phrase from measure " ++ Z_to_string (startMeasure structure) ++ " to "
    ++ Z_to_string (endMeasure structure) ++ ", "
    ++ tempo ++ " tempo, " ++ contour ++ " melodic contour"
    ++ (if hasRepetition then ", with repetitive patterns" else "").

Definition retrieveRelevantRules (s : Service num) (query : string) (h : Heap num)
    : option (list loc * Heap num) :=
  let queryEmbedding := generateEmbedding s query in
  searchRules (knowledgeBase s) queryEmbedding (Some 5%Z) h.

(** [rule.similarity || 0.5] *)
Definition similarity_or_half (rule : TheoryRule num) : num :=
  match similarity rule with
  | Some sim => num_or sim (dec 5 10)
  | None => dec 5 10
  end.

Definition calculateConfidence (rules : list (TheoryRule num)) : num :=
  if (List.length rules =? 0)%nat then dec 5 10
  else
    let totalWeight := fold_left (fun sum rule => (sum + similarity_or_half rule)%num)
                                 rules zero in
    let avgSimilarity := (totalWeight / of_nat (List.length rules))%num in
    (dec 5 10 + avgSimilarity * dec 5 10)%num.

(** [structure.confidence = confidence] *)
Definition set_confidence (structure : MusicStructure num) (confidence : num)
    : MusicStructure num :=
  Build_MusicStructure (structure_id structure) (level structure) (startMeasure structure)
    (endMeasure structure) (structure_notes structure) confidence.

Fixpoint enhanceStructuresWithKnowledge (s : Service num)
    (structures : list (MusicStructure num)) (musicData : MusicXMLData num) (h : Heap num)
    : option (list (MusicStructure num) * Heap num) :=
  match structures with
  | [] => Some ([], h)
  | structure :: rest =>
      let queryDesc := generateStructureDescription structure musicData in
      found <- retrieveRelevantRules s queryDesc h ;;
      relevantRules <- mapM (deref (snd found)) (fst found) ;;
      let confidence := calculateConfidence relevantRules in
      r <- enhanceStructuresWithKnowledge s rest musicData (snd found) ;;
      Some (set_confidence structure confidence :: fst r, snd r)
  end.

(** [analyzeMusicStructure]: [analysis] is the result of the call to
    [MusicAnalysisEngine.analyzeMusicStructure(musicData)].  The structures
    are updated in place, so [lastAnalysis] holds them with their new
    confidence once the method returns. *)
Definition analyzeMusicStructure (load : option (EmbeddingModel num))
    (analysis : Analysis num) (musicData : MusicXMLData num) (s : Service num) (h : Heap num)
    : option (list (MusicStructure num) * Service num * Heap num) :=
  let (s1, h1) := initializeModels load s h in
  let s2 := Build_Service (embeddingModel s1) (isModelLoaded s1) (knowledgeBase s1)
                          (Some analysis) in
  r <- enhanceStructuresWithKnowledge s2 (analysis_structures analysis) musicData h1 ;;
  Some (fst r,
        Build_Service (embeddingModel s1) (isModelLoaded s1) (knowledgeBase s1)
                      (Some (Build_Analysis (fst r) (relationships analysis))),
        snd r).

(** *** Visual recommendation *)

Definition getColorsForEmotion (emotion : EmotionFeatures) : list string :=
  match speed emotion, intensity emotion, tension emotion with
  | fast, strong, _ => ["#FF6B6B"; "#FF8E53"; "#FFA600"; "#FF4757"; "#FF6348"]
  | slow, weak, _ => ["#4ECDC4"; "#45B7D1"; "#96CEB4"; "#74B9FF"; "#81ECEC"]
  | _, _, tense => ["#A04668"; "#D84797"; "#8E44AD"; "#9B59B6"; "#6C5CE7"]
  | _, _, _ => ["#3498DB"; "#2ECC71"; "#F39C12"; "#1ABC9C"; "#E74C3C"]
  end.

(** [prefs.get(a) || 0] *)
Definition weight_of (prefs : JsMap num) (item : string) : num :=
  match map_get prefs item with
  | Some w => num_or w zero
  | None => zero
  end.

Definition getPreferredItems (prefs : option (JsMap num)) (items : list string) : list string :=
  match prefs with
  | None => items
  | Some prefs =>
      if (List.length prefs =? 0)%nat then items
      else js_sort (fun a b => (weight_of prefs b - weight_of prefs a)%num) items
  end.

Definition shapes : list string :=
  ["circle"; "square"; "triangle"; "star"; "wave"; "diamond"; "hexagon"].

Definition animations : list string := ["flash"; "rotate"; "bounce"; "scale"; "slide"].

Definition layouts : list string := ["horizontal"; "circular"; "vertical"; "grid"; "horizontal"].

(** The relationship type that [recommendVisuals] looks up; [None] is
    ['default'].  An empty [structureId] is falsy. *)
Definition structureType_of (s : Service num) (structureId : option string)
    : option RelationshipType :=
  match lastAnalysis s, structureId with
  | Some analysis, Some sid =>
      if String.eqb sid "" then None
      else
        match find (fun r => String.eqb (id1 r) sid || String.eqb (id2 r) sid)
                   (relationships analysis) with
        | Some rel => Some (rel_type rel)
        | None => None
        end
  | _, _ => None
  end.

Definition shapeIndex_of (structureType : option RelationshipType) (i j n : nat) : nat :=
  match structureType with
  | Some rel_repeat => i mod n
  | Some rel_contrast => (i * 2 + j) mod n
  | Some rel_similar => (i + j) mod n
  | _ => (i * 3 + j) mod n
  end.

Definition colorIndex_of (structureType : option RelationshipType) (i j n : nat) : nat :=
  match structureType with
  | Some rel_repeat => j mod n
  | Some rel_contrast => (i + j * 2) mod n
  | Some rel_similar => (i + j) mod n
  | _ => (j * 2) mod n
  end.

Definition make_element (structureType : option RelationshipType)
    (preferredShapes preferredAnimations colors : list string) (i j : nat) : VisualElement :=
  let shapeIndex := shapeIndex_of structureType i j (List.length preferredShapes) in
  let colorIndex := colorIndex_of structureType i j (List.length colors) in
  {| element_id := "element_" ++ nat_to_string (j + 1);
     element_type := nth shapeIndex preferredShapes "";
     color := nth colorIndex colors "";
     size := 60 + Z.of_nat j * 10;
     animation := {| animation_type := nth (j mod List.length preferredAnimations)
                                           preferredAnimations "";
                     animation_duration := 1000 + Z.of_nat j * 200;
                     easing := "ease-in-out" |} |}.

Definition make_scheme (structureType : option RelationshipType)
    (preferredShapes preferredAnimations colors : list string) (elementCount i : nat)
    : VisualScheme num :=
  Build_VisualScheme
    ("scheme_" ++ nat_to_string (i + 1))
    (map (make_element structureType preferredShapes preferredAnimations colors i)
         (seq 0 elementCount))
    (nth i layouts "")
    (dec 95 100 - of_nat i * dec 5 100)%num.

Definition recommendVisuals (load : option (EmbeddingModel num)) (emotion : EmotionFeatures)
    (structureLevel : string) (preferences : option (UserPreferences num))
    (structureId : option string) (s : Service num) (h : Heap num)
    : list (VisualScheme num) * Service num * Heap num :=
  let (s1, h1) := initializeModels load s h in
  let elementCount :=
    if String.eqb structureLevel "motive" then 1%nat
    else if String.eqb structureLevel "phrase" || String.eqb structureLevel "sub_phrase"
         then 3%nat else 3%nat in
  let colors := getColorsForEmotion emotion in
  let structureType := structureType_of s1 structureId in
  let preferredShapes :=
    match preferences with
    | Some p => getPreferredItems (shapePreferences p) shapes
    | None => shapes
    end in
  let preferredAnimations :=
    match preferences with
    | Some p => getPreferredItems (animationPreferences p) animations
    | None => animations
    end in
  (map (make_scheme structureType preferredShapes preferredAnimations colors elementCount)
       (seq 0 5), s1, h1).

(** *** Form identification *)

(** [r.type === t] counted over the relationships *)
Definition count_type (t : RelationshipType) (rels : list (StructureRelationship num)) : nat :=
  List.length (filter (fun r => RelationshipType_eqb (rel_type r) t) rels).

(** The relationship that [find] returns for the first and the last structure. *)
Definition find_firstLast (first last : string) (rels : list (StructureRelationship num))
    : option (StructureRelationship num) :=
  find (fun r => (String.eqb (id1 r) first && String.eqb (id2 r) last)
                 || (String.eqb (id2 r) first && String.eqb (id1 r) last)) rels.

(** The test of the ABA branch. *)
Definition is_ternary (structures : list (MusicStructure num))
    (rels : list (StructureRelationship num)) : bool :=
  (2 <=? count_type rel_repeat rels)%nat && (3 <=? List.length structures)%nat &&
  match structures with
  | [] => false
  | first :: _ =>
      match find_firstLast (structure_id first) (structure_id (last structures first)) rels with
      | Some firstLast => RelationshipType_eqb (rel_type firstLast) rel_repeat
      | None => false
      end
  end.

(** The default by the number of structures. *)
Definition form_by_count (structureCount : nat) : string :=
  if (structureCount <=? 2)%nat then "Binary Form (AB)"
  else if (structureCount <=? 4)%nat then "Ternary Form (ABA)"
  else if (structureCount <=? 6)%nat then "Rondo Form"
  else "Through-composed Form".

Definition identifyForm (load : option (EmbeddingModel num))
    (structures : list (MusicStructure num)) (s : Service num) (h : Heap num)
    : string * Service num * Heap num :=
  let (s1, h1) := initializeModels load s h in
  let structureCount := List.length structures in
  let form :=
    match lastAnalysis s1 with
    | Some analysis =>
        let rels := relationships analysis in
        let repeatCount := count_type rel_repeat rels in
        let contrastCount := count_type rel_contrast rels in
        if is_ternary structures rels then "Ternary Form (ABA)"
        else if (3 <=? repeatCount)%nat && (5 <=? structureCount)%nat
             then "Rondo Form (ABACA)"
        else if (structureCount <=? 4)%nat && (1 <=? contrastCount)%nat
             then "Binary Form (AB)"
        else if (8 <=? structureCount)%nat && (2 <=? repeatCount)%nat
                && (2 <=? contrastCount)%nat
             then "Sonata Form"
        else form_by_count structureCount
    | None => form_by_count structureCount
    end in
  (form, s1, h1).

(** *** Features of a structure *)

Record StructureFeatures : Type := {
  energy : num;
  brightness : num;
  feature_tension : num;
}.

(** [Math.abs(pitches[i] - pitches[i-1])] for [i] from 1 on. *)
Fixpoint intervals_from (prev : num) (rest : list num) : list num :=
  match rest with
  | [] => []
  | p :: rest' => nabs (p - prev)%num :: intervals_from p rest'
  end.

Definition extractStructureFeatures (structure : MusicStructure num) : StructureFeatures :=
  let notes := match structure_notes structure with Some ns => ns | None => [] end in
  let measureCount := (endMeasure structure - startMeasure structure + 1)%Z in
  let noteDensity := (of_nat (List.length notes) / num_of_Z measureCount)%num in
  let energy := nmin one (noteDensity / num_of_Z 10)%num in
  let pitches := map (fun n => num_of_Z (pitchToNumber (pitch n))) notes in
  let avgPitch := if (0 <? List.length pitches)%nat
                  then (sum pitches / of_nat (List.length pitches))%num
                  else num_of_Z 60 in
  let brightness := nmin one (nmax zero ((avgPitch - num_of_Z 48) / num_of_Z 36)%num) in
  let tension :=
    if (1 <? List.length pitches)%nat then
      let intervals := match pitches with
                       | [] => []
                       | first :: rest => intervals_from first rest
                       end in
      let avgInterval := (sum intervals / of_nat (List.length intervals))%num in
      nmin one (avgInterval / num_of_Z 12)%num
    else dec 5 10 in
  {| energy := energy; brightness := brightness; feature_tension := tension |}.

(** *** Similarity grouping *)

Definition groupLabels : list string := ["A"; "B"; "C"; "D"; "E"].

Definition assigned_has (assigned : list string) (id : string) : bool :=
  existsb (String.eqb id) assigned.

(** One turn of the loop of [groupByRelationships] over the strong relations;
    the state is the groups pushed so far, the set [assigned] and [groupIndex]. *)
Definition group_step (st : list (Group num) * list string * nat)
    (rel : StructureRelationship num) : list (Group num) * list string * nat :=
  let '(groups, assigned, groupIndex) := st in
  if assigned_has assigned (id1 rel) && assigned_has assigned (id2 rel) then st
  else
    let groupId := nth (groupIndex mod List.length groupLabels) groupLabels "" in
    let '(structureIds, assigned) :=
      if negb (assigned_has assigned (id1 rel))
      then ([id1 rel], (assigned ++ [id1 rel])%list) else ([], assigned) in
    let '(structureIds, assigned) :=
      if negb (assigned_has assigned (id2 rel))
      then ((structureIds ++ [id2 rel])%list, (assigned ++ [id2 rel])%list)
      else (structureIds, assigned) in
    if (0 <? List.length structureIds)%nat
    then ((groups ++ [Build_Group groupId structureIds (rel_similarity rel)
                                  [rel_description rel]])%list,
          assigned, (groupIndex + 1)%nat)
    else (groups, assigned, groupIndex).

Definition groupByRelationships (structures : list (MusicStructure num))
    (rels : list (StructureRelationship num)) : list (Group num) :=
  let strongRelations :=
    filter (fun r => RelationshipType_eqb (rel_type r) rel_repeat
                     || (RelationshipType_eqb (rel_type r) rel_similar
                         && ngt (rel_similarity r) (dec 6 10))) rels in
  fst (fst (fold_left group_step strongRelations ([], [], 0%nat))).

(** [Math.random]: the engine's generator, the [k]-th number it hands out. *)
Definition Random : Type := nat -> num.

(** The loop of [groupByPosition] from index [i] on; [i < Math.min(3,
    structures.length / 2)] is [i < 3] (the fuel) and [2 * i < length].
    [drawn] counts the calls to [Math.random] so far. *)
Fixpoint position_loop (fuel i : nat) (structures : list (MusicStructure num))
    (groupSize : nat) (random : Random) (drawn : nat) (groups : list (Group num))
    : list (Group num) * nat :=
  match fuel with
  | O => (groups, drawn)
  | S fuel' =>
      if (2 * i <? List.length structures)%nat then
        let startIdx := (i * groupSize)%nat in
        let endIdx := Nat.min (startIdx + groupSize + 1) (List.length structures) in
        let groupStructures := js_slice (Z.of_nat startIdx) (Z.of_nat endIdx) structures in
        if (2 <=? List.length groupStructures)%nat then
          position_loop fuel' (i + 1)%nat structures groupSize random (drawn + 1)%nat
            (groups ++ [Build_Group (nth i groupLabels "")
                          (map structure_id groupStructures)
                          (dec 75 100 + random drawn * dec 2 10)%num
                          ["similar melodic contour"; "parallel rhythmic pattern"]])%list
        else position_loop fuel' (i + 1)%nat structures groupSize random drawn groups
      else (groups, drawn)
  end.

Definition groupByPosition (structures : list (MusicStructure num)) (random : Random)
    (drawn : nat) : list (Group num) * nat :=
  let groupSize := (List.length structures / 3)%nat in
  position_loop 3 0 structures groupSize random drawn [].

(** [analyzeSimilarity]; the last component of the result is the number of
    random numbers drawn from the engine so far. *)
Definition analyzeSimilarity (load : option (EmbeddingModel num))
    (structures : list (MusicStructure num)) (s : Service num) (h : Heap num)
    (random : Random) (drawn : nat)
    : list (Group num) * Service num * Heap num * nat :=
  let (s1, h1) := initializeModels load s h in
  if (List.length structures <? 4)%nat then ([], s1, h1, drawn)
  else
    match lastAnalysis s1 with
    | Some analysis =>
        (groupByRelationships structures (relationships analysis), s1, h1, drawn)
    | None =>
        let (groups, drawn') := groupByPosition structures random drawn in
        (groups, s1, h1, drawn')
    end.

End ServiceCode.

(** ** TransformersAIService: emotion inference and recognition *)

(** [Math.round]: the integer closest to the argument, the greater one of two
    that are equally close. *)
Class Rounding (num : Type) : Type := {
  nround : num -> num;
}.

(** On binary64 a finite [m * 2^e] with [e < 0] rounds to
    [floor ((2 * m + 2^-e) / 2^(1-e))], an integer below 2^53; a result 0 keeps
    the sign of the argument; integers, zeros, infinities and NaN are
    returned as they are. *)
Definition float_round (x : float) : float :=
  match Prim2SF x with
  | S754_finite s m e =>
      if (0 <=? e)%Z then x
      else
        let d := (2 ^ (- e))%Z in
        let n := if s then Z.neg m else Z.pos m in
        let q := ((2 * n + d) / (2 * d))%Z in
        if (q =? 0)%Z then (if s then PrimFloat.neg_zero else PrimFloat.zero)
        else FloatNum.of_Z q
  | _ => x
  end.

#[export] Instance float_Rounding : Rounding float := {| nround := float_round |}.

#[export] Instance R_Rounding : Rounding R := {|
  nround := fun x => IZR (Int_part (x + / 2)%R);
|}.

(** Modelled from the spec: the declarations of [MusicFeatures] and
    [StructureEmotion] (module [@/types]) are not among the sources; the
    records have the fields that [inferEmotion] reads and that
    [recognizeEmotions] writes. *)
Record MusicFeatures (num : Type) : Type := {
  rhythm_tempo : num;
  harmony_tension : num;
  harmony_tonality : string;
  texture_density : num;
}.

Arguments Build_MusicFeatures {num}.
Arguments rhythm_tempo {num}.
Arguments harmony_tension {num}.
Arguments harmony_tonality {num}.
Arguments texture_density {num}.

Record StructureEmotion (num : Type) : Type := {
  structureId : string;
  primary : string;
  emotion_confidence : num;
  emotion_features : list string;
}.

Arguments Build_StructureEmotion {num}.
Arguments structureId {num}.
Arguments primary {num}.
Arguments emotion_confidence {num}.
Arguments emotion_features {num}.

Section EmotionCode.
Context {num : Type} `{Number num} `{Rounding num}.

Definition inferEmotion (load : option (EmbeddingModel num)) (features : MusicFeatures num)
    (s : Service num) (h : Heap num) : EmotionFeatures * Service num * Heap num :=
  let (s1, h1) := initializeModels load s h in
  let tempo := rhythm_tempo features in
  let tension := harmony_tension features in
  let density := texture_density features in
  let speed :=
    if ngt tempo (num_of_Z 120) || ngt density (dec 7 10) then fast
    else if (tempo <? num_of_Z 80)%num || (density <? dec 3 10)%num then slow
    else moderate_speed in
  let intensity :=
    if ngt tempo (num_of_Z 110) && ngt density (dec 5 10) then strong
    else if (tempo <? num_of_Z 90)%num && (density <? dec 4 10)%num then weak
    else moderate_intensity in
  let tensionLevel :=
    if ngt tension (dec 6 10) || String.eqb (harmony_tonality features) "minor" then tense
    else if (tension <? dec 4 10)%num && String.eqb (harmony_tonality features) "major"
         then relaxed
    else neutral in
  ({| speed := speed; intensity := intensity; tension := tensionLevel |}, s1, h1).

Definition emotionTypes : list string := ["happy"; "sad"; "excited"; "peaceful"; "tense"].

(** [featureMap[emotion] || ['neutral features']], for an [emotion] that is
    not the name of a property of [Object.prototype] (the service passes the
    five emotion types only). *)
Definition getEmotionFeatureDescriptions (emotion : string) : list string :=
  if String.eqb emotion "happy"
  then ["major tonality"; "bright timbre"; "moderate tempo"; "ascending melody"]
  else if String.eqb emotion "sad"
  then ["minor tonality"; "dark timbre"; "slow tempo"; "descending melody"]
  else if String.eqb emotion "excited"
  then ["fast tempo"; "strong dynamics"; "frequent changes"; "high energy"]
  else if String.eqb emotion "peaceful"
  then ["slow tempo"; "soft dynamics"; "consonant harmony"; "smooth flow"]
  else if String.eqb emotion "tense"
  then ["dissonant harmony"; "strong contrasts"; "unstable tonality"; "irregular rhythm"]
  else ["neutral features"].

(** The emotion and the confidence that the branches of [recognizeEmotions]
    choose for the structure of index [i]. *)
Definition choose_emotion (i : nat) (features : StructureFeatures) : string * num :=
  if ngt (energy features) (dec 7 10) && ngt (brightness features) (dec 6 10)
  then ("excited", dec 85 100)
  else if ngt (energy features) (dec 5 10) && ngt (brightness features) (dec 5 10)
  then ("happy", dec 8 10)
  else if (energy features <? dec 3 10)%num && (brightness features <? dec 4 10)%num
  then ("sad", dec 75 100)
  else if (energy features <? dec 4 10)%num && ngt (brightness features) (dec 5 10)
  then ("peaceful", dec 8 10)
  else if ngt (feature_tension features) (dec 6 10)
  then ("tense", dec 75 100)
  else (nth (i mod List.length emotionTypes) emotionTypes "", dec 7 10).

(** The loop of [recognizeEmotions], from index [i] on. *)
Fixpoint recognize_from (i : nat) (structures : list (MusicStructure num))
    : list (StructureEmotion num) :=
  match structures with
  | [] => []
  | structure :: rest =>
      let features := extractStructureFeatures structure in
      let (primary, confidence) := choose_emotion i features in
      Build_StructureEmotion (structure_id structure) primary
        (nround (confidence * num_of_Z 100) / num_of_Z 100)%num
        (getEmotionFeatureDescriptions primary)
      :: recognize_from (i + 1) rest
  end.

(** [recognizeEmotions]; the argument [audioData] is not read. *)
Definition recognizeEmotions (load : option (EmbeddingModel num))
    (structures : list (MusicStructure num)) (s : Service num) (h : Heap num)
    : list (StructureEmotion num) * Service num * Heap num :=
  let (s1, h1) := initializeModels load s h in
  (recognize_from 0 structures, s1, h1).

(** [testConnection]: [initializeModels] does not throw. *)
Definition testConnection (load : option (EmbeddingModel num)) (s : Service num)
    (h : Heap num) : bool * Service num * Heap num :=
  let (s1, h1) := initializeModels load s h in (true, s1, h1).

End EmotionCode.

(** ** The service factory

    The module keeps one [TransformersAIService] in the variable
    [transformersServiceInstance].  Services are objects: [constructed] counts
    the objects made so far, and an object is known by its number.
    [MockAIService] is not among the sources; only its construction is
    modelled.  [mock] is [config.dev.ENABLE_MOCK_MODE]. *)
Inductive AIService : Type :=
| TransformersService (object : nat)
| MockService (object : nat).

Record Factory : Type := {
  transformersServiceInstance : option nat;
  constructed : nat;
}.

Definition createAIService (mock : bool) (f : Factory) : AIService * Factory :=
  if mock
  then (MockService (constructed f),
        {| transformersServiceInstance := transformersServiceInstance f;
           constructed := constructed f + 1 |})
  else
    match transformersServiceInstance f with
    | None =>
        (TransformersService (constructed f),
         {| transformersServiceInstance := Some (constructed f);
            constructed := constructed f + 1 |})
    | Some object => (TransformersService object, f)
    end.

Definition getAIServiceInstance (mock : bool) (f : Factory) : option AIService * Factory :=
  if mock
  then (Some (MockService (constructed f)),
        {| transformersServiceInstance := transformersServiceInstance f;
           constructed := constructed f + 1 |})
  else (option_map TransformersService (transformersServiceInstance f), f).

Definition resetAIService (f : Factory) : Factory :=
  {| transformersServiceInstance := None; constructed := constructed f |}.

(** ** Configuration ([config.ts]) *)

Module Config.

Definition TOP_K_RULES : Z := 5.
Definition DEFAULT_RECOMMENDATIONS : nat := 5.
Definition DEFAULT_ANIMATION_DURATION : Z := 1000.
Definition MIN_ANIMATION_DURATION : Z := 200.
Definition MAX_ANIMATION_DURATION : Z := 5000.
Definition WARM_COLORS : list string := ["#FF6B6B"; "#FF8E53"; "#FFA600"; "#FF4757"; "#FF6348"].
Definition COOL_COLORS : list string := ["#4ECDC4"; "#45B7D1"; "#96CEB4"; "#74B9FF"; "#81ECEC"].
Definition TENSE_COLORS : list string := ["#A04668"; "#D84797"; "#8E44AD"; "#9B59B6"; "#6C5CE7"].
Definition BALANCED_COLORS : list string :=
  ["#3498DB"; "#2ECC71"; "#F39C12"; "#1ABC9C"; "#E74C3C"].
Definition AUDIO_MODEL_FULL : string := "facebook/wav2vec2-base-960h".
Definition AUDIO_MODEL_FULL_SIZE : string := "360MB".
Definition AUDIO_MODEL_LITE : string := "openai/whisper-tiny".
Definition AUDIO_MODEL_LITE_SIZE : string := "39MB".

Inductive ModelTier : Type := full | standard | lite.

(** The browser: [navigator.deviceMemory] when [navigator] has the property
    (its value may be [undefined], which is falsy as 0 is), and the result of
    the test of the mobile pattern on [navigator.userAgent]. *)
Record Navigator : Type := {
  deviceMemory : option float;
  isMobile : bool;
}.

(** [a >= b] on binary64 *)
Definition float_ge (a b : float) : bool := PrimFloat.leb b a.

Definition getDeviceMemory (navigator : option Navigator) : float :=
  match navigator with
  | Some nav =>
      match deviceMemory nav with
      | Some memory => num_or memory 4%float
      | None => 4%float
      end
  | None => 4%float
  end.

Definition getModelTier (navigator : option Navigator) : ModelTier :=
  let memory := getDeviceMemory navigator in
  let isMobile := match navigator with Some nav => isMobile nav | None => false end in
  if float_ge memory 8 && negb isMobile then full
  else if float_ge memory 4 then standard
  else lite.

Definition getRecommendedAudioModel (navigator : option Navigator) : string * string :=
  match getModelTier navigator with
  | full => (AUDIO_MODEL_FULL, AUDIO_MODEL_FULL_SIZE)
  | _ => (AUDIO_MODEL_LITE, AUDIO_MODEL_LITE_SIZE)
  end.

End Config.

(** ** The user store ([stores/user.ts])

    [PreferenceLearner] is not among the sources: the store holds one, and
    hands the actions on preferences to it; its state is [learner]. *)

Module UserStore.

Record ModelStatus : Type := {
  isLoading : bool;
  isReady : bool;
  progress : Z;
  currentModel : string;
  error : option string;
}.

(** [Partial<ModelStatus>]: the properties that the object has. *)
Record PartialStatus : Type := {
  p_isLoading : option bool;
  p_isReady : option bool;
  p_progress : option Z;
  p_currentModel : option string;
  p_error : option (option string);
}.

Record State (learner : Type) : Type := {
  preferenceLearner : learner;
  modelStatus : ModelStatus;
  apiKey : string;
  isApiKeyDialogVisible : bool;
}.

Arguments Build_State {learner}.
Arguments preferenceLearner {learner}.
Arguments modelStatus {learner}.
Arguments apiKey {learner}.
Arguments isApiKeyDialogVisible {learner}.

Definition initial {learner : Type} (fresh : learner) : State learner :=
  {| preferenceLearner := fresh;
     modelStatus := {| isLoading := false; isReady := false; progress := 0;
                       currentModel := ""; error := None |};
     apiKey := "local-transformers";
     isApiKeyDialogVisible := false |}.

Definition or_else {A : Type} (o : option A) (a : A) : A :=
  match o with Some x => x | None => a end.

(** [{ ...modelStatus.value, ...status }] *)
Definition merge (m : ModelStatus) (status : PartialStatus) : ModelStatus :=
  {| isLoading := or_else (p_isLoading status) (isLoading m);
     isReady := or_else (p_isReady status) (isReady m);
     progress := or_else (p_progress status) (progress m);
     currentModel := or_else (p_currentModel status) (currentModel m);
     error := or_else (p_error status) (error m) |}.

Inductive Action (userAction : Type) : Type :=
| updateModelStatus (status : PartialStatus)
| setModelReady
| setModelError (message : string)
| loadApiKey
| saveApiKey (key : string)
| clearApiKey
| showApiKeyDialog
| hideApiKeyDialog
| recordUserAction (action : userAction)
| clearPreferences
| getPreferenceStatistics.

Arguments updateModelStatus {userAction}.
Arguments setModelReady {userAction}.
Arguments setModelError {userAction}.
Arguments loadApiKey {userAction}.
Arguments saveApiKey {userAction}.
Arguments clearApiKey {userAction}.
Arguments showApiKeyDialog {userAction}.
Arguments hideApiKeyDialog {userAction}.
Arguments recordUserAction {userAction}.
Arguments clearPreferences {userAction}.
Arguments getPreferenceStatistics {userAction}.

Section Store.
Context {learner userAction : Type}.
Variable recordAction : userAction -> learner -> learner.
Variable clear : learner -> learner.

Definition with_status (st : State learner) (m : ModelStatus) : State learner :=
  {| preferenceLearner := preferenceLearner st; modelStatus := m; apiKey := apiKey st;
     isApiKeyDialogVisible := isApiKeyDialogVisible st |}.

Definition with_dialog (st : State learner) (visible : bool) : State learner :=
  {| preferenceLearner := preferenceLearner st; modelStatus := modelStatus st;
     apiKey := apiKey st; isApiKeyDialogVisible := visible |}.

Definition with_learner (st : State learner) (l : learner) : State learner :=
  {| preferenceLearner := l; modelStatus := modelStatus st; apiKey := apiKey st;
     isApiKeyDialogVisible := isApiKeyDialogVisible st |}.

(** One action of the store on its state. *)
Definition step (st : State learner) (a : Action userAction) : State learner :=
  match a with
  | updateModelStatus status => with_status st (merge (modelStatus st) status)
  | setModelReady =>
      with_status st {| isLoading := false; isReady := true; progress := 100;
                        currentModel := "Ready"; error := None |}
  | setModelError message =>
      with_status st {| isLoading := false; isReady := isReady (modelStatus st);
                        progress := progress (modelStatus st);
                        currentModel := currentModel (modelStatus st);
                        error := Some message |}
  | loadApiKey => st
  | saveApiKey _ => with_dialog st false
  | clearApiKey => st
  | showApiKeyDialog => with_dialog st false
  | hideApiKeyDialog => with_dialog st false
  | recordUserAction action => with_learner st (recordAction action (preferenceLearner st))
  | clearPreferences => with_learner st (clear (preferenceLearner st))
  | getPreferenceStatistics => st
  end.

Definition run (st : State learner) (actions : list (Action userAction)) : State learner :=
  fold_left step actions st.

(** The getters. *)
Definition hasApiKey (st : State learner) : bool := true.
Definition isModelReady (st : State learner) : bool := isReady (modelStatus st).
Definition isModelLoading (st : State learner) : bool := isLoading (modelStatus st).

End Store.

End UserStore.

(** ** Vocabulary of the properties *)

(** Every reference of the catalog points into the store. *)
Definition kb_wf {num : Type} (kb : KnowledgeBase) (h : Heap num) : bool :=
  forallb (fun l => (l <? List.length h)%nat) (rules kb).

(** The similarity of a query to the rule at position [p] of the catalog, as
    [searchRules] computes it. *)
Definition catalog_similarity {num : Type} `{Number num} (kb : KnowledgeBase) (h : Heap num)
    (queryVector : list num) (p : nat) : num :=
  match nth_error (rules kb) p with
  | Some l =>
      match deref h l with
      | Some r => cosineSimilarity queryVector (embedding_or_empty r)
      | None => zero
      end
  | None => zero
  end.

(** The object at [l] in the store [h'] is the rule at position [p] of the
    catalog, as the store [h] held it, with the similarity [s] attached. *)
Definition annotated_copy {num : Type} (kb : KnowledgeBase) (h h' : Heap num)
    (s : nat -> num) (l : loc) (p : nat) : Prop :=
  exists lr r,
    nth_error (rules kb) p = Some lr /\ deref h lr = Some r /\
    deref h' l = Some (with_similarity r (s p)).

(** A text is degenerate for the code when every piece of its split is
    empty. *)
Definition degenerate (text : string) : bool :=
  forallb (fun w => String.eqb w "") (split_spaces (toLowerCase text)).

Section WordVocabulary.
Local Open Scope list_scope.

(** The words of a text, in the words of the specification: the maximal runs
    of characters other than white space.  Every white-space character ends a
    piece of the text (two of them in a row have an empty piece between
    them), and the words are the pieces that are not empty. *)
Fixpoint text_pieces_from (s : string) (piece : string) : list string :=
  match s with
  | EmptyString => [piece]
  | String c rest =>
      if is_space c then piece :: text_pieces_from rest EmptyString
      else text_pieces_from rest (piece ++ String c EmptyString)%string
  end.

Definition text_words (s : string) : list string :=
  filter (fun w => negb (String.eqb w "")) (text_pieces_from s EmptyString).

Definition starts_with_space (s : string) : bool :=
  match s with
  | EmptyString => false
  | String c _ => is_space c
  end.

Fixpoint ends_with_space (s : string) : bool :=
  match s with
  | EmptyString => false
  | String c EmptyString => is_space c
  | String _ rest => ends_with_space rest
  end.

(** A text is blank when it has no character other than white space (the
    empty text is). *)
Definition blank (text : string) : bool := forallb is_space (list_ascii_of_string text).

(** The words that take an index in the fallback embedding: the words of the
    lower-cased text, after an empty word when the text starts with white
    space, and before an empty word when the text ends with white space or is
    empty. *)
Definition indexed_words (text : string) : list string :=
  let t := toLowerCase text in
  (if starts_with_space t then [""] else [])
  ++ text_words t
  ++ (if String.eqb t "" || ends_with_space t then [""] else []).

End WordVocabulary.

Section EmbeddingSpec.
Context {num : Type} `{Number num}.

(** The formula of the specification: every character at position [j] of the
    word of index [i], with code [c], gives [1/(j+1)] to the dimension
    [(c*(i+1)) mod 384]. *)
Fixpoint word_contributions (word : string) (i j : nat) : list (nat * num) :=
  match word with
  | EmptyString => []
  | String ch rest =>
      (((nat_of_ascii ch * (i + 1)) mod 384)%nat, (one / of_nat (j + 1))%num)
        :: word_contributions rest i (j + 1)
  end.

Fixpoint text_contributions (words : list string) (i : nat) : list (nat * num) :=
  match words with
  | [] => []
  | word :: rest => (word_contributions word i 0 ++ text_contributions rest (i + 1))%list
  end.

(** What a dimension accumulates, from [start] on. *)
Definition accumulated (d : nat) (contributions : list (nat * num)) (start : num) : num :=
  fold_left nadd (map snd (filter (fun c => (fst c =? d)%nat) contributions)) start.

Definition l2_normalize (v : list num) : list num :=
  let magnitude := nsqrt (sumsq v) in
  if ngt magnitude zero then map (fun x => (x / magnitude)%num) v else v.

(** The fallback embedding as the specification words it: the words are those
    of the text as it is given. *)
Definition worded_embedding (text : string) : list num :=
  l2_normalize
    (map (fun d => accumulated d (text_contributions (text_words text) 0) zero)
         (seq 0 384)).

(** The same formula over the words that take an index. *)
Definition indexed_embedding (text : string) : list num :=
  l2_normalize
    (map (fun d => accumulated d (text_contributions (indexed_words text) 0) zero)
         (seq 0 384)).

End EmbeddingSpec.

(** The Euclidean norm over the reals. *)
Definition norm (v : list R) : R := R_sqrt.sqrt (sumsq v).

(** A group without its score. *)
Definition group_shape {num : Type} (g : Group num) : string * list string * list string :=
  (groupId g, structureIds g, commonFeatures g).

(** A pitch in the words of the specification: a letter, an optional
    accidental, an optional octave. *)
Definition digit_string (s : string) : Prop :=
  forall c, In c (list_ascii_of_string s) ->
            In c ["0"; "1"; "2"; "3"; "4"; "5"; "6"; "7"; "8"; "9"]%char.

Definition well_formed_pitch (pitch : string) : Prop :=
  exists (letter : ascii) (accidental octave : string),
    In letter ["A"; "B"; "C"; "D"; "E"; "F"; "G"]%char /\
    (accidental = "" \/ accidental = "#" \/ accidental = "b") /\
    digit_string octave /\
    pitch = String letter (accidental ++ octave).

(** The relationship [r] joins the structures [a] and [b], in either order. *)
Definition joins {num : Type} (r : StructureRelationship num) (a b : string) : bool :=
  (String.eqb (id1 r) a && String.eqb (id2 r) b)
  || (String.eqb (id2 r) a && String.eqb (id1 r) b).

(** The data model produces a relationship once per pair of structures: two
    relationships of the set that join the same pair have the same type. *)
Definition one_type_per_pair {num : Type} (rels : list (StructureRelationship num)) : bool :=
  forallb (fun r1 =>
    forallb (fun r2 =>
      implb (joins r2 (id1 r1) (id2 r1))
            (RelationshipType_eqb (rel_type r1) (rel_type r2))) rels) rels.

(** The structures [a] and [b] are related by a relationship of type [t]. *)
Definition related_by {num : Type} (rels : list (StructureRelationship num))
    (a b : string) (t : RelationshipType) : Prop :=
  exists r, In r rels /\ joins r a b = true /\ rel_type r = t.

(** The first relationship of the list, in detection order, that joins [a]
    and [b] has type [t]. *)
Definition first_related_by {num : Type} (rels : list (StructureRelationship num))
    (a b : string) (t : RelationshipType) : Prop :=
  exists before r after,
    rels = (before ++ r :: after)%list /\
    Forall (fun r0 => joins r0 a b = false) before /\
    joins r a b = true /\ rel_type r = t.

(** A relationship set over four structures in which the first and the last
    structure are joined twice: by a contrast relationship, detected first,
    and by a repeat relationship. *)
Definition contrast_before_repeat {num : Type} `{Number num}
    : list (StructureRelationship num) :=
  [Build_StructureRelationship "S1" "S4" rel_contrast (dec 2 10) "new key";
   Build_StructureRelationship "S4" "S1" rel_repeat (dec 9 10) "return";
   Build_StructureRelationship "S2" "S3" rel_repeat (dec 8 10) "echo"].

(** The primary encoder is unavailable for a text: no model is loaded, or the
    call of the model on the text throws. *)
Definition encoder_unavailable {num : Type} (s : Service num) (text : string) : bool :=
  match embeddingModel s with
  | None => true
  | Some model => match model text with None => true | Some _ => false end
  end.

Section SearchVocabulary.
Context {num : Type} `{Number num}.

(** The item that [searchRules] makes for the reference [l]. *)
Definition scored_item (h : Heap num) (queryEmbedding : list num) (l : loc)
    (item : loc * num) : Prop :=
  exists r, deref h l = Some r /\
            item = (l, cosineSimilarity queryEmbedding (embedding_or_empty r)).

(** The copy that [searchRules] makes for an item. *)
Definition copied_item (h : Heap num) (item : loc * num) (copy : TheoryRule num) : Prop :=
  exists r, deref h (fst item) = Some r /\ copy = with_similarity r (snd item).

(** The score of the [j]-th group of the position-based fallback: the [j]-th
    number drawn during the call. *)
Definition synthetic_score (random : Random) (drawn j : nat) : num :=
  (dec 75 100 + random (drawn + j)%nat * dec 2 10)%num.

(** The results of the public methods, without the state that they thread. *)
Definition groups_of (load : option (EmbeddingModel num))
    (structures : list (MusicStructure num)) (s : Service num) (h : Heap num)
    (random : Random) (drawn : nat) : list (Group num) :=
  fst (fst (fst (analyzeSimilarity load structures s h random drawn))).

Definition form_of (load : option (EmbeddingModel num))
    (structures : list (MusicStructure num)) (s : Service num) (h : Heap num) : string :=
  fst (fst (identifyForm load structures s h)).

Definition schemes_of (load : option (EmbeddingModel num))
    (emotion : EmotionFeatures) (structureLevel : string)
    (preferences : option (UserPreferences num)) (structureId : option string)
    (s : Service num) (h : Heap num) : list (VisualScheme num) :=
  fst (fst (recommendVisuals load emotion structureLevel preferences structureId s h)).

(** The relationship set of the end-to-end scenario. *)
Definition scenario_relationships (d1 d2 d3 : string) : list (StructureRelationship num) :=
  [Build_StructureRelationship "S1" "S2" rel_repeat (dec 9 10) d1;
   Build_StructureRelationship "S2" "S3" rel_contrast (dec 2 10) d2;
   Build_StructureRelationship "S3" "S4" rel_repeat (dec 85 100) d3].

(** Sample data: a structure of two measures, and a store of three catalog
    rules with two-dimensional embeddings. *)
Definition sample_structure (id : string) : MusicStructure num :=
  Build_MusicStructure id "phrase" 1 2 None zero.

Definition sample_store : Heap num :=
  map (fun re => set_embedding (fst re) (snd re))
      (combine (firstn 3 createTheoryRules) [[one; zero]; [zero; one]; [one; one]]).

End SearchVocabulary.

Definition sample_kb : KnowledgeBase := {| rules := [0; 1; 2]%nat; isInitialized := true |}.

(** The confidence values of the five schemes on binary64: [0.95 - i * 0.05]
    as the engine rounds it. *)
Definition scheme_confidences : list float :=
  [0.95; 0.8999999999999999; 0.85; 0.7999999999999999; 0.75]%float.

Section RankVocabulary.
Context {A : Type}.
Variable key : A -> R.

(** Items with the place that they had in the array: [u] is placed before [v]
    by a greater key, or by the same key and an earlier place. *)
Definition placed_before (u v : nat * A) : Prop :=
  (key (snd v) < key (snd u))%R \/ (key (snd u) = key (snd v) /\ (fst u < fst v)%nat).

(** The comparison function [(a, b) => key(b) - key(a)], on items and on
    placed items. *)
Definition by_key (a b : A) : R := (key b - key a)%num.

Definition by_key_placed (u v : nat * A) : R := by_key (snd u) (snd v).

End RankVocabulary.

(** ** Vocabulary of the further properties *)

(** The rule as [initialize] leaves it. *)
Definition embedded {num : Type} `{Number num} (r : TheoryRule num) : TheoryRule num :=
  set_embedding r (generateSimpleEmbedding (rule_description r)).

(** The place of the first rule with the identifier [id]. *)
Fixpoint index_of_id {num : Type} (id : string) (objs : list (TheoryRule num)) : option nat :=
  match objs with
  | [] => None
  | r :: rest =>
      if String.eqb (rule_id r) id then Some 0%nat
      else option_map S (index_of_id id rest)
  end.

(** The relationships that the service knows: those of the last analysis. *)
Definition known_relationships {num : Type} (s : Service num)
    : list (StructureRelationship num) :=
  match lastAnalysis s with
  | Some analysis => relationships analysis
  | None => []
  end.

(** A relation that [groupByRelationships] keeps. *)
Definition strong_relation {num : Type} `{Number num} (r : StructureRelationship num) : bool :=
  RelationshipType_eqb (rel_type r) rel_repeat
  || (RelationshipType_eqb (rel_type r) rel_similar && ngt (rel_similarity r) (dec 6 10)).

(** What [groupByRelationships] keeps true of the groups made from the
    relations [seen] so far. *)
Definition grouped {num : Type} (seen : list (StructureRelationship num))
    (groups : list (Group num)) : Prop :=
  NoDup (flat_map structureIds groups) /\
  Forall (fun g => (1 <= List.length (structureIds g) <= 2)%nat /\
                   exists rel, In rel seen /\
                               incl (structureIds g) [id1 rel; id2 rel] /\
                               similarityScore g = rel_similarity rel /\
                               commonFeatures g = [rel_description rel]) groups /\
  map groupId groups
  = map (fun k => nth (k mod 5) groupLabels "") (seq 0 (List.length groups)) /\
  forall rel, In rel seen ->
              In (id1 rel) (flat_map structureIds groups) /\
              In (id2 rel) (flat_map structureIds groups).

(** The [i]-th group of the position-based fallback: a window of
    [groupSize + 1] structures from index [i * groupSize] on, with the [i]-th
    number drawn. *)
Definition position_group {num : Type} `{Number num} (structures : list (MusicStructure num))
    (random : nat -> num) (drawn i : nat) : Group num :=
  Build_Group (nth i groupLabels "")
    (map structure_id
         (firstn (List.length structures / 3 + 1)
                 (skipn (i * (List.length structures / 3)) structures)))
    (synthetic_score random drawn i)
    ["similar melodic contour"; "parallel rhythmic pattern"].

(** The singleton of a factory state is an object that has been made. *)
Definition factory_wf (f : Factory) : bool :=
  match transformersServiceInstance f with
  | Some object => (object <? constructed f)%nat
  | None => true
  end.

(** What an accidental adds to the number of a pitch. *)
Definition accidental_offset (accidental : string) : Z :=
  if String.eqb accidental "#" then 1
  else if String.eqb accidental "b" then -1
  else 0.

(** The numbers of rising and of falling steps of a melody. *)
Fixpoint rises (l : list Z) : nat :=
  match l with
  | x :: (y :: _) as rest => ((if (x <? y)%Z then 1 else 0) + rises rest)%nat
  | _ => 0%nat
  end.

Fixpoint falls (l : list Z) : nat :=
  match l with
  | x :: (y :: _) as rest => ((if (y <? x)%Z then 1 else 0) + falls rest)%nat
  | _ => 0%nat
  end.

(** The contour of the melody played backwards. *)
Definition mirror_contour (contour : string) : string :=
  if String.eqb contour "ascending" then "descending"
  else if String.eqb contour "descending" then "ascending"
  else contour.

(** ** Vocabulary of binary64 arithmetic *)

Section FloatOrderVocabulary.
Local Open Scope Z_scope.

(** The rank of a binary64 number that is not NaN: the order of the ranks,
    read from left to right, is the order of the numbers ([+0] and [-0] have
    one rank). *)
Definition float_rank (f : spec_float) : Z * (Z * Z) :=
  match f with
  | S754_zero _ => (0, (0, 0))
  | S754_infinity s => (if s then -2 else 2, (0, 0))
  | S754_nan => (0, (0, 0))
  | S754_finite s m e => if s then (-1, (- e, - Z.pos m)) else (1, (e, Z.pos m))
  end.

Definition rank_lt (a b : Z * (Z * Z)) : Prop :=
  fst a < fst b \/
  (fst a = fst b /\
   (fst (snd a) < fst (snd b) \/
    (fst (snd a) = fst (snd b) /\ snd (snd a) < snd (snd b)))).

End FloatOrderVocabulary.

(** A binary64 number of sign [s] that is not zero: a finite number or an
    infinity of that sign. *)
Definition nonzero_float (s : bool) (f : spec_float) : Prop :=
  (exists m e, f = S754_finite s m e) \/ f = S754_infinity s.

Section FloatValueVocabulary.
Local Open Scope Z_scope.

(** [2^e] as a real number, for every integer [e]. *)
Definition pow2 (e : Z) : R := powerRZ 2 e.

(** The real number that a binary64 value denotes: the mantissa with its
    sign, times 2 to the exponent (0 for the zeros, and also for the
    infinities and NaN, which the properties exclude). *)
Definition SF2R (f : spec_float) : R :=
  match f with
  | S754_finite s m e => (IZR (cond_Zopp s (Z.pos m)) * pow2 e)%R
  | _ => 0%R
  end.

Definition float_value (x : float) : R := SF2R (Prim2SF x).

(** A positive normal number: 53 digits of mantissa. *)
Definition positive_normal (x : float) : Prop :=
  exists m e, Prim2SF x = S754_finite false m e /\ Z.pos (digits2_pos m) = 53.

(** The unit roundoff of binary64 arithmetic, as a bound of relative error. *)
Definition roundoff : R := (/ 4503599627370496)%R.

End FloatValueVocabulary.

(** The binary64 number [x] is the real number [r] rounded: positive, normal,
    and within [roundoff] of [r] in relative error. *)
Definition rounded (r : R) (x : float) : Prop :=
  positive_normal x /\
  (r * (1 - roundoff) <= float_value x <= r * (1 + roundoff))%R.

(** The binary64 number [+0]. *)
Definition positive_zero (x : float) : Prop := Prim2SF x = S754_zero false.

(** An entry of the vector that the fallback embedding accumulates, after [n]
    contributions in all: still [+0], or a normal number between [2^-34] and
    [4 n]. *)
Definition accumulated_entry (n : Z) (x : float) : Prop :=
  positive_zero x \/
  (positive_normal x /\ (pow2 (-34) <= float_value x <= 4 * IZR n)%R).

(** The number of characters of the words. *)
Definition total_length (words : list string) : nat :=
  fold_right (fun w n => (String.length w + n)%nat) 0%nat words.

(** A binary64 number of moderate size: [+0], or a normal number between
    [2^-400] and [2^400] (its square neither underflows nor overflows). *)
Definition moderate (x : float) : Prop :=
  positive_zero x \/
  (positive_normal x /\ (pow2 (-400) <= float_value x <= pow2 400)%R).

(** The accumulator [s] of a sum of squares after [k] terms, the exact sum
    being [t]: [+0] when [t] is 0, and within [(2 k + 1) roundoff] of [t] in
    relative error otherwise. *)
Definition accumulated_sum (k : Z) (t : R) (s : float) : Prop :=
  (0 <= t <= IZR k * pow2 800)%R /\
  ((positive_zero s /\ t = 0%R) \/
   (positive_normal s /\ (0 < t)%R /\
    (t * (1 - (2 * IZR k + 1) * roundoff) <= float_value s
     <= t * (1 + (2 * IZR k + 1) * roundoff))%R)).

(** The entry [z] of the normalised vector for the entry [x] of the vector
    and the magnitude [w]: [+0] for [+0], and the quotient rounded otherwise. *)
Definition normalised_entry (w : R) (x z : float) : Prop :=
  (positive_zero x /\ positive_zero z) \/
  (positive_normal x /\ rounded (float_value x / w) z).

(** ** Vocabulary of the ranking on binary64 *)

Section FloatRankVocabulary.
Context {A : Type}.
Variable key : A -> float.

(** On binary64: [u] is placed before [v] by a greater key, or by an equal
    key ([===] on numbers) and an earlier place. *)
Definition placed_before_float (u v : nat * A) : Prop :=
  PrimFloat.ltb (key (snd v)) (key (snd u)) = true \/
  (PrimFloat.eqb (key (snd u)) (key (snd v)) = true /\ (fst u < fst v)%nat).

Definition by_key_float (a b : A) : float := (key b - key a)%num.

Definition by_key_placed_float (u v : nat * A) : float := by_key_float (snd u) (snd v).

End FloatRankVocabulary.

(** Position [p1] ranks before position [p2] on binary64: a greater score, or
    an equal score and an earlier place in the catalog. *)
Definition ranked_before_float (score : nat -> float) (p1 p2 : nat) : Prop :=
  PrimFloat.ltb (score p2) (score p1) = true \/
  (PrimFloat.eqb (score p1) (score p2) = true /\ (p1 < p2)%nat).

(** The similarity of the query to every rule of the catalog is a number:
    no division of the cosine gave NaN. *)
Definition similarities_are_numbers (kb : KnowledgeBase) (h : Heap float)
    (queryVector : list float) : bool :=
  forallb (fun p => negb (PrimFloat.is_nan (catalog_similarity kb h queryVector p)))
          (seq 0 (List.length (rules kb))).

(** The count that [searchRules] cuts at: [topK], or its default 5. *)
Definition requested (topK : option Z) : Z :=
  match topK with Some k => k | None => 5%Z end.

(** What a call of [searchRules] shows of its results: the id and the
    similarity of each, in order. *)
Definition shown {num : Type} (h : Heap num) (results : list loc)
    : list (option (string * option num)) :=
  map (fun l => option_map (fun r => (rule_id r, similarity r)) (deref h l)) results.

(** * Properties *)

Local Open Scope list_scope.

(** ** The store *)

Section StoreFacts.
Context {num : Type}.

Lemma deref_app (h t : Heap num) (l : loc) (r : TheoryRule num) :
  deref h l = Some r -> deref (h ++ t) l = Some r.
Proof.
  unfold deref. intros Hl. rewrite nth_error_app1; [assumption|].
  apply nth_error_Some. congruence.
Qed.

Lemma deref_new (h t : Heap num) (o : TheoryRule num) :
  deref (h ++ o :: t) (List.length h) = Some o.
Proof.
  unfold deref. rewrite nth_error_app2 by lia. now rewrite Nat.sub_diag.
Qed.

Lemma deref_valid (h : Heap num) (l : loc) :
  (l < List.length h)%nat -> exists r, deref h l = Some r.
Proof.
  intros Hl. unfold deref. destruct (nth_error h l) eqn:E; [eauto|].
  apply nth_error_None in E. lia.
Qed.

Lemma kb_wf_Forall (kb : KnowledgeBase) (h : Heap num) :
  kb_wf kb h = true -> Forall (fun l => (l < List.length h)%nat) (rules kb).
Proof.
  unfold kb_wf. rewrite forallb_forall, Forall_forall.
  intros Hf l Hl. apply Nat.ltb_lt. auto.
Qed.

End StoreFacts.

(** ** The sort *)

Section SortFacts.
Context {num : Type} `{Number num} {A : Type}.
Variable comparefn : A -> A -> num.

Lemma sort_insert_perm (x : A) (l : list A) :
  Permutation (sort_insert comparefn x l) (x :: l).
Proof.
  induction l as [|y l IH]; simpl; [reflexivity|].
  destruct (ngt (comparefn y x) zero); [reflexivity|].
  rewrite IH. apply perm_swap.
Qed.

Lemma fold_insert_perm (l acc : list A) :
  Permutation (fold_left (fun sorted x => sort_insert comparefn x sorted) l acc) (acc ++ l).
Proof.
  revert acc. induction l as [|x l IH]; intros acc; simpl.
  - now rewrite app_nil_r.
  - rewrite IH, sort_insert_perm. apply Permutation_middle.
Qed.

Lemma js_sort_perm (l : list A) : Permutation (js_sort comparefn l) l.
Proof. unfold js_sort. apply (fold_insert_perm l []). Qed.

Lemma js_sort_Forall (P : A -> Prop) (l : list A) :
  Forall P l -> Forall P (js_sort comparefn l).
Proof.
  intros Hl. eapply Permutation_Forall; [|exact Hl].
  symmetry. apply js_sort_perm.
Qed.

End SortFacts.

Section SliceFacts.
Context {A : Type}.

Lemma js_slice_prefix (k : Z) (l : list A) :
  (0 <= k)%Z -> js_slice 0 k l = firstn (Z.to_nat k) l.
Proof.
  intros Hk. unfold js_slice. cbv zeta.
  replace (0 <? 0)%Z with false by reflexivity.
  destruct (Z.ltb_spec k 0) as [Hneg|_]; [lia|].
  assert (H0 : Z.min 0 (Z.of_nat (List.length l)) = 0%Z) by lia.
  rewrite H0. simpl skipn. rewrite Z.sub_0_r.
  destruct (Z.le_ge_cases k (Z.of_nat (List.length l))) as [Hle|Hge].
  - now rewrite Z.min_l by lia.
  - rewrite Z.min_r by lia. rewrite Nat2Z.id.
    rewrite !firstn_all2; auto; lia.
Qed.

Lemma Forall_prefix (P : A -> Prop) (n : nat) (l : list A) :
  Forall P l -> Forall P (firstn n l).
Proof.
  intros Hl. revert n. induction Hl as [|x l Hx Hl IH]; intros [|n]; simpl; auto.
Qed.

Lemma Forall_suffix (P : A -> Prop) (n : nat) (l : list A) :
  Forall P l -> Forall P (skipn n l).
Proof.
  intros Hl. revert n. induction Hl as [|x l Hx Hl IH]; intros [|n]; simpl; auto.
Qed.

Lemma js_slice_Forall (P : A -> Prop) (a b : Z) (l : list A) :
  Forall P l -> Forall P (js_slice a b l).
Proof.
  intros Hl. unfold js_slice. apply Forall_prefix, Forall_suffix, Hl.
Qed.

End SliceFacts.

(** ** What [searchRules] does to the store *)

Section SearchFacts.
Context {num : Type} `{Number num}.

Lemma score_all (h : Heap num) (queryEmbedding : list num) (ls : list loc) :
  Forall (fun l => (l < List.length h)%nat) ls ->
  exists scored,
    mapM (fun rule => r <- deref h rule ;;
                      Some (rule, cosineSimilarity queryEmbedding (embedding_or_empty r))) ls
    = Some scored /\
    Forall2 (scored_item h queryEmbedding) ls scored.
Proof.
  induction 1 as [|l ls Hl _ IH]; cbn [mapM].
  - exists []. split; [reflexivity|constructor].
  - destruct IH as (scored & Hm & Hs).
    destruct (deref_valid h l Hl) as [r Hr].
    rewrite Hr. cbn [bind]. rewrite Hm. cbn [bind].
    eexists. split; [reflexivity|].
    constructor; [|exact Hs]. exists r. auto.
Qed.

Lemma scored_item_valid (h : Heap num) (queryEmbedding : list num) (ls : list loc)
    (scored : list (loc * num)) :
  Forall2 (scored_item h queryEmbedding) ls scored ->
  Forall (fun item => (fst item < List.length h)%nat) scored.
Proof.
  induction 1 as [|l item ls scored (r & Hr & ->) _ IH]; constructor; auto.
  simpl. apply nth_error_Some. unfold deref in Hr. congruence.
Qed.

Lemma copy_all (h0 : Heap num) (items : list (loc * num)) :
  Forall (fun item => (fst item < List.length h0)%nat) items ->
  forall t,
  exists copies,
    Forall2 (copied_item h0) items copies /\
    copy_with_similarity items (h0 ++ t)
    = Some (seq (List.length (h0 ++ t)) (List.length items), (h0 ++ t) ++ copies).
Proof.
  induction 1 as [|item items Hi _ IH]; intros t; cbn [copy_with_similarity].
  - exists []. split; [constructor|]. now rewrite app_nil_r.
  - destruct (deref_valid h0 (fst item) Hi) as [r Hr].
    destruct (IH (t ++ [with_similarity r (snd item)])) as (copies & Hc & He).
    exists (with_similarity r (snd item) :: copies). split.
    + constructor; [|exact Hc]. exists r. auto.
    + rewrite (deref_app h0 t _ _ Hr). cbn [bind alloc].
      rewrite app_assoc in He. rewrite He. cbn [bind fst snd List.length].
      rewrite !length_app. simpl. rewrite Nat.add_1_r.
      rewrite <- !app_assoc. reflexivity.
Qed.

(** [searchRules] on a well-formed catalog: the items are scored, sorted and
    cut, and the store grows by one copy per item that is left. *)
Lemma searchRules_outcome (kb : KnowledgeBase) (queryEmbedding : list num)
    (topK : option Z) (h : Heap num) :
  kb_wf kb h = true ->
  exists scored copies,
    Forall2 (scored_item h queryEmbedding) (rules kb) scored /\
    Forall2 (copied_item h)
      (js_slice 0 (match topK with Some k => k | None => 5%Z end)
                (js_sort (fun a b => (snd b - snd a)%num) scored)) copies /\
    searchRules kb queryEmbedding topK h
    = Some (seq (List.length h) (List.length copies), h ++ copies).
Proof.
  intros Hwf. apply kb_wf_Forall in Hwf.
  destruct (score_all h queryEmbedding (rules kb) Hwf) as (scored & Hm & Hs).
  pose proof (scored_item_valid _ _ _ _ Hs) as Hv.
  set (items := js_slice 0 (match topK with Some k => k | None => 5%Z end)
                         (js_sort (fun a b => (snd b - snd a)%num) scored)).
  assert (Hitems : Forall (fun item => (fst item < List.length h)%nat) items).
  { apply js_slice_Forall, js_sort_Forall, Hv. }
  destruct (copy_all h items Hitems []) as (copies & Hc & He).
  exists scored, copies. repeat split; [exact Hs|exact Hc|].
  unfold searchRules. rewrite Hm. cbn [bind]. fold items.
  rewrite app_nil_r in He. rewrite He.
  now rewrite (Forall2_length Hc).
Qed.

End SearchFacts.

(** ** Initialisation *)

Section InitializeFacts.
Context {num : Type} `{Number num}.

Lemma update_at_length {A : Type} (i : nat) (f : A -> A) (l : list A) :
  List.length (update_at i f l) = List.length l.
Proof.
  revert i. induction l as [|x l IH]; intros [|i]; simpl; auto.
Qed.

Lemma alloc_all_eq (objs : list (TheoryRule num)) (h : Heap num) :
  alloc_all objs h = (seq (List.length h) (List.length objs), h ++ objs).
Proof.
  revert h. induction objs as [|o objs IH]; intros h; cbn [alloc_all alloc].
  - now rewrite app_nil_r.
  - rewrite IH, length_app, Nat.add_1_r, <- app_assoc. reflexivity.
Qed.

Lemma embed_rules_total (ls : list loc) :
  forall h : Heap num,
    Forall (fun l => (l < List.length h)%nat) ls ->
    exists h', embed_rules ls h = Some h' /\ List.length h' = List.length h.
Proof.
  induction ls as [|l ls IH]; intros h Hls; cbn [embed_rules].
  - eauto.
  - inversion Hls as [|? ? Hl Hrest]; subst.
    destruct (deref_valid h l Hl) as [r Hr]. rewrite Hr. cbn [bind].
    destruct (IH (store l (set_embedding r (generateSimpleEmbedding (rule_description r))) h))
      as (h' & He & Hlen).
    + unfold store. now rewrite update_at_length.
    + exists h'. split; [exact He|]. rewrite Hlen. apply update_at_length.
Qed.

(** [initialize] returns, and leaves a catalog whose references point into
    the store. *)
Lemma initialize_wf (kb : KnowledgeBase) (h : Heap num) :
  isInitialized kb = false \/ kb_wf kb h = true ->
  exists kb' h', initialize kb h = Some (kb', h') /\ kb_wf kb' h' = true.
Proof.
  intros Hkb. unfold initialize. destruct (isInitialized kb) eqn:Hi.
  - destruct Hkb as [Hf|Hwf]; [discriminate|]. eauto.
  - rewrite alloc_all_eq.
    destruct (embed_rules_total (seq (List.length h) (List.length createTheoryRules))
                (h ++ createTheoryRules)) as (h' & He & Hlen).
    + apply Forall_forall. intros l Hl. apply in_seq in Hl. rewrite length_app. lia.
    + rewrite He. cbn [bind]. eexists _, h'. split; [reflexivity|].
      unfold kb_wf. cbn [rules]. apply forallb_forall. intros l Hl.
      apply in_seq in Hl. apply Nat.ltb_lt. rewrite Hlen, length_app. lia.
Qed.

(** [initializeModels] keeps, or makes, the catalog well formed. *)
Lemma initializeModels_kb_wf (load : option (EmbeddingModel num)) (s : Service num)
    (h : Heap num) :
  isInitialized (knowledgeBase s) = false \/ kb_wf (knowledgeBase s) h = true ->
  isModelLoaded s = false \/ kb_wf (knowledgeBase s) h = true ->
  kb_wf (knowledgeBase (fst (initializeModels load s h))) (snd (initializeModels load s h))
  = true.
Proof.
  intros Hinit Hloaded. unfold initializeModels.
  destruct (isModelLoaded s).
  - destruct Hloaded as [Hf|Hwf]; [discriminate|exact Hwf].
  - destruct (initialize_wf (knowledgeBase s) h Hinit) as (kb' & h' & -> & Hwf).
    exact Hwf.
Qed.

End InitializeFacts.


(** ** Facts on binary64 *)

Lemma is_zero_SF (x : float) :
  PrimFloat.is_zero x = true -> exists s, Prim2SF x = S754_zero s.
Proof.
  unfold PrimFloat.is_zero. rewrite eqb_spec.
  replace (Prim2SF PrimFloat.zero) with (S754_zero false) by reflexivity.
  destruct (Prim2SF x) as [s|s| |s m e]; simpl; try discriminate.
  - intros _. now exists s.
  - destruct s; discriminate.
  - destruct s; discriminate.
Qed.

Lemma sqrt_zero_mul_not_positive (x y : float) :
  PrimFloat.is_zero x = true -> PrimFloat.ltb 0 (PrimFloat.sqrt x * y) = false.
Proof.
  intros Hx. destruct (is_zero_SF x Hx) as [s Hs].
  rewrite ltb_spec, mul_spec, sqrt_spec, Hs.
  replace (Prim2SF 0) with (S754_zero false) by reflexivity.
  destruct (Prim2SF y) as [sy|sy| |sy m e]; destruct s; try destruct sy; reflexivity.
Qed.

Lemma mul_sqrt_zero_not_positive (x y : float) :
  PrimFloat.is_zero y = true -> PrimFloat.ltb 0 (x * PrimFloat.sqrt y) = false.
Proof.
  intros Hy. destruct (is_zero_SF y Hy) as [s Hs].
  rewrite ltb_spec, mul_spec, sqrt_spec, Hs.
  replace (Prim2SF 0) with (S754_zero false) by reflexivity.
  destruct (Prim2SF x) as [sx|sx| |sx m e]; destruct s; try destruct sx; reflexivity.
Qed.

Lemma float_zero_cases (x : float) :
  PrimFloat.is_zero x = true -> x = 0%float \/ x = PrimFloat.neg_zero.
Proof.
  intros Hx. destruct (is_zero_SF x Hx) as [[|] Hs].
  - right. apply Prim2SF_inj. rewrite Hs. reflexivity.
  - left. apply Prim2SF_inj. rewrite Hs. reflexivity.
Qed.

(** A vector of zeros has zero norm. *)
Lemma zeros_zero_norm (v : list float) :
  forallb PrimFloat.is_zero v = true -> zero_norm v = true.
Proof.
  intros Hv. unfold zero_norm, sumsq.
  replace (fold_left (fun s x => (s + x * x)%num) v zero) with 0%float; [reflexivity|].
  change (@zero float _) with 0%float.
  induction v as [|x v IH]; [reflexivity|].
  simpl in Hv. apply andb_true_iff in Hv. destruct Hv as [Hx Hv].
  cbn [fold_left].
  replace (nadd 0%float (nmul x x)) with 0%float; [apply IH, Hv|].
  destruct (float_zero_cases x Hx) as [-> | ->]; reflexivity.
Qed.

(** ** Cosine similarity *)

Section CosineFacts.
Context {num : Type} `{Number num}.

Lemma cosine_loop_eq (vec1 vec2 : list num) :
  List.length vec1 = List.length vec2 ->
  forall d n1 n2,
    cosine_loop vec1 vec2 (d, n1, n2) =
    (fold_left (fun s ab => (s + fst ab * snd ab)%num) (combine vec1 vec2) d,
     fold_left (fun s v => (s + v * v)%num) vec1 n1,
     fold_left (fun s v => (s + v * v)%num) vec2 n2).
Proof.
  revert vec2. induction vec1 as [|a v1 IH]; intros [|b v2] Hlen d n1 n2;
    simpl in *; try discriminate; auto.
Qed.

Lemma cosineSimilarity_same_length (vec1 vec2 : list num) :
  List.length vec1 = List.length vec2 ->
  cosineSimilarity vec1 vec2 =
  if ngt (nsqrt (sumsq vec1) * nsqrt (sumsq vec2))%num zero
  then (dot vec1 vec2 / (nsqrt (sumsq vec1) * nsqrt (sumsq vec2)))%num
  else zero.
Proof.
  intros Hlen. unfold cosineSimilarity.
  rewrite (proj2 (Nat.eqb_eq _ _) Hlen). cbn [negb].
  rewrite (cosine_loop_eq _ _ Hlen). reflexivity.
Qed.

Lemma cosineSimilarity_length_differs (vec1 vec2 : list num) :
  List.length vec1 <> List.length vec2 -> cosineSimilarity vec1 vec2 = zero.
Proof.
  intros Hlen. unfold cosineSimilarity.
  rewrite (proj2 (Nat.eqb_neq _ _) Hlen). reflexivity.
Qed.

End CosineFacts.

Lemma cosine_zero_norm (vec1 vec2 : list float) :
  List.length vec1 <> List.length vec2 \/ zero_norm vec1 = true \/ zero_norm vec2 = true ->
  cosineSimilarity vec1 vec2 = 0%float.
Proof.
  intros Hc.
  destruct (Nat.eq_dec (List.length vec1) (List.length vec2)) as [Hlen|Hlen].
  - rewrite (cosineSimilarity_same_length _ _ Hlen).
    destruct Hc as [Hne|Hz]; [contradiction|].
    unfold ngt. change (@nlt float _) with PrimFloat.ltb.
    change (@nmul float _) with PrimFloat.mul. change (@nsqrt float _) with PrimFloat.sqrt.
    change (@zero float _) with 0%float.
    destruct Hz as [Hz|Hz].
    + rewrite (sqrt_zero_mul_not_positive _ _ Hz). reflexivity.
    + rewrite (mul_sqrt_zero_not_positive _ _ Hz). reflexivity.
  - now rewrite (cosineSimilarity_length_differs _ _ Hlen).
Qed.

(** C8: [searchRules] leaves the catalog unchanged.  On a catalog whose
    references point into the store, for every query vector and every [topK]
    (given or left out), the call returns; every object of the store before the
    call, the rules of the catalog among them, is the same record after it
    (embedding and similarity included); and the references returned are
    new: they are outside the old store, so none is a rule of the catalog,
    and it is on these new objects that the similarity is set. *)
Theorem searchRules_leaves_catalog {num : Type} `{Number num} (kb : KnowledgeBase)
    (queryVector : list num) (topK : option Z) (h : Heap num) :
  kb_wf kb h = true ->
  exists results h',
    searchRules kb queryVector topK h = Some (results, h') /\
    (forall l r, deref h l = Some r -> deref h' l = Some r) /\
    Forall (fun l => exists r, deref h l = Some r /\ deref h' l = Some r) (rules kb) /\
    Forall (fun l => deref h l = None /\ ~ In l (rules kb) /\
                     exists copy s, deref h' l = Some copy /\ similarity copy = Some s)
           results.
Proof.
  intros Hwf.
  destruct (searchRules_outcome kb queryVector topK h Hwf) as (scored & copies & Hs & Hc & He).
  exists (seq (List.length h) (List.length copies)), (h ++ copies).
  split; [exact He|]. split; [intros l r; apply deref_app|]. split.
  - apply kb_wf_Forall in Hwf. rewrite Forall_forall in *. intros l Hl.
    destruct (deref_valid h l (Hwf l Hl)) as [r Hr].
    exists r. split; [exact Hr|now apply deref_app].
  - apply Forall_forall. intros l Hl. apply in_seq in Hl.
    split; [apply nth_error_None; lia|]. split.
    + intros Hin. apply kb_wf_Forall in Hwf. rewrite Forall_forall in Hwf.
      specialize (Hwf l Hin). lia.
    + unfold deref. rewrite nth_error_app2 by lia.
      destruct (nth_error copies (l - List.length h)) as [copy|] eqn:E.
      * exists copy.
        assert (Hin : In copy copies) by (eapply nth_error_In; eauto).
        clear - Hc Hin. induction Hc as [|item c items cs (r & _ & ->) _ IH].
        -- destruct Hin.
        -- destruct Hin as [<-|Hin]; [eexists; split; reflexivity|auto].
      * apply nth_error_None in E. lia.
Qed.

(** ** Ranking over the reals *)

Lemma R_gt_zero (a b : R) : ngt (a - b)%num zero = true <-> (b < a)%R.
Proof.
  unfold ngt, zero. simpl.
  destruct (Rlt_dec 0 (a - b)); split; intros; try reflexivity; try lra; discriminate.
Qed.

Section RankFacts.
Context {A : Type}.
Variable key : A -> R.

Lemma sort_insert_placed (x : nat * A) (acc : list (nat * A)) :
  StronglySorted (placed_before key) acc ->
  Forall (fun u => (fst u < fst x)%nat) acc ->
  StronglySorted (placed_before key) (sort_insert (by_key_placed key) x acc).
Proof.
  induction 1 as [|y rest Hs IH Hy]; intros Hlt; cbn [sort_insert].
  - repeat constructor.
  - inversion Hlt as [|? ? Hyx Hrest]; subst.
    destruct (ngt (by_key_placed key y x) zero) eqn:E.
    + unfold by_key_placed, by_key in E. apply R_gt_zero in E.
      constructor; [constructor; assumption|].
      constructor; [left; exact E|].
      rewrite Forall_forall in *. intros z Hz. left.
      destruct (Hy z Hz) as [Hlt'|[Heq _]]; lra.
    + assert (Hge : (key (snd x) <= key (snd y))%R).
      { destruct (Rle_or_lt (key (snd x)) (key (snd y))) as [Hle|Hgt]; [exact Hle|].
        apply R_gt_zero in Hgt. unfold by_key_placed, by_key in E. congruence. }
      constructor; [apply IH; assumption|].
      eapply Permutation_Forall; [symmetry; apply sort_insert_perm|].
      constructor; [|exact Hy].
      destruct Hge as [Hlt'|Heq]; [left; exact Hlt'|right; split; auto].
Qed.

Lemma fold_insert_placed (l : list A) :
  forall (s : nat) (acc : list (nat * A)),
    StronglySorted (placed_before key) acc ->
    Forall (fun u => (fst u < s)%nat) acc ->
    StronglySorted (placed_before key)
      (fold_left (fun sorted x => sort_insert (by_key_placed key) x sorted)
                 (combine (seq s (List.length l)) l) acc).
Proof.
  induction l as [|a l IH]; intros s acc Hs Hlt; simpl; [exact Hs|].
  apply IH.
  - apply sort_insert_placed; assumption.
  - eapply Permutation_Forall; [symmetry; apply sort_insert_perm|].
    constructor; [simpl; lia|].
    eapply Forall_impl; [|exact Hlt]. simpl. intros; lia.
Qed.

Lemma sort_insert_forget (x : nat * A) (acc : list (nat * A)) :
  map snd (sort_insert (by_key_placed key) x acc) = sort_insert (by_key key) (snd x) (map snd acc).
Proof.
  induction acc as [|y acc IH]; cbn [sort_insert map]; [reflexivity|].
  unfold by_key_placed at 1.
  destruct (ngt (by_key key (snd y) (snd x)) zero); cbn [map]; [reflexivity|].
  now rewrite IH.
Qed.

Lemma fold_insert_forget (l acc : list (nat * A)) :
  map snd (fold_left (fun sorted x => sort_insert (by_key_placed key) x sorted) l acc)
  = fold_left (fun sorted x => sort_insert (by_key key) x sorted) (map snd l) (map snd acc).
Proof.
  revert acc. induction l as [|x l IH]; intros acc; simpl; [reflexivity|].
  rewrite IH. now rewrite sort_insert_forget.
Qed.

Lemma map_snd_combine_seq (s : nat) (l : list A) :
  map snd (combine (seq s (List.length l)) l) = l.
Proof.
  revert s. induction l as [|a l IH]; intros s; simpl; [reflexivity|].
  now rewrite IH.
Qed.

Lemma map_fst_combine_seq (s : nat) (l : list A) :
  map fst (combine (seq s (List.length l)) l) = seq s (List.length l).
Proof.
  revert s. induction l as [|a l IH]; intros s; simpl; [reflexivity|].
  now rewrite IH.
Qed.

(** The sort of [l] is the sort of its placed items: a permutation of them in
    which a greater key comes first and equal keys keep their order. *)
Lemma js_sort_ranking (l : list A) :
  exists placed,
    Permutation placed (combine (seq 0 (List.length l)) l) /\
    StronglySorted (placed_before key) placed /\
    map snd placed = js_sort (by_key key) l.
Proof.
  exists (js_sort (by_key_placed key) (combine (seq 0 (List.length l)) l)).
  split; [apply js_sort_perm|]. split.
  - apply fold_insert_placed; constructor.
  - unfold js_sort. rewrite fold_insert_forget. simpl.
    now rewrite map_snd_combine_seq.
Qed.

End RankFacts.

(** ** Lists *)

Section ListFacts.
Context {A B : Type}.

Lemma In_combine_seq (s : nat) (l : list A) (p : nat) (a : A) :
  In (p, a) (combine (seq s (List.length l)) l) -> nth_error l (p - s) = Some a /\ (s <= p)%nat.
Proof.
  revert s. induction l as [|x l IH]; intros s; simpl; [tauto|].
  intros [Heq|Hin].
  - inversion Heq; subst. rewrite Nat.sub_diag. auto.
  - destruct (IH _ Hin) as [Hn Hle].
    replace (p - s)%nat with (S (p - S s)) by lia. split; [exact Hn|lia].
Qed.

Lemma StronglySorted_map (R1 : A -> A -> Prop) (R2 : B -> B -> Prop) (f : A -> B)
    (l : list A) :
  (forall a b, In a l -> In b l -> R1 a b -> R2 (f a) (f b)) ->
  StronglySorted R1 l -> StronglySorted R2 (map f l).
Proof.
  intros Himp Hs. induction Hs as [|a l Hs IH Ha]; simpl; constructor.
  - apply IH. intros; apply Himp; simpl; auto.
  - rewrite Forall_forall in *. intros y Hy. apply in_map_iff in Hy.
    destruct Hy as (b & <- & Hb). apply Himp; simpl; auto.
Qed.

Lemma Forall2_and_right (P : A -> B -> Prop) (G : B -> Prop) (l : list A) (l' : list B) :
  Forall2 P l l' -> Forall G l' -> Forall2 (fun a b => P a b /\ G b) l l'.
Proof.
  induction 1; intros HG; inversion HG; subst; constructor; auto.
Qed.

End ListFacts.

Lemma Forall2_new_objects {num B : Type} (Q : TheoryRule num -> B -> Prop)
    (copies : list (TheoryRule num)) (us : list B) :
  Forall2 Q copies us ->
  forall pre : Heap num,
    Forall2 (fun l u => exists c, deref (pre ++ copies) l = Some c /\ Q c u)
            (seq (List.length pre) (List.length copies)) us.
Proof.
  induction 1 as [|c u cs us Hcu _ IH]; intros pre; simpl; constructor.
  - exists c. split; [apply deref_new|exact Hcu].
  - specialize (IH (pre ++ [c])). rewrite length_app, Nat.add_1_r in IH.
    rewrite <- app_assoc in IH. exact IH.
Qed.

Section Forall2Facts.
Context {A B C : Type}.

Lemma Forall2_map_l (P : C -> B -> Prop) (f : A -> C) (l : list A) (l' : list B) :
  Forall2 P (map f l) l' -> Forall2 (fun a b => P (f a) b) l l'.
Proof.
  revert l'. induction l as [|a l IH]; intros l' Hf; inversion Hf; subst; constructor; auto.
Qed.

Lemma Forall2_map_r (P : A -> C -> Prop) (f : B -> C) (l : list A) (l' : list B) :
  Forall2 (fun a b => P a (f b)) l l' -> Forall2 P l (map f l').
Proof.
  induction 1; simpl; constructor; auto.
Qed.

Lemma Forall2_nth_error_r (P : A -> B -> Prop) (l : list A) (l' : list B) (p : nat) (b : B) :
  Forall2 P l l' -> nth_error l' p = Some b ->
  exists a, nth_error l p = Some a /\ P a b.
Proof.
  intros Hf. revert p. induction Hf as [|x y l l' Hxy _ IH]; intros [|p] Hp;
    simpl in *; try discriminate.
  - inversion Hp; subst. eauto.
  - auto.
Qed.

End Forall2Facts.

Section FloatOrderFacts.
Local Open Scope Z_scope.

(** ** The order of binary64 numbers *)

Lemma SFcompare_rank (x y : spec_float) :
  x <> S754_nan -> y <> S754_nan ->
  match SFcompare x y with
  | Some Lt => rank_lt (float_rank x) (float_rank y)
  | Some Eq => float_rank x = float_rank y
  | Some Gt => rank_lt (float_rank y) (float_rank x)
  | None => False
  end.
Proof.
  intros Hx Hy.
  destruct x as [sx|sx| |sx mx ex]; [| |congruence|];
    (destruct y as [sy|sy| |sy my ey]; [| |congruence|]);
    cbn [SFcompare float_rank]; unfold rank_lt;
    try (destruct sx); try (destruct sy); cbn [fst snd]; try reflexivity; try lia.
  - change (PosDef.Pos.compare_cont Eq mx my) with (Pos.compare mx my).
    destruct (Z.compare_spec ex ey) as [He|He|He]; [|lia|lia].
    destruct (Pos.compare_spec mx my) as [Hm|Hm|Hm]; cbn [CompOpp]; subst;
      [reflexivity|lia|lia].
  - change (PosDef.Pos.compare_cont Eq mx my) with (Pos.compare mx my).
    destruct (Z.compare_spec ex ey) as [He|He|He]; [|lia|lia].
    destruct (Pos.compare_spec mx my) as [Hm|Hm|Hm]; subst; [reflexivity|lia|lia].
Qed.

Lemma rank_lt_irrefl (a : Z * (Z * Z)) : ~ rank_lt a a.
Proof. unfold rank_lt. lia. Qed.

Lemma rank_lt_asym (a b : Z * (Z * Z)) : rank_lt a b -> ~ rank_lt b a.
Proof. unfold rank_lt. lia. Qed.

Lemma rank_lt_trans (a b c : Z * (Z * Z)) : rank_lt a b -> rank_lt b c -> rank_lt a c.
Proof. unfold rank_lt. lia. Qed.

Lemma SFltb_rank (x y : spec_float) :
  x <> S754_nan -> y <> S754_nan ->
  SFltb x y = true <-> rank_lt (float_rank x) (float_rank y).
Proof.
  intros Hx Hy. pose proof (SFcompare_rank x y Hx Hy) as Hc. unfold SFltb.
  destruct (SFcompare x y) as [[| |]|]; split; intros Hlt; try discriminate;
    try reflexivity; try assumption; try contradiction.
  - rewrite Hc in Hlt. now apply rank_lt_irrefl in Hlt.
  - now apply rank_lt_asym in Hlt.
Qed.

Lemma SFeqb_rank (x y : spec_float) :
  x <> S754_nan -> y <> S754_nan ->
  SFeqb x y = true <-> float_rank x = float_rank y.
Proof.
  intros Hx Hy. pose proof (SFcompare_rank x y Hx Hy) as Hc. unfold SFeqb.
  destruct (SFcompare x y) as [[| |]|]; split; intros Heq; try discriminate;
    try reflexivity; try assumption; try contradiction.
  - rewrite Heq in Hc. now apply rank_lt_irrefl in Hc.
  - rewrite Heq in Hc. now apply rank_lt_irrefl in Hc.
Qed.

Lemma SFltb_not_nan (x y : spec_float) :
  SFltb x y = true -> x <> S754_nan /\ y <> S754_nan.
Proof.
  unfold SFltb. destruct x, y; cbn [SFcompare]; intros Hlt; try discriminate;
    split; discriminate.
Qed.

Lemma SFeqb_not_nan (x y : spec_float) :
  SFeqb x y = true -> x <> S754_nan /\ y <> S754_nan.
Proof.
  unfold SFeqb. destruct x, y; cbn [SFcompare]; intros Heq; try discriminate;
    split; discriminate.
Qed.

Lemma rank_total (a b : Z * (Z * Z)) : rank_lt a b \/ a = b \/ rank_lt b a.
Proof.
  destruct a as [a1 [a2 a3]], b as [b1 [b2 b3]]. unfold rank_lt. cbn [fst snd].
  destruct (Z.lt_total a1 b1) as [H1|[H1|H1]]; [lia| |lia].
  destruct (Z.lt_total a2 b2) as [H2|[H2|H2]]; [lia| |lia].
  destruct (Z.lt_total a3 b3) as [H3|[H3|H3]]; [lia| |lia].
  right. left. congruence.
Qed.

(** *** On primitive floats *)

Lemma is_nan_Prim2SF (x : float) : PrimFloat.is_nan x = false -> Prim2SF x <> S754_nan.
Proof.
  unfold PrimFloat.is_nan. rewrite eqb_spec. intros Hn Hx. rewrite Hx in Hn. discriminate.
Qed.

(** Two numbers are ordered, or equal. *)
Lemma float_trichotomy (x y : float) :
  PrimFloat.is_nan x = false -> PrimFloat.is_nan y = false ->
  PrimFloat.ltb x y = true \/ PrimFloat.eqb x y = true \/ PrimFloat.ltb y x = true.
Proof.
  intros Hx Hy. apply is_nan_Prim2SF in Hx, Hy.
  rewrite !ltb_spec, eqb_spec.
  rewrite !SFltb_rank, SFeqb_rank by assumption. apply rank_total.
Qed.

Lemma float_eqb_sym (x y : float) : PrimFloat.eqb x y = PrimFloat.eqb y x.
Proof.
  rewrite !eqb_spec.
  destruct (SFeqb (Prim2SF x) (Prim2SF y)) eqn:E1, (SFeqb (Prim2SF y) (Prim2SF x)) eqn:E2;
    try reflexivity.
  - destruct (SFeqb_not_nan _ _ E1) as [Hx Hy].
    apply SFeqb_rank in E1; [|assumption|assumption].
    symmetry in E1. apply SFeqb_rank in E1; [congruence|assumption|assumption].
  - destruct (SFeqb_not_nan _ _ E2) as [Hy Hx].
    apply SFeqb_rank in E2; [|assumption|assumption].
    symmetry in E2. apply SFeqb_rank in E2; [congruence|assumption|assumption].
Qed.

Lemma float_ltb_trans (x y z : float) :
  PrimFloat.ltb x y = true -> PrimFloat.ltb y z = true -> PrimFloat.ltb x z = true.
Proof.
  rewrite !ltb_spec. intros H1 H2.
  destruct (SFltb_not_nan _ _ H1) as [Hx Hy], (SFltb_not_nan _ _ H2) as [_ Hz].
  apply SFltb_rank in H1, H2; try assumption.
  apply SFltb_rank; try assumption. eapply rank_lt_trans; eassumption.
Qed.

Lemma float_eqb_ltb (x y z : float) :
  PrimFloat.eqb x y = true -> PrimFloat.ltb x z = true -> PrimFloat.ltb y z = true.
Proof.
  rewrite !ltb_spec, eqb_spec. intros H1 H2.
  destruct (SFeqb_not_nan _ _ H1) as [Hx Hy], (SFltb_not_nan _ _ H2) as [_ Hz].
  apply SFeqb_rank in H1; try assumption. apply SFltb_rank in H2; try assumption.
  apply SFltb_rank; try assumption. now rewrite <- H1.
Qed.

Lemma float_ltb_eqb (x y z : float) :
  PrimFloat.ltb x y = true -> PrimFloat.eqb y z = true -> PrimFloat.ltb x z = true.
Proof.
  rewrite !ltb_spec, eqb_spec. intros H1 H2.
  destruct (SFltb_not_nan _ _ H1) as [Hx Hy], (SFeqb_not_nan _ _ H2) as [_ Hz].
  apply SFeqb_rank in H2; try assumption. apply SFltb_rank in H1; try assumption.
  apply SFltb_rank; try assumption. now rewrite <- H2.
Qed.

Lemma float_ltb_irrefl (x y : float) :
  PrimFloat.ltb x y = true -> PrimFloat.eqb x y = false /\ PrimFloat.ltb y x = false.
Proof.
  rewrite !ltb_spec, eqb_spec. intros H1.
  destruct (SFltb_not_nan _ _ H1) as [Hx Hy].
  apply SFltb_rank in H1; try assumption. split.
  - destruct (SFeqb (Prim2SF x) (Prim2SF y)) eqn:E; [|reflexivity].
    apply SFeqb_rank in E; try assumption. rewrite E in H1.
    now apply rank_lt_irrefl in H1.
  - destruct (SFltb (Prim2SF y) (Prim2SF x)) eqn:E; [|reflexivity].
    apply SFltb_rank in E; try assumption. now apply rank_lt_asym in E.
Qed.

End FloatOrderFacts.

Section FloatDifferenceFacts.
Local Open Scope Z_scope.

(** ** The sign of a binary64 difference *)

Lemma digits2_pos_bounds (m : positive) :
  2 ^ (Z.pos (digits2_pos m) - 1) <= Z.pos m < 2 ^ Z.pos (digits2_pos m).
Proof.
  induction m as [p IH|p IH|]; cbn [digits2_pos].
  - rewrite Pos2Z.inj_succ.
    replace (Z.succ (Z.pos (digits2_pos p)) - 1) with (Z.succ (Z.pos (digits2_pos p) - 1))
      by lia.
    rewrite !Z.pow_succ_r by lia. lia.
  - rewrite Pos2Z.inj_succ.
    replace (Z.succ (Z.pos (digits2_pos p)) - 1) with (Z.succ (Z.pos (digits2_pos p) - 1))
      by lia.
    rewrite !Z.pow_succ_r by lia. lia.
  - cbn. lia.
Qed.

(** A valid finite number: the exponent is in range, the mantissa has at most
    53 digits, and exactly 53 above the least exponent. *)
Lemma bounded_spec (m : positive) (e : Z) :
  SpecFloat.bounded prec emax m e = true ->
  -1074 <= e <= 971 /\ Z.pos (digits2_pos m) <= 53 /\
  (-1074 < e -> Z.pos (digits2_pos m) = 53).
Proof.
  unfold SpecFloat.bounded, canonical_mantissa, fexp, SpecFloat.emin, prec, emax.
  intros Hb. apply andb_true_iff in Hb. destruct Hb as [Hc He].
  apply Z.eqb_eq in Hc. apply Z.leb_le in He. lia.
Qed.

Lemma iter_xO_value (m d : positive) : Z.pos (Pos.iter xO m d) = Z.pos m * 2 ^ Z.pos d.
Proof.
  induction d as [|d IH] using Pos.peano_ind.
  - cbn. lia.
  - rewrite Pos.iter_succ, Pos2Z.inj_xO, IH, Pos2Z.inj_succ, Z.pow_succ_r by lia. lia.
Qed.

Lemma shl_align_value (mx : positive) (ex ez : Z) :
  ez <= ex ->
  Z.pos (fst (shl_align mx ex ez)) = Z.pos mx * 2 ^ (ex - ez) /\ snd (shl_align mx ex ez) = ez.
Proof.
  intros Hle. unfold shl_align. destruct (ez - ex) as [|d|d] eqn:E; cbn [fst snd].
  - replace (ex - ez) with 0 by lia. cbn. lia.
  - lia.
  - change (PosDef.Pos.iter xO mx d) with (Pos.iter xO mx d).
    rewrite iter_xO_value. replace (ex - ez) with (Z.pos d) by lia. auto.
Qed.

(** Positive valid numbers are ordered by exponent, then by mantissa, and
    so are their mantissas aligned on the smaller exponent. *)
Lemma aligned_order (mx my : positive) (ex ey : Z) :
  SpecFloat.bounded prec emax mx ex = true -> SpecFloat.bounded prec emax my ey = true ->
  (Z.pos my * 2 ^ (ey - Z.min ex ey) < Z.pos mx * 2 ^ (ex - Z.min ex ey)
   <-> ey < ex \/ (ey = ex /\ Z.pos my < Z.pos mx)).
Proof.
  intros Hx Hy.
  destruct (bounded_spec mx ex Hx) as (Hex & Hdx & Hnx).
  destruct (bounded_spec my ey Hy) as (Hey & Hdy & Hny).
  pose proof (digits2_pos_bounds mx) as Hbx. pose proof (digits2_pos_bounds my) as Hby.
  assert (H53 : forall d, d <= 53 -> 2 ^ d <= 2 ^ 53)
    by (intros d Hd; apply Z.pow_le_mono_r; lia).
  assert (Hshift : forall k, 0 < k -> 2 <= 2 ^ k).
  { intros k Hk. change 2 with (2 ^ 1) at 1. apply Z.pow_le_mono_r; lia. }
  destruct (Z.lt_total ey ex) as [Hlt|[Heq|Hgt]].
  - rewrite Z.min_r by lia. rewrite Z.sub_diag, Z.pow_0_r, Z.mul_1_r.
    rewrite Hnx in Hbx by lia. change (2 ^ (53 - 1)) with 4503599627370496 in Hbx.
    pose proof (H53 _ Hdy) as Hy53. change (2 ^ 53) with 9007199254740992 in Hy53.
    pose proof (Hshift (ex - ey) ltac:(lia)) as Hs.
    split; [intros _; left; exact Hlt|intros _]. nia.
  - subst ey. rewrite Z.min_id, Z.sub_diag, Z.pow_0_r, !Z.mul_1_r. lia.
  - rewrite Z.min_l by lia. rewrite Z.sub_diag, Z.pow_0_r, Z.mul_1_r.
    rewrite Hny in Hby by lia. change (2 ^ (53 - 1)) with 4503599627370496 in Hby.
    pose proof (H53 _ Hdx) as Hx53. change (2 ^ 53) with 9007199254740992 in Hx53.
    pose proof (Hshift (ey - ex) ltac:(lia)) as Hs.
    split; [intros Hlt|intros [Hlt|[Heq _]]; lia]. nia.
Qed.

(** *** Rounding keeps the sign *)

Lemma shr_1_m (r : shr_record) : 0 <= shr_m r -> shr_m (shr_1 r) = Z.shiftr (shr_m r) 1.
Proof.
  destruct r as [m rr ss]. cbn [shr_m]. intros Hm.
  destruct m as [|[p|p|]|p]; try reflexivity. lia.
Qed.

Lemma iter_shr_1_m (p : positive) :
  forall r, 0 <= shr_m r -> shr_m (iter_pos shr_1 p r) = Z.shiftr (shr_m r) (Z.pos p).
Proof.
  induction p as [p IH|p IH|]; intros r Hr; cbn [iter_pos].
  - assert (H1 : 0 <= shr_m (shr_1 r)) by (rewrite shr_1_m by exact Hr; now apply Z.shiftr_nonneg).
    assert (H2 : 0 <= shr_m (iter_pos shr_1 p (shr_1 r)))
      by (rewrite IH by exact H1; now apply Z.shiftr_nonneg).
    rewrite IH, IH, shr_1_m, !Z.shiftr_shiftr by (assumption || lia).
    f_equal. lia.
  - assert (H2 : 0 <= shr_m (iter_pos shr_1 p r))
      by (rewrite IH by exact Hr; now apply Z.shiftr_nonneg).
    rewrite IH, IH, !Z.shiftr_shiftr by (assumption || lia).
    f_equal. lia.
  - apply shr_1_m, Hr.
Qed.

Lemma shr_record_of_loc_m (m : Z) (l : location) : shr_m (shr_record_of_loc m l) = m.
Proof. destruct l as [|[| |]]; reflexivity. Qed.

(** The shift of [shr_fexp]: by [n] digits when the mantissa has [n] too many,
    the quotient kept. *)
Lemma shr_fexp_value (m : positive) (e : Z) (l : location) :
  let n := Z.max 0 (fexp prec emax (Z.pos (digits2_pos m) + e) - e) in
  shr_m (fst (shr_fexp prec emax (Z.pos m) e l)) = Z.pos m / 2 ^ n /\
  snd (shr_fexp prec emax (Z.pos m) e l) = e + n.
Proof.
  cbv zeta. unfold shr_fexp, shr. cbn [Zdigits2].
  destruct (fexp prec emax (Z.pos (digits2_pos m) + e) - e) as [|p|p] eqn:E; cbn [fst snd].
  - rewrite shr_record_of_loc_m. cbn. rewrite Z.div_1_r. lia.
  - rewrite iter_shr_1_m by (rewrite shr_record_of_loc_m; lia).
    rewrite shr_record_of_loc_m, Z.shiftr_div_pow2 by lia.
    rewrite Z.max_r by lia. split; [reflexivity|lia].
  - rewrite shr_record_of_loc_m. rewrite Z.max_l by lia. cbn. rewrite Z.div_1_r. lia.
Qed.

(** From the least exponent on, the shifted mantissa is positive. *)
Lemma shr_fexp_positive (m : positive) (e : Z) (l : location) :
  -1074 <= e ->
  0 < shr_m (fst (shr_fexp prec emax (Z.pos m) e l)) /\
  -1074 <= snd (shr_fexp prec emax (Z.pos m) e l).
Proof.
  intros He. destruct (shr_fexp_value m e l) as [Hm He']. cbv zeta in Hm, He'.
  rewrite Hm, He'. clear Hm He'.
  pose proof (digits2_pos_bounds m) as Hb.
  unfold fexp, SpecFloat.emin, prec, emax.
  set (d := Z.pos (digits2_pos m)) in *.
  assert (Hd : 0 < d) by (unfold d; lia).
  set (n := Z.max 0 (Z.max (d + e - 53) (3 - 1024 - 53) - e)).
  assert (Hn : 0 <= n <= d - 1) by (unfold n; lia).
  split; [|lia].
  assert (Hpow : 2 ^ n <= 2 ^ (d - 1)) by (apply Z.pow_le_mono_r; lia).
  assert (Hp : 0 < 2 ^ n) by (apply Z.pow_pos_nonneg; lia).
  apply Z.div_str_pos. lia.
Qed.

Lemma round_nearest_even_ge (m : Z) (l : location) : m <= round_nearest_even m l <= m + 1.
Proof.
  unfold round_nearest_even. destruct l as [|[| |]]; try lia.
  destruct (IntDef.Z.even m); lia.
Qed.

Lemma binary_round_aux_nonzero (sx : bool) (m : positive) (e : Z) (l : location) :
  -1074 <= e -> nonzero_float sx (binary_round_aux prec emax sx (Z.pos m) e l).
Proof.
  intros He. unfold binary_round_aux.
  pose proof (shr_fexp_positive m e l He) as [Hm1 He1].
  destruct (shr_fexp prec emax (Z.pos m) e l) as [mrs' e']. cbn [fst snd] in Hm1, He1.
  pose proof (round_nearest_even_ge (shr_m mrs') (loc_of_shr_record mrs')) as Hr.
  destruct (round_nearest_even (shr_m mrs') (loc_of_shr_record mrs')) as [|m2|m2]; [lia| |lia].
  pose proof (shr_fexp_positive m2 e' loc_Exact He1) as [Hm2 _].
  destruct (shr_fexp prec emax (Z.pos m2) e' loc_Exact) as [mrs'' e'']. cbn [fst] in Hm2.
  destruct (shr_m mrs'') as [|m3|m3]; [lia| |lia].
  destruct (e'' <=? emax - prec); [left; eauto|right; reflexivity].
Qed.

Lemma binary_round_nonzero (sx : bool) (m : positive) (e : Z) :
  -1074 <= e -> nonzero_float sx (binary_round prec emax sx m e).
Proof.
  intros He. unfold binary_round.
  destruct (shl_align m e (fexp prec emax (Z.pos (digits2_pos m) + e))) as [mz ez] eqn:E.
  apply binary_round_aux_nonzero.
  unfold shl_align in E.
  destruct (fexp prec emax (Z.pos (digits2_pos m) + e) - e) as [|d|d] eqn:E2;
    injection E as <- <-; try exact He.
  unfold fexp, SpecFloat.emin, prec, emax. lia.
Qed.

(** A rounded integer has the sign of the integer. *)
Lemma binary_normalize_sign (d e : Z) :
  -1074 <= e ->
  (SFltb (S754_zero false) (binary_normalize prec emax d e false) = true <-> 0 < d) /\
  (SFltb (binary_normalize prec emax d e false) (S754_zero false) = true <-> d < 0).
Proof.
  intros He. destruct d as [|m|m]; cbn [binary_normalize].
  - split; (split; [discriminate|lia]).
  - destruct (binary_round_nonzero false m e He) as [(m' & e' & ->)| ->];
      split; split; try reflexivity; try lia; discriminate.
  - destruct (binary_round_nonzero true m e He) as [(m' & e' & ->)| ->];
      split; split; try reflexivity; try lia; discriminate.
Qed.

(** The difference of two numbers is positive exactly when the first is the
    greater, and negative exactly when it is the smaller: rounding the
    difference never changes its sign. *)
Lemma SFsub_sign (x y : spec_float) :
  valid_binary x = true -> valid_binary y = true ->
  x <> S754_nan -> y <> S754_nan ->
  SFltb (S754_zero false) (SFsub prec emax x y) = SFltb y x /\
  SFltb (SFsub prec emax x y) (S754_zero false) = SFltb x y.
Proof.
  intros Hvx Hvy Hx Hy.
  destruct x as [sx|sx| |sx mx ex]; [| |congruence|];
    (destruct y as [sy|sy| |sy my ey]; [| |congruence|]);
    try (destruct sx, sy; split; reflexivity).
  cbn [SFsub]. cbv zeta.
  cbn [SpecFloat.valid_binary] in Hvx, Hvy.
  destruct (bounded_spec mx ex Hvx) as (Hex & _), (bounded_spec my ey Hvy) as (Hey & _).
  destruct (shl_align_value mx ex (IntDef.Z.min ex ey)) as [-> _];
    [change (IntDef.Z.min ex ey) with (Z.min ex ey); lia|].
  destruct (shl_align_value my ey (IntDef.Z.min ex ey)) as [-> _];
    [change (IntDef.Z.min ex ey) with (Z.min ex ey); lia|].
  change (IntDef.Z.min ex ey) with (Z.min ex ey).
  assert (Hpx : 0 < Z.pos mx * 2 ^ (ex - Z.min ex ey))
    by (apply Z.mul_pos_pos; [lia|apply Z.pow_pos_nonneg; lia]).
  assert (Hpy : 0 < Z.pos my * 2 ^ (ey - Z.min ex ey))
    by (apply Z.mul_pos_pos; [lia|apply Z.pow_pos_nonneg; lia]).
  pose proof (aligned_order mx my ex ey Hvx Hvy) as Hxy.
  pose proof (aligned_order my mx ey ex Hvy Hvx) as Hyx.
  rewrite (Z.min_comm ey ex) in Hyx.
  match goal with
  | |- context [binary_normalize prec emax ?d ?e false] =>
      destruct (binary_normalize_sign d e ltac:(lia)) as [Hpos Hneg]
  end.
  split; apply eq_true_iff_eq.
  - rewrite Hpos, SFltb_rank by discriminate.
    unfold rank_lt. destruct sx, sy; cbn [cond_Zopp float_rank fst snd]; lia.
  - rewrite Hneg, SFltb_rank by discriminate.
    unfold rank_lt. destruct sx, sy; cbn [cond_Zopp float_rank fst snd]; lia.
Qed.

(** On primitive floats: [a - b > 0] is [a > b], and [a - b < 0] is [a < b],
    unless a side is NaN: the comparison function [(a, b) => b.key - a.key]
    is a consistent order on keys that are numbers. *)
Lemma float_sub_positive (x y : float) :
  PrimFloat.is_nan x = false -> PrimFloat.is_nan y = false ->
  PrimFloat.ltb 0 (x - y) = PrimFloat.ltb y x.
Proof.
  intros Hx Hy. rewrite !ltb_spec, sub_spec.
  change (Prim2SF 0) with (S754_zero false).
  apply SFsub_sign; try apply Prim2SF_valid; now apply is_nan_Prim2SF.
Qed.

Lemma float_sub_negative (x y : float) :
  PrimFloat.is_nan x = false -> PrimFloat.is_nan y = false ->
  PrimFloat.ltb (x - y) 0 = PrimFloat.ltb x y.
Proof.
  intros Hx Hy. rewrite !ltb_spec, sub_spec.
  change (Prim2SF 0) with (S754_zero false).
  apply SFsub_sign; try apply Prim2SF_valid; now apply is_nan_Prim2SF.
Qed.

End FloatDifferenceFacts.

(** ** Ranking on binary64 *)

Lemma float_gt_zero (a b : float) :
  PrimFloat.is_nan a = false -> PrimFloat.is_nan b = false ->
  ngt (a - b)%num zero = PrimFloat.ltb b a.
Proof. intros Ha Hb. apply (float_sub_positive a b Ha Hb). Qed.

Section FloatRankFacts.
Context {A : Type}.
Variable key : A -> float.

Lemma sort_insert_placed_float (x : nat * A) (acc : list (nat * A)) :
  StronglySorted (placed_before_float key) acc ->
  Forall (fun u => (fst u < fst x)%nat) acc ->
  Forall (fun u => PrimFloat.is_nan (key (snd u)) = false) (x :: acc) ->
  StronglySorted (placed_before_float key) (sort_insert (by_key_placed_float key) x acc).
Proof.
  induction 1 as [|y rest Hs IH Hy]; intros Hlt Hnan; cbn [sort_insert].
  - repeat constructor.
  - inversion Hlt as [|? ? Hyx Hrest]; subst.
    inversion Hnan as [|? ? Hnx Hnacc]; subst.
    inversion Hnacc as [|? ? Hny Hnrest]; subst.
    unfold by_key_placed_float, by_key_float.
    rewrite (float_gt_zero _ _ Hnx Hny).
    destruct (PrimFloat.ltb (key (snd y)) (key (snd x))) eqn:E.
    + constructor; [constructor; assumption|].
      constructor; [left; exact E|].
      rewrite Forall_forall in *. intros z Hz. left.
      destruct (Hy z Hz) as [Hlt'|[Heq _]].
      * eapply float_ltb_trans; eassumption.
      * eapply float_eqb_ltb; eassumption.
    + constructor; [apply IH; [assumption|constructor; assumption]|].
      eapply Permutation_Forall; [symmetry; apply sort_insert_perm|].
      constructor; [|exact Hy].
      destruct (float_trichotomy _ _ Hnx Hny) as [Hlt'|[Heq|Hgt]].
      * left. exact Hlt'.
      * right. split; [now rewrite float_eqb_sym|exact Hyx].
      * congruence.
Qed.

Lemma fold_insert_placed_float (l : list A) :
  forall (s : nat) (acc : list (nat * A)),
    StronglySorted (placed_before_float key) acc ->
    Forall (fun u => (fst u < s)%nat) acc ->
    Forall (fun u => PrimFloat.is_nan (key (snd u)) = false) acc ->
    Forall (fun a => PrimFloat.is_nan (key a) = false) l ->
    StronglySorted (placed_before_float key)
      (fold_left (fun sorted x => sort_insert (by_key_placed_float key) x sorted)
                 (combine (seq s (List.length l)) l) acc).
Proof.
  induction l as [|a l IH]; intros s acc Hs Hlt Hnacc Hnl; simpl; [exact Hs|].
  inversion Hnl as [|? ? Hna Hnl']; subst.
  apply IH.
  - apply sort_insert_placed_float; [assumption|assumption|].
    constructor; assumption.
  - eapply Permutation_Forall; [symmetry; apply sort_insert_perm|].
    constructor; [simpl; lia|].
    eapply Forall_impl; [|exact Hlt]. simpl. intros; lia.
  - eapply Permutation_Forall; [symmetry; apply sort_insert_perm|].
    constructor; assumption.
  - exact Hnl'.
Qed.

Lemma sort_insert_forget_float (x : nat * A) (acc : list (nat * A)) :
  map snd (sort_insert (by_key_placed_float key) x acc)
  = sort_insert (by_key_float key) (snd x) (map snd acc).
Proof.
  induction acc as [|y acc IH]; cbn [sort_insert map]; [reflexivity|].
  unfold by_key_placed_float at 1.
  destruct (ngt (by_key_float key (snd y) (snd x)) zero); cbn [map]; [reflexivity|].
  now rewrite IH.
Qed.

Lemma fold_insert_forget_float (l acc : list (nat * A)) :
  map snd (fold_left (fun sorted x => sort_insert (by_key_placed_float key) x sorted) l acc)
  = fold_left (fun sorted x => sort_insert (by_key_float key) x sorted)
              (map snd l) (map snd acc).
Proof.
  revert acc. induction l as [|x l IH]; intros acc; simpl; [reflexivity|].
  rewrite IH. now rewrite sort_insert_forget_float.
Qed.

(** On binary64, when no key is NaN, the sort of [l] is the sort of its
    placed items: a permutation of them in which a greater key comes first
    and equal keys keep their order. *)
Lemma js_sort_ranking_float (l : list A) :
  Forall (fun a => PrimFloat.is_nan (key a) = false) l ->
  exists placed,
    Permutation placed (combine (seq 0 (List.length l)) l) /\
    StronglySorted (placed_before_float key) placed /\
    map snd placed = js_sort (by_key_float key) l.
Proof.
  intros Hnan.
  exists (js_sort (by_key_placed_float key) (combine (seq 0 (List.length l)) l)).
  split; [apply js_sort_perm|]. split.
  - apply fold_insert_placed_float; try constructor. exact Hnan.
  - unfold js_sort. rewrite fold_insert_forget_float. simpl.
    now rewrite map_snd_combine_seq.
Qed.

End FloatRankFacts.

Lemma js_slice_map {A B : Type} (f : A -> B) (a b : Z) (l : list A) :
  js_slice a b (map f l) = map f (js_slice a b l).
Proof. unfold js_slice. now rewrite length_map, skipn_map, firstn_map. Qed.

Lemma similarities_are_numbers_spec (kb : KnowledgeBase) (h : Heap float)
    (queryVector : list float) :
  similarities_are_numbers kb h queryVector = true ->
  forall p, (p < List.length (rules kb))%nat ->
            PrimFloat.is_nan (catalog_similarity kb h queryVector p) = false.
Proof.
  unfold similarities_are_numbers. rewrite forallb_forall. intros Hall p Hp.
  apply negb_true_iff, Hall, in_seq. lia.
Qed.

(** [searchRules] on binary64, when every similarity is a number. *)
Lemma searchRules_ranking_float (kb : KnowledgeBase) (queryVector : list float)
    (topK : option Z) (h : Heap float) :
  kb_wf kb h = true ->
  similarities_are_numbers kb h queryVector = true ->
  exists results h' ranking,
    searchRules kb queryVector topK h = Some (results, h') /\
    Permutation ranking (seq 0 (List.length (rules kb))) /\
    StronglySorted (ranked_before_float (catalog_similarity kb h queryVector)) ranking /\
    Forall2 (annotated_copy kb h h' (catalog_similarity kb h queryVector))
            results (js_slice 0 (match topK with Some k => k | None => 5%Z end) ranking).
Proof.
  intros Hwf Hnum. pose proof (similarities_are_numbers_spec _ _ _ Hnum) as Hnan.
  destruct (searchRules_outcome kb queryVector topK h Hwf)
    as (scored & copies & Hs & Hc & He).
  set (K := match topK with Some k => k | None => 5%Z end) in *.
  change (fun a b : nat * float => (snd b - snd a)%num)
    with (by_key_float (@snd nat float)) in Hc.
  assert (Hscored : forall p item, nth_error scored p = Some item ->
            exists l r, nth_error (rules kb) p = Some l /\ deref h l = Some r /\
                        fst item = l /\
                        snd item = catalog_similarity kb h queryVector p).
  { intros p item Hn.
    destruct (Forall2_nth_error_r _ _ _ _ _ Hs Hn) as (l & Hl & r & Hr & ->).
    exists l, r. cbn [fst snd]. unfold catalog_similarity. rewrite Hl, Hr. auto. }
  assert (Hkeys : Forall (fun a : nat * float => PrimFloat.is_nan (snd a) = false) scored).
  { apply Forall_forall. intros item Hin.
    destruct (In_nth_error _ _ Hin) as [p Hp].
    destruct (Hscored p item Hp) as (l & r & Hl & _ & _ & ->).
    apply Hnan. apply nth_error_Some. congruence. }
  destruct (js_sort_ranking_float (@snd nat float) scored Hkeys)
    as (placed & Hperm & Hsorted & Hmap).
  rewrite <- Hmap, js_slice_map in Hc.
  assert (Hplaced : Forall (fun u : nat * (nat * float) =>
            exists r, nth_error (rules kb) (fst u) = Some (fst (snd u)) /\
                      deref h (fst (snd u)) = Some r /\
                      snd (snd u) = catalog_similarity kb h queryVector (fst u)) placed).
  { apply Forall_forall. intros [p item] Hin.
    eapply Permutation_in in Hin; [|exact Hperm].
    apply In_combine_seq in Hin. destruct Hin as [Hn _]. rewrite Nat.sub_0_r in Hn.
    destruct (Hscored p item Hn) as (l & r & Hl & Hr & <- & Hsim).
    exists r. cbn [fst snd]. auto. }
  exists (seq (List.length h) (List.length copies)), (h ++ copies), (map fst placed).
  split; [exact He|]. split; [|split].
  - rewrite (Forall2_length Hs), <- (map_fst_combine_seq 0 scored).
    apply Permutation_map, Hperm.
  - eapply StronglySorted_map; [|exact Hsorted].
    rewrite Forall_forall in Hplaced.
    intros a b Ha Hb Hab.
    destruct (Hplaced a Ha) as (_ & _ & _ & Hka), (Hplaced b Hb) as (_ & _ & _ & Hkb).
    unfold placed_before_float in Hab. unfold ranked_before_float.
    rewrite <- Hka, <- Hkb. exact Hab.
  - rewrite js_slice_map. apply Forall2_map_r.
    apply Forall2_map_l, Forall2_flip in Hc.
    pose proof (Forall2_new_objects _ _ _ Hc h) as Hnew.
    pose proof (Forall2_and_right _ _ _ _ Hnew (js_slice_Forall _ 0 K _ Hplaced)) as Hboth.
    eapply Forall2_impl; [|exact Hboth].
    intros l u [(c & Hd & r & Hr & ->) (r' & Hn & Hr' & Hk)].
    simpl in Hr. exists (fst (snd u)), r. rewrite <- Hk. auto.
Qed.

Lemma StronglySorted_related {A : Type} (R : A -> A -> Prop) (l : list A) (a b : A) :
  StronglySorted R l -> In a l -> In b l -> a <> b -> R a b \/ R b a.
Proof.
  induction 1 as [|x l Hs IH Hx]; intros Ha Hb Hne; [destruct Ha|].
  rewrite Forall_forall in Hx.
  destruct Ha as [<-|Ha], Hb as [<-|Hb]; auto. congruence.
Qed.

(** C1 as stated fails twice on the sample catalog of three rules with the
    embeddings (1,0), (0,1) and (1,1).  With [k = -1] the call returns 2
    rules, which is more than [k]: [slice(0, -1)] drops the last item.  With
    the query (1e308, 1e308) the sum of squares of the query overflows: the
    similarities that the results carry are 0, 0 and NaN, in catalog order,
    and no order of the catalog is descending in them, NaN being neither
    above, below nor equal to a number. *)
Lemma searchRules_not_ranked_for_every_query_and_k :
  (exists results h',
     searchRules sample_kb [1; 0]%float (Some (-1)%Z) (@sample_store float _)
     = Some (results, h') /\
     List.length results = 2%nat /\
     (-1 < Z.of_nat (List.length results))%Z) /\
  (exists results h',
     searchRules sample_kb [1e308; 1e308]%float None (@sample_store float _)
     = Some (results, h') /\
     shown h' results
     = [Some ("cadence_authentic", Some 0%float); Some ("cadence_half", Some 0%float);
        Some ("cadence_plagal", Some nan)] /\
     forall ranking,
       Permutation ranking (seq 0 (List.length (rules sample_kb))) ->
       ~ StronglySorted
           (ranked_before_float
              (catalog_similarity sample_kb (@sample_store float _) [1e308; 1e308]%float))
           ranking).
Proof.
  split.
  - eexists. eexists. split; [vm_compute; reflexivity|]. split; [reflexivity|].
    cbn. lia.
  - eexists. eexists. split; [vm_compute; reflexivity|]. split; [vm_compute; reflexivity|].
    intros ranking Hperm Hsorted.
    assert (H2 : In 2%nat ranking)
      by (eapply Permutation_in; [symmetry; exact Hperm|cbn; auto]).
    assert (H0 : In 0%nat ranking)
      by (eapply Permutation_in; [symmetry; exact Hperm|cbn; auto]).
    destruct (StronglySorted_related _ _ 2%nat 0%nat Hsorted H2 H0 ltac:(discriminate))
      as [[Hlt|[Heq _]]|[Hlt|[Heq _]]]; vm_compute in Hlt || vm_compute in Heq; discriminate.
Qed.

(** C1: [searchRules] ranks by descending cosine similarity, ties in catalog
    order.  On binary64, on a catalog whose references point into the store,
    for every query vector whose similarity to every rule is a number (not
    NaN) and every integer [k], given or left to its default 5: the call
    returns; there is a ranking of the positions of the catalog (a permutation
    of them) in which a position comes before another when its similarity to
    the query is greater, or equal with an earlier place in the catalog; the
    results are the items of [slice(0, k)] of that ranking, in that order,
    each a copy of the rule at its position carrying the similarity computed
    for it.  So for [k >= 0] they are the first [k] positions of the ranking,
    at most [k]; for [k < 0] they are the ranking without its last [-k]
    positions. *)
Theorem searchRules_ranked (kb : KnowledgeBase) (queryVector : list float) (topK : option Z)
    (h : Heap float) :
  kb_wf kb h = true ->
  similarities_are_numbers kb h queryVector = true ->
  exists results h' ranking,
    searchRules kb queryVector topK h = Some (results, h') /\
    Permutation ranking (seq 0 (List.length (rules kb))) /\
    StronglySorted (ranked_before_float (catalog_similarity kb h queryVector)) ranking /\
    Forall2 (annotated_copy kb h h' (catalog_similarity kb h queryVector))
            results (js_slice 0 (requested topK) ranking) /\
    ((0 <= requested topK)%Z ->
     js_slice 0 (requested topK) ranking = firstn (Z.to_nat (requested topK)) ranking /\
     (Z.of_nat (List.length results) <= requested topK)%Z) /\
    ((requested topK < 0)%Z ->
     js_slice 0 (requested topK) ranking
     = firstn (List.length (rules kb) - Z.to_nat (- requested topK)) ranking /\
     List.length results = (List.length (rules kb) - Z.to_nat (- requested topK))%nat).
Proof.
  intros Hwf Hnum.
  destruct (searchRules_ranking_float kb queryVector topK h Hwf Hnum)
    as (results & h' & ranking & Hcall & Hperm & Hsorted & Hcopies).
  exists results, h', ranking. fold (requested topK) in Hcopies.
  split; [exact Hcall|]. split; [exact Hperm|]. split; [exact Hsorted|].
  split; [exact Hcopies|].
  pose proof (Permutation_length Hperm) as Hlen. rewrite length_seq in Hlen.
  pose proof (Forall2_length Hcopies) as Hres.
  split; intros Hk.
  - rewrite js_slice_prefix in * by exact Hk. split; [reflexivity|].
    rewrite Hres, length_firstn. lia.
  - assert (Hslice : js_slice 0 (requested topK) ranking
                     = firstn (List.length (rules kb) - Z.to_nat (- requested topK)) ranking).
    { unfold js_slice. cbv zeta. replace (0 <? 0)%Z with false by reflexivity.
      destruct (Z.ltb_spec (requested topK) 0) as [_|Hge]; [|lia].
      assert (H0 : Z.min 0 (Z.of_nat (List.length ranking)) = 0%Z) by lia.
      rewrite H0. cbn [Z.to_nat skipn]. f_equal. lia. }
    split; [exact Hslice|]. rewrite Hres, Hslice, length_firstn. lia.
Qed.

Lemma searchRules_ranked_witness :
  exists results h' ranking,
    searchRules sample_kb [1; 0]%float (Some 2%Z) (@sample_store float _)
    = Some (results, h') /\
    Permutation ranking (seq 0 (List.length (rules sample_kb))) /\
    StronglySorted
      (ranked_before_float (catalog_similarity sample_kb (@sample_store float _) [1; 0]%float))
      ranking /\
    Forall2 (annotated_copy sample_kb (@sample_store float _) h'
               (catalog_similarity sample_kb (@sample_store float _) [1; 0]%float))
            results (js_slice 0 (requested (Some 2%Z)) ranking) /\
    ((0 <= requested (Some 2%Z))%Z ->
     js_slice 0 (requested (Some 2%Z)) ranking
     = firstn (Z.to_nat (requested (Some 2%Z))) ranking /\
     (Z.of_nat (List.length results) <= requested (Some 2%Z))%Z) /\
    ((requested (Some 2%Z) < 0)%Z ->
     js_slice 0 (requested (Some 2%Z)) ranking
     = firstn (List.length (rules sample_kb) - Z.to_nat (- requested (Some 2%Z))) ranking /\
     List.length results
     = (List.length (rules sample_kb) - Z.to_nat (- requested (Some 2%Z)))%nat).
Proof.
  apply (searchRules_ranked sample_kb [1; 0]%float (Some 2%Z) (@sample_store float _)).
  - reflexivity.
  - vm_compute. reflexivity.
Defined.

(** C7: cosine similarity is total and is 0 on degenerate vectors.  On
    binary64, for every pair of vectors of which one has zero norm (as a
    vector of zeros has), or whose lengths differ, [cosineSimilarity] returns
    0, which is not NaN; hence a
    query vector of zero norm has similarity 0 to the rule at every position
    of the catalog, and every rule that [searchRules] returns for it carries
    the similarity 0. *)
Theorem cosineSimilarity_zero_norm_is_zero (kb : KnowledgeBase) (h : Heap float)
    (topK : option Z) (vec1 vec2 : list float) :
  List.length vec1 <> List.length vec2 \/ zero_norm vec1 = true \/ zero_norm vec2 = true ->
  cosineSimilarity vec1 vec2 = 0%float /\
  PrimFloat.is_nan (cosineSimilarity vec1 vec2) = false /\
  (forallb PrimFloat.is_zero vec1 = true -> zero_norm vec1 = true) /\
  (zero_norm vec1 = true -> kb_wf kb h = true ->
   (forall p, catalog_similarity kb h vec1 p = 0%float) /\
   exists results h',
     searchRules kb vec1 topK h = Some (results, h') /\
     Forall (fun l => exists copy, deref h' l = Some copy /\ similarity copy = Some 0%float)
            results).
Proof.
  intros Hc. pose proof (cosine_zero_norm vec1 vec2 Hc) as H0.
  split; [exact H0|]. split; [rewrite H0; reflexivity|].
  split; [apply zeros_zero_norm|].
  intros Hz Hwf. split.
  - intros p. unfold catalog_similarity.
    destruct (nth_error (rules kb) p) as [l|]; [|reflexivity].
    destruct (deref h l) as [r|]; [|reflexivity].
    apply cosine_zero_norm. auto.
  - destruct (searchRules_outcome kb vec1 topK h Hwf) as (scored & copies & Hs & Hcp & He).
    exists (seq (List.length h) (List.length copies)), (h ++ copies).
    split; [exact He|].
    assert (Hzero : Forall (fun item : nat * float => snd item = 0%float) scored).
    { clear - Hs Hz. induction Hs as [|l item ls scored (r & _ & ->) _ IH]; constructor; auto.
      simpl. apply cosine_zero_norm. auto. }
    apply (js_sort_Forall (fun a b : nat * float => (snd b - snd a)%num)) in Hzero.
    apply (js_slice_Forall _ 0 (match topK with Some k => k | None => 5%Z end)) in Hzero.
    pose proof (Forall2_and_right _ _ _ _ (Forall2_flip Hcp) Hzero) as Hboth.
    pose proof (Forall2_new_objects _ _ _ Hboth h) as Hnew.
    clear - Hnew. induction Hnew as [|l u ls us (c & Hd & (r & _ & ->) & Hu) _ IH];
      constructor; auto.
    exists (with_similarity r (snd u)). split; [exact Hd|]. simpl. now rewrite Hu.
Qed.

Lemma cosineSimilarity_zero_norm_is_zero_witness :
  cosineSimilarity [0; 0]%float [3; 4]%float = 0%float /\
  exists results h',
    searchRules sample_kb [0; 0]%float (Some 2%Z) (@sample_store float _) = Some (results, h') /\
    Forall (fun l => exists copy, deref h' l = Some copy /\ similarity copy = Some 0%float)
           results.
Proof.
  destruct (cosineSimilarity_zero_norm_is_zero sample_kb (@sample_store float _) (Some 2%Z)
              [0; 0]%float [3; 4]%float (or_intror (or_introl eq_refl)))
    as (H0 & _ & _ & Hsearch).
  split; [exact H0|]. apply Hsearch; reflexivity.
Defined.

(** On binary64, the five rules that the initialised knowledge base returns
    for the description of a structure, with their similarities. *)
Example searchRules_binary64_sample :
  (let (s, h) := initializeModels None (@new_Service float) [] in
   option_map
     (fun r => map (fun l => option_map (fun c => (rule_id c, similarity c)) (deref (snd r) l))
                   (fst r))
     (retrieveRelevantRules s
        "Musical phrase from measure 1 to 2, moderate tempo, wave melodic contour" h))
  = Some [Some ("tonality_modulation", Some 0.3593108076606461%float);
          Some ("phrase_period", Some 0.32566026044467%float);
          Some ("rhythm_syncopation", Some 0.31033764012512871%float);
          Some ("tonality_minor", Some 0.30510311654081473%float);
          Some ("tonality_major", Some 0.30349327489679057%float)].
Proof. vm_compute. reflexivity. Qed.


Lemma searchRules_leaves_catalog_witness :
  exists results h',
    searchRules sample_kb [1; 0]%float None (@sample_store float _) = Some (results, h') /\
    (forall l r, deref (@sample_store float _) l = Some r -> deref h' l = Some r) /\
    Forall (fun l => exists r, deref (@sample_store float _) l = Some r /\ deref h' l = Some r)
           (rules sample_kb) /\
    Forall (fun l => deref (@sample_store float _) l = None /\ ~ In l (rules sample_kb) /\
                     exists copy s, deref h' l = Some copy /\ similarity copy = Some s)
           results.
Proof.
  apply (@searchRules_leaves_catalog float float_Number sample_kb [1; 0]%float None
           (@sample_store float _)). reflexivity.
Defined.

(** ** The service *)

Section ServiceFacts.
Context {num : Type} `{Number num}.

Lemma initializeModels_lastAnalysis (load : option (EmbeddingModel num)) (s : Service num)
    (h : Heap num) :
  lastAnalysis (fst (initializeModels load s h)) = lastAnalysis s.
Proof.
  unfold initializeModels. destruct (isModelLoaded s); [reflexivity|].
  destruct (initialize (knowledgeBase s) h) as [[kb h1]|]; reflexivity.
Qed.

Lemma groups_of_eq (load : option (EmbeddingModel num))
    (structures : list (MusicStructure num)) (s : Service num) (h : Heap num)
    (random : Random) (drawn : nat) :
  groups_of load structures s h random drawn =
  if (List.length structures <? 4)%nat then []
  else match lastAnalysis s with
       | Some analysis => groupByRelationships structures (relationships analysis)
       | None => fst (groupByPosition structures random drawn)
       end.
Proof.
  unfold groups_of, analyzeSimilarity.
  pose proof (initializeModels_lastAnalysis load s h) as Hl.
  destruct (initializeModels load s h) as [s1 h1]. simpl in Hl. rewrite Hl.
  destruct (List.length structures <? 4)%nat; [reflexivity|].
  destruct (lastAnalysis s); [reflexivity|].
  destruct (groupByPosition structures random drawn); reflexivity.
Qed.

Lemma form_of_eq (load : option (EmbeddingModel num))
    (structures : list (MusicStructure num)) (s : Service num) (h : Heap num)
    (analysis : Analysis num) :
  lastAnalysis s = Some analysis ->
  form_of load structures s h =
  let rels := relationships analysis in
  if is_ternary structures rels then "Ternary Form (ABA)"
  else if (3 <=? count_type rel_repeat rels)%nat && (5 <=? List.length structures)%nat
       then "Rondo Form (ABACA)"
  else if (List.length structures <=? 4)%nat && (1 <=? count_type rel_contrast rels)%nat
       then "Binary Form (AB)"
  else if (8 <=? List.length structures)%nat && (2 <=? count_type rel_repeat rels)%nat
          && (2 <=? count_type rel_contrast rels)%nat
       then "Sonata Form"
  else form_by_count (List.length structures).
Proof.
  intros Ha. unfold form_of, identifyForm.
  pose proof (initializeModels_lastAnalysis load s h) as Hl.
  destruct (initializeModels load s h) as [s1 h1]. simpl in Hl. rewrite Hl, Ha.
  reflexivity.
Qed.

End ServiceFacts.

(** C5: the end-to-end scenario.  With four structures S1..S4 and the
    relationships (S1,S2) repeat 0.9, (S2,S3) contrast 0.2, (S3,S4) repeat 0.85
    as the analysis state, [analyzeSimilarity] returns exactly two groups, A
    with S1 and S2 and B with S3 and S4, each with the similarity and the
    description of its relationship, and [identifyForm] returns
    "Binary Form (AB)". *)
Theorem binary_form_scenario {num : Type} `{Number num}
    (load : option (EmbeddingModel num)) (structures : list (MusicStructure num))
    (analysis : Analysis num) (s : Service num) (h : Heap num)
    (random : Random) (drawn : nat) (d1 d2 d3 : string) :
  map structure_id structures = ["S1"; "S2"; "S3"; "S4"] ->
  lastAnalysis s = Some analysis ->
  relationships analysis = scenario_relationships d1 d2 d3 ->
  groups_of load structures s h random drawn
  = [Build_Group "A" ["S1"; "S2"] (dec 9 10) [d1];
     Build_Group "B" ["S3"; "S4"] (dec 85 100) [d3]] /\
  form_of load structures s h = "Binary Form (AB)".
Proof.
  intros Hids Ha Hrels.
  destruct structures as [|[i1 ? ? ? ? ?] [|[i2 ? ? ? ? ?] [|[i3 ? ? ? ? ?] [|[i4 ? ? ? ? ?] [|]]]]];
    try discriminate Hids.
  simpl in Hids. injection Hids as -> -> -> ->.
  split.
  - rewrite groups_of_eq, Ha, Hrels. reflexivity.
  - rewrite (form_of_eq _ _ _ _ _ Ha), Hrels. reflexivity.
Qed.

Lemma binary_form_scenario_witness :
  groups_of None (map sample_structure ["S1"; "S2"; "S3"; "S4"])
            (Build_Service None false new_KnowledgeBase
               (Some (Build_Analysis [] (scenario_relationships "r12" "c23" "r34"))))
            [] (fun _ => 0%float) 0
  = [Build_Group "A" ["S1"; "S2"] (dec 9 10) ["r12"];
     Build_Group "B" ["S3"; "S4"] (dec 85 100) ["r34"]] /\
  form_of None (map sample_structure ["S1"; "S2"; "S3"; "S4"])
          (Build_Service None false new_KnowledgeBase
             (Some (Build_Analysis [] (scenario_relationships "r12" "c23" "r34"))))
          [] = "Binary Form (AB)".
Proof.
  apply (binary_form_scenario (num := float) None
           (map sample_structure ["S1"; "S2"; "S3"; "S4"])
           (Build_Analysis [] (scenario_relationships "r12" "c23" "r34"))
           (Build_Service None false new_KnowledgeBase
              (Some (Build_Analysis [] (scenario_relationships "r12" "c23" "r34"))))
           [] (fun _ => 0%float) 0 "r12" "c23" "r34");
    reflexivity.
Defined.

(** ** Form identification *)

Lemma RelationshipType_eqb_eq (a b : RelationshipType) :
  RelationshipType_eqb a b = true <-> a = b.
Proof. destruct a, b; simpl; split; intros; congruence. Qed.

Section FormFacts.
Context {num : Type} `{Number num}.

Lemma joins_sym (r : StructureRelationship num) (a b : string) :
  joins r a b = joins r b a.
Proof.
  unfold joins.
  destruct (String.eqb (id1 r) a), (String.eqb (id2 r) b),
           (String.eqb (id2 r) a), (String.eqb (id1 r) b); reflexivity.
Qed.

Lemma joins_ends (r : StructureRelationship num) (a b : string) :
  joins r a b = true -> (id1 r = a /\ id2 r = b) \/ (id1 r = b /\ id2 r = a).
Proof.
  unfold joins. intros Hj. apply orb_true_iff in Hj.
  destruct Hj as [Hj|Hj]; apply andb_true_iff in Hj; destruct Hj as [H1 H2];
    apply String.eqb_eq in H1, H2; auto.
Qed.

(** With one type per pair, the relationship that [find] meets first for a
    pair has the type of any relationship of the pair. *)
Lemma find_firstLast_type (rels : list (StructureRelationship num)) (a b : string)
    (t : RelationshipType) :
  one_type_per_pair rels = true ->
  related_by rels a b t ->
  exists r, find_firstLast a b rels = Some r /\ rel_type r = t.
Proof.
  intros Hone (r & Hin & Hj & Ht).
  change (find_firstLast a b rels)
    with (find (fun r0 : StructureRelationship num => joins r0 a b) rels).
  destruct (find (fun r0 : StructureRelationship num => joins r0 a b) rels) as [r'|] eqn:Ef.
  - exists r'. split; [reflexivity|].
    apply find_some in Ef. destruct Ef as [Hin' Hj'].
    unfold one_type_per_pair in Hone. rewrite forallb_forall in Hone.
    specialize (Hone r Hin). rewrite forallb_forall in Hone. specialize (Hone r' Hin').
    assert (Hj2 : joins r' (id1 r) (id2 r) = true).
    { destruct (joins_ends r a b Hj) as [[-> ->]|[-> ->]]; [exact Hj'|].
      now rewrite joins_sym. }
    rewrite Hj2 in Hone. simpl in Hone. apply RelationshipType_eqb_eq in Hone. congruence.
  - exfalso. pose proof (find_none _ _ Ef r Hin) as Hn. simpl in Hn. congruence.
Qed.

End FormFacts.

Section FirstRelationFacts.
Context {num : Type} `{Number num}.

(** [find] returns the first relationship that joins the pair. *)
Lemma find_first_related (rels : list (StructureRelationship num)) (a b : string)
    (t : RelationshipType) :
  first_related_by rels a b t ->
  exists r, find_firstLast a b rels = Some r /\ rel_type r = t.
Proof.
  intros (before & r & after & -> & Hb & Hj & Ht).
  exists r. split; [|exact Ht].
  change (find_firstLast a b (before ++ r :: after))
    with (find (fun r0 : StructureRelationship num => joins r0 a b) (before ++ r :: after)).
  induction Hb as [|r0 before Hr0 _ IH]; cbn [app find].
  - now rewrite Hj.
  - rewrite Hr0. exact IH.
Qed.

Lemma find_split {A : Type} (f : A -> bool) (l : list A) (x : A) :
  find f l = Some x ->
  exists before after, l = (before ++ x :: after)%list /\ Forall (fun y => f y = false) before.
Proof.
  induction l as [|y l IH]; cbn [find]; [discriminate|].
  destruct (f y) eqn:E.
  - intros [= ->]. exists [], l. split; [reflexivity|constructor].
  - intros Hf. destruct (IH Hf) as (before & after & -> & Hb).
    exists (y :: before), after. split; [reflexivity|constructor; assumption].
Qed.

(** When the relationships of a pair have one type, a relationship of the
    pair has the type of the first one. *)
Lemma one_type_first_related (rels : list (StructureRelationship num)) (a b : string)
    (t : RelationshipType) :
  one_type_per_pair rels = true ->
  related_by rels a b t ->
  first_related_by rels a b t.
Proof.
  intros Hone Hrel.
  destruct (find_firstLast_type rels a b t Hone Hrel) as (r & Hfind & Ht).
  change (find_firstLast a b rels)
    with (find (fun r0 : StructureRelationship num => joins r0 a b) rels) in Hfind.
  destruct (find_split _ _ _ Hfind) as (before & after & Hl & Hb).
  apply find_some in Hfind. destruct Hfind as [_ Hj].
  exists before, r, after. auto.
Qed.

End FirstRelationFacts.

(** C6 as stated fails on this set: 4 structures, 2 repeat relationships, the
    first and the last structure related by a repeat relationship (whichever
    of the two is named first), and the answer is the binary form: the
    contrast relationship of the pair comes first in the set, the rondo
    branch needs 3 repeats, and the binary branch fires. *)
Lemma ternary_form_not_by_any_repeat :
  (3 <= List.length (map (@sample_structure float _) ["S1"; "S2"; "S3"; "S4"]))%nat /\
  (2 <= count_type rel_repeat (@contrast_before_repeat float _))%nat /\
  related_by (@contrast_before_repeat float _) "S1" "S4" rel_repeat /\
  related_by (@contrast_before_repeat float _) "S4" "S1" rel_repeat /\
  (form_of None (map sample_structure ["S1"; "S2"; "S3"; "S4"])
           (Build_Service None false new_KnowledgeBase
              (Some (Build_Analysis [] (@contrast_before_repeat float _)))) []
   = "Binary Form (AB)") /\
  (form_of None (map sample_structure ["S1"; "S2"; "S3"; "S4"])
           (Build_Service None false new_KnowledgeBase
              (Some (Build_Analysis [] (@contrast_before_repeat float _)))) []
   <> "Ternary Form (ABA)").
Proof.
  split; [apply Nat.leb_le; reflexivity|]. split; [apply Nat.leb_le; reflexivity|].
  split; [|split; [|split]].
  - eexists. split; [right; left; reflexivity|]. split; reflexivity.
  - eexists. split; [right; left; reflexivity|]. split; reflexivity.
  - reflexivity.
  - discriminate.
Qed.

(** C6: the ternary branch comes first.  For every list of at least 3
    structures, with an analysis state whose relationship set has at least 2
    repeat relationships and in which the first relationship, in detection
    order, that joins the first and the last structure (in either direction)
    is a repeat relationship, [identifyForm] returns "Ternary Form (ABA)",
    whatever the later branches of the decision list would say.  The test
    looks at that first relationship only: a repeat relationship of the pair
    that comes after a relationship of another type of the same pair does
    not count.  When the relationships of every pair have one type, any
    repeat relationship between the first and the last structure will do. *)
Theorem ternary_form_first {num : Type} `{Number num}
    (load : option (EmbeddingModel num)) (structures : list (MusicStructure num))
    (analysis : Analysis num) (s : Service num) (h : Heap num) (first : MusicStructure num) :
  lastAnalysis s = Some analysis ->
  (3 <= List.length structures)%nat ->
  (2 <= count_type rel_repeat (relationships analysis))%nat ->
  hd_error structures = Some first ->
  first_related_by (relationships analysis) (structure_id first)
                   (structure_id (last structures first)) rel_repeat
  \/ (one_type_per_pair (relationships analysis) = true /\
      related_by (relationships analysis) (structure_id first)
                 (structure_id (last structures first)) rel_repeat) ->
  form_of load structures s h = "Ternary Form (ABA)".
Proof.
  intros Ha Hlen Hrep Hhd Hrel.
  assert (Hfirst : first_related_by (relationships analysis) (structure_id first)
                     (structure_id (last structures first)) rel_repeat).
  { destruct Hrel as [Hrel|[Hone Hrel]]; [exact Hrel|].
    apply one_type_first_related; assumption. }
  rewrite (form_of_eq _ _ _ _ _ Ha). cbv zeta.
  assert (Ht : is_ternary structures (relationships analysis) = true).
  { unfold is_ternary.
    rewrite (proj2 (Nat.leb_le _ _) Hrep), (proj2 (Nat.leb_le _ _) Hlen). cbn [andb].
    destruct structures as [|f rest]; [discriminate|]. injection Hhd as ->.
    destruct (find_first_related _ _ _ _ Hfirst) as (r & -> & ->). reflexivity. }
  now rewrite Ht.
Qed.

Lemma ternary_form_first_witness :
  form_of None (map sample_structure ["S1"; "S2"; "S3"; "S4"; "S5"])
    (Build_Service None false new_KnowledgeBase
       (Some (Build_Analysis []
          [Build_StructureRelationship "S2" "S4" rel_repeat (dec 9 10) "same melody";
           Build_StructureRelationship "S3" "S4" rel_contrast (dec 2 10) "new key";
           Build_StructureRelationship "S5" "S1" rel_repeat (dec 8 10) "return";
           Build_StructureRelationship "S1" "S5" rel_contrast (dec 3 10) "varied";
           Build_StructureRelationship "S1" "S3" rel_repeat (dec 7 10) "echo"])))
    ([] : Heap float)
  = "Ternary Form (ABA)".
Proof.
  apply (ternary_form_first (num := float) None
           (map sample_structure ["S1"; "S2"; "S3"; "S4"; "S5"])
           (Build_Analysis []
              [Build_StructureRelationship "S2" "S4" rel_repeat (dec 9 10) "same melody";
               Build_StructureRelationship "S3" "S4" rel_contrast (dec 2 10) "new key";
               Build_StructureRelationship "S5" "S1" rel_repeat (dec 8 10) "return";
               Build_StructureRelationship "S1" "S5" rel_contrast (dec 3 10) "varied";
               Build_StructureRelationship "S1" "S3" rel_repeat (dec 7 10) "echo"])
           _ [] (sample_structure "S1")); try reflexivity;
    try (apply Nat.leb_le; reflexivity).
  left.
  exists [Build_StructureRelationship "S2" "S4" rel_repeat (dec 9 10) "same melody";
          Build_StructureRelationship "S3" "S4" rel_contrast (dec 2 10) "new key"],
         (Build_StructureRelationship "S5" "S1" rel_repeat (dec 8 10) "return"),
         [Build_StructureRelationship "S1" "S5" rel_contrast (dec 3 10) "varied";
          Build_StructureRelationship "S1" "S3" rel_repeat (dec 7 10) "echo"].
  split; [reflexivity|]. split; [|split; reflexivity].
  repeat (apply Forall_cons; [reflexivity|]). apply Forall_nil.
Defined.

(** ** Position-based grouping *)

Section PositionFacts.
Context {num : Type} `{Number num}.

Lemma synthetic_scores_cons (random : Random) (drawn n : nat) :
  map (synthetic_score random drawn) (seq 0 (S n)) =
  synthetic_score random drawn 0 :: map (synthetic_score random (drawn + 1)) (seq 0 n).
Proof.
  simpl. f_equal. rewrite <- seq_shift, map_map.
  apply map_ext. intros j. unfold synthetic_score. f_equal. f_equal. f_equal. lia.
Qed.

(** Two runs of the loop from the same index: the groups they add have the
    same shape, and each run scores its groups with its own numbers. *)
Lemma position_loop_runs (structures : list (MusicStructure num)) (groupSize fuel : nat) :
  forall (i : nat) (random1 : Random) (drawn1 : nat) (groups1 : list (Group num))
         (random2 : Random) (drawn2 : nat) (groups2 : list (Group num)),
  exists new1 new2,
    fst (position_loop fuel i structures groupSize random1 drawn1 groups1) = (groups1 ++ new1)%list /\
    fst (position_loop fuel i structures groupSize random2 drawn2 groups2) = (groups2 ++ new2)%list /\
    map group_shape new1 = map group_shape new2 /\
    map similarityScore new1 = map (synthetic_score random1 drawn1) (seq 0 (List.length new1)) /\
    map similarityScore new2 = map (synthetic_score random2 drawn2) (seq 0 (List.length new2)).
Proof.
  induction fuel as [|fuel IH]; intros i random1 drawn1 groups1 random2 drawn2 groups2;
    cbn [position_loop].
  - exists [], []. rewrite !app_nil_r. simpl. auto.
  - destruct (2 * i <? List.length structures)%nat.
    + destruct (2 <=? List.length
                  (js_slice (Z.of_nat (i * groupSize))
                     (Z.of_nat (Nat.min (i * groupSize + groupSize + 1)
                                        (List.length structures))) structures))%nat.
      * match goal with
        | |- context [position_loop fuel (i + 1) structures groupSize random1 (drawn1 + 1)
                        (groups1 ++ [?g1])%list] =>
            match goal with
            | |- context [position_loop fuel (i + 1) structures groupSize random2
                            (drawn2 + 1) (groups2 ++ [?g2])%list] =>
                destruct (IH (i + 1)%nat random1 (drawn1 + 1)%nat (groups1 ++ [g1])%list
                             random2 (drawn2 + 1)%nat (groups2 ++ [g2])%list)
                  as (new1 & new2 & E1 & E2 & Hshape & Hs1 & Hs2);
                exists (g1 :: new1), (g2 :: new2)
            end
        end.
        rewrite E1, E2, <- !app_assoc. cbn [app List.length map].
        rewrite !synthetic_scores_cons, Hshape, Hs1, Hs2.
        repeat split; try reflexivity.
        -- f_equal. unfold synthetic_score. cbn [similarityScore]. now rewrite Nat.add_0_r.
        -- f_equal. unfold synthetic_score. cbn [similarityScore]. now rewrite Nat.add_0_r.
      * apply IH.
    + exists [], []. rewrite !app_nil_r. simpl. auto.
Qed.

Lemma group_eq (g1 g2 : Group num) :
  group_shape g1 = group_shape g2 -> similarityScore g1 = similarityScore g2 -> g1 = g2.
Proof.
  destruct g1, g2. unfold group_shape. simpl. intros Hs ->. now inversion Hs.
Qed.

Lemma groups_eq (l1 l2 : list (Group num)) :
  map group_shape l1 = map group_shape l2 ->
  map similarityScore l1 = map similarityScore l2 -> l1 = l2.
Proof.
  revert l2. induction l1 as [|g1 l1 IH]; intros [|g2 l2] Hs Hc; simpl in *;
    try discriminate; [reflexivity|].
  f_equal.
  - apply group_eq.
    + exact (f_equal (hd (group_shape g1)) Hs).
    + exact (f_equal (hd (similarityScore g1)) Hc).
  - apply IH.
    + exact (f_equal (@tl _) Hs).
    + exact (f_equal (@tl _) Hc).
Qed.

End PositionFacts.

(** C9, as the code has it: the fallback grouping is reproducible up to its
    scores.  For every list of at least 4 structures when no relationship data
    is available, two calls with the same arguments on the same state return
    group lists that agree in the number of groups and in the groupId, the
    structureIds and the commonFeatures of every group; the similarityScore of
    the [j]-th group is [0.75 + r * 0.2] for the [j]-th number [r] that
    [Math.random] hands out during the call, so the two lists are identical
    when the generator hands out the same numbers in both calls. *)
Theorem analyzeSimilarity_fallback_reproducible_up_to_scores {num : Type} `{Number num}
    (load : option (EmbeddingModel num)) (structures : list (MusicStructure num))
    (s : Service num) (h : Heap num)
    (random1 : Random) (drawn1 : nat) (random2 : Random) (drawn2 : nat) :
  (4 <= List.length structures)%nat ->
  lastAnalysis s = None ->
  map group_shape (groups_of load structures s h random1 drawn1)
  = map group_shape (groups_of load structures s h random2 drawn2) /\
  map similarityScore (groups_of load structures s h random1 drawn1)
  = map (synthetic_score random1 drawn1)
        (seq 0 (List.length (groups_of load structures s h random1 drawn1))) /\
  ((forall j, random1 (drawn1 + j)%nat = random2 (drawn2 + j)%nat) ->
   groups_of load structures s h random1 drawn1
   = groups_of load structures s h random2 drawn2).
Proof.
  intros Hlen Hnone. rewrite !groups_of_eq, Hnone.
  destruct (Nat.ltb_spec (List.length structures) 4) as [Hlt|_]; [lia|].
  unfold groupByPosition.
  destruct (position_loop_runs structures (List.length structures / 3) 3 0
              random1 drawn1 [] random2 drawn2 [])
    as (new1 & new2 & E1 & E2 & Hshape & Hs1 & Hs2).
  rewrite E1, E2. cbn [app].
  split; [exact Hshape|]. split; [exact Hs1|].
  intros Hsame. apply groups_eq; [exact Hshape|].
  rewrite Hs1, Hs2.
  assert (Hl : List.length new1 = List.length new2).
  { rewrite <- (length_map group_shape new1), Hshape. apply length_map. }
  rewrite Hl. apply map_ext. intros j. unfold synthetic_score. now rewrite Hsame.
Qed.

Lemma analyzeSimilarity_fallback_reproducible_up_to_scores_witness :
  map group_shape (groups_of None (map sample_structure ["S1"; "S2"; "S3"; "S4"; "S5"])
                             new_Service [] (fun _ => 0%float) 0)
  = map group_shape (groups_of None (map sample_structure ["S1"; "S2"; "S3"; "S4"; "S5"])
                               new_Service [] (fun _ => 0.5%float) 7).
Proof.
  apply (analyzeSimilarity_fallback_reproducible_up_to_scores (num := float) None
           (map sample_structure ["S1"; "S2"; "S3"; "S4"; "S5"]) new_Service []
           (fun _ => 0%float) 0 (fun _ => 0.5%float) 7).
  - apply Nat.leb_le. reflexivity.
  - reflexivity.
Defined.

(** C9 as stated fails: the same four structures, the same fresh service and
    the same store, and two different group lists, the generator having handed
    out 0 in one call and 0.5 in the other. *)
Lemma analyzeSimilarity_fallback_not_reproducible :
  groups_of None (map sample_structure ["S1"; "S2"; "S3"; "S4"]) new_Service []
            (fun _ => 0%float) 0
  <> groups_of None (map sample_structure ["S1"; "S2"; "S3"; "S4"]) new_Service []
               (fun _ => 0.5%float) 0.
Proof.
  intros Heq.
  apply (f_equal (fun gs => match gs with
                            | g :: _ => PrimFloat.eqb (similarityScore g) 0.75
                            | [] => true
                            end)) in Heq.
  vm_compute in Heq. discriminate.
Qed.

(** ** Visual recommendation *)

(** C4, as the code has it: the shape of a recommendation.  For every
    emotion, structure level, optional preference state and optional structure
    id, on every state, [recommendVisuals] returns exactly 5 schemes; their
    confidence values are the binary64 results of [0.95 - index * 0.05], that is
    0.95, 0.8999999999999999, 0.85, 0.7999999999999999, 0.75 in that order,
    strictly descending; and each scheme has exactly 1 element when the
    structure level is 'motive' and exactly 3 otherwise. *)
Theorem recommendVisuals_shape (load : option (EmbeddingModel float))
    (emotion : EmotionFeatures) (structureLevel : string)
    (preferences : option (UserPreferences float)) (structureId : option string)
    (s : Service float) (h : Heap float) :
  List.length (schemes_of load emotion structureLevel preferences structureId s h) = 5%nat /\
  map scheme_confidence (schemes_of load emotion structureLevel preferences structureId s h)
  = scheme_confidences /\
  StronglySorted (fun a b => PrimFloat.ltb b a = true)
    (map scheme_confidence (schemes_of load emotion structureLevel preferences structureId s h)) /\
  Forall (fun scheme => List.length (elements scheme)
                        = if String.eqb structureLevel "motive" then 1%nat else 3%nat)
         (schemes_of load emotion structureLevel preferences structureId s h).
Proof.
  unfold schemes_of, recommendVisuals.
  destruct (initializeModels load s h) as [s1 h1]. cbn [fst].
  assert (Hconf : forall t ps pa cs n,
            map scheme_confidence (map (@make_scheme float _ t ps pa cs n) (seq 0 5))
            = scheme_confidences).
  { intros. reflexivity. }
  split; [now rewrite length_map, length_seq|].
  split; [apply Hconf|]. split.
  - rewrite Hconf. unfold scheme_confidences. repeat constructor.
  - apply Forall_forall. intros scheme Hin. apply in_map_iff in Hin.
    destruct Hin as (i & <- & _). cbn [make_scheme elements].
    rewrite length_map, length_seq.
    destruct (String.eqb structureLevel "motive"); [reflexivity|].
    destruct (String.eqb structureLevel "phrase" || String.eqb structureLevel "sub_phrase");
      reflexivity.
Qed.

(** C4 as stated fails: the second confidence value is not 0.90 (nor is the
    fourth 0.80). *)
Lemma recommendVisuals_confidence_not_decimal :
  map scheme_confidence
      (schemes_of None {| speed := fast; intensity := strong; tension := tense |}
                  "phrase" None None new_Service [])
  <> [0.95; 0.90; 0.85; 0.80; 0.75]%float.
Proof.
  intros Heq.
  apply (f_equal (fun cs => match cs with
                            | _ :: c :: _ => PrimFloat.eqb c 0.90
                            | _ => true
                            end)) in Heq.
  vm_compute in Heq. discriminate.
Qed.

(** ** Confidence *)

(** C3 on the code: rules of similarity 0 do not give the confidence 0.5, and
    negative similarities give a confidence below 0.5.  With an encoder that
    returns the zero vector, every rule of the top-5 query has similarity 0,
    the mean is 0, and the confidence attached is 0.75; with an encoder that
    returns a vector of negative components the confidence attached is about
    0.365. *)
Theorem calculateConfidence_outside_claim :
  let structure : MusicStructure float := sample_structure "S1" in
  let musicData : MusicXMLData float := {| measures := [] |} in
  let confidences encoder :=
    let (s, h) := initializeModels (Some encoder) new_Service [] in
    option_map (fun r => map structure_confidence (fst r))
               (enhanceStructuresWithKnowledge s [structure] musicData h) in
  calculateConfidence [with_similarity (mkRule "r" "R" "a rule" cat_form (Build_RuleFeatures None None None) [] 0.9%float) 0%float] = 0.75%float /\
  confidences (fun _ => Some (repeat 0%float 384)) = Some [0.75%float] /\
  confidences (fun _ => Some (repeat (-1)%float 384)) = Some [0.36532016573645631%float].
Proof. vm_compute. repeat split. Qed.

(** ** Pitch parsing *)

Lemma code_in_ascii (lo hi : nat) (c : ascii) :
  code_in lo hi c = true ->
  exists n, (lo <= n <= hi)%nat /\ c = ascii_of_nat n.
Proof.
  unfold code_in. intros Hc. apply andb_true_iff in Hc. destruct Hc as [Hlo Hhi].
  apply Nat.leb_le in Hlo, Hhi.
  exists (nat_of_ascii c). split; [lia|]. symmetry. apply ascii_nat_embedding.
Qed.

Lemma is_note_letter_In (c : ascii) :
  is_note_letter c = true -> In c ["A"; "B"; "C"; "D"; "E"; "F"; "G"]%char.
Proof.
  intros Hc. destruct (code_in_ascii _ _ _ Hc) as (n & Hn & ->).
  assert (Hcases : n = 65 \/ n = 66 \/ n = 67 \/ n = 68 \/ n = 69 \/ n = 70 \/ n = 71)
    by lia.
  repeat (destruct Hcases as [->|Hcases]; [simpl; tauto|]). subst. simpl. tauto.
Qed.

Lemma is_digit_In (c : ascii) :
  is_digit c = true -> In c ["0"; "1"; "2"; "3"; "4"; "5"; "6"; "7"; "8"; "9"]%char.
Proof.
  intros Hc. destruct (code_in_ascii _ _ _ Hc) as (n & Hn & ->).
  assert (Hcases : n = 48 \/ n = 49 \/ n = 50 \/ n = 51 \/ n = 52 \/ n = 53 \/ n = 54
                   \/ n = 55 \/ n = 56 \/ n = 57) by lia.
  repeat (destruct Hcases as [->|Hcases]; [simpl; tauto|]). subst. simpl. tauto.
Qed.

Lemma all_digits_digit_string (s : string) : all_digits s = true -> digit_string s.
Proof.
  unfold digit_string. induction s as [|c s IH]; simpl; [tauto|].
  intros Hd. apply andb_true_iff in Hd. destruct Hd as [Hc Hs].
  intros c' [<-|Hin]; [apply is_digit_In, Hc|apply IH; assumption].
Qed.

Lemma is_accidental_cases (a : ascii) :
  is_accidental a = true -> a = "#"%char \/ a = "b"%char.
Proof.
  unfold is_accidental. intros Ha. apply orb_true_iff in Ha.
  destruct Ha as [Ha|Ha]; apply Ascii.eqb_eq in Ha; auto.
Qed.

(** What the regular expression accepts is a pitch of the specification. *)
Lemma match_pitch_well_formed (pitch : string) :
  match_pitch pitch <> None -> well_formed_pitch pitch.
Proof.
  destruct pitch as [|note rest]; simpl; [congruence|].
  destruct (is_note_letter note) eqn:Hnote; [|congruence].
  apply is_note_letter_In in Hnote. intros Hm.
  destruct rest as [|a r].
  - exists note, "", "". repeat split; auto. intros c [].
  - destruct (is_accidental a) eqn:Hacc.
    + apply is_accidental_cases in Hacc.
      destruct r as [|d r'].
      * exists note, (String a ""), "". repeat split; auto.
        -- destruct Hacc as [->| ->]; auto.
        -- intros c [].
      * destruct (all_digits (String d r')) eqn:Hd; [|congruence].
        exists note, (String a ""), (String d r'). repeat split; auto.
        -- destruct Hacc as [->| ->]; auto.
        -- apply all_digits_digit_string, Hd.
    + destruct (all_digits (String a r)) eqn:Hd; [|congruence].
      exists note, "", (String a r). repeat split; auto.
      apply all_digits_digit_string, Hd.
Qed.

Lemma pitchToNumber_malformed (pitch : string) :
  ~ well_formed_pitch pitch -> pitchToNumber pitch = 60%Z.
Proof.
  intros Hn. unfold pitchToNumber.
  destruct (match_pitch pitch) as [g|] eqn:Hm; [|reflexivity].
  exfalso. apply Hn, match_pitch_well_formed. congruence.
Qed.

Lemma count_steps_level (n : nat) (a d : nat) :
  count_steps 60%Z (repeat 60%Z n) a d = (a, d).
Proof. induction n as [|n IH]; simpl; auto. Qed.

Lemma map_malformed (pitches : list string) :
  Forall (fun p => ~ well_formed_pitch p) pitches ->
  map pitchToNumber pitches = repeat 60%Z (List.length pitches).
Proof.
  induction 1 as [|p ps Hp _ IH]; simpl; [reflexivity|].
  now rewrite (pitchToNumber_malformed p Hp), IH.
Qed.

(** C10: pitch parsing is total.  Every pitch string that is not a letter
    A-G, an optional accidental and an optional octave gets the MIDI number 60;
    a pitch without octave gets the number of its octave 4; contour detection
    answers one of its four labels on every list of strings, and on a list of
    malformed pitches, all taken as 60, it answers 'stable' below two pitches
    and 'wave' from two on.  (The functions of the embedding are total: none
    has an error result.) *)
Theorem pitchToNumber_total (pitch : string) (letter : ascii) (accidental : string)
    (pitches malformed : list string) :
  ~ well_formed_pitch pitch ->
  In letter ["A"; "B"; "C"; "D"; "E"; "F"; "G"]%char ->
  accidental = "" \/ accidental = "#" \/ accidental = "b" ->
  Forall (fun p => ~ well_formed_pitch p) malformed ->
  pitchToNumber pitch = 60%Z /\
  pitchToNumber (String letter accidental) = pitchToNumber (String letter (accidental ++ "4")%string) /\
  In (detectContour pitches) ["stable"; "ascending"; "descending"; "wave"] /\
  detectContour malformed = (if (List.length malformed <? 2)%nat then "stable" else "wave").
Proof.
  intros Hpitch Hletter Hacc Hmal.
  split; [apply pitchToNumber_malformed, Hpitch|]. split; [|split].
  - simpl in Hletter.
    repeat (destruct Hletter as [<-|Hletter];
            [destruct Hacc as [->|[->| ->]]; reflexivity|]).
    destruct Hletter.
  - unfold detectContour.
    destruct (List.length pitches <? 2)%nat; [simpl; auto|].
    destruct (map pitchToNumber pitches) as [|first rest]; [simpl; auto|].
    destruct (count_steps first rest 0 0) as [ascending descending].
    destruct (3 * descending <? 2 * ascending)%nat; [simpl; auto|].
    destruct (3 * ascending <? 2 * descending)%nat; simpl; auto.
  - unfold detectContour. rewrite (map_malformed _ Hmal).
    destruct (List.length malformed <? 2)%nat; [reflexivity|].
    destruct (List.length malformed) as [|n]; [reflexivity|].
    cbn [repeat]. now rewrite count_steps_level.
Qed.

Lemma H4_not_well_formed : ~ well_formed_pitch "H4".
Proof.
  intros (letter & accidental & octave & Hletter & _ & _ & Heq).
  injection Heq as <- _. simpl in Hletter.
  repeat (destruct Hletter as [Hletter|Hletter]; [discriminate|]). destruct Hletter.
Qed.

Lemma do_not_well_formed : ~ well_formed_pitch "do".
Proof.
  intros (letter & accidental & octave & Hletter & _ & _ & Heq).
  injection Heq as <- _. simpl in Hletter.
  repeat (destruct Hletter as [Hletter|Hletter]; [discriminate|]). destruct Hletter.
Qed.

Lemma pitchToNumber_total_witness :
  pitchToNumber "H4" = 60%Z /\
  pitchToNumber "F#" = pitchToNumber "F#4" /\
  In (detectContour ["C4"; "x"; "E4"]) ["stable"; "ascending"; "descending"; "wave"] /\
  detectContour ["H4"; "do"] = "wave".
Proof.
  apply (pitchToNumber_total "H4" "F"%char "#" ["C4"; "x"; "E4"] ["H4"; "do"]).
  - exact H4_not_well_formed.
  - simpl. tauto.
  - tauto.
  - repeat constructor; [exact H4_not_well_formed|exact do_not_well_formed].
Defined.

(** ** The fallback embedding and its specification *)

Section EmbeddingFacts.
Context {num : Type} `{Number num}.

Lemma update_at_map_seq (f : num -> num) (g : nat -> num) (n : nat) :
  forall s p, (p < n)%nat ->
    update_at p f (map g (seq s n))
    = map (fun d => if (d =? s + p)%nat then f (g d) else g d) (seq s n).
Proof.
  induction n as [|n IH]; intros s p Hp; [lia|].
  destruct p as [|p]; simpl.
  - rewrite Nat.add_0_r, Nat.eqb_refl. f_equal.
    apply map_ext_in. intros d Hd. apply in_seq in Hd.
    destruct (Nat.eqb_spec d s); [lia|reflexivity].
  - destruct (Nat.eqb_spec s (s + S p)); [lia|]. f_equal.
    rewrite IH by lia. apply map_ext. intros d.
    now replace (S s + p)%nat with (s + S p)%nat by lia.
Qed.

Lemma accumulated_cons (d p : nat) (w : num) (rest : list (nat * num)) (start : num) :
  accumulated d ((p, w) :: rest) start
  = accumulated d rest (if (d =? p)%nat then (start + w)%num else start).
Proof.
  unfold accumulated. simpl. rewrite (Nat.eqb_sym p d).
  destruct (d =? p)%nat; reflexivity.
Qed.

Lemma accumulated_app (d : nat) (l1 l2 : list (nat * num)) (start : num) :
  accumulated d (l1 ++ l2) start = accumulated d l2 (accumulated d l1 start).
Proof.
  unfold accumulated. now rewrite filter_app, map_app, fold_left_app.
Qed.

Lemma embed_word_accumulates (word : string) (idx : nat) :
  forall (i : nat) (g : nat -> num),
    embed_word word idx i (map g (seq 0 384))
    = map (fun d => accumulated d (word_contributions word idx i) (g d)) (seq 0 384).
Proof.
  induction word as [|ch rest IH]; intros i g; cbn [embed_word word_contributions].
  - reflexivity.
  - rewrite update_at_map_seq by (apply Nat.mod_upper_bound; lia).
    rewrite IH. apply map_ext. intros d. now rewrite accumulated_cons.
Qed.

Lemma embed_words_accumulates (words : list string) :
  forall (idx : nat) (g : nat -> num),
    embed_words words idx (map g (seq 0 384))
    = map (fun d => accumulated d (text_contributions words idx) (g d)) (seq 0 384).
Proof.
  induction words as [|word rest IH]; intros idx g; cbn [embed_words text_contributions].
  - reflexivity.
  - rewrite embed_word_accumulates, IH. apply map_ext. intros d.
    now rewrite accumulated_app.
Qed.

Lemma repeat_map_seq (x : num) (n s : nat) : repeat x n = map (fun _ => x) (seq s n).
Proof. revert s. induction n as [|n IH]; intros s; simpl; [reflexivity|now rewrite <- IH]. Qed.

Lemma raw_embedding_accumulates (text : string) :
  raw_embedding text
  = map (fun d => accumulated d (text_contributions (split_spaces (toLowerCase text)) 0) zero)
        (seq 0 384).
Proof.
  unfold raw_embedding. rewrite (repeat_map_seq zero 384 0). apply embed_words_accumulates.
Qed.

Lemma generateFallbackEmbedding_length (text : string) :
  List.length (generateFallbackEmbedding text) = 384%nat.
Proof.
  unfold generateFallbackEmbedding. rewrite raw_embedding_accumulates.
  destruct (ngt _ zero); now rewrite ?length_map, length_seq.
Qed.

(** A degenerate text contributes nothing. *)
Lemma degenerate_no_contribution (words : list string) (i : nat) :
  forallb (fun w => String.eqb w "") words = true -> text_contributions words i = [].
Proof.
  revert i. induction words as [|w ws IH]; intros i; simpl; [reflexivity|].
  intros Hd. apply andb_true_iff in Hd. destruct Hd as [Hw Hws].
  apply String.eqb_eq in Hw. subst w. simpl. auto.
Qed.

Lemma degenerate_raw (text : string) :
  degenerate text = true -> raw_embedding text = repeat zero 384.
Proof.
  intros Hd. rewrite raw_embedding_accumulates.
  unfold degenerate in Hd. rewrite (degenerate_no_contribution _ 0 Hd).
  symmetry. apply (repeat_map_seq zero 384 0).
Qed.

(** A text that is not degenerate has a contribution. *)
Lemma contribution_exists (words : list string) (i : nat) :
  forallb (fun w => String.eqb w "") words = false ->
  exists c, In c (text_contributions words i).
Proof.
  revert i. induction words as [|w ws IH]; intros i; simpl; [discriminate|].
  destruct w as [|ch w]; simpl.
  - intros Hd. apply IH, Hd.
  - intros _. eexists. left. reflexivity.
Qed.

End EmbeddingFacts.

(** *** Norms over the reals *)

Lemma sumsq_R (l : list R) : sumsq l = fold_left (fun s v => s + v * v)%R l 0%R.
Proof. reflexivity. Qed.

Lemma fold_sumsq_shift (l : list R) (a : R) :
  fold_left (fun s v => s + v * v)%R l a = (a + fold_left (fun s v => s + v * v)%R l 0)%R.
Proof.
  revert a. induction l as [|x l IH]; intros a; simpl; [lra|].
  rewrite IH, (IH (0 + x * x)%R). lra.
Qed.

Lemma sumsq_cons (x : R) (l : list R) : sumsq (x :: l) = (x * x + sumsq l)%R.
Proof.
  rewrite !sumsq_R. simpl. rewrite fold_sumsq_shift. lra.
Qed.

Lemma sumsq_nonneg (l : list R) : (0 <= sumsq l)%R.
Proof.
  induction l as [|x l IH]; [rewrite sumsq_R; simpl; lra|].
  rewrite sumsq_cons. nra.
Qed.

Lemma sumsq_In (x : R) (l : list R) : In x l -> (x * x <= sumsq l)%R.
Proof.
  induction l as [|y l IH]; [intros []|].
  rewrite sumsq_cons. pose proof (sumsq_nonneg l).
  intros [->|Hin]; [lra|]. specialize (IH Hin). nra.
Qed.

Lemma sumsq_scaled (m : R) (l : list R) :
  m <> 0%R -> sumsq (map (fun x => (x / m)%num) l) = (sumsq l / (m * m))%R.
Proof.
  intros Hm. induction l as [|x l IH]; cbn [map].
  - rewrite !sumsq_R. simpl. field. exact Hm.
  - rewrite !sumsq_cons, IH. simpl. field. exact Hm.
Qed.

Lemma sumsq_zeros (n : nat) : sumsq (repeat (@zero R _) n) = 0%R.
Proof.
  induction n as [|n IH]; [reflexivity|].
  cbn [repeat]. rewrite sumsq_cons, IH. unfold zero. simpl. lra.
Qed.

Lemma weight_positive (j : nat) : (0 < @one R _ / of_nat (j + 1))%R.
Proof.
  unfold one, of_nat. simpl. apply Rdiv_lt_0_compat; [lra|].
  apply IZR_lt. lia.
Qed.

Lemma word_contributions_positive (word : string) (i : nat) :
  forall j, Forall (fun c : nat * R => (fst c < 384)%nat /\ (0 < snd c)%R)
                   (word_contributions word i j).
Proof.
  induction word as [|ch rest IH]; intros j; cbn [word_contributions]; constructor;
    [|apply IH].
  cbn [fst snd]. split; [apply Nat.mod_upper_bound; lia|apply weight_positive].
Qed.

Lemma text_contributions_positive (words : list string) :
  forall i, Forall (fun c : nat * R => (fst c < 384)%nat /\ (0 < snd c)%R)
                   (text_contributions words i).
Proof.
  induction words as [|w ws IH]; intros i; cbn [text_contributions]; [constructor|].
  apply Forall_app. split; [apply word_contributions_positive|apply IH].
Qed.

Lemma fold_plus_ge (l : list R) (a : R) :
  Forall (fun w => 0 < w)%R l -> (a <= fold_left Rplus l a)%R.
Proof.
  intros Hl. revert a. induction Hl as [|w l Hw _ IH]; intros a; simpl; [lra|].
  specialize (IH (a + w)%R). lra.
Qed.

Lemma fold_plus_In (l : list R) (a w : R) :
  Forall (fun w => 0 < w)%R l -> In w l -> (0 <= a)%R -> (w <= fold_left Rplus l a)%R.
Proof.
  intros Hl. revert a. induction Hl as [|x l Hx Hl IH]; intros a [].
  - subst x. intros Ha. simpl. pose proof (fold_plus_ge l (a + w)%R Hl). lra.
  - intros Ha. simpl. apply IH; [assumption|lra].
Qed.

(** A contribution makes its dimension positive. *)
Lemma accumulated_positive (contributions : list (nat * R)) (p : nat) (w : R) :
  Forall (fun c : nat * R => (fst c < 384)%nat /\ (0 < snd c)%R) contributions ->
  In (p, w) contributions ->
  (0 < accumulated p contributions zero)%R.
Proof.
  intros Hall Hin. unfold accumulated.
  assert (Hw : (0 < w)%R).
  { rewrite Forall_forall in Hall. apply (Hall (p, w) Hin). }
  assert (Hle : (w <= fold_left Rplus
                   (map snd (filter (fun c : nat * R => (fst c =? p)%nat) contributions))
                   0)%R).
  { apply fold_plus_In.
    - apply Forall_forall. intros x Hx. apply in_map_iff in Hx.
      destruct Hx as (c & <- & Hc). apply filter_In in Hc.
      rewrite Forall_forall in Hall. apply (Hall c), Hc.
    - apply in_map_iff. exists (p, w). split; [reflexivity|].
      apply filter_In. split; [exact Hin|]. simpl. apply Nat.eqb_refl.
    - lra. }
  exact (Rlt_le_trans _ _ _ Hw Hle).
Qed.

Lemma raw_embedding_positive (text : string) :
  degenerate text = false -> (0 < sumsq (@raw_embedding R _ text))%R.
Proof.
  intros Hd. unfold degenerate in Hd.
  destruct (contribution_exists (num := R) _ 0 Hd) as ([p w] & Hin).
  pose proof (text_contributions_positive (split_spaces (toLowerCase text)) 0) as Hall.
  pose proof (accumulated_positive _ p w Hall Hin) as Hpos.
  assert (Hp : (p < 384)%nat).
  { rewrite Forall_forall in Hall. apply (Hall (p, w) Hin). }
  rewrite raw_embedding_accumulates.
  eapply Rlt_le_trans; [|apply sumsq_In].
  2:{ apply in_map_iff. exists p. split; [reflexivity|]. apply in_seq. lia. }
  nra.
Qed.

Lemma fallback_embedding_unit_norm (text : string) :
  degenerate text = false -> norm (@generateFallbackEmbedding R _ text) = 1%R.
Proof.
  intros Hd. pose proof (raw_embedding_positive text Hd) as Hpos.
  unfold norm, generateFallbackEmbedding.
  set (v := raw_embedding text) in *.
  assert (Hm : (0 < R_sqrt.sqrt (sumsq v))%R) by (apply sqrt_lt_R0, Hpos).
  unfold ngt, zero. cbn [nlt nsqrt R_Number num_of_Z].
  destruct (Rlt_dec 0 (R_sqrt.sqrt (sumsq v))) as [_|Hn]; [|contradiction].
  rewrite sumsq_scaled by lra.
  rewrite sqrt_sqrt by lra.
  unfold Rdiv. rewrite Rinv_r by lra. apply sqrt_1.
Qed.

Lemma fallback_embedding_zero_R (text : string) :
  degenerate text = true -> @generateFallbackEmbedding R _ text = repeat 0%R 384.
Proof.
  intros Hd. unfold generateFallbackEmbedding. rewrite (degenerate_raw text Hd).
  rewrite sumsq_zeros. unfold ngt, zero. cbn [nlt nsqrt R_Number num_of_Z].
  rewrite sqrt_0. destruct (Rlt_dec 0 0) as [Hlt|_]; [lra|reflexivity].
Qed.

Lemma fallback_embedding_zero_float (text : string) :
  degenerate text = true -> @generateFallbackEmbedding float _ text = repeat 0%float 384.
Proof.
  intros Hd. unfold generateFallbackEmbedding. rewrite (degenerate_raw text Hd).
  reflexivity.
Qed.

Lemma generateEmbedding_fallback {num : Type} `{Number num} (s : Service num) (text : string) :
  encoder_unavailable s text = true ->
  generateEmbedding s text = generateFallbackEmbedding text.
Proof.
  unfold encoder_unavailable, generateEmbedding.
  destruct (embeddingModel s) as [model|]; [|reflexivity].
  destruct (model text); [discriminate|reflexivity].
Qed.

(** ** The fallback vector on binary64 *)

Section PowerFacts.
Local Open Scope Z_scope.

(** ** Powers of two *)

Lemma pow2_pos (e : Z) : (0 < pow2 e)%R.
Proof. apply powerRZ_lt. lra. Qed.

Lemma pow2_add (a b : Z) : pow2 (a + b) = (pow2 a * pow2 b)%R.
Proof. apply powerRZ_add. lra. Qed.

Lemma pow2_nonneg (e : Z) : 0 <= e -> pow2 e = IZR (2 ^ e).
Proof.
  intros He. unfold pow2. destruct e as [|p|p]; [reflexivity| |lia].
  rewrite <- Zpower_pos_powerRZ. reflexivity.
Qed.

Lemma pow2_ge_1 (e : Z) : 0 <= e -> (1 <= pow2 e)%R.
Proof.
  intros He. rewrite pow2_nonneg by exact He. apply IZR_le.
  assert (0 < 2 ^ e) by (apply Z.pow_pos_nonneg; lia). lia.
Qed.

Lemma pow2_le (a b : Z) : a <= b -> (pow2 a <= pow2 b)%R.
Proof.
  intros Hab. replace b with (a + (b - a)) by lia. rewrite pow2_add.
  pose proof (pow2_pos a). pose proof (pow2_ge_1 (b - a) ltac:(lia)). nra.
Qed.

Lemma pow2_lt (a b : Z) : a < b -> (pow2 a < pow2 b)%R.
Proof.
  intros Hab. replace b with (a + 1 + (b - a - 1)) by lia. rewrite !pow2_add.
  pose proof (pow2_pos a). pose proof (pow2_ge_1 (b - a - 1) ltac:(lia)).
  change (pow2 1) with (2 * 1)%R. nra.
Qed.

Lemma pow2_1 : pow2 1 = 2%R.
Proof. change (pow2 1) with (2 * 1)%R. lra. Qed.

Lemma pow2_lt_inv (a b : Z) : (pow2 a < pow2 b)%R -> a < b.
Proof.
  intros Hlt. destruct (Z.lt_ge_cases a b) as [H|H]; [exact H|].
  apply pow2_le in H. lra.
Qed.

Lemma pow2_le_inv (a b : Z) : (pow2 a <= pow2 b)%R -> a <= b.
Proof.
  intros Hle. destruct (Z.le_gt_cases a b) as [H|H]; [exact H|].
  apply pow2_lt in H. lra.
Qed.

Lemma pow2_sub (a b : Z) : pow2 (a - b) = (pow2 a / pow2 b)%R.
Proof.
  pose proof (pow2_pos b). replace a with (a - b + b) at 2 by lia. rewrite pow2_add.
  field. lra.
Qed.

(** ** Rounding to 53 digits *)

Lemma digits2_pos_unique (m : positive) (d : Z) :
  2 ^ (d - 1) <= Z.pos m < 2 ^ d -> Z.pos (digits2_pos m) = d.
Proof.
  intros Hd. pose proof (digits2_pos_bounds m) as Hb.
  set (D := Z.pos (digits2_pos m)) in *.
  assert (HD : 0 < D) by (unfold D; lia).
  assert (H0 : 0 < d).
  { destruct (Z.lt_ge_cases 0 d) as [H|H]; [exact H|].
    destruct (Z.eq_dec d 0) as [->|Hne]; [cbn in Hd; lia|].
    rewrite (Z.pow_neg_r 2 d) in Hd by lia. lia. }
  destruct (Z.lt_total D d) as [Hlt|[Heq|Hgt]]; [|exact Heq|].
  - assert (2 ^ D <= 2 ^ (d - 1)) by (apply Z.pow_le_mono_r; lia). lia.
  - assert (2 ^ d <= 2 ^ (D - 1)) by (apply Z.pow_le_mono_r; lia). lia.
Qed.

End PowerFacts.

Section RoundingFacts.
Local Open Scope Z_scope.

Lemma fexp_normal (z : Z) : -1021 <= z -> fexp prec emax z = z - 53.
Proof. unfold fexp, SpecFloat.emin, prec, emax. lia. Qed.

Lemma pow2_split (a b : Z) : 0 <= b <= a -> 2 ^ a = 2 ^ (a - b) * 2 ^ b.
Proof. intros H. rewrite <- Z.pow_add_r by lia. f_equal. lia. Qed.

(** A mantissa of [d >= 53] digits at an exponent in the normal range is
    rounded to 53 digits: the quotient [q] of the mantissa by [2^(d-53)], or
    [q + 1], at the exponent [e + d - 53] (written with one more exponent
    when [q + 1] is [2^53]). *)
Lemma binary_round_aux_normal (m : positive) (e : Z) (l : location) :
  53 <= Z.pos (digits2_pos m) ->
  -1074 <= e + Z.pos (digits2_pos m) - 53 ->
  e + Z.pos (digits2_pos m) <= 1023 ->
  exists m' e' k,
    binary_round_aux prec emax false (Z.pos m) e l = S754_finite false m' e' /\
    SpecFloat.bounded prec emax m' e' = true /\
    Z.pos (digits2_pos m') = 53 /\
    (k = Z.pos m / 2 ^ (Z.pos (digits2_pos m) - 53) \/
     k = Z.pos m / 2 ^ (Z.pos (digits2_pos m) - 53) + 1) /\
    0 <= e' - (e + Z.pos (digits2_pos m) - 53) /\
    Z.pos m' * 2 ^ (e' - (e + Z.pos (digits2_pos m) - 53)) = k.
Proof.
  intros Hd Hlo Hhi.
  pose proof (digits2_pos_bounds m) as Hb.
  set (d := Z.pos (digits2_pos m)) in *.
  set (q := Z.pos m / 2 ^ (d - 53)).
  assert (Hn : Z.max 0 (fexp prec emax (d + e) - e) = d - 53)
    by (rewrite fexp_normal by lia; lia).
  assert (Hp : 0 < 2 ^ (d - 53)) by (apply Z.pow_pos_nonneg; lia).
  assert (Hq : 2 ^ 52 <= q < 2 ^ 53).
  { unfold q. split.
    - apply Z.div_le_lower_bound; [exact Hp|].
      rewrite Z.mul_comm, <- Z.pow_add_r by lia. replace (52 + (d - 53)) with (d - 1) by lia.
      lia.
    - apply Z.div_lt_upper_bound; [exact Hp|].
      rewrite <- Z.pow_add_r by lia. replace (d - 53 + 53) with d by lia. lia. }
  unfold binary_round_aux.
  destruct (shr_fexp_value m e l) as [Hm1 He1]. cbv zeta in Hm1, He1.
  fold d in Hm1, He1. rewrite Hn in Hm1, He1. fold q in Hm1.
  destruct (shr_fexp prec emax (Z.pos m) e l) as [mrs' e1]. cbn [fst snd] in Hm1, He1.
  pose proof (round_nearest_even_ge (shr_m mrs') (loc_of_shr_record mrs')) as Hr.
  set (k := round_nearest_even (shr_m mrs') (loc_of_shr_record mrs')) in *.
  rewrite Hm1 in Hr.
  assert (Hk : k = q \/ k = q + 1) by lia.
  change (2 ^ 52) with 4503599627370496 in *. change (2 ^ 53) with 9007199254740992 in *.
  destruct k as [|k'|k'] eqn:Ek; [lia| |lia].
  destruct (shr_fexp_value k' e1 loc_Exact) as [Hm2 He2]. cbv zeta in Hm2, He2.
  destruct (shr_fexp prec emax (Z.pos k') e1 loc_Exact) as [mrs'' e2].
  cbn [fst snd] in Hm2, He2.
  destruct (Z.eq_dec (Z.pos k') 9007199254740992) as [Hcarry|Hnocarry].
  - (* the rounded mantissa is 2^53: one more shift *)
    assert (Hdk : Z.pos (digits2_pos k') = 54)
      by (apply digits2_pos_unique; rewrite Hcarry; cbn; lia).
    rewrite Hdk, fexp_normal in Hm2, He2 by lia.
    replace (Z.max 0 (54 + e1 - 53 - e1)) with 1 in Hm2, He2 by lia.
    rewrite Hcarry in Hm2. change (9007199254740992 / 2 ^ 1) with 4503599627370496 in Hm2.
    rewrite Hm2.
    destruct (Z.leb_spec e2 (emax - prec)) as [_|Hov]; [|unfold emax, prec in Hov; lia].
    exists 4503599627370496%positive, e2, (Z.pos k').
    split; [reflexivity|]. split; [|split; [reflexivity|]].
    + unfold SpecFloat.bounded, canonical_mantissa.
      change (Z.pos (digits2_pos 4503599627370496)) with 53.
      rewrite fexp_normal by lia.
      apply andb_true_iff. split; [apply Z.eqb_eq; lia|].
      apply Z.leb_le. unfold emax, prec. lia.
    + split; [lia|]. split; [lia|].
      replace (e2 - (e + d - 53)) with 1 by lia. rewrite Hcarry. reflexivity.
  - assert (Hdk : Z.pos (digits2_pos k') = 53)
      by (apply digits2_pos_unique;
          change (2 ^ (53 - 1)) with 4503599627370496;
          change (2 ^ 53) with 9007199254740992; lia).
    rewrite Hdk, fexp_normal in Hm2, He2 by lia.
    replace (Z.max 0 (53 + e1 - 53 - e1)) with 0 in Hm2, He2 by lia.
    rewrite Z.pow_0_r, Z.div_1_r in Hm2. rewrite Hm2.
    destruct (Z.leb_spec e2 (emax - prec)) as [_|Hov]; [|unfold emax, prec in Hov; lia].
    exists k', e2, (Z.pos k').
    split; [reflexivity|]. split; [|split; [exact Hdk|]].
    + unfold SpecFloat.bounded, canonical_mantissa. rewrite Hdk, fexp_normal by lia.
      apply andb_true_iff. split; [apply Z.eqb_eq; lia|].
      apply Z.leb_le. unfold emax, prec. lia.
    + split; [lia|]. split; [lia|].
      replace (e2 - (e + d - 53)) with 0 by lia. lia.
Qed.

(** The same in real numbers: the value that the rounding returns is within
    one unit of the last place of every real number that the mantissa
    brackets, hence within [roundoff] of it in relative error. *)
Lemma binary_round_aux_value (m : positive) (e : Z) (l : location) (r : R) :
  53 <= Z.pos (digits2_pos m) ->
  -1074 <= e + Z.pos (digits2_pos m) - 53 ->
  e + Z.pos (digits2_pos m) <= 1023 ->
  (IZR (Z.pos m) * pow2 e <= r < (IZR (Z.pos m) + 1) * pow2 e)%R ->
  exists m' e',
    binary_round_aux prec emax false (Z.pos m) e l = S754_finite false m' e' /\
    SpecFloat.bounded prec emax m' e' = true /\
    Z.pos (digits2_pos m') = 53 /\
    (r * (1 - roundoff) <= SF2R (S754_finite false m' e') <= r * (1 + roundoff))%R.
Proof.
  intros Hd Hlo Hhi Hr.
  destruct (binary_round_aux_normal m e l Hd Hlo Hhi)
    as (m' & e' & k & Hres & Hb & Hd' & Hk & He' & Hval).
  exists m', e'. split; [exact Hres|]. split; [exact Hb|]. split; [exact Hd'|].
  pose proof (digits2_pos_bounds m) as Hbm.
  set (d := Z.pos (digits2_pos m)) in *.
  set (q := Z.pos m / 2 ^ (d - 53)) in *.
  set (e1 := e + d - 53) in *.
  assert (Hp : 0 < 2 ^ (d - 53)) by (apply Z.pow_pos_nonneg; lia).
  (* the value *)
  assert (Hv : SF2R (S754_finite false m' e') = (IZR k * pow2 e1)%R).
  { cbn [SF2R cond_Zopp]. replace e' with (e' - e1 + e1) at 1 by lia.
    rewrite pow2_add, pow2_nonneg by lia. rewrite <- Rmult_assoc, <- mult_IZR, Hval.
    reflexivity. }
  rewrite Hv.
  (* the quotient brackets the mantissa *)
  pose proof (Z.div_mod (Z.pos m) (2 ^ (d - 53)) ltac:(lia)) as Hdm.
  pose proof (Z.mod_pos_bound (Z.pos m) (2 ^ (d - 53)) Hp) as Hmod.
  fold q in Hdm.
  assert (Hq : 2 ^ 52 <= q).
  { unfold q. apply Z.div_le_lower_bound; [exact Hp|].
    rewrite Z.mul_comm, <- Z.pow_add_r by lia. replace (52 + (d - 53)) with (d - 1) by lia.
    lia. }
  assert (He1 : pow2 e1 = (pow2 e * IZR (2 ^ (d - 53)))%R).
  { unfold e1. replace (e + d - 53) with (e + (d - 53)) by lia.
    rewrite pow2_add, (pow2_nonneg (d - 53)) by lia. reflexivity. }
  pose proof (pow2_pos e) as Hpe. pose proof (pow2_pos e1) as Hpe1.
  assert (Hlow : (IZR q * pow2 e1 <= r)%R).
  { rewrite He1. apply Rle_trans with (IZR (Z.pos m) * pow2 e)%R; [|lra].
    rewrite (Rmult_comm (pow2 e)), <- Rmult_assoc, <- mult_IZR.
    apply Rmult_le_compat_r; [lra|]. apply IZR_le. lia. }
  assert (Hup : (r < (IZR q + 1) * pow2 e1)%R).
  { rewrite He1. apply Rlt_le_trans with ((IZR (Z.pos m) + 1) * pow2 e)%R; [lra|].
    rewrite (Rmult_comm (pow2 e)), <- Rmult_assoc.
    apply Rmult_le_compat_r; [lra|].
    rewrite <- (plus_IZR _ 1), <- (plus_IZR q 1), <- mult_IZR. apply IZR_le. nia. }
  assert (Hq' : (4503599627370496 <= IZR q)%R).
  { change 4503599627370496%R with (IZR (2 ^ 52)). apply IZR_le, Hq. }
  unfold roundoff.
  assert (Hulp : (pow2 e1 <= r * / 4503599627370496)%R).
  { apply Rle_trans with (IZR q * pow2 e1 * / 4503599627370496)%R.
    - replace (IZR q * pow2 e1 * / 4503599627370496)%R
        with (pow2 e1 * (IZR q / 4503599627370496))%R by (field; lra).
      assert (1 <= IZR q / 4503599627370496)%R.
      { apply Rmult_le_reg_r with 4503599627370496%R; [lra|].
        unfold Rdiv. rewrite Rmult_assoc, Rinv_l by lra. lra. }
      nra.
    - apply Rmult_le_compat_r; [|exact Hlow].
      apply Rlt_le, Rinv_0_lt_compat. lra. }
  destruct Hk as [-> | ->].
  - fold q. split; [|nra]. lra.
  - fold q. rewrite plus_IZR. split; lra.
Qed.

End RoundingFacts.

Section OperationFacts.
Local Open Scope Z_scope.

Lemma mantissa_value_bounds (m : positive) (e : Z) :
  (pow2 (e + Z.pos (digits2_pos m) - 1) <= IZR (Z.pos m) * pow2 e /\
   (IZR (Z.pos m) + 1) * pow2 e <= pow2 (e + Z.pos (digits2_pos m)))%R.
Proof.
  pose proof (digits2_pos_bounds m) as Hb. pose proof (pow2_pos e) as He.
  set (d := Z.pos (digits2_pos m)) in *.
  assert (Hd : 0 < d) by (unfold d; lia).
  replace (e + d - 1) with ((d - 1) + e) by lia. replace (e + d) with (d + e) by lia.
  rewrite !pow2_add, (pow2_nonneg (d - 1)), (pow2_nonneg d) by lia. split.
  - apply Rmult_le_compat_r; [lra|]. apply IZR_le. lia.
  - apply Rmult_le_compat_r; [lra|]. rewrite <- (plus_IZR _ 1). apply IZR_le. lia.
Qed.

(** Rounding a bracketed real number in the range of the normal numbers. *)
Lemma binary_round_aux_rounds (m : positive) (e : Z) (l : location) (r : R) :
  53 <= Z.pos (digits2_pos m) ->
  (IZR (Z.pos m) * pow2 e <= r < (IZR (Z.pos m) + 1) * pow2 e)%R ->
  (pow2 (-1021) <= r < pow2 1023)%R ->
  exists m' e',
    binary_round_aux prec emax false (Z.pos m) e l = S754_finite false m' e' /\
    SpecFloat.bounded prec emax m' e' = true /\
    Z.pos (digits2_pos m') = 53 /\
    (r * (1 - roundoff) <= SF2R (S754_finite false m' e') <= r * (1 + roundoff))%R.
Proof.
  intros Hd Hr Hrange. pose proof (mantissa_value_bounds m e) as [Hlo Hhi].
  apply binary_round_aux_value; try assumption.
  - assert (Hlt : (pow2 (-1021) < pow2 (e + Z.pos (digits2_pos m)))%R) by lra.
    apply pow2_lt_inv in Hlt. lia.
  - assert (Hlt : (pow2 (e + Z.pos (digits2_pos m) - 1) < pow2 1023)%R) by lra.
    apply pow2_lt_inv in Hlt. lia.
Qed.

Lemma valid_finite (x : float) (s : bool) (m : positive) (e : Z) :
  Prim2SF x = S754_finite s m e -> SpecFloat.bounded prec emax m e = true.
Proof. intros Hx. pose proof (Prim2SF_valid x) as Hv. rewrite Hx in Hv. exact Hv. Qed.

Lemma mantissa_53 (m : positive) :
  Z.pos (digits2_pos m) = 53 -> 4503599627370496 <= Z.pos m < 9007199254740992.
Proof.
  intros Hd. pose proof (digits2_pos_bounds m) as Hb. rewrite Hd in Hb. exact Hb.
Qed.

Lemma digits_at_least (m : positive) (d : Z) :
  2 ^ (d - 1) <= Z.pos m -> d <= Z.pos (digits2_pos m).
Proof.
  intros Hm. pose proof (digits2_pos_bounds m) as Hb.
  destruct (Z.le_gt_cases d (Z.pos (digits2_pos m))) as [H|H]; [exact H|].
  assert (2 ^ Z.pos (digits2_pos m) <= 2 ^ (d - 1)) by (apply Z.pow_le_mono_r; lia).
  lia.
Qed.

(** The value of a positive normal number. *)
Lemma positive_normal_value (x : float) :
  positive_normal x -> (pow2 (-1022) <= float_value x < pow2 1024)%R.
Proof.
  intros (m & e & Hx & Hd). unfold float_value. rewrite Hx. cbn [SF2R cond_Zopp].
  destruct (bounded_spec m e (valid_finite x _ m e Hx)) as (He & _).
  pose proof (mantissa_value_bounds m e) as [Hlo Hhi]. rewrite Hd in Hlo, Hhi.
  pose proof (pow2_pos e) as Hp.
  pose proof (pow2_le (-1022) (e + 53 - 1) ltac:(lia)).
  pose proof (pow2_le (e + 53) 1024 ltac:(lia)).
  split; [lra|]. lra.
Qed.

Lemma positive_normal_positive (x : float) : positive_normal x -> (0 < float_value x)%R.
Proof.
  intros Hx. pose proof (positive_normal_value x Hx). pose proof (pow2_pos (-1022)). lra.
Qed.

Lemma rounded_of (x : float) (r : R) (m : positive) (e : Z) :
  Prim2SF x = S754_finite false m e ->
  Z.pos (digits2_pos m) = 53 ->
  (r * (1 - roundoff) <= SF2R (S754_finite false m e) <= r * (1 + roundoff))%R ->
  rounded r x.
Proof.
  intros Hx Hd Hr. split; [exists m, e; auto|]. unfold float_value. now rewrite Hx.
Qed.

(** *** Product *)

Lemma float_mul_rounded (x y : float) :
  positive_normal x -> positive_normal y ->
  (pow2 (-1021) <= float_value x * float_value y < pow2 1023)%R ->
  rounded (float_value x * float_value y) (x * y)%float.
Proof.
  intros (mx & ex & Hx & Hdx) (my & ey & Hy & Hdy) Hrange.
  unfold float_value in *. rewrite Hx, Hy in *. cbn [SF2R cond_Zopp] in *.
  pose proof (mantissa_53 mx Hdx) as Hmx. pose proof (mantissa_53 my Hdy) as Hmy.
  set (r := (IZR (Z.pos mx) * pow2 ex * (IZR (Z.pos my) * pow2 ey))%R) in *.
  assert (Hr : r = (IZR (Z.pos (mx * my)) * pow2 (ex + ey))%R).
  { unfold r. rewrite Pos2Z.inj_mul, mult_IZR, pow2_add. ring. }
  assert (Hd : 53 <= Z.pos (digits2_pos (mx * my))).
  { apply digits_at_least. rewrite Pos2Z.inj_mul.
    change (2 ^ (53 - 1)) with 4503599627370496. nia. }
  pose proof (pow2_pos (ex + ey)) as Hp.
  destruct (binary_round_aux_rounds (mx * my) (ex + ey) loc_Exact r Hd) as
    (m' & e' & Hres & _ & Hd' & Hval); [rewrite Hr; lra|exact Hrange|].
  apply (rounded_of _ r m' e'); [|exact Hd'|exact Hval].
  rewrite mul_spec, Hx, Hy. exact Hres.
Qed.

(** *** Sum *)

Lemma float_add_rounded (x y : float) :
  positive_normal x -> positive_normal y ->
  (float_value x + float_value y < pow2 1023)%R ->
  rounded (float_value x + float_value y) (x + y)%float.
Proof.
  intros Hnx Hny Hrange.
  pose proof (positive_normal_value x Hnx) as Hvx.
  pose proof (positive_normal_value y Hny) as Hvy.
  destruct Hnx as (mx & ex & Hx & Hdx), Hny as (my & ey & Hy & Hdy).
  unfold float_value in *. rewrite Hx, Hy in *. cbn [SF2R cond_Zopp] in *.
  pose proof (mantissa_53 mx Hdx) as Hmx. pose proof (mantissa_53 my Hdy) as Hmy.
  destruct (bounded_spec mx ex (valid_finite x _ mx ex Hx)) as (Hex & _).
  destruct (bounded_spec my ey (valid_finite y _ my ey Hy)) as (Hey & _).
  set (r := (IZR (Z.pos mx) * pow2 ex + IZR (Z.pos my) * pow2 ey)%R) in *.
  set (ez := Z.min ex ey).
  destruct (shl_align_value mx ex ez ltac:(unfold ez; lia)) as [Hax _].
  destruct (shl_align_value my ey ez ltac:(unfold ez; lia)) as [Hay _].
  set (ax := fst (shl_align mx ex ez)) in *. set (ay := fst (shl_align my ey ez)) in *.
  assert (Hsum : Prim2SF (x + y) = binary_round prec emax false (ax + ay) ez).
  { rewrite add_spec, Hx, Hy. reflexivity. }
  assert (Hpx : 0 < 2 ^ (ex - ez)) by (apply Z.pow_pos_nonneg; unfold ez; lia).
  assert (Hpy : 0 < 2 ^ (ey - ez)) by (apply Z.pow_pos_nonneg; unfold ez; lia).
  assert (Hd : 53 <= Z.pos (digits2_pos (ax + ay))).
  { apply digits_at_least. rewrite Pos2Z.inj_add, Hax, Hay.
    change (2 ^ (53 - 1)) with 4503599627370496. nia. }
  assert (Hr : r = (IZR (Z.pos (ax + ay)) * pow2 ez)%R).
  { unfold r. rewrite Pos2Z.inj_add, plus_IZR, Hax, Hay, !mult_IZR.
    rewrite <- !pow2_nonneg by (unfold ez; lia).
    rewrite Rmult_plus_distr_r, !Rmult_assoc, <- !pow2_add.
    replace (ex - ez + ez) with ex by lia. replace (ey - ez + ez) with ey by lia.
    reflexivity. }
  pose proof (pow2_pos ez) as Hp.
  pose proof (pow2_le (-1021) (-1022 + 1) ltac:(lia)) as Hl.
  assert (Hlow : (pow2 (-1021) <= r)%R).
  { unfold r. replace (-1021) with (-1022 + 1) by lia. rewrite pow2_add.
    rewrite pow2_1. lra. }
  destruct (binary_round_aux_rounds (ax + ay) ez loc_Exact r Hd) as
    (m' & e' & Hres & _ & Hd' & Hval); [rewrite Hr; lra|lra|].
  apply (rounded_of _ r m' e'); [|exact Hd'|exact Hval].
  rewrite Hsum. unfold binary_round, shl_align.
  rewrite fexp_normal by (unfold ez; lia).
  destruct (Z.pos (digits2_pos (ax + ay)) + ez - 53 - ez) as [|p|p] eqn:E; try exact Hres.
  lia.
Qed.

End OperationFacts.

Section QuotientFacts.
Local Open Scope Z_scope.

(** *** Quotient *)

Lemma SFdiv_core_normal (mx my : positive) (ex ey : Z) :
  Z.pos (digits2_pos mx) = 53 -> Z.pos (digits2_pos my) = 53 ->
  -1021 <= ex - ey ->
  exists l,
    SFdiv_core_binary prec emax (Z.pos mx) ex (Z.pos my) ey
    = ((Z.pos mx * 2 ^ 53) / Z.pos my, ex - ey - 53, l).
Proof.
  intros Hdx Hdy He. unfold SFdiv_core_binary. cbn [Zdigits2]. rewrite Hdx, Hdy.
  replace (53 + ex - (53 + ey)) with (ex - ey) by lia.
  rewrite fexp_normal by exact He.
  change (IntDef.Z.min (ex - ey - 53) (ex - ey)) with (Z.min (ex - ey - 53) (ex - ey)).
  rewrite Z.min_l by lia.
  replace (ex - ey - (ex - ey - 53)) with 53 by lia. cbv iota.
  change (IntDef.Z.shiftl (Z.pos mx) 53) with (Z.shiftl (Z.pos mx) 53).
  rewrite Z.shiftl_mul_pow2 by lia.
  change (IntDef.Z.div_eucl (Z.pos mx * 2 ^ 53) (Z.pos my))
    with (Z.div_eucl (Z.pos mx * 2 ^ 53) (Z.pos my)).
  unfold Z.div.
  destruct (Z.div_eucl (Z.pos mx * 2 ^ 53) (Z.pos my)) as [q r]. eauto.
Qed.

Lemma float_div_rounded (x y : float) :
  positive_normal x -> positive_normal y ->
  (pow2 (-1000) <= float_value x / float_value y <= pow2 1000)%R ->
  rounded (float_value x / float_value y) (x / y)%float.
Proof.
  intros (mx & ex & Hx & Hdx) (my & ey & Hy & Hdy) Hrange.
  unfold float_value in *. rewrite Hx, Hy in *. cbn [SF2R cond_Zopp] in *.
  pose proof (mantissa_53 mx Hdx) as Hmx. pose proof (mantissa_53 my Hdy) as Hmy.
  pose proof (pow2_pos ex) as Hpx. pose proof (pow2_pos ey) as Hpy.
  assert (HRx : (4503599627370496 <= IZR (Z.pos mx) < 9007199254740992)%R)
    by (split; [apply IZR_le|apply IZR_lt]; lia).
  assert (HRy : (4503599627370496 <= IZR (Z.pos my) < 9007199254740992)%R)
    by (split; [apply IZR_le|apply IZR_lt]; lia).
  set (r := (IZR (Z.pos mx) * pow2 ex / (IZR (Z.pos my) * pow2 ey))%R) in *.
  (* the exponents *)
  assert (Hr1 : r = (IZR (Z.pos mx) / IZR (Z.pos my) * pow2 (ex - ey))%R).
  { unfold r. rewrite pow2_sub. field. lra. }
  pose proof (pow2_pos (ex - ey)) as Hpd.
  assert (Hratio : (/ 2 < IZR (Z.pos mx) / IZR (Z.pos my) < 2)%R).
  { split.
    - apply Rmult_lt_reg_r with (IZR (Z.pos my)); [lra|].
      unfold Rdiv. rewrite Rmult_assoc, Rinv_l by lra. lra.
    - apply Rmult_lt_reg_r with (IZR (Z.pos my)); [lra|].
      unfold Rdiv. rewrite Rmult_assoc, Rinv_l by lra. lra. }
  assert (He : -1001 <= ex - ey <= 1001).
  { split.
    - assert (Hlt : (pow2 (-1000) < pow2 (ex - ey + 1))%R).
      { rewrite pow2_add, pow2_1. nra. }
      apply pow2_lt_inv in Hlt. lia.
    - assert (Hlt : (pow2 (ex - ey - 1) < pow2 1000)%R).
      { replace (ex - ey) with (ex - ey - 1 + 1) in Hr1, Hpd by lia.
        rewrite pow2_add, pow2_1 in Hr1, Hpd.
        pose proof (pow2_pos (ex - ey - 1)). nra. }
      apply pow2_lt_inv in Hlt. lia. }
  destruct (SFdiv_core_normal mx my ex ey Hdx Hdy ltac:(lia)) as [l Hcore].
  set (q := Z.pos mx * 2 ^ 53 / Z.pos my) in *.
  pose proof (Z.div_mod (Z.pos mx * 2 ^ 53) (Z.pos my) ltac:(lia)) as Hdm.
  pose proof (Z.mod_pos_bound (Z.pos mx * 2 ^ 53) (Z.pos my) ltac:(lia)) as Hmod.
  fold q in Hdm. change (2 ^ 53) with 9007199254740992 in *.
  assert (Hq : 4503599627370496 <= q) by (unfold q; apply Z.div_le_lower_bound; lia).
  destruct q as [|q'|q'] eqn:Eq; [lia| |lia].
  assert (Hd : 53 <= Z.pos (digits2_pos q'))
    by (apply digits_at_least; change (2 ^ (53 - 1)) with 4503599627370496; lia).
  (* the bracket *)
  assert (Hr2 : r = (IZR (Z.pos mx * 9007199254740992) / IZR (Z.pos my)
                     * pow2 (ex - ey - 53))%R).
  { rewrite Hr1. replace (ex - ey) with (53 + (ex - ey - 53)) at 1 by lia.
    rewrite pow2_add, (pow2_nonneg 53) by lia.
    change (2 ^ 53) with 9007199254740992. rewrite mult_IZR. field. lra. }
  pose proof (pow2_pos (ex - ey - 53)) as Hpe.
  assert (Hbr : (IZR (Z.pos q') <= IZR (Z.pos mx * 9007199254740992) / IZR (Z.pos my)
                 < IZR (Z.pos q') + 1)%R).
  { rewrite Hdm, plus_IZR, mult_IZR.
    assert (Hm : (0 <= IZR ((Z.pos mx * 9007199254740992) mod Z.pos my)
                  < IZR (Z.pos my))%R)
      by (split; [apply IZR_le|apply IZR_lt]; lia).
    split.
    - apply Rmult_le_reg_r with (IZR (Z.pos my)); [lra|].
      unfold Rdiv. rewrite Rmult_assoc, Rinv_l by lra. lra.
    - apply Rmult_lt_reg_r with (IZR (Z.pos my)); [lra|].
      unfold Rdiv. rewrite Rmult_assoc, Rinv_l by lra. lra. }
  pose proof (pow2_le (-1021) (-1000) ltac:(lia)) as Hl1.
  pose proof (pow2_lt 1000 1023 ltac:(lia)) as Hl2.
  destruct (binary_round_aux_rounds q' (ex - ey - 53) l r Hd) as
    (m' & e' & Hres & _ & Hd' & Hval); [rewrite Hr2; nra|lra|].
  apply (rounded_of _ r m' e'); [|exact Hd'|exact Hval].
  rewrite div_spec, Hx, Hy. cbn [SFdiv xorb]. unfold SF64div. cbn [SFdiv xorb].
  rewrite Hcore. exact Hres.
Qed.

End QuotientFacts.

Section RootFacts.
Local Open Scope Z_scope.

(** *** Square root *)

Lemma SFsqrt_core_normal (m : positive) (e : Z) :
  Z.pos (digits2_pos m) = 53 -> -1074 <= e <= 971 ->
  exists l,
    SFsqrt_core_binary prec emax (Z.pos m) e
    = (Z.sqrt (Z.pos m * 2 ^ (e - 2 * (e / 2 - 26))), e / 2 - 26, l).
Proof.
  intros Hd He. unfold SFsqrt_core_binary. cbn [Zdigits2]. rewrite Hd.
  change (IntDef.Z.div2 (53 + e + 1)) with (Z.div2 (53 + e + 1)).
  change (IntDef.Z.div2 e) with (Z.div2 e).
  rewrite !Z.div2_div.
  assert (Hh : (53 + e + 1) / 2 = e / 2 + 27).
  { replace (53 + e + 1) with (e + 27 * 2) by lia. apply Z.div_add. lia. }
  pose proof (Z.div_mod e 2 ltac:(lia)) as Hdm.
  pose proof (Z.mod_pos_bound e 2 ltac:(lia)) as Hmod.
  rewrite Hh, fexp_normal by lia.
  change (IntDef.Z.min (e / 2 + 27 - 53) (e / 2)) with (Z.min (e / 2 + 27 - 53) (e / 2)).
  rewrite Z.min_l by lia.
  replace (e / 2 + 27 - 53) with (e / 2 - 26) by lia.
  assert (Hs : 52 <= e - 2 * (e / 2 - 26) <= 53) by lia.
  destruct (e - 2 * (e / 2 - 26)) as [|s|s] eqn:Es; [lia| |lia].
  change (IntDef.Z.shiftl (Z.pos m) (Z.pos s)) with (Z.shiftl (Z.pos m) (Z.pos s)).
  rewrite Z.shiftl_mul_pow2 by lia.
  change (IntDef.Z.sqrtrem (Z.pos m * 2 ^ Z.pos s))
    with (Z.sqrtrem (Z.pos m * 2 ^ Z.pos s)).
  pose proof (Z.sqrtrem_sqrt (Z.pos m * 2 ^ Z.pos s)) as Hq.
  destruct (Z.sqrtrem (Z.pos m * 2 ^ Z.pos s)) as [q r]. cbn [fst] in Hq. rewrite Hq.
  eauto.
Qed.

Lemma float_sqrt_rounded (x : float) :
  positive_normal x ->
  rounded (R_sqrt.sqrt (float_value x)) (PrimFloat.sqrt x).
Proof.
  intros (m & e & Hx & Hd).
  unfold float_value in *. rewrite Hx in *. cbn [SF2R cond_Zopp] in *.
  pose proof (mantissa_53 m Hd) as Hm.
  destruct (bounded_spec m e (valid_finite x _ m e Hx)) as (He & _).
  destruct (SFsqrt_core_normal m e Hd He) as [l Hcore].
  pose proof (Z.div_mod e 2 ltac:(lia)) as Hdm.
  pose proof (Z.mod_pos_bound e 2 ltac:(lia)) as Hmod.
  set (e' := e / 2 - 26) in *. set (s := e - 2 * e') in *.
  assert (Hs : 52 <= s <= 53) by (unfold s, e'; lia).
  set (M := Z.pos m * 2 ^ s) in *.
  assert (Hp : 4503599627370496 <= 2 ^ s <= 9007199254740992).
  { change 4503599627370496 with (2 ^ 52). change 9007199254740992 with (2 ^ 53).
    split; apply Z.pow_le_mono_r; lia. }
  assert (HM : 4503599627370496 * 4503599627370496 <= M
               < 9007199254740992 * 9007199254740992) by (unfold M; nia).
  pose proof (Z.sqrt_spec M ltac:(lia)) as Hq. cbv zeta in Hq.
  set (q := Z.sqrt M) in *.
  assert (Hq0 : 0 <= q) by apply Z.sqrt_nonneg.
  assert (Hqb : 4503599627370496 <= q < 9007199254740992) by nia.
  destruct q as [|q'|q'] eqn:Eq; [lia| |lia].
  assert (Hdq : Z.pos (digits2_pos q') = 53)
    by (apply digits2_pos_unique;
        change (2 ^ (53 - 1)) with 4503599627370496;
        change (2 ^ 53) with 9007199254740992; lia).
  (* the value of the root *)
  pose proof (pow2_pos e') as Hpe.
  assert (Hv : (IZR (Z.pos m) * pow2 e = IZR M * (pow2 e' * pow2 e'))%R).
  { unfold M. rewrite mult_IZR, <- pow2_nonneg by lia.
    rewrite Rmult_assoc, <- !pow2_add. f_equal. f_equal. unfold s. lia. }
  assert (HM0 : (0 <= IZR M)%R) by (apply IZR_le; lia).
  assert (Hroot : R_sqrt.sqrt (IZR (Z.pos m) * pow2 e)
                  = (R_sqrt.sqrt (IZR M) * pow2 e')%R).
  { rewrite Hv, sqrt_mult by nra. rewrite sqrt_square by lra. reflexivity. }
  assert (Hbr : (IZR (Z.pos q') <= R_sqrt.sqrt (IZR M) < IZR (Z.pos q') + 1)%R).
  { assert (Hq1 : (0 <= IZR (Z.pos q'))%R) by (apply IZR_le; lia).
    split.
    - rewrite <- (sqrt_square (IZR (Z.pos q'))) at 1 by exact Hq1.
      apply sqrt_le_1; [nra|exact HM0|]. rewrite <- mult_IZR. apply IZR_le. lia.
    - rewrite <- (sqrt_square (IZR (Z.pos q') + 1)) by lra.
      apply sqrt_lt_1; [exact HM0|nra|].
      rewrite <- (plus_IZR _ 1), <- mult_IZR. apply IZR_lt.
      replace (Z.pos q' + 1) with (Z.succ (Z.pos q')) by lia. lia. }
  destruct (binary_round_aux_value q' e' l (R_sqrt.sqrt (IZR (Z.pos m) * pow2 e)))
    as (m' & e2 & Hres & _ & Hd' & Hval);
    [lia|unfold e'; lia|unfold e'; lia|rewrite Hroot; nra|].
  apply (rounded_of _ _ m' e2); [|exact Hd'|exact Hval].
  rewrite sqrt_spec, Hx. unfold SF64sqrt. cbn [SFsqrt].
  fold e' in Hcore. fold s in Hcore. fold M in Hcore. rewrite Hcore. exact Hres.
Qed.

(** *** Integers *)

Lemma float_of_Z_rounded (p : positive) :
  Z.pos p < 2 ^ 53 -> rounded (IZR (Z.pos p)) (FloatNum.of_Z (Z.pos p)).
Proof.
  intros Hp. unfold FloatNum.of_Z. cbn [binary_normalize]. unfold binary_round.
  pose proof (digits2_pos_bounds p) as Hb.
  set (d := Z.pos (digits2_pos p)) in *.
  assert (Hd0 : 0 < d) by (unfold d; lia).
  assert (Hd : d <= 53).
  { destruct (Z.le_gt_cases d 53) as [H|H]; [exact H|].
    assert (2 ^ 53 <= 2 ^ (d - 1)) by (apply Z.pow_le_mono_r; lia). lia. }
  rewrite fexp_normal by lia.
  destruct (shl_align_value p 0 (d + 0 - 53) ltac:(lia)) as [Hm He].
  destruct (shl_align p 0 (d + 0 - 53)) as [mz ez]. cbn [fst snd] in Hm, He. subst ez.
  replace (0 - (d + 0 - 53)) with (53 - d) in Hm by lia.
  assert (Hdz : Z.pos (digits2_pos mz) = 53).
  { apply digits2_pos_unique. rewrite Hm.
    rewrite (pow2_split (53 - 1) (53 - d)), (pow2_split 53 (53 - d)) by lia.
    replace (53 - 1 - (53 - d)) with (d - 1) by lia.
    replace (53 - (53 - d)) with d by lia.
    assert (0 < 2 ^ (53 - d)) by (apply Z.pow_pos_nonneg; lia). nia. }
  assert (Hr : IZR (Z.pos p) = (IZR (Z.pos mz) * pow2 (d + 0 - 53))%R).
  { rewrite Hm, mult_IZR, <- pow2_nonneg by lia. rewrite Rmult_assoc, <- pow2_add.
    replace (53 - d + (d + 0 - 53)) with 0 by lia. change (pow2 0) with 1%R. ring. }
  pose proof (pow2_pos (d + 0 - 53)) as Hpe.
  destruct (binary_round_aux_value mz (d + 0 - 53) loc_Exact (IZR (Z.pos p)))
    as (m' & e2 & Hres & Hbd & Hd' & Hval); [lia|lia|lia|rewrite Hr; lra|].
  rewrite Hres. apply (rounded_of _ _ m' e2); [|exact Hd'|exact Hval].
  apply Prim2SF_SF2Prim. exact Hbd.
Qed.

(** *** Zero *)

Lemma float_zero_value (x : float) : positive_zero x -> float_value x = 0%R.
Proof. unfold positive_zero, float_value. now intros ->. Qed.

Lemma zero_positive_zero : positive_zero (@zero float _).
Proof. reflexivity. Qed.

Lemma positive_normal_same (x y : float) :
  Prim2SF x = Prim2SF y -> positive_normal y ->
  positive_normal x /\ float_value x = float_value y.
Proof.
  intros Heq (m & e & Hy & Hd). split; [exists m, e; rewrite Heq; auto|].
  unfold float_value. now rewrite Heq.
Qed.

Lemma float_add_zero_l (x y : float) :
  positive_zero x -> positive_normal y -> Prim2SF (x + y)%float = Prim2SF y.
Proof.
  intros Hx (m & e & Hy & _). rewrite add_spec, Hx, Hy. reflexivity.
Qed.

Lemma float_add_zero_r (x y : float) :
  positive_normal x -> positive_zero y -> Prim2SF (x + y)%float = Prim2SF x.
Proof.
  intros (m & e & Hx & _) Hy. rewrite add_spec, Hx, Hy. reflexivity.
Qed.

Lemma float_add_zero_zero (x y : float) :
  positive_zero x -> positive_zero y -> positive_zero (x + y)%float.
Proof. intros Hx Hy. unfold positive_zero. rewrite add_spec, Hx, Hy. reflexivity. Qed.

Lemma float_mul_zero_zero (x y : float) :
  positive_zero x -> positive_zero y -> positive_zero (x * y)%float.
Proof. intros Hx Hy. unfold positive_zero. rewrite mul_spec, Hx, Hy. reflexivity. Qed.

Lemma float_div_zero (x y : float) :
  positive_zero x -> positive_normal y -> positive_zero (x / y)%float.
Proof.
  intros Hx (m & e & Hy & _). unfold positive_zero. rewrite div_spec, Hx, Hy. reflexivity.
Qed.

Lemma positive_normal_gt_zero (x : float) :
  positive_normal x -> PrimFloat.ltb 0 x = true.
Proof. intros (m & e & Hx & _). rewrite ltb_spec, Hx. reflexivity. Qed.

Lemma positive_zero_not_gt (x : float) : positive_zero x -> PrimFloat.ltb 0 x = false.
Proof. intros Hx. rewrite ltb_spec, Hx. reflexivity. Qed.

End RootFacts.

Section AccumulationFacts.
Local Open Scope Z_scope.

Lemma roundoff_value : (0 < roundoff <= / 4503599627370496)%R.
Proof. unfold roundoff. split; [|lra]. apply Rinv_0_lt_compat. lra. Qed.

Lemma pow2_32 : pow2 32 = 4294967296%R.
Proof. rewrite pow2_nonneg by lia. reflexivity. Qed.

Lemma pow2_34 : pow2 34 = 17179869184%R.
Proof. rewrite pow2_nonneg by lia. reflexivity. Qed.

Lemma pow2_neg (e : Z) : pow2 (- e) = (/ pow2 e)%R.
Proof. apply powerRZ_neg'. Qed.

Lemma pow2_neg_34 : pow2 (-34) = (/ 17179869184)%R.
Proof. exact (eq_trans (pow2_neg 34) (f_equal Rinv pow2_34)). Qed.

(** The contribution [1 / (i + 1)] of the character at position [i]. *)
Lemma contribution_value (i : nat) :
  Z.of_nat (i + 1) <= 2 ^ 32 ->
  positive_normal (one / of_nat (i + 1))%num /\
  (/ (2 * IZR (Z.of_nat (i + 1))) <= float_value (one / of_nat (i + 1))%num <= 2)%R.
Proof.
  intros Hi. pose proof roundoff_value as Hu.
  assert (H1 : rounded 1 (@one float _)) by (apply (float_of_Z_rounded 1); reflexivity).
  assert (Hc : rounded (IZR (Z.of_nat (i + 1))) (@of_nat float _ (i + 1))).
  { unfold of_nat. cbn [num_of_Z float_Number].
    destruct (Z.of_nat (i + 1)) as [|p|p] eqn:E; [lia| |lia].
    apply float_of_Z_rounded. change (2 ^ 53) with 9007199254740992.
    change (2 ^ 32) with 4294967296 in Hi. lia. }
  destruct H1 as [Hn1 Hv1], Hc as [Hnc Hvc].
  set (v1 := float_value one) in *. set (vc := float_value (of_nat (i + 1))) in *.
  set (c := IZR (Z.of_nat (i + 1))) in *.
  assert (Hc1 : (1 <= c <= 4294967296)%R).
  { unfold c. split; [apply (IZR_le 1)|apply (IZR_le _ 4294967296)]; lia. }
  assert (Hvc' : (c / 2 <= vc <= 2 * c)%R) by nra.
  assert (Hv1' : (/ 2 <= v1 <= 2)%R) by nra.
  assert (Hlow : ((1 - roundoff) / (c * (1 + roundoff)) <= v1 / vc)%R).
  { unfold Rdiv. apply Rmult_le_compat; try lra.
    - apply Rlt_le, Rinv_0_lt_compat. nra.
    - apply Rinv_le_contravar; nra. }
  assert (Hup : (v1 / vc <= (1 + roundoff) / (c * (1 - roundoff)))%R).
  { unfold Rdiv. apply Rmult_le_compat; try lra.
    - apply Rlt_le, Rinv_0_lt_compat. nra.
    - apply Rinv_le_contravar; nra. }
  assert (Hlow2 : (/ c * (1 - 3 * roundoff) <= (1 - roundoff) / (c * (1 + roundoff)))%R).
  { apply Rmult_le_reg_r with (c * (1 + roundoff))%R; [nra|].
    unfold Rdiv. rewrite (Rmult_assoc (1 - roundoff)), Rinv_l by nra.
    replace (/ c * (1 - 3 * roundoff) * (c * (1 + roundoff)))%R
      with ((1 - 3 * roundoff) * (1 + roundoff))%R by (field; lra).
    nra. }
  assert (Hup2 : ((1 + roundoff) / (c * (1 - roundoff)) <= / c * (1 + 3 * roundoff))%R).
  { apply Rmult_le_reg_r with (c * (1 - roundoff))%R; [nra|].
    unfold Rdiv. rewrite (Rmult_assoc (1 + roundoff)), Rinv_l by nra.
    replace (/ c * (1 + 3 * roundoff) * (c * (1 - roundoff)))%R
      with ((1 + 3 * roundoff) * (1 - roundoff))%R by (field; lra).
    nra. }
  assert (Hic : (/ 4294967296 <= / c <= 1)%R).
  { split.
    - apply Rinv_le_contravar; lra.
    - rewrite <- Rinv_1. apply Rinv_le_contravar; lra. }
  assert (Hrange : (pow2 (-1000) <= v1 / vc <= pow2 1000)%R).
  { pose proof (pow2_le (-1000) (-34) ltac:(lia)) as Hl.
    pose proof (pow2_le 34 1000 ltac:(lia)) as Hh.
    rewrite pow2_neg_34 in Hl. rewrite pow2_34 in Hh. nra. }
  destruct (float_div_rounded one (of_nat (i + 1)) Hn1 Hnc Hrange) as [Hn Hv].
  fold v1 vc in Hv. split; [exact Hn|].
  cbn [ndiv float_Number]. rewrite Rinv_mult. split; nra.
Qed.

(** One more contribution to an entry. *)
Lemma accumulated_entry_add (n : Z) (i : nat) (x : float) :
  0 <= n < 2 ^ 32 -> Z.of_nat (i + 1) <= 2 ^ 32 ->
  accumulated_entry n x ->
  positive_normal (x + one / of_nat (i + 1))%num /\
  accumulated_entry (n + 1) (x + one / of_nat (i + 1))%num.
Proof.
  intros Hn Hi Hx. pose proof roundoff_value as Hu.
  destruct (contribution_value i Hi) as [Hnt Hvt].
  set (t := (one / of_nat (i + 1))%num) in *.
  assert (Hc1 : (1 <= IZR (Z.of_nat (i + 1)) <= 4294967296)%R).
  { split; [apply (IZR_le 1)|apply (IZR_le _ 4294967296)];
      change (2 ^ 32) with 4294967296 in Hi; lia. }
  assert (Hvt' : (/ 8589934592 <= float_value t)%R).
  { eapply Rle_trans; [|apply Hvt]. apply Rinv_le_contravar; lra. }
  assert (Hn' : (0 <= IZR n <= 4294967296)%R).
  { split; [apply (IZR_le 0)|apply (IZR_le _ 4294967296)];
      change (2 ^ 32) with 4294967296 in Hn; lia. }
  pose proof pow2_neg_34 as H34.
  destruct Hx as [Hz|[Hnx Hvx]].
  - destruct (positive_normal_same (x + t)%float t (float_add_zero_l x t Hz Hnt) Hnt)
      as [Hns Hvs].
    cbn [nadd float_Number]. split; [exact Hns|]. right. split; [exact Hns|].
    rewrite plus_IZR, Hvs, H34. split; lra.
  - rewrite H34 in Hvx.
    assert (Hrange : (float_value x + float_value t < pow2 1023)%R).
    { pose proof (pow2_lt 40 1023 ltac:(lia)) as Hh.
      rewrite (pow2_nonneg 40) in Hh by lia. change (2 ^ 40) with 1099511627776 in Hh.
      lra. }
    destruct (float_add_rounded x t Hnx Hnt Hrange) as [Hns Hvs].
    cbn [nadd float_Number]. split; [exact Hns|]. right. split; [exact Hns|].
    rewrite plus_IZR, H34. split; nra.
Qed.

Lemma accumulated_entry_mono (n n' : Z) (x : float) :
  n <= n' -> accumulated_entry n x -> accumulated_entry n' x.
Proof.
  intros Hle [Hz|[Hn Hv]]; [left; exact Hz|right; split; [exact Hn|]].
  apply IZR_le in Hle. lra.
Qed.

End AccumulationFacts.

Section UpdateFacts.
Context {A : Type}.

Lemma update_at_size (i : nat) (f : A -> A) (l : list A) :
  List.length (update_at i f l) = List.length l.
Proof. revert i. induction l as [|x l IH]; intros [|i]; simpl; auto. Qed.

Lemma update_at_Forall (P P' : A -> Prop) (i : nat) (f : A -> A) (l : list A) :
  (forall x, P x -> P' x) -> (forall x, P x -> P' (f x)) ->
  Forall P l -> Forall P' (update_at i f l).
Proof.
  intros Hmono Hf Hl. revert i.
  induction Hl as [|x l Hx Hl IH]; intros [|i]; cbn [update_at]; constructor; auto.
  eapply Forall_impl; [exact Hmono|exact Hl].
Qed.

Lemma update_at_Exists (P Q : A -> Prop) (i : nat) (f : A -> A) (l : list A) :
  (i < List.length l)%nat -> (forall x, P x -> Q (f x)) ->
  Forall P l -> Exists Q (update_at i f l).
Proof.
  intros Hi Hf Hl. revert i Hi.
  induction Hl as [|x l Hx Hl IH]; intros [|i] Hi; cbn [update_at List.length] in *;
    try lia.
  - left. auto.
  - right. apply IH. lia.
Qed.

End UpdateFacts.

Section EmbeddingEntries.
Local Open Scope Z_scope.

Lemma embed_word_entries (word : string) :
  forall (idx i : nat) (embedding : list float) (n : Z),
    List.length embedding = 384%nat ->
    Forall (accumulated_entry n) embedding ->
    0 <= n -> n + Z.of_nat (String.length word) <= 2 ^ 32 ->
    Z.of_nat i + Z.of_nat (String.length word) <= 2 ^ 32 ->
    List.length (embed_word word idx i embedding) = 384%nat /\
    Forall (accumulated_entry (n + Z.of_nat (String.length word)))
           (embed_word word idx i embedding) /\
    (word <> "" \/ Exists positive_normal embedding ->
     Exists positive_normal (embed_word word idx i embedding)).
Proof.
  induction word as [|ch rest IH]; intros idx i embedding n Hlen Hall Hn Hbound Hi;
    cbn [embed_word String.length] in *.
  - rewrite Z.add_0_r. split; [exact Hlen|]. split; [exact Hall|].
    intros [Hne|He]; [congruence|exact He].
  - set (position := ((nat_of_ascii ch * (idx + 1)) mod 384)%nat).
    set (update := fun x : float => (x + one / of_nat (i + 1))%num).
    assert (Hpos : (position < 384)%nat) by (apply Nat.mod_upper_bound; lia).
    assert (Hstep : forall x, accumulated_entry n x ->
              positive_normal (update x) /\ accumulated_entry (n + 1) (update x)).
    { intros x Hx. apply accumulated_entry_add; [lia|lia|exact Hx]. }
    destruct (IH idx (i + 1)%nat (update_at position update embedding) (n + 1)) as (H1 & H2 & H3).
    + now rewrite update_at_size.
    + apply (update_at_Forall (accumulated_entry n)); [| |exact Hall].
      * intros x Hx. apply (accumulated_entry_mono n); [lia|exact Hx].
      * intros x Hx. apply Hstep, Hx.
    + lia.
    + lia.
    + lia.
    + split; [exact H1|]. split.
      * replace (n + Z.of_nat (S (String.length rest)))
          with (n + 1 + Z.of_nat (String.length rest)) by lia. exact H2.
      * intros _. apply H3. right.
        apply (update_at_Exists (accumulated_entry n)); [lia| |exact Hall].
        intros x Hx. apply Hstep, Hx.
Qed.

Lemma embed_words_entries (words : list string) :
  forall (idx : nat) (embedding : list float) (n : Z),
    List.length embedding = 384%nat ->
    Forall (accumulated_entry n) embedding ->
    0 <= n -> n + Z.of_nat (total_length words) <= 2 ^ 32 ->
    List.length (embed_words words idx embedding) = 384%nat /\
    Forall (accumulated_entry (n + Z.of_nat (total_length words)))
           (embed_words words idx embedding) /\
    (forallb (fun w => String.eqb w "") words = false \/ Exists positive_normal embedding ->
     Exists positive_normal (embed_words words idx embedding)).
Proof.
  induction words as [|word rest IH]; intros idx embedding n Hlen Hall Hn Hbound;
    cbn [embed_words total_length fold_right forallb] in *.
  - rewrite Z.add_0_r. split; [exact Hlen|]. split; [exact Hall|].
    intros [Hne|He]; [discriminate|exact He].
  - fold (total_length rest) in *.
    destruct (embed_word_entries word idx 0 embedding n Hlen Hall Hn) as (H1 & H2 & H3);
      [lia|lia|].
    destruct (IH (idx + 1)%nat (embed_word word idx 0 embedding)
                 (n + Z.of_nat (String.length word)) H1 H2) as (H4 & H5 & H6); [lia|lia|].
    split; [exact H4|]. split.
    + replace (n + Z.of_nat (String.length word + total_length rest))
        with (n + Z.of_nat (String.length word) + Z.of_nat (total_length rest)) by lia.
      exact H5.
    + intros Hsome. apply H6.
      destruct (String.eqb_spec word "") as [->|Hne].
      * cbn [andb] in Hsome. destruct Hsome as [Hd|He]; [left; exact Hd|].
        right. apply H3. right. exact He.
      * right. apply H3. left. exact Hne.
Qed.

Lemma string_length_app (a b : string) :
  String.length (a ++ b)%string = (String.length a + String.length b)%nat.
Proof. induction a as [|c a IH]; cbn; [reflexivity|now rewrite IH]. Qed.

Lemma split_spaces_from_total (s : string) :
  forall (word : string) (in_space : bool),
    (total_length (split_spaces_from s word in_space)
     <= String.length word + String.length s)%nat.
Proof.
  induction s as [|c s IH]; intros word in_space; cbn [split_spaces_from String.length].
  - cbn. lia.
  - destruct (is_space c).
    + destruct in_space.
      * specialize (IH word true). lia.
      * cbn [total_length fold_right]. fold (total_length (split_spaces_from s "" true)).
        specialize (IH "" true). cbn [String.length] in IH. lia.
    + specialize (IH (word ++ String c "")%string false).
      rewrite string_length_app in IH. cbn [String.length] in IH. lia.
Qed.

Lemma toLowerCase_length (s : string) : String.length (toLowerCase s) = String.length s.
Proof. induction s as [|c s IH]; cbn; [reflexivity|now rewrite IH]. Qed.

(** The vector before normalisation, on binary64, for a text of fewer than
    [2^32] characters: 384 entries, each [+0] or a normal number between
    [2^-34] and [2^34], one of them not [+0] unless the text is degenerate. *)
Lemma raw_embedding_entries (text : string) :
  Z.of_nat (String.length text) < 2 ^ 32 ->
  List.length (@raw_embedding float _ text) = 384%nat /\
  Forall (accumulated_entry (2 ^ 32)) (@raw_embedding float _ text) /\
  (degenerate text = false -> Exists positive_normal (@raw_embedding float _ text)).
Proof.
  intros Hlen. unfold raw_embedding, degenerate.
  pose proof (split_spaces_from_total (toLowerCase text) "" false) as Htotal.
  fold (split_spaces (toLowerCase text)) in Htotal.
  rewrite toLowerCase_length in Htotal. cbn [String.length] in Htotal.
  destruct (embed_words_entries (split_spaces (toLowerCase text)) 0
              (repeat zero 384) 0) as (H1 & H2 & H3).
  - apply repeat_length.
  - apply Forall_forall. intros x Hx. apply repeat_spec in Hx. subst x.
    left. apply zero_positive_zero.
  - lia.
  - lia.
  - split; [exact H1|]. split.
    + eapply Forall_impl; [|exact H2]. intros x Hx.
      eapply accumulated_entry_mono; [|exact Hx]. lia.
    + intros Hd. apply H3. left. exact Hd.
Qed.

End EmbeddingEntries.

Section SumOfSquaresFacts.
Local Open Scope Z_scope.

Lemma pow2_square (e : Z) : (pow2 e * pow2 e)%R = pow2 (2 * e).
Proof. rewrite <- pow2_add. f_equal. lia. Qed.

Lemma moderate_square (x : float) :
  positive_normal x -> (pow2 (-400) <= float_value x <= pow2 400)%R ->
  rounded (float_value x * float_value x) (x * x)%float /\
  (pow2 (-800) <= float_value x * float_value x <= pow2 800)%R.
Proof.
  intros Hn Hv.
  pose proof (pow2_pos (-400)) as Hp1. pose proof (pow2_pos 400) as Hp2.
  pose proof (pow2_square (-400)) as Hs1. pose proof (pow2_square 400) as Hs2.
  change (2 * -400) with (-800) in Hs1. change (2 * 400) with 800 in Hs2.
  assert (Hsq : (pow2 (-800) <= float_value x * float_value x <= pow2 800)%R).
  { rewrite <- Hs1, <- Hs2. split; apply Rmult_le_compat; lra. }
  split; [|exact Hsq].
  apply float_mul_rounded; try exact Hn.
  pose proof (pow2_le (-1021) (-800) ltac:(lia)). pose proof (pow2_lt 800 1023 ltac:(lia)).
  lra.
Qed.

Lemma widen (t v a b : R) :
  (0 <= t)%R -> (a <= b)%R ->
  (t * (1 - a) <= v <= t * (1 + a))%R -> (t * (1 - b) <= v <= t * (1 + b))%R.
Proof. intros Ht Hab Hv. split; nra. Qed.

(** One more square in the accumulator. *)
Lemma accumulated_sum_step (k : Z) (t : R) (s x : float) :
  0 <= k < 1000 -> moderate x -> accumulated_sum k t s ->
  accumulated_sum (k + 1) (t + float_value x * float_value x) (s + x * x)%float.
Proof.
  intros Hk Hx [Ht Hs]. pose proof roundoff_value as Hu.
  pose proof (pow2_pos 800) as HP.
  assert (HK : (0 <= IZR k <= 999)%R)
    by (split; [apply (IZR_le 0)|apply (IZR_le _ 999)]; lia).
  unfold accumulated_sum. rewrite !plus_IZR.
  set (K := IZR k) in *. set (P := pow2 800) in *. set (u := roundoff) in *.
  assert (Hu' : (u <= / 4503599627370496)%R) by apply Hu.
  assert (Hc : (0 < (2 * K + 1) * u <= / 1000000)%R) by (split; nra).
  destruct Hx as [Hzx|[Hnx Hvx]].
  - (* the term is +0 *)
    rewrite (float_zero_value x Hzx), Rmult_0_l, Rplus_0_r.
    pose proof (float_mul_zero_zero x x Hzx Hzx) as Hzp.
    split; [nra|].
    destruct Hs as [[Hzs Ht0]|(Hns & Htp & Hvs)].
    + left. split; [apply float_add_zero_zero; assumption|exact Ht0].
    + right.
      destruct (positive_normal_same (s + x * x)%float s
                  (float_add_zero_r s (x * x)%float Hns Hzp) Hns) as [Hn' Hv'].
      split; [exact Hn'|]. split; [exact Htp|]. rewrite Hv'.
      apply (widen t _ ((2 * K + 1) * u)); [lra|nra|exact Hvs].
  - (* the term is a normal number *)
    destruct (moderate_square x Hnx Hvx) as [[Hnp Hvp] Hsq].
    change roundoff with u in Hvp.
    set (v := (float_value x * float_value x)%R) in *.
    assert (Hv0 : (0 < v)%R) by (pose proof (pow2_pos (-800)); lra).
    fold P in Hsq.
    split; [nra|]. right.
    destruct Hs as [[Hzs Ht0]|(Hns & Htp & Hvs)].
    + destruct (positive_normal_same (s + x * x)%float (x * x)%float
                  (float_add_zero_l s (x * x)%float Hzs Hnp) Hnp) as [Hn' Hv'].
      split; [exact Hn'|]. split; [lra|]. rewrite Hv', Ht0, Rplus_0_l.
      apply (widen v _ u); [lra|nra|exact Hvp].
    + assert (Hrange : (float_value s + float_value (x * x)%float < pow2 1023)%R).
      { pose proof (pow2_lt 811 1023 ltac:(lia)) as Hlt.
        assert (Hp : pow2 811 = (2048 * P)%R).
        { unfold P. replace 811 with (11 + 800) by lia. rewrite pow2_add.
          rewrite (pow2_nonneg 11) by lia. reflexivity. }
        rewrite Hp in Hlt.
        assert (H1 : (float_value s <= 2 * t)%R).
        { apply Rle_trans with (t * (1 + (2 * K + 1) * u))%R; [apply Hvs|]. nra. }
        assert (H2 : (K * P <= 999 * P)%R) by (apply Rmult_le_compat_r; lra).
        assert (H3 : (float_value (x * x)%float <= 2 * v)%R).
        { apply Rle_trans with (v * (1 + u))%R; [apply Hvp|]. nra. }
        lra. }
      destruct (float_add_rounded s (x * x)%float Hns Hnp Hrange) as [Hn' Hv'].
      change roundoff with u in Hv'.
      split; [exact Hn'|]. split; [lra|].
      set (vs := float_value s) in *. set (vp := float_value (x * x)%float) in *.
      set (c := ((2 * K + 1) * u)%R) in *.
      assert (Hc' : ((2 * (K + 1) + 1) * u = c + 2 * u)%R) by (unfold c; ring).
      rewrite Hc'.
      assert (Hcu : (u <= c)%R) by (unfold c; nra).
      assert (Hsum_lo : ((t + v) * (1 - c) <= vs + vp)%R) by nra.
      assert (Hsum_hi : (vs + vp <= (t + v) * (1 + c))%R) by nra.
      assert (Htv : (0 < t + v)%R) by lra.
      split.
      * apply Rle_trans with ((t + v) * (1 - c) * (1 - u))%R; [nra|].
        apply Rle_trans with ((vs + vp) * (1 - u))%R; [|lra].
        apply Rmult_le_compat_r; lra.
      * apply Rle_trans with ((vs + vp) * (1 + u))%R; [lra|].
        apply Rle_trans with ((t + v) * (1 + c) * (1 + u))%R; [|nra].
        apply Rmult_le_compat_r; lra.
Qed.

Lemma sumsq_float_fold (l : list float) :
  forall (k : Z) (t : R) (s : float),
    0 <= k -> k + Z.of_nat (List.length l) <= 1000 ->
    Forall moderate l -> accumulated_sum k t s ->
    accumulated_sum (k + Z.of_nat (List.length l))
      (fold_left (fun a v => a + v * v)%R (map float_value l) t)
      (fold_left (fun a v => (a + v * v)%num) l s).
Proof.
  induction l as [|x l IH]; intros k t s Hk Hlen Hall Hs; cbn [fold_left map List.length] in *.
  - now rewrite Z.add_0_r.
  - inversion Hall as [|? ? Hx Hl]; subst.
    replace (k + Z.of_nat (S (List.length l))) with (k + 1 + Z.of_nat (List.length l)) by lia.
    apply IH; [lia|lia|exact Hl|].
    apply accumulated_sum_step; [lia|exact Hx|exact Hs].
Qed.

(** The sum of squares that the code accumulates on binary64, against the
    exact sum of the squares of the same numbers. *)
Lemma sumsq_float (l : list float) :
  Z.of_nat (List.length l) <= 1000 -> Forall moderate l ->
  accumulated_sum (Z.of_nat (List.length l)) (sumsq (map float_value l)) (sumsq l).
Proof.
  intros Hlen Hall.
  apply (sumsq_float_fold l 0 0%R zero); [lia|lia|exact Hall|].
  split; [cbn; pose proof (pow2_pos 800); lra|].
  left. split; [apply zero_positive_zero|reflexivity].
Qed.

End SumOfSquaresFacts.

Section RealNormFacts.
Local Open Scope R_scope.

Lemma sqrt_close_to_one (x e : R) :
  0 <= e <= 1 -> 1 - e <= x <= 1 + e -> 1 - e <= R_sqrt.sqrt x <= 1 + e.
Proof.
  intros He Hx.
  assert (Hx0 : 0 <= x) by lra.
  pose proof (sqrt_pos x) as Hs. pose proof (sqrt_def x Hx0) as Hd.
  set (s := R_sqrt.sqrt x) in *. split.
  - destruct (Rle_or_lt (1 - e) s) as [H|H]; [lra|]. nra.
  - destruct (Rle_or_lt s (1 + e)) as [H|H]; [lra|]. nra.
Qed.

Lemma sqrt_near_one (x e : R) :
  0 <= e <= 1 -> 1 - e <= x <= 1 + e -> Rabs (R_sqrt.sqrt x - 1) <= e.
Proof.
  intros He Hx. pose proof (sqrt_close_to_one x e He Hx). apply Rabs_le. lra.
Qed.

Lemma sumsq_between (a b : R) (ys zs : list R) :
  0 <= a <= b ->
  Forall2 (fun y z => 0 <= y /\ a * y <= z <= b * y) ys zs ->
  a * a * sumsq ys <= sumsq zs <= b * b * sumsq ys.
Proof.
  intros Hab. induction 1 as [|y z ys zs (Hy & Hz) _ IH].
  - rewrite !sumsq_R. cbn. lra.
  - rewrite !sumsq_cons.
    assert (H1 : a * y * (a * y) <= z * z) by (apply Rmult_le_compat; nra).
    assert (H2 : z * z <= b * y * (b * y)) by (apply Rmult_le_compat; nra).
    split; nra.
Qed.

Lemma sumsq_upper (B : R) (ys : list R) :
  Forall (fun y => 0 <= y <= B) ys ->
  sumsq ys <= IZR (Z.of_nat (List.length ys)) * (B * B).
Proof.
  induction 1 as [|y ys Hy _ IH].
  - rewrite sumsq_R. cbn. lra.
  - rewrite sumsq_cons. cbn [List.length]. rewrite Nat2Z.inj_succ, succ_IZR.
    assert (y * y <= B * B) by (apply Rmult_le_compat; lra). lra.
Qed.

(** The squared norm of the normalised vector, from the errors of the sum of
    squares, of the root and of the quotients. *)
Lemma normalised_norm_bounds (t vs w n2 u : R) :
  0 < t -> 0 < u <= / 4503599627370496 ->
  t * (1 - 769 * u) <= vs <= t * (1 + 769 * u) ->
  0 < w ->
  vs * ((1 - u) * (1 - u)) <= w * w <= vs * ((1 + u) * (1 + u)) ->
  (1 - u) * (1 - u) * t <= n2 * (w * w) <= (1 + u) * (1 + u) * t ->
  1 - / 1000000000000 <= n2 <= 1 + / 1000000000000.
Proof.
  intros Ht Hu Hvs Hw Hww Hn.
  assert (Hw2 : 0 < w * w) by nra.
  assert (Hvs0 : 0 < vs) by nra.
  assert (Hn0 : 0 < n2).
  { destruct (Rlt_or_le 0 n2) as [H|H]; [exact H|]. exfalso. nra. }
  assert (H1 : (1 + 769 * u) * ((1 + u) * (1 + u)) <= 1 + 1000 * u) by nra.
  assert (H2 : 1 - 1000 * u <= (1 - 769 * u) * ((1 - u) * (1 - u))) by nra.
  assert (Hup : w * w <= t * (1 + 1000 * u)).
  { apply Rle_trans with (vs * ((1 + u) * (1 + u))); [lra|].
    apply Rle_trans with (t * (1 + 769 * u) * ((1 + u) * (1 + u))).
    - apply Rmult_le_compat_r; nra.
    - rewrite Rmult_assoc. apply Rmult_le_compat_l; lra. }
  assert (Hlo : t * (1 - 1000 * u) <= w * w).
  { apply Rle_trans with (vs * ((1 - u) * (1 - u))); [|lra].
    apply Rle_trans with (t * (1 - 769 * u) * ((1 - u) * (1 - u))).
    - rewrite Rmult_assoc. apply Rmult_le_compat_l; lra.
    - apply Rmult_le_compat_r; nra. }
  assert (Ha : (1 - 2 * u) * t <= n2 * (t * (1 + 1000 * u))).
  { apply Rle_trans with (n2 * (w * w)); [nra|]. apply Rmult_le_compat_l; lra. }
  assert (Hb : n2 * (t * (1 - 1000 * u)) <= (1 + 3 * u) * t).
  { apply Rle_trans with (n2 * (w * w)); [apply Rmult_le_compat_l; lra|]. nra. }
  assert (Ha' : 1 - 2 * u <= n2 * (1 + 1000 * u)).
  { apply Rmult_le_reg_r with t; [exact Ht|]. lra. }
  assert (Hb' : n2 * (1 - 1000 * u) <= 1 + 3 * u).
  { apply Rmult_le_reg_r with t; [exact Ht|]. lra. }
  split.
  - assert (1 - 1002 * u <= n2).
    { apply Rmult_le_reg_r with (1 + 1000 * u); [lra|].
      apply Rle_trans with (1 - 2 * u); [nra|exact Ha']. }
    lra.
  - assert (n2 <= 1 + 2000 * u).
    { apply Rmult_le_reg_r with (1 - 1000 * u); [lra|].
      apply Rle_trans with (1 + 3 * u); [exact Hb'|nra]. }
    lra.
Qed.

End RealNormFacts.

Section FallbackNormFacts.
Local Open Scope Z_scope.

Lemma pow2_value (e : Z) (z : Z) : 0 <= e -> 2 ^ e = z -> pow2 e = IZR z.
Proof. intros He <-. apply pow2_nonneg, He. Qed.

Lemma accumulated_entry_value (x : float) :
  accumulated_entry (2 ^ 32) x -> (0 <= float_value x <= pow2 34)%R.
Proof.
  pose proof (pow2_pos 34) as Hp. rewrite pow2_34 in *.
  intros [Hz|[_ Hv]].
  - rewrite (float_zero_value x Hz). lra.
  - change (IZR (2 ^ 32)) with 4294967296%R in Hv. pose proof (pow2_pos (-34)). lra.
Qed.

Lemma accumulated_entry_moderate (x : float) :
  accumulated_entry (2 ^ 32) x -> moderate x.
Proof.
  intros [Hz|[Hn Hv]]; [left; exact Hz|right; split; [exact Hn|]].
  change (IZR (2 ^ 32)) with 4294967296%R in Hv.
  pose proof (pow2_le (-400) (-34) ltac:(lia)). pose proof (pow2_le 34 400 ltac:(lia)).
  rewrite pow2_34 in *. lra.
Qed.

Lemma sqrt_pow2 (e : Z) : R_sqrt.sqrt (pow2 (2 * e)) = pow2 e.
Proof.
  rewrite <- pow2_square. apply sqrt_square. apply Rlt_le, pow2_pos.
Qed.

(** The fallback vector on binary64, for a text of fewer than [2^32]
    characters that is not degenerate: what the code computes, step by step,
    against the exact values. *)
Lemma fallback_embedding_float (text : string) :
  Z.of_nat (String.length text) < 2 ^ 32 ->
  degenerate text = false ->
  exists w : float,
    @generateFallbackEmbedding float _ text
    = map (fun x => (x / w)%float) (@raw_embedding float _ text) /\
    w = PrimFloat.sqrt (sumsq (@raw_embedding float _ text)) /\
    positive_normal w /\
    (pow2 (-36) <= float_value w <= pow2 40)%R /\
    let t := sumsq (map float_value (@raw_embedding float _ text)) in
    let vs := float_value (sumsq (@raw_embedding float _ text)) in
    (0 < t)%R /\
    (t * (1 - 769 * roundoff) <= vs <= t * (1 + 769 * roundoff))%R /\
    (vs * ((1 - roundoff) * (1 - roundoff)) <= float_value w * float_value w
     <= vs * ((1 + roundoff) * (1 + roundoff)))%R.
Proof.
  intros Hlen Hd. pose proof roundoff_value as Hu.
  destruct (raw_embedding_entries text Hlen) as (Hsize & Hall & Hex).
  specialize (Hex Hd).
  set (raw := @raw_embedding float _ text) in *.
  assert (Hmod : Forall moderate raw)
    by (eapply Forall_impl; [|exact Hall]; apply accumulated_entry_moderate).
  destruct (sumsq_float raw ltac:(rewrite Hsize; cbn; lia) Hmod) as [Ht Hs].
  rewrite Hsize in Ht, Hs. change (IZR (Z.of_nat 384)) with 384%R in Ht, Hs.
  set (t := sumsq (map float_value raw)) in *.
  (* the exact sum is positive, and not large *)
  assert (Htlow : (pow2 (-68) <= t)%R).
  { apply Exists_exists in Hex. destruct Hex as (x & Hin & Hnx).
    rewrite Forall_forall in Hall. destruct (Hall x Hin) as [Hz|[_ Hv]].
    - destruct Hnx as (m & e & Hx & _). unfold positive_zero in Hz. congruence.
    - apply Rle_trans with (float_value x * float_value x)%R.
      + change (-68) with (2 * -34). rewrite <- pow2_square.
        pose proof (pow2_pos (-34)). apply Rmult_le_compat; lra.
      + apply sumsq_In, in_map, Hin. }
  assert (Htup : (t <= pow2 77)%R).
  { apply Rle_trans with (IZR (Z.of_nat (List.length (map float_value raw)))
                          * (pow2 34 * pow2 34))%R.
    - apply sumsq_upper. apply Forall_forall. intros y Hy. apply in_map_iff in Hy.
      destruct Hy as (x & <- & Hin). rewrite Forall_forall in Hall.
      apply accumulated_entry_value, Hall, Hin.
    - rewrite length_map, Hsize, pow2_square. change (2 * 34) with 68.
      replace 77 with (9 + 68) by lia. rewrite (pow2_add 9 68).
      rewrite (pow2_value 9 512) by (lia || reflexivity).
      change (IZR (Z.of_nat 384)) with 384%R. pose proof (pow2_pos 68). lra. }
  pose proof (pow2_pos (-68)) as Hp68.
  destruct Hs as [[_ Ht0]|(Hns & Htp & Hvs)]; [lra|].
  replace ((2 * 384 + 1) * roundoff)%R with (769 * roundoff)%R in Hvs by ring.
  set (s := sumsq raw) in *. set (vs := float_value s) in *.
  (* the magnitude *)
  destruct (float_sqrt_rounded s Hns) as [Hnw Hvw]. fold vs in Hvw.
  set (w := PrimFloat.sqrt s) in *.
  assert (Hvs_lo : (pow2 (-70) <= vs)%R).
  { replace (-68) with (2 + -70) in Htlow by lia. rewrite pow2_add in Htlow.
    rewrite (pow2_value 2 4) in Htlow by (lia || reflexivity).
    pose proof (pow2_pos (-70)). nra. }
  assert (Hvs_hi : (vs <= pow2 78)%R).
  { replace 78 with (1 + 77) by lia. rewrite pow2_add, pow2_1.
    pose proof (pow2_pos 77). nra. }
  assert (Hroot_lo : (pow2 (-35) <= R_sqrt.sqrt vs)%R).
  { rewrite <- (sqrt_pow2 (-35)). change (2 * -35) with (-70).
    apply sqrt_le_1; [apply Rlt_le, pow2_pos| |exact Hvs_lo].
    pose proof (pow2_pos (-70)). lra. }
  assert (Hroot_hi : (R_sqrt.sqrt vs <= pow2 39)%R).
  { rewrite <- (sqrt_pow2 39). change (2 * 39) with 78.
    apply sqrt_le_1; [|apply Rlt_le, pow2_pos|exact Hvs_hi].
    pose proof (pow2_pos (-70)). lra. }
  assert (Hroot_sq : (R_sqrt.sqrt vs * R_sqrt.sqrt vs = vs)%R).
  { apply sqrt_def. pose proof (pow2_pos (-70)). lra. }
  set (r := R_sqrt.sqrt vs) in *.
  assert (Hw_range : (pow2 (-36) <= float_value w <= pow2 40)%R).
  { replace (-35) with (1 + -36) in Hroot_lo by lia. rewrite pow2_add, pow2_1 in Hroot_lo.
    replace 40 with (1 + 39) by lia. rewrite (pow2_add 1 39), pow2_1.
    pose proof (pow2_pos (-36)). pose proof (pow2_pos 39). split; nra. }
  exists w. split; [|split; [reflexivity|split; [exact Hnw|split; [exact Hw_range|]]]].
  - unfold generateFallbackEmbedding. fold raw. cbv zeta.
    change (nsqrt (sumsq raw)) with w.
    change (ngt w zero) with (PrimFloat.ltb 0 w).
    rewrite (positive_normal_gt_zero w Hnw). reflexivity.
  - cbv zeta. split; [exact Htp|]. split; [exact Hvs|].
    assert (Hr0 : (0 < r)%R) by (pose proof (pow2_pos (-35)); lra).
    split.
    + replace (vs * ((1 - roundoff) * (1 - roundoff)))%R
        with (r * (1 - roundoff) * (r * (1 - roundoff)))%R by (rewrite <- Hroot_sq; ring).
      apply Rmult_le_compat; nra.
    + replace (vs * ((1 + roundoff) * (1 + roundoff)))%R
        with (r * (1 + roundoff) * (r * (1 + roundoff)))%R by (rewrite <- Hroot_sq; ring).
      pose proof (positive_normal_positive w Hnw).
      apply Rmult_le_compat; nra.
Qed.

(** The entries of the normalised vector. *)
Lemma normalised_entries (w : float) (raw : list float) :
  positive_normal w -> (pow2 (-36) <= float_value w <= pow2 40)%R ->
  Forall (accumulated_entry (2 ^ 32)) raw ->
  Forall2 (normalised_entry (float_value w)) raw (map (fun x => (x / w)%float) raw).
Proof.
  intros Hnw Hw Hall. induction Hall as [|x raw Hx _ IH]; cbn [map]; constructor;
    [|exact IH].
  destruct Hx as [Hz|[Hn Hv]].
  - left. split; [exact Hz|apply float_div_zero; assumption].
  - right. split; [exact Hn|]. apply float_div_rounded; try assumption.
    change (IZR (2 ^ 32)) with 4294967296%R in Hv.
    pose proof (pow2_pos (-36)) as H36. pose proof (pow2_pos 40) as H40.
    pose proof (pow2_pos (-34)) as H34.
    assert (Hq1 : (pow2 (-74) <= float_value x / float_value w)%R).
    { replace (-74) with (-34 - 40) by lia. rewrite pow2_sub.
      unfold Rdiv. apply Rmult_le_compat; try lra.
      - apply Rlt_le, Rinv_0_lt_compat. lra.
      - apply Rinv_le_contravar; lra. }
    assert (Hq2 : (float_value x / float_value w <= pow2 70)%R).
    { replace 70 with (34 - -36) by lia. rewrite pow2_sub, pow2_34.
      unfold Rdiv. apply Rmult_le_compat; try lra.
      - apply Rlt_le, Rinv_0_lt_compat. lra.
      - apply Rinv_le_contravar; lra. }
    pose proof (pow2_le (-1000) (-74) ltac:(lia)). pose proof (pow2_le 70 1000 ltac:(lia)).
    lra.
Qed.

End FallbackNormFacts.

Section FallbackNorm.
Local Open Scope Z_scope.

Lemma normalised_entry_moderate (w : float) (x z : float) :
  (pow2 (-36) <= float_value w <= pow2 40)%R ->
  accumulated_entry (2 ^ 32) x ->
  normalised_entry (float_value w) x z -> moderate z.
Proof.
  intros Hw Hx [[_ Hz]|[Hn [Hnz Hvz]]]; [left; exact Hz|right; split; [exact Hnz|]].
  pose proof roundoff_value as Hu.
  destruct Hx as [Hzx|[_ Hv]].
  { destruct Hn as (m & e & Hx & _). unfold positive_zero in Hzx. congruence. }
  change (IZR (2 ^ 32)) with 4294967296%R in Hv.
  pose proof (pow2_pos (-36)) as H36. pose proof (pow2_pos 40) as H40.
  pose proof (pow2_pos (-34)) as H34.
  assert (Hq1 : (pow2 (-74) <= float_value x / float_value w)%R).
  { replace (-74) with (-34 - 40) by lia. rewrite pow2_sub.
    unfold Rdiv. apply Rmult_le_compat; try lra.
    - apply Rlt_le, Rinv_0_lt_compat. lra.
    - apply Rinv_le_contravar; lra. }
  assert (Hq2 : (float_value x / float_value w <= pow2 70)%R).
  { replace 70 with (34 - -36) by lia. rewrite pow2_sub, pow2_34.
    unfold Rdiv. apply Rmult_le_compat; try lra.
    - apply Rlt_le, Rinv_0_lt_compat. lra.
    - apply Rinv_le_contravar; lra. }
  pose proof (pow2_pos (-74)) as H74. pose proof (pow2_pos 70) as H70.
  assert (Hl : (pow2 (-400) <= pow2 (-74) / 2)%R).
  { replace (-74) with (1 + -75) by lia. rewrite pow2_add, pow2_1.
    pose proof (pow2_le (-400) (-75) ltac:(lia)). lra. }
  assert (Hh : (2 * pow2 70 <= pow2 400)%R).
  { rewrite <- pow2_1, <- pow2_add. apply pow2_le. lia. }
  split; nra.
Qed.

(** C2, the norm on binary64: the vector that the code returns for a text of
    fewer than [2^32] characters that is not degenerate has a norm within
    [10^-12] of 1, as the real number that its 384 doubles have, and so has
    the number that the code itself would compute for this norm. *)
Lemma fallback_embedding_norm_float (text : string) :
  Z.of_nat (String.length text) < 2 ^ 32 ->
  degenerate text = false ->
  (Rabs (norm (map float_value (@generateFallbackEmbedding float _ text)) - 1)
   <= / 1000000000000)%R /\
  (Rabs (float_value (PrimFloat.sqrt (sumsq (@generateFallbackEmbedding float _ text))) - 1)
   <= / 100000000000)%R.
Proof.
  intros Hlen Hd. pose proof roundoff_value as Hu.
  destruct (fallback_embedding_float text Hlen Hd)
    as (w & Heq & _ & Hnw & Hw & Ht & Hvs & Hww). cbv zeta in Ht, Hvs, Hww.
  destruct (raw_embedding_entries text Hlen) as (Hsize & Hall & _).
  rewrite Heq.
  set (raw := @raw_embedding float _ text) in *.
  set (v := map (fun x => (x / w)%float) raw).
  pose proof (normalised_entries w raw Hnw Hw Hall) as Hent. fold v in Hent.
  pose proof (positive_normal_positive w Hnw) as Hw0.
  set (vw := float_value w) in *. set (u := roundoff) in *.
  set (t := sumsq (map float_value raw)) in *.
  set (vs := float_value (sumsq raw)) in *.
  (* the exact sum of squares of the result *)
  assert (Hbetween : Forall2 (fun y z => (0 <= y /\ (1 - u) / vw * y <= z <= (1 + u) / vw * y)%R)
                             (map float_value raw) (map float_value v)).
  { clear - Hent Hw0 Hu. induction Hent as [|x z raw v Hxz _ IH]; cbn [map]; constructor;
      [|exact IH].
    destruct Hxz as [[Hzx Hzz]|[Hnx [_ Hvz]]].
    - rewrite (float_zero_value x Hzx), (float_zero_value z Hzz). lra.
    - pose proof (positive_normal_positive x Hnx) as Hx0. split; [lra|].
      fold u in Hvz.
      replace ((1 - u) / vw * float_value x)%R with (float_value x / vw * (1 - u))%R
        by (field; lra).
      replace ((1 + u) / vw * float_value x)%R with (float_value x / vw * (1 + u))%R
        by (field; lra).
      exact Hvz. }
  assert (Hab : (0 <= (1 - u) / vw <= (1 + u) / vw)%R).
  { assert (0 < / vw)%R by (apply Rinv_0_lt_compat; lra). unfold Rdiv. split; nra. }
  pose proof (sumsq_between _ _ _ _ Hab Hbetween) as Hn2. fold t in Hn2.
  set (n2 := sumsq (map float_value v)) in *.
  assert (Hn2' : ((1 - u) * (1 - u) * t <= n2 * (vw * vw) <= (1 + u) * (1 + u) * t)%R).
  { assert (Hvw2 : (0 < vw * vw)%R) by nra.
    replace ((1 - u) * (1 - u) * t)%R
      with ((1 - u) / vw * ((1 - u) / vw) * t * (vw * vw))%R by (field; lra).
    replace ((1 + u) * (1 + u) * t)%R
      with ((1 + u) / vw * ((1 + u) / vw) * t * (vw * vw))%R by (field; lra).
    split; apply Rmult_le_compat_r; lra. }
  pose proof (normalised_norm_bounds t vs vw n2 u Ht Hu Hvs Hw0 Hww Hn2') as Hbounds.
  split.
  - unfold norm. fold n2. apply sqrt_near_one; lra.
  - (* the norm as the code computes it *)
    assert (Hmod : Forall moderate v).
    { clear - Hent Hall Hw. rewrite Forall_forall in Hall.
      induction Hent as [|x z raw v Hxz _ IH]; constructor.
      - apply (normalised_entry_moderate w x z Hw); [apply Hall; left; reflexivity|exact Hxz].
      - apply IH. intros y Hy. apply Hall. right. exact Hy. }
    assert (Hvsize : List.length v = 384%nat) by (unfold v; rewrite length_map; exact Hsize).
    destruct (sumsq_float v ltac:(rewrite Hvsize; cbn; lia) Hmod) as [_ Hs].
    rewrite Hvsize in Hs. change (IZR (Z.of_nat 384)) with 384%R in Hs. fold n2 in Hs.
    destruct Hs as [[_ Hz]|(Hns & _ & Hv2)]; [lra|].
    replace ((2 * 384 + 1) * roundoff)%R with (769 * u)%R in Hv2 by (unfold u; ring).
    destruct (float_sqrt_rounded (sumsq v) Hns) as [_ Hroot]. fold u in Hroot.
    set (s2 := float_value (sumsq v)) in *.
    assert (Hs2 : (1 - / 500000000000 <= s2 <= 1 + / 500000000000)%R) by nra.
    pose proof (sqrt_close_to_one s2 (/ 500000000000) ltac:(lra) Hs2) as Hr.
    apply Rabs_le.
    set (r := R_sqrt.sqrt s2) in *. split; nra.
Qed.

End FallbackNorm.

(** ** The words of a text *)

Lemma string_snoc_nonempty (w : string) (c : ascii) :
  String.eqb (w ++ String c "") "" = false.
Proof. destruct w; reflexivity. Qed.

Lemma ends_with_space_cons (c : ascii) (rest : string) :
  ends_with_space (String c rest)
  = if String.eqb rest "" then is_space c else ends_with_space rest.
Proof. destruct rest; reflexivity. Qed.

Lemma text_pieces_nonempty_head (s : string) :
  forall w, String.eqb w "" = false ->
    exists x rest, text_pieces_from s w = x :: rest /\ String.eqb x "" = false.
Proof.
  induction s as [|c s IH]; intros w Hw; cbn [text_pieces_from].
  - eauto.
  - destruct (is_space c); [eauto|]. apply IH, string_snoc_nonempty.
Qed.

(** The split of the code against the words: after an open word, and after
    white space. *)
Lemma split_spaces_from_words (s : string) :
  (forall w, String.eqb w "" = false ->
     split_spaces_from s w false
     = filter (fun x => negb (String.eqb x "")) (text_pieces_from s w)
       ++ (if ends_with_space s then [""] else [])) /\
  split_spaces_from s "" true
  = text_words s ++ (if String.eqb s "" || ends_with_space s then [""] else []).
Proof.
  induction s as [|c s [IHopen IHspace]].
  - split; [intros w Hw; cbn; now rewrite Hw|reflexivity].
  - split.
    + intros w Hw. cbn [split_spaces_from text_pieces_from]. rewrite ends_with_space_cons.
      destruct (is_space c) eqn:Ec.
      * rewrite IHspace. cbn [filter]. rewrite Hw. cbn [negb app].
        unfold text_words. destruct (String.eqb s ""); reflexivity.
      * rewrite IHopen by apply string_snoc_nonempty.
        destruct (String.eqb_spec s "") as [->|Hne]; reflexivity.
    + unfold text_words. cbn [split_spaces_from text_pieces_from].
      rewrite ends_with_space_cons.
      destruct (is_space c) eqn:Ec.
      * rewrite IHspace. cbn [filter String.eqb negb orb].
        unfold text_words. destruct (String.eqb s ""); reflexivity.
      * rewrite IHopen by reflexivity. cbn [String.eqb orb].
        destruct (String.eqb_spec s "") as [->|Hne]; reflexivity.
Qed.

(** [split(/\s+/)] gives the words, an empty piece first when the text starts
    with white space, and an empty piece last when it ends with white space
    or is empty. *)
Lemma split_spaces_words (s : string) :
  split_spaces s
  = (if starts_with_space s then [""] else [])
    ++ text_words s
    ++ (if String.eqb s "" || ends_with_space s then [""] else []).
Proof.
  unfold split_spaces. destruct s as [|c s]; [reflexivity|].
  destruct (split_spaces_from_words s) as [Hopen Hspace].
  cbn [split_spaces_from starts_with_space String.eqb orb]. rewrite ends_with_space_cons.
  unfold text_words. cbn [text_pieces_from].
  destruct (is_space c) eqn:Ec.
  - rewrite Hspace. cbn [filter String.eqb negb app]. unfold text_words.
    destruct (String.eqb s ""); reflexivity.
  - rewrite Hopen by reflexivity. cbn [app].
    destruct (String.eqb_spec s "") as [->|Hne]; reflexivity.
Qed.

Lemma split_spaces_indexed (text : string) :
  split_spaces (toLowerCase text) = indexed_words text.
Proof. apply split_spaces_words. Qed.

(** The words with an index that are not empty are the words of the
    lower-cased text, in their order. *)
Lemma indexed_words_nonempty (text : string) :
  filter (fun w => negb (String.eqb w "")) (indexed_words text)
  = text_words (toLowerCase text).
Proof.
  unfold indexed_words. cbv zeta. rewrite !filter_app.
  assert (Hf : forall b : bool,
            filter (fun w => negb (String.eqb w "")) (if b then [""] else []) = [])
    by (intros []; reflexivity).
  rewrite !Hf, app_nil_r. cbn [app]. unfold text_words.
  induction (text_pieces_from (toLowerCase text) "") as [|x l IH]; [reflexivity|].
  cbn [filter]. destruct (negb (String.eqb x "")) eqn:E; cbn [filter]; rewrite ?E, IH;
    reflexivity.
Qed.

Lemma is_space_lower_char (c : ascii) : is_space (lower_char c) = is_space c.
Proof. destruct c as [[] [] [] [] [] [] [] []]; reflexivity. Qed.

Lemma blank_toLowerCase (text : string) : blank (toLowerCase text) = blank text.
Proof.
  unfold blank. induction text as [|c text IH]; [reflexivity|].
  cbn [toLowerCase list_ascii_of_string forallb]. now rewrite is_space_lower_char, IH.
Qed.

Lemma split_spaces_from_blank (s : string) :
  forall (w : string) (in_space : bool),
    forallb (fun x => String.eqb x "") (split_spaces_from s w in_space)
    = String.eqb w "" && blank s.
Proof.
  unfold blank.
  induction s as [|c s IH]; intros w in_space;
    cbn [split_spaces_from list_ascii_of_string forallb].
  - now rewrite andb_true_r.
  - destruct (is_space c) eqn:Ec; cbn [andb].
    + destruct in_space; [apply IH|]. cbn [forallb]. now rewrite IH.
    + rewrite IH, string_snoc_nonempty. cbn [andb]. now rewrite andb_false_r.
Qed.

(** The code finds no word with a character in a text exactly when the text
    is blank. *)
Lemma degenerate_blank (text : string) : degenerate text = blank text.
Proof.
  unfold degenerate, split_spaces. rewrite split_spaces_from_blank.
  apply blank_toLowerCase.
Qed.

Lemma generateFallbackEmbedding_indexed {num : Type} `{Number num} (text : string) :
  generateFallbackEmbedding text = indexed_embedding text.
Proof.
  unfold generateFallbackEmbedding, indexed_embedding, l2_normalize.
  now rewrite raw_embedding_accumulates, split_spaces_indexed.
Qed.

Lemma float_value_zeros (n : nat) :
  map float_value (repeat 0%float n) = repeat (@zero R _) n.
Proof. induction n as [|n IH]; [reflexivity|]. cbn [repeat map]. now rewrite IH. Qed.

(** C2 as stated fails on three texts.  The text of one space is not empty
    and its vector is the zero vector, of norm 0.  The text "A" has one word,
    of one character of code 65: the code lower-cases it and feeds dimension
    97.  The text " a" has one word, "a", of index 0 among the words: the code
    counts the empty piece before the space and feeds dimension
    (97 * 2) mod 384 = 194. *)
Lemma fallback_embedding_not_as_worded :
  (" " <> "" /\
   @generateFallbackEmbedding float _ " " = repeat 0%float 384 /\
   ~ (Rabs (norm (map float_value (@generateFallbackEmbedding float _ " ")) - 1)
      <= 1 / 1000000)%R) /\
  (nth 65 (@worded_embedding float _ "A") 0%float = 1%float /\
   nth 65 (@generateFallbackEmbedding float _ "A") 0%float = 0%float /\
   nth 97 (@generateFallbackEmbedding float _ "A") 0%float = 1%float) /\
  (nth 97 (@worded_embedding float _ " a") 0%float = 1%float /\
   nth 97 (@generateFallbackEmbedding float _ " a") 0%float = 0%float /\
   nth 194 (@generateFallbackEmbedding float _ " a") 0%float = 1%float).
Proof.
  split; [|split; [repeat split; vm_compute; reflexivity|
                   repeat split; vm_compute; reflexivity]].
  split; [discriminate|].
  assert (Hz : @generateFallbackEmbedding float _ " " = repeat 0%float 384)
    by (apply fallback_embedding_zero_float; reflexivity).
  split; [exact Hz|].
  rewrite Hz, float_value_zeros. unfold norm. rewrite sumsq_zeros, sqrt_0.
  rewrite Rminus_0_l, Rabs_Ropp, Rabs_R1. lra.
Qed.

(** C2: the deterministic fallback embedding.  When the primary encoder is
    unavailable, embedding a text gives the fallback vector, the same for every
    state of the service (two calls on one text give the same vector).  The
    fallback vector, and the vector the knowledge base computes for a rule, has
    384 dimensions and is the L2-normalised accumulation of [1/(j+1)] into
    dimension [(c*(i+1)) mod 384] for the character of code [c] at position
    [j] of the word of index [i], where the words that take an index are the
    words of the lower-cased text, after an empty word when the text starts
    with white space and before an empty word when it ends with white space.
    On binary64, for every text that is not blank and has fewer than [2^32]
    characters (more than an engine's string holds), the norm of the vector
    that the code returns is within [10^-6] of 1, as the real number that the
    384 doubles give and as the double that the code itself would compute for
    it; in exact arithmetic it is 1.  A blank text (empty, or white space
    only) gives the zero vector, unmodified, on binary64 and over the
    reals. *)
Theorem fallback_embedding_spec (text : string) :
  (forall (num : Type) (N : Number num) (s1 s2 : Service num),
     encoder_unavailable s1 text = true ->
     encoder_unavailable s2 text = true ->
     generateEmbedding s1 text = generateFallbackEmbedding text /\
     generateEmbedding s1 text = generateEmbedding s2 text /\
     generateFallbackEmbedding text = @indexed_embedding num N text /\
     generateSimpleEmbedding text = @indexed_embedding num N text /\
     List.length (@generateFallbackEmbedding num N text) = 384%nat) /\
  (blank text = false -> (Z.of_nat (String.length text) < 2 ^ 32)%Z ->
     (Rabs (norm (map float_value (@generateFallbackEmbedding float _ text)) - 1)
      <= 1 / 1000000)%R /\
     (Rabs (float_value (PrimFloat.sqrt (sumsq (@generateFallbackEmbedding float _ text))) - 1)
      <= 1 / 1000000)%R) /\
  (blank text = false -> norm (@generateFallbackEmbedding R _ text) = 1%R) /\
  (blank text = true ->
     @generateFallbackEmbedding float _ text = repeat 0%float 384 /\
     @generateFallbackEmbedding R _ text = repeat 0%R 384).
Proof.
  split; [|split; [|split]].
  - intros num N s1 s2 H1 H2.
    rewrite (generateEmbedding_fallback s1 text H1), (generateEmbedding_fallback s2 text H2).
    repeat split.
    + apply generateFallbackEmbedding_indexed.
    + apply (generateFallbackEmbedding_indexed text).
    + apply generateFallbackEmbedding_length.
  - intros Hb Hlen. rewrite <- degenerate_blank in Hb.
    destruct (fallback_embedding_norm_float text Hlen Hb) as [H1 H2]. split; lra.
  - intros Hb. rewrite <- degenerate_blank in Hb.
    apply fallback_embedding_unit_norm, Hb.
  - intros Hb. rewrite <- degenerate_blank in Hb. split.
    + apply fallback_embedding_zero_float, Hb.
    + apply fallback_embedding_zero_R, Hb.
Qed.

Lemma fallback_embedding_spec_witness :
  (generateEmbedding (num := float) new_Service "Half cadence"
   = generateFallbackEmbedding "Half cadence" /\
   generateFallbackEmbedding "Half cadence" = @indexed_embedding float _ "Half cadence") /\
  ((Rabs (norm (map float_value (@generateFallbackEmbedding float _ "Half cadence")) - 1)
    <= 1 / 1000000)%R /\
   (Rabs (float_value (PrimFloat.sqrt (sumsq (@generateFallbackEmbedding float _
                                                "Half cadence"))) - 1)
    <= 1 / 1000000)%R) /\
  norm (@generateFallbackEmbedding R _ "Half cadence") = 1%R /\
  @generateFallbackEmbedding float _ "  " = repeat 0%float 384.
Proof.
  destruct (fallback_embedding_spec "Half cadence") as (Hcode & Hfloat & Hnorm & _).
  destruct (fallback_embedding_spec "  ") as (_ & _ & _ & Hzero).
  destruct (Hcode float _ new_Service new_Service eq_refl eq_refl) as (H1 & _ & H3 & _).
  split; [split; [exact H1|exact H3]|].
  split; [apply Hfloat; reflexivity|].
  split; [apply Hnorm; reflexivity|apply Hzero; reflexivity].
Defined.

(** On binary64 the fallback vector of "cadence" has a norm within 1e-6 of 1. *)
Example fallback_embedding_cadence_binary64 :
  let n := PrimFloat.sqrt (sumsq (@generateFallbackEmbedding float _ "cadence")) in
  (PrimFloat.leb (PrimFloat.abs (n - 1)) 0.000001 = true)%float.
Proof. vm_compute. reflexivity. Qed.

(** * Further properties *)

(** ** The knowledge base *)

Section CatalogFacts.
Context {num : Type} `{Number num}.

Lemma update_at_middle {A : Type} (f : A -> A) (pre : list A) (x : A) (t : list A) :
  update_at (List.length pre) f (pre ++ x :: t) = pre ++ f x :: t.
Proof.
  induction pre as [|y pre IH]; simpl; [reflexivity|]. now rewrite IH.
Qed.

Lemma embed_rules_fresh (objs : list (TheoryRule num)) :
  forall pre : Heap num,
    embed_rules (seq (List.length pre) (List.length objs)) (pre ++ objs)
    = Some (pre ++ map embedded objs).
Proof.
  induction objs as [|o objs IH]; intros pre; cbn [List.length seq embed_rules map].
  - reflexivity.
  - rewrite deref_new. cbn [bind]. unfold store. rewrite update_at_middle.
    specialize (IH (pre ++ [embedded o])).
    rewrite length_app, Nat.add_1_r, <- !app_assoc in IH. exact IH.
Qed.

Lemma initialize_fresh (kb : KnowledgeBase) (h : Heap num) :
  isInitialized kb = false ->
  initialize kb h
  = Some ({| rules := seq (List.length h) (List.length (@createTheoryRules num _));
             isInitialized := true |},
          h ++ map embedded createTheoryRules).
Proof.
  intros Hi. unfold initialize. rewrite Hi, alloc_all_eq, embed_rules_fresh. reflexivity.
Qed.

Lemma createTheoryRules_length : List.length (@createTheoryRules num _) = 30%nat.
Proof. reflexivity. Qed.

Lemma generateSimpleEmbedding_length (text : string) :
  List.length (generateSimpleEmbedding text) = 384%nat.
Proof. apply (generateFallbackEmbedding_length text). Qed.

Lemma createTheoryRules_plain :
  Forall (fun r : TheoryRule num => embedding r = None /\ similarity r = None)
         createTheoryRules.
Proof. repeat constructor. Qed.

Lemma initialize_returns (kb : KnowledgeBase) (h : Heap num) :
  exists kb' h', initialize kb h = Some (kb', h').
Proof.
  destruct (isInitialized kb) eqn:Hi.
  - exists kb, h. unfold initialize. now rewrite Hi.
  - rewrite (initialize_fresh kb h Hi). eauto.
Qed.

End CatalogFacts.

(** X1: [initialize] runs once.  On every knowledge base and store it returns
    an initialised knowledge base, and a second call changes nothing.  Called
    on a knowledge base that is already initialised it is the identity; called
    on a new one it leaves a catalog of 30 rules, new objects at the end of
    the store, each with the 384-dimensional embedding of its own description
    and no similarity. *)
Theorem initialize_once {num : Type} `{Number num} (kb : KnowledgeBase) (h : Heap num) :
  exists kb' h',
    initialize kb h = Some (kb', h') /\
    isInitialized kb' = true /\
    initialize kb' h' = Some (kb', h') /\
    if isInitialized kb then kb' = kb /\ h' = h
    else
      getRulesCount kb' = 30%nat /\
      h' = h ++ map embedded createTheoryRules /\
      rules kb' = seq (List.length h) 30 /\
      Forall (fun l => exists r, deref h' l = Some r /\
                                 option_map (@List.length num) (embedding r) = Some 384%nat /\
                                 embedding r = Some (generateSimpleEmbedding (rule_description r)) /\
                                 similarity r = None)
             (rules kb').
Proof.
  destruct (isInitialized kb) eqn:Hi.
  - exists kb, h. unfold initialize. rewrite Hi. auto.
  - eexists _, _. split; [apply initialize_fresh, Hi|].
    split; [reflexivity|]. split; [reflexivity|].
    split; [reflexivity|]. split; [reflexivity|]. split; [reflexivity|].
    cbn [rules]. apply Forall_forall. intros l Hl. apply in_seq in Hl.
    rewrite createTheoryRules_length in Hl.
    destruct (nth_error (@createTheoryRules num _) (l - List.length h)) as [r|] eqn:Er.
    2:{ apply nth_error_None in Er. rewrite createTheoryRules_length in Er. lia. }
    exists (embedded r). split.
    + unfold deref. rewrite nth_error_app2 by lia.
      now rewrite nth_error_map, Er.
    + pose proof createTheoryRules_plain as Hplain. rewrite Forall_forall in Hplain.
      destruct (Hplain r (nth_error_In _ _ Er)) as [_ Hsim].
      unfold embedded. cbn [embedding similarity set_embedding rule_description option_map].
      rewrite generateSimpleEmbedding_length. auto.
Qed.

(** X2: [initializeModels] runs once.  After the first call the service is
    marked as loaded, whether the model could be loaded or not, so a later call
    returns the state as it is and never tries to load the model again; the
    model of the service is the one that the first call loaded (or the one it
    had, when the load failed), and [lastAnalysis] is untouched. *)
Theorem initializeModels_once {num : Type} `{Number num}
    (load1 load2 : option (EmbeddingModel num)) (s : Service num) (h : Heap num) :
  isModelLoaded (fst (initializeModels load1 s h)) = true /\
  initializeModels load2 (fst (initializeModels load1 s h)) (snd (initializeModels load1 s h))
  = initializeModels load1 s h /\
  lastAnalysis (fst (initializeModels load1 s h)) = lastAnalysis s /\
  embeddingModel (fst (initializeModels load1 s h))
  = (if isModelLoaded s then embeddingModel s
     else match load1 with Some model => Some model | None => embeddingModel s end).
Proof.
  assert (E : initializeModels load1 s h
              = if isModelLoaded s then (s, h)
                else match initialize (knowledgeBase s) h with
                     | Some (kb, h1) =>
                         (Build_Service
                            (match load1 with
                             | Some model => Some model
                             | None => embeddingModel s
                             end) true kb (lastAnalysis s), h1)
                     | None =>
                         (Build_Service (embeddingModel s) true (knowledgeBase s)
                            (lastAnalysis s), h)
                     end) by reflexivity.
  rewrite E. clear E.
  destruct (isModelLoaded s) eqn:Hl.
  - cbn [fst snd]. unfold initializeModels. rewrite Hl. auto.
  - destruct (initialize_returns (knowledgeBase s) h) as (kb' & h' & ->).
    cbn [fst snd]. unfold initializeModels. cbn [isModelLoaded lastAnalysis embeddingModel].
    auto.
Qed.

Section LookupFacts.
Context {num : Type} `{Number num}.

Lemma find_rule_fresh (id : string) (objs : list (TheoryRule num)) :
  forall pre : Heap num,
    find_rule id (seq (List.length pre) (List.length objs)) (pre ++ objs)
    = Some (option_map (fun i => (List.length pre + i)%nat) (index_of_id id objs)).
Proof.
  induction objs as [|o objs IH]; intros pre; cbn [List.length seq find_rule index_of_id].
  - reflexivity.
  - rewrite deref_new. cbn [bind].
    destruct (String.eqb (rule_id o) id).
    + cbn [option_map]. now rewrite Nat.add_0_r.
    + specialize (IH (pre ++ [o])).
      rewrite length_app, Nat.add_1_r, <- app_assoc in IH. cbn [app] in IH.
      rewrite IH. destruct (index_of_id id objs); cbn [option_map]; [|reflexivity].
      do 2 f_equal. lia.
Qed.

Lemma index_of_id_embedded (id : string) (objs : list (TheoryRule num)) :
  index_of_id id (map embedded objs) = index_of_id id objs.
Proof.
  induction objs as [|o objs IH]; cbn [map index_of_id]; [reflexivity|].
  cbn [embedded set_embedding rule_id]. now rewrite IH.
Qed.

Lemma index_of_id_missing (id : string) (objs : list (TheoryRule num)) :
  ~ In id (map rule_id objs) -> index_of_id id objs = None.
Proof.
  induction objs as [|o objs IH]; cbn [map index_of_id]; [reflexivity|].
  intros Hn. destruct (String.eqb_spec (rule_id o) id) as [Heq|_].
  - exfalso. apply Hn. left. exact Heq.
  - rewrite IH; [reflexivity|]. intros Hin. apply Hn. right. exact Hin.
Qed.

Lemma index_of_id_found (objs : list (TheoryRule num)) :
  NoDup (map rule_id objs) ->
  forall p r, nth_error objs p = Some r -> index_of_id (rule_id r) objs = Some p.
Proof.
  induction objs as [|o objs IH]; intros Hnd p r Hp; [destruct p; discriminate|].
  cbn [map] in Hnd. inversion Hnd as [|? ? Hnotin Hnd']; subst.
  destruct p as [|p]; cbn [nth_error] in Hp; cbn [index_of_id].
  - injection Hp as ->. now rewrite String.eqb_refl.
  - destruct (String.eqb_spec (rule_id o) (rule_id r)) as [Heq|_].
    + exfalso. apply Hnotin. rewrite Heq. apply in_map. eapply nth_error_In, Hp.
    + now rewrite (IH Hnd' p r Hp).
Qed.

Lemma createTheoryRules_ids_distinct : NoDup (map rule_id (@createTheoryRules num _)).
Proof.
  replace (map rule_id (@createTheoryRules num _))
    with (nodup string_dec (map rule_id (@createTheoryRules num _))) by reflexivity.
  apply NoDup_nodup.
Qed.

End LookupFacts.

(** X3: [getRuleById] on the initialised knowledge base.  The identifiers of
    the 30 rules are distinct, so the rule at place [p] of
    [createTheoryRules] is found under its own identifier, as the object at
    place [p] of the catalog, with its embedding; an identifier of no rule
    gives [undefined]. *)
Theorem getRuleById_initialised {num : Type} `{Number num} (kb kb' : KnowledgeBase)
    (h h' : Heap num) (p : nat) (r : TheoryRule num) (unknown : string) :
  isInitialized kb = false ->
  initialize kb h = Some (kb', h') ->
  nth_error createTheoryRules p = Some r ->
  ~ In unknown (map rule_id (@createTheoryRules num _)) ->
  getRuleById kb' (rule_id r) h' = Some (Some (List.length h + p)%nat) /\
  deref h' (List.length h + p) = Some (embedded r) /\
  getRuleById kb' unknown h' = Some None.
Proof.
  intros Hi Hinit Hp Hunknown. rewrite (initialize_fresh kb h Hi) in Hinit.
  assert (Ekb : kb' = {| rules := seq (List.length h) (List.length (@createTheoryRules num _));
                          isInitialized := true |}) by congruence.
  assert (Eh : h' = h ++ map embedded createTheoryRules) by congruence.
  clear Hinit. subst kb' h'. unfold getRuleById.
  change (rules {| rules := seq (List.length h) (List.length (@createTheoryRules num _));
                   isInitialized := true |})
    with (seq (List.length h) (List.length (@createTheoryRules num _))).
  rewrite <- (length_map embedded (@createTheoryRules num _)).
  rewrite !find_rule_fresh, !index_of_id_embedded.
  rewrite (index_of_id_found _ createTheoryRules_ids_distinct p r Hp).
  rewrite (index_of_id_missing _ _ Hunknown).
  repeat split. unfold deref. rewrite nth_error_app2 by lia.
  replace (List.length h + p - List.length h)%nat with p by lia.
  now rewrite nth_error_map, Hp.
Qed.

Lemma getRuleById_initialised_witness :
  exists kb' h' r,
    initialize new_KnowledgeBase ([] : Heap float) = Some (kb', h') /\
    nth_error createTheoryRules 1 = Some r /\
    getRuleById kb' (rule_id r) h' = Some (Some 1%nat) /\
    deref h' 1 = Some (embedded r) /\
    getRuleById kb' "cadence_unknown" h' = Some None.
Proof.
  eexists _, _, _. split; [apply initialize_fresh; reflexivity|].
  split; [reflexivity|].
  apply (getRuleById_initialised (num := float) new_KnowledgeBase _ [] _ 1 _ "cadence_unknown").
  - reflexivity.
  - apply initialize_fresh. reflexivity.
  - reflexivity.
  - intros Hin. cbv in Hin. repeat (destruct Hin as [Hin|Hin]; [discriminate Hin|]). exact Hin.
Defined.

Section UpdateFacts.
Context {num : Type} `{Number num}.

Lemma deref_store_same (h : Heap num) (l : loc) (o : TheoryRule num) :
  (l < List.length h)%nat -> deref (store l o h) l = Some o.
Proof.
  unfold deref, store. revert l.
  induction h as [|x h IH]; intros [|l] Hl; cbn [List.length] in Hl;
    cbn [update_at nth_error]; try lia; [reflexivity|].
  apply IH. lia.
Qed.

Lemma deref_store_other (h : Heap num) (l l' : loc) (o : TheoryRule num) :
  l' <> l -> deref (store l o h) l' = deref h l'.
Proof.
  unfold deref, store. revert l l'.
  induction h as [|x h IH]; intros [|l] [|l'] Hne; cbn [update_at nth_error];
    try reflexivity; try congruence.
  apply IH. congruence.
Qed.

Lemma find_rule_outcome (id : string) (h : Heap num) (ls : list loc) :
  Forall (fun l => (l < List.length h)%nat) ls ->
  exists found,
    find_rule id ls h = Some found /\
    match found with
    | Some l => In l ls /\ exists r, deref h l = Some r /\ rule_id r = id
    | None => forall l r, In l ls -> deref h l = Some r -> rule_id r <> id
    end.
Proof.
  induction 1 as [|l ls Hl _ IH]; cbn [find_rule].
  - exists None. split; [reflexivity|]. intros l r [].
  - destruct (deref_valid h l Hl) as [r Hr]. rewrite Hr. cbn [bind].
    destruct (String.eqb_spec (rule_id r) id) as [Heq|Hne].
    + exists (Some l). split; [reflexivity|]. split; [now left|eauto].
    + destruct IH as (found & -> & Hfound). exists found. split; [reflexivity|].
      destruct found as [l0|].
      * destruct Hfound as [Hin Hr0]. split; [now right|exact Hr0].
      * intros l0 r0 [<-|Hin] Hr0; [congruence|eauto].
Qed.

Lemma find_rule_same_ids (id : string) (h h' : Heap num) (ls : list loc) :
  (forall l, option_map rule_id (deref h' l) = option_map rule_id (deref h l)) ->
  find_rule id ls h' = find_rule id ls h.
Proof.
  intros Hids. induction ls as [|l ls IH]; cbn [find_rule]; [reflexivity|].
  specialize (Hids l).
  destruct (deref h' l) as [r'|], (deref h l) as [r|]; cbn [option_map bind] in *;
    try discriminate; [|reflexivity].
  injection Hids as ->. now rewrite IH.
Qed.

End UpdateFacts.

(** X4: [updateRuleEmbedding] writes to the rule that [getRuleById] finds and
    to nothing else.  On a well-formed catalog it returns; when a rule has the
    identifier its embedding is replaced, in place, and every other object of
    the store is as it was; when none has, the store is unchanged.  The lookup
    gives the same reference after the call. *)
Theorem updateRuleEmbedding_found_only {num : Type} `{Number num} (kb : KnowledgeBase)
    (ruleId : string) (e : list num) (h : Heap num) :
  kb_wf kb h = true ->
  exists found h',
    getRuleById kb ruleId h = Some found /\
    updateRuleEmbedding kb ruleId e h = Some h' /\
    getRuleById kb ruleId h' = Some found /\
    kb_wf kb h' = true /\
    match found with
    | Some l =>
        In l (rules kb) /\
        (exists r, deref h l = Some r /\ rule_id r = ruleId /\
                   deref h' l = Some (set_embedding r e)) /\
        (forall l', l' <> l -> deref h' l' = deref h l')
    | None => h' = h
    end.
Proof.
  intros Hwf. pose proof (kb_wf_Forall kb h Hwf) as Hvalid.
  destruct (find_rule_outcome ruleId h (rules kb) Hvalid) as (found & Hfind & Hfound).
  unfold getRuleById, updateRuleEmbedding. rewrite Hfind. cbn [bind].
  destruct found as [l|].
  - destruct Hfound as (Hin & r & Hr & Hid). rewrite Hr. cbn [bind].
    assert (Hl : (l < List.length h)%nat)
      by (rewrite Forall_forall in Hvalid; auto).
    exists (Some l), (store l (set_embedding r e) h).
    split; [reflexivity|]. split; [reflexivity|]. split; [|split].
    + rewrite <- Hfind. apply find_rule_same_ids. intros l'.
      destruct (Nat.eq_dec l' l) as [->|Hne].
      * rewrite deref_store_same, Hr by exact Hl. reflexivity.
      * now rewrite deref_store_other.
    + unfold kb_wf, store in *. now rewrite update_at_length.
    + split; [exact Hin|]. split.
      * exists r. repeat split; [exact Hr|exact Hid|]. now apply deref_store_same.
      * intros l' Hne. now apply deref_store_other.
  - exists None, h. auto.
Qed.

Lemma updateRuleEmbedding_found_only_witness :
  exists found h',
    getRuleById sample_kb "cadence_half" (@sample_store float _) = Some found /\
    updateRuleEmbedding sample_kb "cadence_half" [2; 3]%float (@sample_store float _)
    = Some h' /\
    getRuleById sample_kb "cadence_half" h' = Some found /\
    kb_wf sample_kb h' = true /\
    match found with
    | Some l =>
        In l (rules sample_kb) /\
        (exists r, deref (@sample_store float _) l = Some r /\ rule_id r = "cadence_half" /\
                   deref h' l = Some (set_embedding r [2; 3]%float)) /\
        (forall l', l' <> l -> deref h' l' = deref (@sample_store float _) l')
    | None => h' = @sample_store float _
    end.
Proof.
  apply (updateRuleEmbedding_found_only (num := float) sample_kb "cadence_half" [2; 3]%float
           (@sample_store float _)).
  reflexivity.
Defined.

Section CategoryFacts.
Context {num : Type} `{Number num}.

Lemma pair_all (h : Heap num) (ls : list loc) :
  Forall (fun l => (l < List.length h)%nat) ls ->
  exists objs,
    mapM (fun l => r <- deref h l ;; Some (l, r)) ls = Some objs /\
    map fst objs = ls /\
    Forall (fun lr => deref h (fst lr) = Some (snd lr)) objs.
Proof.
  induction 1 as [|l ls Hl _ IH]; cbn [mapM].
  - exists []. auto.
  - destruct (deref_valid h l Hl) as [r Hr]. rewrite Hr. cbn [bind].
    destruct IH as (objs & -> & Hfst & Hobjs). cbn [bind].
    exists ((l, r) :: objs). cbn [map fst]. rewrite Hfst. auto.
Qed.

Lemma filter_paired (h : Heap num) (p : TheoryRule num -> bool)
    (objs : list (loc * TheoryRule num)) :
  Forall (fun lr => deref h (fst lr) = Some (snd lr)) objs ->
  map fst (filter (fun lr => p (snd lr)) objs)
  = filter (fun l => match deref h l with Some r => p r | None => false end) (map fst objs).
Proof.
  induction 1 as [|[l r] objs Hlr _ IH]; cbn [filter map fst snd]; [reflexivity|].
  cbn [fst snd] in Hlr. rewrite Hlr. destruct (p r); cbn [map fst]; now rewrite IH.
Qed.

End CategoryFacts.

(** X5: [searchByCategory] selects.  On a well-formed catalog it returns the
    references of the catalog itself (no copies, unlike [searchRules]), in
    catalog order: exactly the rules whose category is the one asked for. *)
Theorem searchByCategory_selects {num : Type} `{Number num} (kb : KnowledgeBase)
    (category : Category) (h : Heap num) :
  kb_wf kb h = true ->
  exists results,
    searchByCategory kb category h = Some results /\
    results = filter (fun l => match deref h l with
                               | Some r => Category_eqb (rule_category r) category
                               | None => false
                               end) (rules kb) /\
    forall l, In l results <->
              In l (rules kb) /\ exists r, deref h l = Some r /\ rule_category r = category.
Proof.
  intros Hwf. pose proof (kb_wf_Forall kb h Hwf) as Hvalid.
  destruct (pair_all h (rules kb) Hvalid) as (objs & Hobjs & Hfst & Hpaired).
  unfold searchByCategory. rewrite Hobjs. cbn [bind].
  rewrite (filter_paired h (fun r => Category_eqb (rule_category r) category) objs Hpaired).
  rewrite Hfst. eexists. split; [reflexivity|]. split; [reflexivity|].
  intros l. rewrite filter_In. split.
  - intros [Hin Hc]. split; [exact Hin|]. destruct (deref h l) as [r|]; [|discriminate].
    exists r. split; [reflexivity|]. destruct (rule_category r), category; try discriminate;
      reflexivity.
  - intros (Hin & r & Hr & Hc). split; [exact Hin|]. rewrite Hr, Hc.
    destruct category; reflexivity.
Qed.

Lemma searchByCategory_selects_witness :
  exists results,
    searchByCategory sample_kb cat_cadence (@sample_store float _) = Some results /\
    results = filter (fun l => match deref (@sample_store float _) l with
                               | Some r => Category_eqb (rule_category r) cat_cadence
                               | None => false
                               end) (rules sample_kb) /\
    forall l, In l results <->
              In l (rules sample_kb) /\
              exists r, deref (@sample_store float _) l = Some r /\ rule_category r = cat_cadence.
Proof.
  apply (searchByCategory_selects (num := float) sample_kb cat_cadence (@sample_store float _)).
  reflexivity.
Defined.

(** ** Cosine similarity *)

Lemma float_mul_comm (a b : float) : (a * b = b * a)%float.
Proof.
  apply Prim2SF_inj. rewrite !mul_spec.
  destruct (Prim2SF a) as [sa|sa| |sa ma ea], (Prim2SF b) as [sb|sb| |sb mb eb];
    cbn [SF64mul SFmul]; try reflexivity; try (now rewrite xorb_comm).
  now rewrite xorb_comm, Pos.mul_comm, Z.add_comm.
Qed.

Section CosineSymmetry.
Context {num : Type} `{Number num}.
Hypothesis nmul_comm : forall a b : num, (a * b)%num = (b * a)%num.

Lemma cosine_loop_swap (vec1 vec2 : list num) :
  forall dotProduct norm1 norm2,
    cosine_loop vec2 vec1 (dotProduct, norm2, norm1)
    = let '(d, n1, n2) := cosine_loop vec1 vec2 (dotProduct, norm1, norm2) in (d, n2, n1).
Proof.
  revert vec2. induction vec1 as [|a vec1 IH]; intros [|b vec2] d n1 n2;
    cbn [cosine_loop]; try reflexivity.
  rewrite (nmul_comm b a). apply IH.
Qed.

Lemma cosineSimilarity_comm (vec1 vec2 : list num) :
  cosineSimilarity vec1 vec2 = cosineSimilarity vec2 vec1.
Proof.
  unfold cosineSimilarity. rewrite (Nat.eqb_sym (List.length vec2)).
  destruct (List.length vec1 =? List.length vec2)%nat; cbn [negb]; [|reflexivity].
  rewrite (cosine_loop_swap vec1 vec2).
  destruct (cosine_loop vec1 vec2 (zero, zero, zero)) as [[d n1] n2].
  now rewrite (nmul_comm (nsqrt n2)).
Qed.

End CosineSymmetry.

(** X6: cosine similarity is symmetric, on binary64 (the products and the
    magnitude are rounded in the same way whichever vector comes first) and
    over the reals. *)
Theorem cosineSimilarity_symmetric (vec1 vec2 : list float) (vec1' vec2' : list R) :
  cosineSimilarity vec1 vec2 = cosineSimilarity vec2 vec1 /\
  cosineSimilarity vec1' vec2' = cosineSimilarity vec2' vec1'.
Proof.
  split.
  - apply cosineSimilarity_comm. exact float_mul_comm.
  - apply cosineSimilarity_comm. exact Rmult_comm.
Qed.

(** *** Over the reals *)

Lemma square_le (x y : R) : (0 <= y)%R -> (x * x <= y * y)%R -> (x <= y)%R.
Proof. intros Hy Hxy. destruct (Rle_lt_dec x y) as [Hle|Hlt]; [exact Hle|nra]. Qed.

(** What the loop keeps true: the Cauchy-Schwarz inequality. *)
Lemma cosine_loop_bound (vec1 vec2 : list R) :
  forall d n1 n2 : R,
    (0 <= n1)%R -> (0 <= n2)%R -> (d * d <= n1 * n2)%R ->
    let '(d', n1', n2') := cosine_loop vec1 vec2 (d, n1, n2) in
    (0 <= n1')%R /\ (0 <= n2')%R /\ (d' * d' <= n1' * n2')%R.
Proof.
  revert vec2. induction vec1 as [|a vec1 IH]; intros [|b vec2] d n1 n2 H1 H2 Hd;
    cbn [cosine_loop]; auto.
  apply IH; cbn [nadd nmul R_Number]; [nra|nra|].
  assert (Hcross : (2 * d * a * b <= n1 * (b * b) + n2 * (a * a))%R).
  { apply square_le; [nra|].
    pose proof (Rle_0_sqr (n1 * (b * b) - n2 * (a * a))) as Hsq. unfold Rsqr in Hsq.
    pose proof (Rle_0_sqr (a * b)) as Hab. unfold Rsqr in Hab.
    assert (Hm : ((d * d) * ((a * b) * (a * b)) <= (n1 * n2) * ((a * b) * (a * b)))%R)
      by (apply Rmult_le_compat_r; assumption).
    apply Rminus_le. apply Ropp_le_cancel. rewrite Ropp_0, Ropp_minus_distr.
    replace ((n1 * (b * b) + n2 * (a * a)) * (n1 * (b * b) + n2 * (a * a))
             - 2 * d * a * b * (2 * d * a * b))%R
      with ((n1 * (b * b) - n2 * (a * a)) * (n1 * (b * b) - n2 * (a * a))
            + 4 * ((n1 * n2) * ((a * b) * (a * b)) - (d * d) * ((a * b) * (a * b))))%R by ring.
    lra. }
  nra.
Qed.

Lemma cosine_loop_nonneg (vec1 vec2 : list R) :
  Forall (fun x => 0 <= x)%R vec1 -> Forall (fun x => 0 <= x)%R vec2 ->
  forall d n1 n2 : R,
    (0 <= d)%R -> (0 <= fst (fst (cosine_loop vec1 vec2 (d, n1, n2))))%R.
Proof.
  intros H1. revert vec2. induction H1 as [|a vec1 Ha _ IH]; intros vec2 H2 d n1 n2 Hd.
  - destruct vec2; exact Hd.
  - destruct H2 as [|b vec2 Hb H2]; [exact Hd|]. cbn [cosine_loop].
    apply IH; [exact H2|]. cbn [nadd nmul R_Number]. nra.
Qed.

Lemma R_ngt_zero (x : R) : ngt x 0%R = true <-> (0 < x)%R.
Proof.
  unfold ngt. cbn [nlt R_Number].
  destruct (Rlt_dec 0 x); split; intros; try reflexivity; try lra; discriminate.
Qed.

Lemma cosine_in_range (vec1 vec2 : list R) :
  (-1 <= cosineSimilarity vec1 vec2 <= 1)%R /\
  (Forall (fun x => 0 <= x)%R vec1 -> Forall (fun x => 0 <= x)%R vec2 ->
   0 <= cosineSimilarity vec1 vec2)%R.
Proof.
  unfold cosineSimilarity.
  destruct (negb (List.length vec1 =? List.length vec2)%nat).
  - change (@zero R _) with 0%R. split; [lra|intros; lra].
  - pose proof (cosine_loop_bound vec1 vec2 0 0 0 (Rle_refl 0) (Rle_refl 0)) as Hb.
    assert (Hn : Forall (fun x => 0 <= x)%R vec1 -> Forall (fun x => 0 <= x)%R vec2 ->
                 (0 <= fst (fst (cosine_loop vec1 vec2 (0%R, 0%R, 0%R))))%R)
      by (intros Hv1 Hv2; apply cosine_loop_nonneg; [exact Hv1|exact Hv2|lra]).
    change (@zero R _) with 0%R.
    destruct (cosine_loop vec1 vec2 (0%R, 0%R, 0%R)) as [[d n1] n2].
    destruct Hb as (H1 & H2 & Hd); [lra|].
    destruct (ngt (nsqrt n1 * nsqrt n2)%num 0%R) eqn:Hm.
    + apply R_ngt_zero in Hm. cbn [nmul nsqrt ndiv R_Number] in *.
      set (m := (R_sqrt.sqrt n1 * R_sqrt.sqrt n2)%R) in *.
      assert (Hmm : (m * m = n1 * n2)%R).
      { unfold m. pose proof (sqrt_sqrt n1 H1) as E1. pose proof (sqrt_sqrt n2 H2) as E2.
        transitivity ((R_sqrt.sqrt n1 * R_sqrt.sqrt n1) * (R_sqrt.sqrt n2 * R_sqrt.sqrt n2))%R;
          [ring|now rewrite E1, E2]. }
      assert (Hup : (d <= m)%R) by (apply square_le; lra).
      assert (Hlow : (- d <= m)%R) by (apply square_le; [lra|]; nra).
      split.
      * split.
        -- apply Rmult_le_reg_r with m; [exact Hm|].
           replace (d / m * m)%R with d by (field; lra). lra.
        -- apply Rmult_le_reg_r with m; [exact Hm|].
           replace (d / m * m)%R with d by (field; lra). lra.
      * intros Hv1 Hv2. specialize (Hn Hv1 Hv2). cbn [fst] in Hn.
        apply Rmult_le_reg_r with m; [exact Hm|].
        replace (d / m * m)%R with d by (field; lra). lra.
    + split; [lra|intros; lra].
Qed.

(** X7: the range of cosine similarity.  Over the reals it lies in [-1, 1]
    for every pair of vectors, and in [0, 1] when no component is negative.
    On binary64 the rounding of the square roots can push it above 1: the
    similarity of (1, 1, 1) to itself is 1.0000000000000002. *)
Theorem cosineSimilarity_range (vec1 vec2 : list R) :
  (-1 <= cosineSimilarity vec1 vec2 <= 1)%R /\
  (Forall (fun x => 0 <= x)%R vec1 -> Forall (fun x => 0 <= x)%R vec2 ->
   0 <= cosineSimilarity vec1 vec2)%R /\
  cosineSimilarity [1; 1; 1]%float [1; 1; 1]%float = 1.0000000000000002%float.
Proof.
  split; [apply cosine_in_range|]. split; [apply cosine_in_range|]. reflexivity.
Qed.

Lemma cosine_loop_scaled (k : R) (vec1 vec2 : list R) :
  forall d n1 n2 : R,
    cosine_loop (map (fun x => k * x)%R vec1) vec2 (k * d, k * k * n1, n2)%R
    = let '(d', n1', n2') := cosine_loop vec1 vec2 (d, n1, n2) in
      (k * d', k * k * n1', n2')%R.
Proof.
  revert vec2. induction vec1 as [|a vec1 IH]; intros [|b vec2] d n1 n2;
    cbn [map cosine_loop]; try reflexivity.
  cbn [nadd nmul R_Number].
  replace (k * d + k * a * b)%R with (k * (d + a * b))%R by ring.
  replace (k * k * n1 + k * a * (k * a))%R with (k * k * (n1 + a * a))%R by ring.
  apply IH.
Qed.

Lemma cosine_loop_self (vec : list R) :
  forall s : R, cosine_loop vec vec (s, s, s) = (fold_left (fun s v => s + v * v)%R vec s,
                                                 fold_left (fun s v => s + v * v)%R vec s,
                                                 fold_left (fun s v => s + v * v)%R vec s).
Proof.
  induction vec as [|a vec IH]; intros s; cbn [cosine_loop fold_left]; [reflexivity|].
  apply IH.
Qed.

(** X8: over the reals, cosine similarity does not see a positive scale:
    multiplying either vector by [k > 0] leaves it unchanged, and a vector
    that is not zero has similarity 1 to each of its positive multiples. *)
Theorem cosineSimilarity_scale_invariant (k : R) (vec1 vec2 : list R) :
  (0 < k)%R ->
  cosineSimilarity (map (fun x => k * x)%R vec1) vec2 = cosineSimilarity vec1 vec2 /\
  cosineSimilarity vec1 (map (fun x => k * x)%R vec2) = cosineSimilarity vec1 vec2 /\
  ((exists x, In x vec1 /\ x <> 0%R) ->
   cosineSimilarity (map (fun x => k * x)%R vec1) vec1 = 1%R).
Proof.
  intros Hk.
  assert (Hleft : forall v1 v2 : list R,
             cosineSimilarity (map (fun x => k * x)%R v1) v2 = cosineSimilarity v1 v2).
  { intros v1 v2. unfold cosineSimilarity. rewrite length_map.
    destruct (negb (List.length v1 =? List.length v2)%nat); [reflexivity|].
    pose proof (cosine_loop_scaled k v1 v2 0 0 0) as Hs.
    pose proof (cosine_loop_bound v1 v2 0 0 0 (Rle_refl 0) (Rle_refl 0)) as Hb.
    replace (k * 0)%R with 0%R in Hs by ring.
    replace (k * k * 0)%R with 0%R in Hs by ring.
    change (@zero R _) with 0%R. rewrite Hs.
    destruct (cosine_loop v1 v2 (0%R, 0%R, 0%R)) as [[d n1] n2].
    destruct Hb as (H1 & H2 & _); [lra|].
    cbn [nmul nsqrt ndiv R_Number].
    assert (Hsq : R_sqrt.sqrt (k * k * n1) = (k * R_sqrt.sqrt n1)%R).
    { rewrite sqrt_mult by nra. now rewrite sqrt_square by lra. }
    rewrite Hsq. rewrite Rmult_assoc. set (m := (R_sqrt.sqrt n1 * R_sqrt.sqrt n2)%R).
    destruct (ngt m 0%R) eqn:Hm.
    - apply R_ngt_zero in Hm.
      assert (Hkm : ngt (k * m)%R 0%R = true) by (apply R_ngt_zero; nra).
      rewrite Hkm. field. split; lra.
    - assert (Hkm : ngt (k * m)%R 0%R = false).
      { destruct (ngt (k * m)%R 0%R) eqn:E; [|reflexivity].
        apply R_ngt_zero in E.
        assert (Hpos : (0 < m)%R) by (apply Rmult_lt_reg_l with k; [exact Hk|]; lra).
        apply R_ngt_zero in Hpos. congruence. }
      now rewrite Hkm. }
  split; [apply Hleft|]. split.
  - rewrite (@cosineSimilarity_comm R R_Number Rmult_comm vec1), Hleft.
    apply (@cosineSimilarity_comm R R_Number Rmult_comm).
  - intros (x & Hin & Hx). rewrite Hleft. unfold cosineSimilarity.
    rewrite Nat.eqb_refl. cbn [negb].
    change (@zero R _) with 0%R. rewrite cosine_loop_self.
    rewrite <- sumsq_R. cbn [nmul nsqrt ndiv R_Number].
    pose proof (sumsq_In x vec1 Hin) as Hs.
    assert (Hpos : (0 < sumsq vec1)%R) by nra.
    rewrite sqrt_sqrt by lra.
    assert (Hm : ngt (sumsq vec1) 0%R = true) by (now apply R_ngt_zero).
    rewrite Hm. field. lra.
Qed.

Lemma cosineSimilarity_scale_invariant_witness :
  cosineSimilarity (map (fun x => 2 * x)%R [3; 4]%R) [1; 0]%R = cosineSimilarity [3; 4]%R [1; 0]%R /\
  cosineSimilarity [3; 4]%R (map (fun x => 2 * x)%R [1; 0]%R) = cosineSimilarity [3; 4]%R [1; 0]%R /\
  ((exists x, In x [3; 4]%R /\ x <> 0%R) ->
   cosineSimilarity (map (fun x => 2 * x)%R [3; 4]%R) [3; 4]%R = 1%R).
Proof.
  apply (cosineSimilarity_scale_invariant 2 [3; 4]%R [1; 0]%R). lra.
Defined.

(** ** Knowledge-enhanced inference *)

Section EnhanceFacts.
Context {num : Type} `{Number num}.

Lemma mapM_deref_new (copies : Heap num) :
  forall h : Heap num,
    mapM (deref (h ++ copies)) (seq (List.length h) (List.length copies)) = Some copies.
Proof.
  induction copies as [|c copies IH]; intros h; cbn [List.length seq mapM]; [reflexivity|].
  rewrite deref_new. cbn [bind].
  specialize (IH (h ++ [c])).
  rewrite length_app, Nat.add_1_r, <- app_assoc in IH. cbn [List.length app] in IH.
  rewrite IH. reflexivity.
Qed.

Lemma kb_wf_app (kb : KnowledgeBase) (h t : Heap num) :
  kb_wf kb h = true -> kb_wf kb (h ++ t) = true.
Proof.
  unfold kb_wf. rewrite !forallb_forall. intros Hwf l Hl.
  specialize (Hwf l Hl). apply Nat.ltb_lt in Hwf. apply Nat.ltb_lt.
  rewrite length_app. lia.
Qed.

Lemma deref_old (h t : Heap num) (l : loc) :
  (l < List.length h)%nat -> deref (h ++ t) l = deref h l.
Proof. intros Hl. unfold deref. now rewrite nth_error_app1. Qed.

(** The copies that a query leaves: each is a catalog rule of the store,
    with the cosine similarity of the query to its embedding. *)
Lemma searchRules_copies (kb : KnowledgeBase) (queryEmbedding : list num) (topK : option Z)
    (h t : Heap num) :
  kb_wf kb h = true ->
  exists copies,
    searchRules kb queryEmbedding topK (h ++ t)
    = Some (seq (List.length (h ++ t)) (List.length copies), (h ++ t) ++ copies) /\
    Forall (fun copy => exists l r,
                In l (rules kb) /\ deref h l = Some r /\
                copy = with_similarity r
                         (cosineSimilarity queryEmbedding (embedding_or_empty r))) copies.
Proof.
  intros Hwf.
  destruct (searchRules_outcome kb queryEmbedding topK (h ++ t) (kb_wf_app kb h t Hwf))
    as (scored & copies & Hscored & Hcopies & Hsearch).
  exists copies. split; [exact Hsearch|].
  pose proof (kb_wf_Forall kb h Hwf) as Hvalid. rewrite Forall_forall in Hvalid.
  assert (Hitems : Forall (fun item : loc * num =>
                     exists r, In (fst item) (rules kb) /\ deref h (fst item) = Some r /\
                               snd item = cosineSimilarity queryEmbedding (embedding_or_empty r))
                     scored).
  { assert (Hgen : forall ls items,
               Forall2 (scored_item (h ++ t) queryEmbedding) ls items ->
               (forall l, In l ls -> In l (rules kb)) ->
               Forall (fun item : loc * num =>
                         exists r, In (fst item) (rules kb) /\ deref h (fst item) = Some r /\
                                   snd item
                                   = cosineSimilarity queryEmbedding (embedding_or_empty r))
                      items); [|apply (Hgen (rules kb) scored Hscored); auto].
    intros ls items Hs.
    induction Hs as [|l item ls items (r & Hr & ->) _ IH]; intros Hsub; constructor.
    - exists r. cbn [fst snd]. split; [apply Hsub; now left|]. split; [|reflexivity].
      rewrite <- Hr. symmetry. apply deref_old, Hvalid, Hsub. now left.
    - apply IH. intros l' Hl'. apply Hsub. now right. }
  apply (js_sort_Forall (fun a b => (snd b - snd a)%num)) in Hitems.
  apply (js_slice_Forall _ 0 (match topK with Some k => k | None => 5%Z end)) in Hitems.
  revert Hitems Hcopies.
  generalize (js_slice 0 (match topK with Some k => k | None => 5%Z end)
                (js_sort (fun a b : loc * num => (snd b - snd a)%num) scored)) as items.
  clear Hsearch. intros items Hitems Hcopies.
  induction Hcopies as [|item copy items copies (r & Hr & ->) _ IH]; constructor.
  - inversion Hitems as [|? ? (r' & Hin & Hr' & Hsim) _]; subst.
    rewrite deref_old in Hr by (apply Hvalid, Hin).
    exists (fst item), r. rewrite Hsim. split; [exact Hin|]. split; [exact Hr|].
    congruence.
  - apply IH. inversion Hitems; subst; assumption.
Qed.

(** The loop of [enhanceStructuresWithKnowledge], from a store that has
    grown by [pre] since the catalog was last written. *)
Lemma enhance_outcome (s : Service num) (musicData : MusicXMLData num) (h : Heap num)
    (structures : list (MusicStructure num)) :
  kb_wf (knowledgeBase s) h = true ->
  forall pre : Heap num,
  exists enhanced grown,
    enhanceStructuresWithKnowledge s structures musicData (h ++ pre)
    = Some (enhanced, (h ++ pre) ++ grown) /\
    (List.length grown <= 5 * List.length structures)%nat /\
    Forall2 (fun e structure =>
               exists copies,
                 e = set_confidence structure (calculateConfidence copies) /\
                 (List.length copies <= 5)%nat /\
                 Forall (fun copy => exists l r,
                           In l (rules (knowledgeBase s)) /\ deref h l = Some r /\
                           copy = with_similarity r
                                    (cosineSimilarity
                                       (generateEmbedding s
                                          (generateStructureDescription structure musicData))
                                       (embedding_or_empty r))) copies)
            enhanced structures.
Proof.
  intros Hwf. induction structures as [|structure rest IH]; intros pre;
    cbn [enhanceStructuresWithKnowledge].
  - exists [], []. rewrite app_nil_r. split; [reflexivity|]. split; [cbn; lia|constructor].
  - unfold retrieveRelevantRules.
    destruct (searchRules_outcome (knowledgeBase s)
                (generateEmbedding s (generateStructureDescription structure musicData))
                (Some 5%Z) (h ++ pre) (kb_wf_app _ h pre Hwf))
      as (scored & copies' & _ & Hcopied & Hsearch').
    destruct (searchRules_copies (knowledgeBase s)
                (generateEmbedding s (generateStructureDescription structure musicData))
                (Some 5%Z) h pre Hwf) as (copies & Hsearch & Hcopies).
    assert (Hsame : copies' = copies).
    { rewrite Hsearch in Hsearch'. injection Hsearch' as _ Happ.
      now apply app_inv_head in Happ. }
    subst copies'.
    assert (Hlen : (List.length copies <= 5)%nat).
    { rewrite <- (Forall2_length Hcopied), js_slice_prefix by lia.
      rewrite length_firstn. change (Z.to_nat 5) with 5%nat. lia. }
    rewrite Hsearch. cbn [bind fst snd]. rewrite mapM_deref_new. cbn [bind].
    destruct (IH (pre ++ copies)) as (enhanced & grown & He & Hgrown & Hall).
    rewrite app_assoc in He. rewrite He. cbn [bind fst snd].
    exists (set_confidence structure (calculateConfidence copies) :: enhanced),
           (copies ++ grown).
    split; [now rewrite <- !app_assoc|]. split.
    + rewrite length_app. cbn [List.length]. lia.
    + constructor; [|exact Hall]. exists copies. auto.
Qed.

End EnhanceFacts.

(** X9: [enhanceStructuresWithKnowledge] touches the confidence only.  On a
    well-formed catalog it returns one structure per structure given, in the
    same order, each equal to the one given but for its confidence; the
    objects of the store are as they were, the store grows by at most 5 copies
    per structure, and the catalog stays well formed. *)
Theorem enhanceStructuresWithKnowledge_keeps {num : Type} `{Number num} (s : Service num)
    (structures : list (MusicStructure num)) (musicData : MusicXMLData num) (h : Heap num) :
  kb_wf (knowledgeBase s) h = true ->
  exists enhanced h',
    enhanceStructuresWithKnowledge s structures musicData h = Some (enhanced, h') /\
    Forall2 (fun e structure => e = set_confidence structure (structure_confidence e))
            enhanced structures /\
    map structure_id enhanced = map structure_id structures /\
    (forall l r, deref h l = Some r -> deref h' l = Some r) /\
    (List.length h' <= List.length h + 5 * List.length structures)%nat /\
    kb_wf (knowledgeBase s) h' = true.
Proof.
  intros Hwf.
  destruct (enhance_outcome s musicData h structures Hwf []) as (enhanced & grown & He & Hgrown & Hall).
  rewrite app_nil_r in He. exists enhanced, (h ++ grown).
  split; [exact He|]. split; [|split; [|split; [|split]]].
  - clear He Hgrown.
    induction Hall as [|e structure enhanced structures (copies & -> & _) _ IH];
      [constructor|constructor; [reflexivity|exact IH]].
  - clear He Hgrown.
    induction Hall as [|e structure enhanced structures (copies & -> & _) _ IH];
      cbn [map]; [reflexivity|]. now rewrite IH.
  - intros l r. apply deref_app.
  - rewrite length_app. lia.
  - now apply kb_wf_app.
Qed.

Lemma enhanceStructuresWithKnowledge_keeps_witness :
  exists enhanced h',
    enhanceStructuresWithKnowledge (Build_Service None true sample_kb None)
      [sample_structure "S1"; sample_structure "S2"] {| measures := [] |}
      (@sample_store float _) = Some (enhanced, h') /\
    Forall2 (fun e structure => e = set_confidence structure (structure_confidence e))
            enhanced [sample_structure "S1"; sample_structure "S2"] /\
    map structure_id enhanced = ["S1"; "S2"]%string /\
    (forall l r, deref (@sample_store float _) l = Some r -> deref h' l = Some r) /\
    (List.length h' <= 3 + 5 * 2)%nat /\
    kb_wf sample_kb h' = true.
Proof.
  apply (enhanceStructuresWithKnowledge_keeps (num := float)
           (Build_Service None true sample_kb None)
           [sample_structure "S1"; sample_structure "S2"] {| measures := [] |}
           (@sample_store float _)).
  reflexivity.
Defined.

(** *** Confidence over the reals *)

Lemma similarity_or_half_cases (rule : TheoryRule R) :
  similarity_or_half rule = (1 / 2)%R \/ similarity rule = Some (similarity_or_half rule).
Proof.
  unfold similarity_or_half, num_or, dec.
  destruct (similarity rule) as [sim|]; cbn [truthy ndiv num_of_Z R_Number].
  - destruct (Req_dec_T sim 0); [left; cbv iota; lra|right; reflexivity].
  - left. lra.
Qed.

Lemma fold_similarity_bounds (lo hi : R) (rules : list (TheoryRule R)) :
  Forall (fun rule => lo <= similarity_or_half rule <= hi)%R rules ->
  forall a : R,
    (a + IZR (Z.of_nat (List.length rules)) * lo
     <= fold_left (fun sum rule => (sum + similarity_or_half rule)%num) rules a
     <= a + IZR (Z.of_nat (List.length rules)) * hi)%R.
Proof.
  induction 1 as [|rule rules Hr _ IH]; intros a; cbn [fold_left List.length].
  - cbn. lra.
  - specialize (IH (a + similarity_or_half rule)%R). cbn [nadd R_Number] in *.
    rewrite Nat2Z.inj_succ, succ_IZR, !Rmult_plus_distr_r. lra.
Qed.

Lemma calculateConfidence_bounds (lo hi : R) (rules : list (TheoryRule R)) :
  (lo <= 0 <= hi)%R ->
  Forall (fun rule => lo <= similarity_or_half rule <= hi)%R rules ->
  (1 / 2 + lo / 2 <= calculateConfidence rules <= 1 / 2 + hi / 2)%R.
Proof.
  intros Hlohi Hall. unfold calculateConfidence.
  destruct rules as [|rule rules]; cbn [List.length Nat.eqb].
  - unfold dec. cbn [ndiv num_of_Z R_Number]. lra.
  - pose proof (fold_similarity_bounds lo hi (rule :: rules) Hall 0%R) as Hsum.
    change (@zero R _) with 0%R. unfold dec, of_nat.
    cbn [nadd nmul ndiv num_of_Z R_Number].
    set (total := fold_left _ _ _) in *. set (n := IZR (Z.of_nat _)) in *.
    assert (Hn : (0 < n)%R) by (unfold n; apply IZR_lt; cbn [List.length]; lia).
    assert (Hmean : (lo <= total / n <= hi)%R).
    { split.
      - apply Rmult_le_reg_r with n; [exact Hn|].
        replace (total / n * n)%R with total by (field; lra). lra.
      - apply Rmult_le_reg_r with n; [exact Hn|].
        replace (total / n * n)%R with total by (field; lra). lra. }
    lra.
Qed.

Lemma confidence_in_range (rules : list (TheoryRule R)) :
  Forall (fun rule => forall sim, similarity rule = Some sim -> -1 <= sim <= 1)%R rules ->
  (0 <= calculateConfidence rules <= 1)%R /\
  (Forall (fun rule => forall sim, similarity rule = Some sim -> 0 <= sim)%R rules ->
   1 / 2 <= calculateConfidence rules)%R.
Proof.
  intros Hall. split.
  - assert (Hb : (1 / 2 + -1 / 2 <= calculateConfidence rules <= 1 / 2 + 1 / 2)%R).
    { apply calculateConfidence_bounds; [lra|].
      eapply Forall_impl; [|exact Hall]. intros rule Hr. cbv beta in Hr.
      destruct (similarity_or_half_cases rule) as [->|Hs]; [lra|]. exact (Hr _ Hs). }
    lra.
  - intros Hpos.
    assert (Hb : (1 / 2 + 0 / 2 <= calculateConfidence rules <= 1 / 2 + 1 / 2)%R).
    { apply calculateConfidence_bounds; [lra|].
      apply Forall_forall. intros rule Hin. rewrite Forall_forall in Hall, Hpos.
      destruct (similarity_or_half_cases rule) as [->|Hs]; [lra|].
      split; [exact (Hpos rule Hin _ Hs)|exact (proj2 (Hall rule Hin _ Hs))]. }
    lra.
Qed.

(** X10: the range of [calculateConfidence] over the reals.  With
    similarities in [-1, 1] the confidence lies in [0, 1]; when no similarity
    is negative it lies in [1/2, 1]. *)
Theorem calculateConfidence_range (rules : list (TheoryRule R)) :
  Forall (fun rule => forall sim, similarity rule = Some sim -> -1 <= sim <= 1)%R rules ->
  (0 <= calculateConfidence rules <= 1)%R /\
  (Forall (fun rule => forall sim, similarity rule = Some sim -> 0 <= sim)%R rules ->
   1 / 2 <= calculateConfidence rules)%R.
Proof. exact (confidence_in_range rules). Qed.

Lemma calculateConfidence_range_witness :
  (0 <= calculateConfidence [with_similarity (mkRule "r" "R" "a rule" cat_form
                                                (Build_RuleFeatures None None None) [] 1%R)
                                             (-1)%R] <= 1)%R /\
  (Forall (fun rule : TheoryRule R => forall sim, similarity rule = Some sim -> 0 <= sim)%R
          [with_similarity (mkRule "r" "R" "a rule" cat_form
                              (Build_RuleFeatures None None None) [] 1%R) (-1)%R] ->
   1 / 2 <= calculateConfidence [with_similarity (mkRule "r" "R" "a rule" cat_form
                                                   (Build_RuleFeatures None None None) [] 1%R)
                                                (-1)%R])%R.
Proof.
  apply (calculateConfidence_range
           [with_similarity (mkRule "r" "R" "a rule" cat_form
                               (Build_RuleFeatures None None None) [] 1%R) (-1)%R]).
  constructor; [|constructor]. cbn [similarity with_similarity].
  intros sim Hsim. injection Hsim as <-. lra.
Defined.

(** *** The fallback embedding has no negative component *)

Lemma fold_plus_nonneg (l : list R) :
  Forall (fun w => 0 < w)%R l -> (0 <= fold_left Rplus l 0)%R.
Proof. apply fold_plus_ge. Qed.

Lemma raw_embedding_nonneg (text : string) :
  Forall (fun x => 0 <= x)%R (@raw_embedding R _ text).
Proof.
  rewrite raw_embedding_accumulates. apply Forall_forall. intros x Hx.
  apply in_map_iff in Hx. destruct Hx as (d & <- & _).
  unfold accumulated. apply fold_plus_nonneg.
  pose proof (text_contributions_positive (split_spaces (toLowerCase text)) 0) as Hall.
  apply Forall_forall. intros w Hw. apply in_map_iff in Hw.
  destruct Hw as (c & <- & Hc). apply filter_In in Hc.
  rewrite Forall_forall in Hall. apply (Hall c), Hc.
Qed.

Lemma generateFallbackEmbedding_nonneg (text : string) :
  Forall (fun x => 0 <= x)%R (@generateFallbackEmbedding R _ text).
Proof.
  unfold generateFallbackEmbedding. pose proof (raw_embedding_nonneg text) as Hraw.
  destruct (ngt (nsqrt (sumsq (raw_embedding text))) zero) eqn:Hm; [|exact Hraw].
  apply R_ngt_zero in Hm. apply Forall_forall. intros x Hx.
  apply in_map_iff in Hx. destruct Hx as (y & <- & Hy).
  rewrite Forall_forall in Hraw. specialize (Hraw y Hy).
  cbn [ndiv R_Number]. apply Rmult_le_pos; [exact Hraw|].
  left. apply Rinv_0_lt_compat. exact Hm.
Qed.

(** X11: [analyzeMusicStructure] on a new service, over the reals.  It
    returns the structures of the analysis in their order, records them with
    the relationships as the last analysis, and gives every structure a
    confidence in [0, 1]; when no model could be loaded, so that queries and
    rules are both embedded by the fallback, whose vectors have no negative
    component, every confidence lies in [1/2, 1]. *)
Theorem analyzeMusicStructure_confidence (load : option (EmbeddingModel R))
    (analysis : Analysis R) (musicData : MusicXMLData R) (h : Heap R) :
  exists enhanced s' h',
    analyzeMusicStructure load analysis musicData new_Service h = Some (enhanced, s', h') /\
    map structure_id enhanced = map structure_id (analysis_structures analysis) /\
    lastAnalysis s' = Some (Build_Analysis enhanced (relationships analysis)) /\
    Forall (fun e => 0 <= structure_confidence e <= 1)%R enhanced /\
    (load = None -> Forall (fun e => 1 / 2 <= structure_confidence e)%R enhanced).
Proof.
  set (kb := {| rules := seq (List.length h) (List.length (@createTheoryRules R _));
                isInitialized := true |}).
  set (model := match load with Some m => Some m | None => None end).
  set (store0 := h ++ map embedded createTheoryRules).
  set (s2 := Build_Service model true kb (Some analysis)).
  assert (Hinit : initializeModels load new_Service h
                  = (Build_Service model true kb None, store0)).
  { unfold initializeModels, new_Service.
    cbn [isModelLoaded knowledgeBase embeddingModel lastAnalysis].
    now rewrite (initialize_fresh new_KnowledgeBase h eq_refl). }
  unfold analyzeMusicStructure. rewrite Hinit.
  cbn [isModelLoaded knowledgeBase embeddingModel lastAnalysis]. fold s2.
  assert (Hwf : kb_wf (knowledgeBase s2) store0 = true).
  { unfold kb_wf, s2, kb, store0. cbn [knowledgeBase rules]. apply forallb_forall.
    intros l Hl. apply in_seq in Hl. apply Nat.ltb_lt. rewrite length_app, length_map. lia. }
  destruct (enhance_outcome s2 musicData store0 (analysis_structures analysis) Hwf [])
    as (enhanced & grown & He & _ & Hall).
  rewrite app_nil_r in He. rewrite He. cbn [bind fst snd].
  eexists _, _, _. split; [reflexivity|]. cbn [lastAnalysis].
  assert (Hcatalog : forall l r, In l (rules (knowledgeBase s2)) -> deref store0 l = Some r ->
                       Forall (fun x => 0 <= x)%R (embedding_or_empty r)).
  { intros l r Hl Hr. unfold s2, kb in Hl. cbn [knowledgeBase rules] in Hl.
    apply in_seq in Hl. unfold store0, deref in Hr.
    rewrite nth_error_app2 in Hr by lia. rewrite nth_error_map in Hr.
    destruct (nth_error createTheoryRules (l - List.length h)) as [r0|]; [|discriminate].
    injection Hr as <-. unfold embedded, embedding_or_empty.
    cbn [set_embedding embedding]. apply generateFallbackEmbedding_nonneg. }
  split; [|split; [reflexivity|split]].
  - clear He. induction Hall as [|e structure enhanced structures (copies & -> & _) _ IH];
      cbn [map]; [reflexivity|]. now rewrite IH.
  - clear He. induction Hall as [|e structure enhanced structures (copies & -> & _ & Hc) _ IH];
      constructor; [|exact IH].
    cbn [set_confidence structure_confidence]. apply confidence_in_range.
    eapply Forall_impl; [|exact Hc]. intros copy (l & r & _ & _ & ->) sim Hsim.
    cbn [with_similarity similarity] in Hsim. injection Hsim as <-.
    apply cosine_in_range.
  - intros ->. clear He.
    induction Hall as [|e structure enhanced structures (copies & -> & _ & Hc) _ IH];
      constructor; [|exact IH].
    cbn [set_confidence structure_confidence]. apply confidence_in_range.
    + eapply Forall_impl; [|exact Hc]. intros copy (l & r & _ & _ & ->) sim Hsim.
      cbn [with_similarity similarity] in Hsim. injection Hsim as <-.
      apply cosine_in_range.
    + eapply Forall_impl; [|exact Hc]. intros copy (l & r & Hl & Hr & ->) sim Hsim.
      cbn [with_similarity similarity] in Hsim. injection Hsim as <-.
      apply cosine_in_range; [|exact (Hcatalog l r Hl Hr)].
      unfold generateEmbedding, s2, model. cbn [embeddingModel].
      apply generateFallbackEmbedding_nonneg.
Qed.

(** ** Preferences and visual elements *)

Section PreferenceFacts.
Context {num : Type} `{Number num}.

Lemma getPreferredItems_perm (prefs : option (JsMap num)) (items : list string) :
  Permutation (getPreferredItems prefs items) items.
Proof.
  unfold getPreferredItems. destruct prefs as [prefs|]; [|reflexivity].
  destruct (List.length prefs =? 0)%nat; [reflexivity|apply js_sort_perm].
Qed.

Lemma nth_mod_In (l : list string) (i : nat) :
  l <> [] -> In (nth (i mod List.length l) l "") l.
Proof.
  intros Hl. apply nth_In. apply Nat.mod_upper_bound.
  destruct l; [congruence|discriminate].
Qed.

Lemma getColorsForEmotion_length (emotion : EmotionFeatures) :
  List.length (getColorsForEmotion emotion) = 5%nat.
Proof. destruct emotion as [[] [] []]; reflexivity. Qed.

Lemma make_element_drawn (structureType : option RelationshipType)
    (preferredShapes preferredAnimations colors : list string) (i j : nat) :
  preferredShapes <> [] -> preferredAnimations <> [] -> colors <> [] ->
  In (element_type (make_element structureType preferredShapes preferredAnimations colors i j))
     preferredShapes /\
  In (color (make_element structureType preferredShapes preferredAnimations colors i j))
     colors /\
  In (animation_type
        (animation (make_element structureType preferredShapes preferredAnimations colors i j)))
     preferredAnimations.
Proof.
  intros Hs Ha Hc. unfold make_element. cbn [element_type color animation animation_type].
  split; [|split; [|now apply nth_mod_In]].
  - unfold shapeIndex_of. destruct structureType as [[]|]; now apply nth_mod_In.
  - unfold colorIndex_of. destruct structureType as [[]|]; now apply nth_mod_In.
Qed.

End PreferenceFacts.

(** X12: [getPreferredItems] reorders, it never drops or invents an item (on
    binary64 as over the reals).  Over the reals, with a map that is missing
    or empty the items keep their order, and otherwise they come by
    descending weight, items of equal weight in their original order. *)
Theorem getPreferredItems_ranks (prefs64 : option (JsMap float)) (prefs : option (JsMap R))
    (items : list string) :
  Permutation (getPreferredItems prefs64 items) items /\
  exists placed,
    Permutation placed (combine (seq 0 (List.length items)) items) /\
    map snd placed = getPreferredItems prefs items /\
    match prefs with
    | None | Some [] => map snd placed = items
    | Some weights => StronglySorted (placed_before (weight_of weights)) placed
    end.
Proof.
  split; [apply getPreferredItems_perm|].
  destruct prefs as [[|entry weights]|].
  - exists (combine (seq 0 (List.length items)) items).
    split; [reflexivity|]. cbn [getPreferredItems List.length Nat.eqb].
    split; apply map_snd_combine_seq.
  - destruct (js_sort_ranking (weight_of (entry :: weights)) items) as (placed & Hp & Hs & Hm).
    exists placed. split; [exact Hp|]. split; [exact Hm|exact Hs].
  - exists (combine (seq 0 (List.length items)) items).
    split; [reflexivity|]. cbn [getPreferredItems].
    split; apply map_snd_combine_seq.
Qed.

(** X13: the elements of a recommendation.  The five schemes are
    "scheme_1" to "scheme_5" with the layouts horizontal, circular, vertical,
    grid, horizontal; the elements of a scheme are "element_1", ... with the
    sizes 60, 70, 80, the durations 1000, 1200, 1400 and the easing
    "ease-in-out"; and every element has a shape of the seven shapes, a colour
    of the palette of the emotion and an animation of the five animations,
    whatever the preferences and the relationship type. *)
Theorem recommendVisuals_elements {num : Type} `{Number num}
    (load : option (EmbeddingModel num)) (emotion : EmotionFeatures) (structureLevel : string)
    (preferences : option (UserPreferences num)) (structureId : option string)
    (s : Service num) (h : Heap num) :
  map scheme_id (schemes_of load emotion structureLevel preferences structureId s h)
  = ["scheme_1"; "scheme_2"; "scheme_3"; "scheme_4"; "scheme_5"]%string /\
  map layout (schemes_of load emotion structureLevel preferences structureId s h)
  = ["horizontal"; "circular"; "vertical"; "grid"; "horizontal"]%string /\
  Forall (fun scheme =>
            (exists count,
               map (fun e => (element_id e, size e, animation_duration (animation e),
                              easing (animation e))) (elements scheme)
               = firstn count [("element_1", 60, 1000, "ease-in-out");
                               ("element_2", 70, 1200, "ease-in-out");
                               ("element_3", 80, 1400, "ease-in-out")]%string%Z) /\
            Forall (fun e => In (element_type e) shapes /\
                             In (color e) (getColorsForEmotion emotion) /\
                             In (animation_type (animation e)) animations)
                   (elements scheme))
         (schemes_of load emotion structureLevel preferences structureId s h).
Proof.
  unfold schemes_of, recommendVisuals.
  destruct (initializeModels load s h) as [s1 h1]. cbn [fst].
  set (count := if String.eqb structureLevel "motive" then 1%nat
                else if String.eqb structureLevel "phrase"
                        || String.eqb structureLevel "sub_phrase" then 3%nat else 3%nat).
  set (preferredShapes := match preferences with
                          | Some p => getPreferredItems (shapePreferences p) shapes
                          | None => shapes
                          end).
  set (preferredAnimations := match preferences with
                              | Some p => getPreferredItems (animationPreferences p) animations
                              | None => animations
                              end).
  assert (Hshapes : Permutation preferredShapes shapes).
  { unfold preferredShapes. destruct preferences; [apply getPreferredItems_perm|reflexivity]. }
  assert (Hanimations : Permutation preferredAnimations animations).
  { unfold preferredAnimations.
    destruct preferences; [apply getPreferredItems_perm|reflexivity]. }
  assert (Hs : preferredShapes <> []).
  { intros E. rewrite E in Hshapes. apply Permutation_length in Hshapes. discriminate. }
  assert (Ha : preferredAnimations <> []).
  { intros E. rewrite E in Hanimations. apply Permutation_length in Hanimations.
    discriminate. }
  assert (Hc : getColorsForEmotion emotion <> []).
  { intros E. pose proof (getColorsForEmotion_length emotion) as Hl. rewrite E in Hl.
    discriminate. }
  split; [reflexivity|]. split; [reflexivity|].
  apply Forall_forall. intros scheme Hin. apply in_map_iff in Hin.
  destruct Hin as (i & <- & _). cbn [make_scheme elements]. split.
  - exists count. rewrite map_map. cbn [make_element element_id size animation
                                         animation_duration easing].
    assert (Hcount : count = 1%nat \/ count = 3%nat).
    { unfold count. destruct (String.eqb structureLevel "motive"); [now left|].
      destruct (_ || _); now right. }
    destruct Hcount as [-> | ->]; reflexivity.
  - apply Forall_forall. intros e He. apply in_map_iff in He. destruct He as (j & <- & _).
    destruct (make_element_drawn (structureType_of s1 structureId) preferredShapes
                preferredAnimations (getColorsForEmotion emotion) i j Hs Ha Hc)
      as (Ht & Hcol & Han).
    split; [|split; [exact Hcol|]].
    + eapply Permutation_in; [exact Hshapes|exact Ht].
    + eapply Permutation_in; [exact Hanimations|exact Han].
Qed.

(** ** Musical form *)

(** X14: the labels of [identifyForm].  The answer is one of six labels; at
    most two structures are always a binary form; "Sonata Form" is answered
    only for at least 8 structures with exactly 2 repeat relationships (a third
    one makes it a rondo) and at least 2 contrasts; "Rondo Form (ABACA)" only
    for at least 5 structures and 3 repeats; "Through-composed Form" only for
    at least 7 structures; and without an analysis the answer depends on the
    number of structures alone. *)
Theorem identifyForm_labels {num : Type} `{Number num} (load : option (EmbeddingModel num))
    (structures : list (MusicStructure num)) (s : Service num) (h : Heap num) :
  In (form_of load structures s h)
     ["Binary Form (AB)"; "Ternary Form (ABA)"; "Rondo Form (ABACA)"; "Sonata Form";
      "Rondo Form"; "Through-composed Form"]%string /\
  ((List.length structures <= 2)%nat -> form_of load structures s h = "Binary Form (AB)") /\
  (form_of load structures s h = "Sonata Form" ->
   (8 <= List.length structures)%nat /\
   count_type rel_repeat (known_relationships s) = 2%nat /\
   (2 <= count_type rel_contrast (known_relationships s))%nat) /\
  (form_of load structures s h = "Rondo Form (ABACA)" ->
   (5 <= List.length structures)%nat /\
   (3 <= count_type rel_repeat (known_relationships s))%nat) /\
  (form_of load structures s h = "Through-composed Form" ->
   (7 <= List.length structures)%nat) /\
  (lastAnalysis s = None ->
   form_of load structures s h = form_by_count (List.length structures)).
Proof.
  assert (Hcount : forall n,
            In (form_by_count n)
               ["Binary Form (AB)"; "Ternary Form (ABA)"; "Rondo Form (ABACA)"; "Sonata Form";
                "Rondo Form"; "Through-composed Form"]%string /\
            ((n <= 2)%nat -> form_by_count n = "Binary Form (AB)") /\
            form_by_count n <> "Sonata Form" /\
            form_by_count n <> "Rondo Form (ABACA)" /\
            (form_by_count n = "Through-composed Form" -> (7 <= n)%nat)).
  { intros n. unfold form_by_count.
    destruct (Nat.leb_spec n 2); [cbn; intuition (discriminate || lia)|].
    destruct (Nat.leb_spec n 4); [cbn; intuition (discriminate || lia)|].
    destruct (Nat.leb_spec n 6); cbn; intuition (discriminate || lia). }
  unfold known_relationships.
  destruct (lastAnalysis s) as [analysis|] eqn:Ha.
  - rewrite (form_of_eq load structures s h analysis Ha). cbv zeta.
    set (rels := relationships analysis).
    specialize (Hcount (List.length structures)).
    destruct Hcount as (Hin & Hsmall & Hsonata & Hrondo & Hthrough).
    destruct (is_ternary structures rels) eqn:Ht.
    { assert (Hn : (3 <= List.length structures)%nat).
      { unfold is_ternary in Ht. apply andb_true_iff in Ht. destruct Ht as [Ht _].
        apply andb_true_iff in Ht. destruct Ht as [_ Ht]. now apply Nat.leb_le in Ht. }
      split; [cbn; tauto|]. split; [intros; lia|].
      repeat split; intros; discriminate. }
    destruct ((3 <=? count_type rel_repeat rels)%nat && (5 <=? List.length structures)%nat)
      eqn:Hb2.
    { apply andb_true_iff in Hb2. destruct Hb2 as [Hr Hn].
      apply Nat.leb_le in Hr, Hn.
      split; [cbn; tauto|]. split; [intros; lia|].
      split; [intros; discriminate|]. split; [intros; split; assumption|].
      split; intros; discriminate. }
    destruct ((List.length structures <=? 4)%nat && (1 <=? count_type rel_contrast rels)%nat)
      eqn:Hb3.
    { split; [cbn; tauto|]. split; [reflexivity|].
      repeat split; intros; discriminate. }
    destruct ((8 <=? List.length structures)%nat && (2 <=? count_type rel_repeat rels)%nat
              && (2 <=? count_type rel_contrast rels)%nat) eqn:Hb4.
    { apply andb_true_iff in Hb4. destruct Hb4 as [Hb4 Hc].
      apply andb_true_iff in Hb4. destruct Hb4 as [Hn Hr].
      apply Nat.leb_le in Hc, Hn, Hr.
      apply andb_false_iff in Hb2.
      assert (Hr3 : (count_type rel_repeat rels < 3)%nat).
      { destruct Hb2 as [Hb2|Hb2]; [now apply Nat.leb_gt in Hb2|].
        apply Nat.leb_gt in Hb2. lia. }
      split; [cbn; tauto|]. split; [intros; lia|].
      split; [intros; repeat split; lia|].
      repeat split; intros; discriminate. }
    split; [exact Hin|]. split; [exact Hsmall|].
    split; [intros E; exfalso; auto|]. split; [intros E; exfalso; auto|].
    split; [exact Hthrough|intros; discriminate].
  - assert (Hf : form_of load structures s h = form_by_count (List.length structures)).
    { unfold form_of, identifyForm.
      pose proof (initializeModels_lastAnalysis load s h) as Hl.
      destruct (initializeModels load s h) as [s1 h1]. cbn [fst] in *. now rewrite Hl, Ha. }
    rewrite Hf. specialize (Hcount (List.length structures)).
    destruct Hcount as (Hin & Hsmall & Hsonata & Hrondo & Hthrough).
    split; [exact Hin|]. split; [exact Hsmall|].
    split; [intros E; exfalso; auto|]. split; [intros E; exfalso; auto|].
    split; [exact Hthrough|reflexivity].
Qed.

(** ** Groups from relationships *)

Section GroupFacts.
Context {num : Type} `{Number num}.

Lemma assigned_has_In (assigned : list string) (id : string) :
  assigned_has assigned id = true <-> In id assigned.
Proof.
  unfold assigned_has. rewrite existsb_exists. split.
  - intros (x & Hx & Heq). apply String.eqb_eq in Heq. now subst.
  - intros Hin. exists id. split; [exact Hin|apply String.eqb_refl].
Qed.

Lemma assigned_has_not_In (assigned : list string) (id : string) :
  assigned_has assigned id = false <-> ~ In id assigned.
Proof.
  rewrite <- assigned_has_In. destruct (assigned_has assigned id); split; congruence.
Qed.

Lemma grouped_seen (seen : list (StructureRelationship num)) (rel : StructureRelationship num)
    (groups : list (Group num)) :
  grouped seen groups ->
  In (id1 rel) (flat_map structureIds groups) ->
  In (id2 rel) (flat_map structureIds groups) ->
  grouped (seen ++ [rel]) groups.
Proof.
  intros (Hnd & Hall & Hlabels & Hcover) H1 H2.
  split; [exact Hnd|]. split; [|split; [exact Hlabels|]].
  - eapply Forall_impl; [|exact Hall]. intros g (Hlen & r & Hr & Hrest).
    split; [exact Hlen|]. exists r. split; [apply in_or_app; now left|exact Hrest].
  - intros r Hr. apply in_app_or in Hr. destruct Hr as [Hr|[<-|[]]]; auto.
Qed.

Lemma grouped_push (seen : list (StructureRelationship num)) (rel : StructureRelationship num)
    (groups : list (Group num)) (ids : list string) :
  grouped seen groups ->
  NoDup ids -> (1 <= List.length ids <= 2)%nat -> incl ids [id1 rel; id2 rel] ->
  (forall id, In id ids -> ~ In id (flat_map structureIds groups)) ->
  In (id1 rel) (flat_map structureIds groups ++ ids) ->
  In (id2 rel) (flat_map structureIds groups ++ ids) ->
  grouped (seen ++ [rel])
    (groups ++ [Build_Group (nth (List.length groups mod List.length groupLabels) groupLabels "")
                  ids (rel_similarity rel) [rel_description rel]]).
Proof.
  intros (Hnd & Hall & Hlabels & Hcover) Hids Hlen Hincl Hfresh H1 H2.
  assert (Hflat : forall g : Group num,
             flat_map structureIds (groups ++ [g])
             = flat_map structureIds groups ++ structureIds g).
  { intros g. rewrite flat_map_app. cbn [flat_map]. now rewrite app_nil_r. }
  split; [|split; [|split]].
  - rewrite Hflat. cbn [structureIds]. apply NoDup_app; [exact Hnd|exact Hids|].
    intros id Hin Hin'. exact (Hfresh id Hin' Hin).
  - apply Forall_app. split.
    + eapply Forall_impl; [|exact Hall]. intros g (Hl & r & Hr & Hrest).
      split; [exact Hl|]. exists r. split; [apply in_or_app; now left|exact Hrest].
    + constructor; [|constructor]. cbn [structureIds similarityScore commonFeatures].
      split; [exact Hlen|]. exists rel. split; [apply in_or_app; right; now left|].
      auto.
  - rewrite map_app, length_app, Hlabels. cbn [List.length map groupId].
    rewrite Nat.add_1_r, seq_S, map_app. reflexivity.
  - rewrite Hflat. cbn [structureIds]. intros r Hr. apply in_app_or in Hr.
    destruct Hr as [Hr|[<-|[]]]; [|auto].
    destruct (Hcover r Hr) as [Ha Hb]. split; apply in_or_app; now left.
Qed.

Lemma group_step_grouped (seen : list (StructureRelationship num))
    (rel : StructureRelationship num) (groups : list (Group num)) :
  grouped seen groups ->
  exists groups',
    group_step (groups, flat_map structureIds groups, List.length groups) rel
    = (groups', flat_map structureIds groups', List.length groups') /\
    grouped (seen ++ [rel]) groups'.
Proof.
  intros Hg. unfold group_step.
  set (assigned := flat_map structureIds groups).
  assert (Hflat : forall g : Group num,
             flat_map structureIds (groups ++ [g]) = assigned ++ structureIds g).
  { intros g. rewrite flat_map_app. cbn [flat_map]. now rewrite app_nil_r. }
  destruct (assigned_has assigned (id1 rel)) eqn:E1; cbn [negb andb].
  - destruct (assigned_has assigned (id2 rel)) eqn:E2; cbn [negb].
    + exists groups. split; [reflexivity|].
      apply grouped_seen; [exact Hg| |]; now apply assigned_has_In.
    + cbn [List.length Nat.ltb Nat.leb app].
      match goal with |- exists groups', (?a, _, _) = _ /\ _ => exists a end. split.
      * rewrite Hflat, length_app. cbn [structureIds List.length]. reflexivity.
      * apply assigned_has_In in E1. apply assigned_has_not_In in E2.
        apply grouped_push; [exact Hg|repeat constructor; intros []|cbn; lia| | | |].
        -- intros id [<-|[]]. right. now left.
        -- intros id [<-|[]]. exact E2.
        -- apply in_or_app. now left.
        -- apply in_or_app. right. now left.
  - destruct (assigned_has (assigned ++ [id1 rel]) (id2 rel)) eqn:E2; cbn [negb].
    + cbn [List.length Nat.ltb Nat.leb].
      match goal with |- exists groups', (?a, _, _) = _ /\ _ => exists a end. split.
      * rewrite Hflat, length_app. cbn [structureIds List.length]. reflexivity.
      * apply assigned_has_not_In in E1. apply assigned_has_In in E2.
        apply grouped_push; [exact Hg|repeat constructor; intros []|cbn; lia| | | |].
        -- intros id [<-|[]]. now left.
        -- intros id [<-|[]]. exact E1.
        -- apply in_or_app. right. now left.
        -- exact E2.
    + cbn [List.length Nat.ltb Nat.leb app].
      match goal with |- exists groups', (?a, _, _) = _ /\ _ => exists a end. split.
      * rewrite Hflat, length_app, <- app_assoc. cbn [structureIds List.length app].
        reflexivity.
      * apply assigned_has_not_In in E1. apply assigned_has_not_In in E2.
        assert (Hne : id1 rel <> id2 rel).
        { intros Heq. apply E2. apply in_or_app. right. left. exact Heq. }
        apply grouped_push; [exact Hg| |cbn; lia| | | |].
        -- constructor; [intros [Heq|[]]; congruence|repeat constructor; intros []].
        -- intros id Hin. exact Hin.
        -- intros id [<-|[<-|[]]]; [exact E1|].
           intros Hin. apply E2. apply in_or_app. now left.
        -- apply in_or_app. right. now left.
        -- apply in_or_app. right. right. now left.
Qed.

Lemma fold_group_step_grouped (rels : list (StructureRelationship num)) :
  forall (seen : list (StructureRelationship num)) (groups : list (Group num)),
    grouped seen groups ->
    grouped (seen ++ rels)
      (fst (fst (fold_left group_step rels
                   (groups, flat_map structureIds groups, List.length groups)))).
Proof.
  induction rels as [|rel rels IH]; intros seen groups Hg; cbn [fold_left].
  - now rewrite app_nil_r.
  - destruct (group_step_grouped seen rel groups Hg) as (groups' & -> & Hg').
    specialize (IH (seen ++ [rel]) groups' Hg').
    rewrite <- app_assoc in IH. exact IH.
Qed.

Lemma groupByRelationships_grouped (structures : list (MusicStructure num))
    (rels : list (StructureRelationship num)) :
  grouped (filter strong_relation rels) (groupByRelationships structures rels).
Proof.
  apply (fold_group_step_grouped (filter strong_relation rels) [] []).
  split; [constructor|]. split; [constructor|]. split; [reflexivity|]. intros rel [].
Qed.

End GroupFacts.

(** X15: the groups that [analyzeSimilarity] makes from relationships.  With
    an analysis and at least 4 structures it draws no random number and does
    not read the structures; no identifier is in two groups or twice in one;
    every group has one or two identifiers, both ends of one strong
    relationship (a repeat, or a similar one above 0.6) whose similarity and
    description it carries; the labels run A, B, C, D, E and start again; and
    both ends of every strong relationship are in some group. *)
Theorem analyzeSimilarity_groups {num : Type} `{Number num}
    (load : option (EmbeddingModel num)) (structures : list (MusicStructure num))
    (analysis : Analysis num) (s : Service num) (h : Heap num)
    (random : Random) (drawn : nat) :
  lastAnalysis s = Some analysis ->
  (4 <= List.length structures)%nat ->
  snd (analyzeSimilarity load structures s h random drawn) = drawn /\
  groups_of load structures s h random drawn
  = groupByRelationships [] (relationships analysis) /\
  grouped (filter strong_relation (relationships analysis))
          (groups_of load structures s h random drawn).
Proof.
  intros Ha Hlen.
  assert (Hg : groups_of load structures s h random drawn
               = groupByRelationships [] (relationships analysis)).
  { rewrite groups_of_eq, Ha.
    destruct (Nat.ltb_spec (List.length structures) 4); [lia|reflexivity]. }
  split; [|split; [exact Hg|]].
  - unfold analyzeSimilarity.
    pose proof (initializeModels_lastAnalysis load s h) as Hl.
    destruct (initializeModels load s h) as [s1 h1]. cbn [fst] in Hl. rewrite Hl, Ha.
    destruct (Nat.ltb_spec (List.length structures) 4); [lia|reflexivity].
  - rewrite Hg. apply groupByRelationships_grouped.
Qed.

(** ** Groups by position *)

Section WindowFacts.
Context {num : Type} `{Number num}.

Lemma js_slice_window {A : Type} (a w : nat) (l : list A) :
  (a <= List.length l)%nat ->
  js_slice (Z.of_nat a) (Z.of_nat (Nat.min (a + w) (List.length l))) l
  = firstn w (skipn a l).
Proof.
  intros Ha. unfold js_slice. cbv zeta.
  destruct (Z.ltb_spec (Z.of_nat a) 0) as [Hneg|_]; [lia|].
  destruct (Z.ltb_spec (Z.of_nat (Nat.min (a + w) (List.length l))) 0) as [Hneg|_]; [lia|].
  assert (E1 : Z.min (Z.of_nat a) (Z.of_nat (List.length l)) = Z.of_nat a) by lia.
  assert (E2 : Z.min (Z.of_nat (Nat.min (a + w) (List.length l))) (Z.of_nat (List.length l))
               = Z.of_nat (Nat.min (a + w) (List.length l))) by lia.
  rewrite E1, E2, Nat2Z.id.
  replace (Z.to_nat (Z.of_nat (Nat.min (a + w) (List.length l)) - Z.of_nat a))
    with (Nat.min (a + w) (List.length l) - a)%nat by lia.
  destruct (Nat.le_gt_cases (a + w) (List.length l)) as [Hle|Hgt].
  - f_equal. lia.
  - rewrite !firstn_all2; [reflexivity| |]; rewrite length_skipn; lia.
Qed.

Lemma position_loop_group (fuel i groupSize : nat) (structures : list (MusicStructure num))
    (random : Random) (drawn : nat) (groups : list (Group num)) :
  (2 * i < List.length structures)%nat ->
  (i * groupSize <= List.length structures)%nat ->
  (2 <= Nat.min (groupSize + 1) (List.length structures - i * groupSize))%nat ->
  position_loop (S fuel) i structures groupSize random drawn groups
  = position_loop fuel (i + 1) structures groupSize random (drawn + 1)
      (groups ++ [Build_Group (nth i groupLabels "")
                    (map structure_id (firstn (groupSize + 1)
                                              (skipn (i * groupSize) structures)))
                    (dec 75 100 + random drawn * dec 2 10)%num
                    ["similar melodic contour"; "parallel rhythmic pattern"]]).
Proof.
  intros Hi Ha Hw. cbn [position_loop].
  destruct (Nat.ltb_spec (2 * i) (List.length structures)) as [_|Hge]; [|lia].
  rewrite <- Nat.add_assoc, js_slice_window by exact Ha.
  destruct (Nat.leb_spec 2 (List.length (firstn (groupSize + 1)
                                                (skipn (i * groupSize) structures))))
    as [_|Hlt]; [reflexivity|].
  rewrite length_firstn, length_skipn in Hlt. lia.
Qed.

Lemma position_loop_stop (fuel i groupSize : nat) (structures : list (MusicStructure num))
    (random : Random) (drawn : nat) (groups : list (Group num)) :
  (List.length structures <= 2 * i)%nat ->
  position_loop (S fuel) i structures groupSize random drawn groups = (groups, drawn).
Proof.
  intros Hi. cbn [position_loop].
  destruct (Nat.ltb_spec (2 * i) (List.length structures)) as [Hlt|_]; [lia|reflexivity].
Qed.

Lemma groupByPosition_windows (structures : list (MusicStructure num)) (random : Random)
    (drawn : nat) :
  (4 <= List.length structures)%nat ->
  groupByPosition structures random drawn
  = (map (position_group structures random drawn)
         (seq 0 (if (List.length structures =? 4)%nat then 2 else 3)),
     (drawn + (if (List.length structures =? 4)%nat then 2 else 3))%nat).
Proof.
  intros Hn. unfold groupByPosition. cbv zeta.
  pose proof (Nat.div_mod_eq (List.length structures) 3) as Hdiv.
  pose proof (Nat.mod_upper_bound (List.length structures) 3) as Hmod.
  set (n := List.length structures) in *.
  assert (Hgs : exists gs, (n / 3 = gs)%nat) by eauto. destruct Hgs as [gs Hgs].
  unfold position_group. fold n. rewrite Hgs in *.
  assert (Hscore : forall j, synthetic_score random drawn j
                             = (dec 75 100 + random (drawn + j)%nat * dec 2 10)%num)
    by reflexivity.
  rewrite (position_loop_group 2 0 gs structures random drawn []) by (fold n; lia).
  rewrite (position_loop_group 1 1 gs structures random (drawn + 1)) by (fold n; lia).
  destruct (Nat.eqb_spec n 4) as [E4|Hne].
  - rewrite position_loop_stop by (fold n; lia).
    cbn [seq map app]. rewrite !Hscore, Nat.add_0_r. f_equal. lia.
  - rewrite (position_loop_group 0 2 gs structures random (drawn + 1 + 1)) by (fold n; lia).
    cbn [position_loop seq map app]. rewrite !Hscore, Nat.add_0_r.
    replace (drawn + 1 + 1)%nat with (drawn + 2)%nat by lia.
    f_equal. lia.
Qed.

End WindowFacts.

(** X16: the groups that [analyzeSimilarity] makes by position.  Without an
    analysis, [n >= 4] structures give 2 groups when [n = 4] and 3 otherwise,
    one random number drawn for each; the group of index [i] is the window
    that starts at index [i * (n/3)] and ends before index
    [i * (n/3) + n/3 + 1], or at the end of the list when that comes first.
    So every group has [n/3 + 1] structures, except the third one when 3
    divides [n]: the list ends one structure early and the group has [n/3]
    (sizes 3, 3, 2 for 6 structures).  Consecutive groups overlap: the
    structure at index [(i+1) * (n/3)] is in the group of index [i] and in
    the next one. *)
Theorem analyzeSimilarity_by_position {num : Type} `{Number num}
    (load : option (EmbeddingModel num)) (structures : list (MusicStructure num))
    (s : Service num) (h : Heap num) (random : Random) (drawn : nat) :
  lastAnalysis s = None ->
  (4 <= List.length structures)%nat ->
  groups_of load structures s h random drawn
  = map (position_group structures random drawn)
        (seq 0 (if (List.length structures =? 4)%nat then 2 else 3)) /\
  snd (analyzeSimilarity load structures s h random drawn)
  = (drawn + (if (List.length structures =? 4)%nat then 2 else 3))%nat /\
  (forall i, (S i < (if (List.length structures =? 4)%nat then 2 else 3))%nat ->
    exists shared,
      nth_error structures (S i * (List.length structures / 3)) = Some shared /\
      In (structure_id shared) (structureIds (position_group structures random drawn i)) /\
      In (structure_id shared) (structureIds (position_group structures random drawn (S i)))) /\
  (forall i, (i < (if (List.length structures =? 4)%nat then 2 else 3))%nat ->
     structureIds (position_group structures random drawn i)
     = map structure_id
           (js_slice (Z.of_nat (i * (List.length structures / 3)))
                     (Z.of_nat (Nat.min (i * (List.length structures / 3)
                                         + List.length structures / 3 + 1)
                                        (List.length structures)))
                     structures) /\
     List.length (structureIds (position_group structures random drawn i))
     = (if (i =? 2)%nat && (List.length structures mod 3 =? 0)%nat
        then List.length structures / 3 else List.length structures / 3 + 1)%nat).
Proof.
  intros Hnone Hn. split; [|split; [|split]].
  - rewrite groups_of_eq, Hnone.
    destruct (Nat.ltb_spec (List.length structures) 4); [lia|].
    now rewrite groupByPosition_windows.
  - unfold analyzeSimilarity.
    pose proof (initializeModels_lastAnalysis load s h) as Hl.
    destruct (initializeModels load s h) as [s1 h1]. cbn [fst] in Hl. rewrite Hl, Hnone.
    destruct (Nat.ltb_spec (List.length structures) 4); [lia|].
    now rewrite groupByPosition_windows.
  - intros i Hi.
    pose proof (Nat.div_mod_eq (List.length structures) 3) as Hdiv.
    pose proof (Nat.mod_upper_bound (List.length structures) 3) as Hmod.
    assert (Hgs : exists gs, (List.length structures / 3 = gs)%nat) by eauto.
    destruct Hgs as [gs Hgs]. unfold position_group. cbn [structureIds].
    rewrite Hgs in *.
    assert (Hi2 : (S i <= 2)%nat) by (destruct (List.length structures =? 4)%nat; lia).
    assert (Hin : (S i * gs < List.length structures)%nat) by nia.
    destruct (nth_error structures (S i * gs)) as [shared|] eqn:Es;
      [|apply nth_error_None in Es; lia].
    exists shared. split; [reflexivity|]. split; apply in_map.
    + apply (nth_error_In _ gs). rewrite nth_error_firstn.
      destruct (Nat.ltb_spec gs (gs + 1)); [|lia].
      rewrite nth_error_skipn. rewrite <- Es. f_equal. lia.
    + apply (nth_error_In _ 0). rewrite nth_error_firstn.
      destruct (Nat.ltb_spec 0 (gs + 1)); [|lia].
      rewrite nth_error_skipn. rewrite <- Es. f_equal. lia.
  - intros i Hi.
    pose proof (Nat.div_mod_eq (List.length structures) 3) as Hdiv.
    pose proof (Nat.mod_upper_bound (List.length structures) 3) as Hmod.
    assert (Hgs : exists gs, (List.length structures / 3 = gs)%nat) by eauto.
    destruct Hgs as [gs Hgs].
    assert (Hr : exists r, (List.length structures mod 3 = r)%nat) by eauto.
    destruct Hr as [r Hr].
    unfold position_group. cbn [structureIds]. rewrite Hgs, Hr in *.
    assert (Hi2 : (i <= 2)%nat) by (destruct (List.length structures =? 4)%nat; lia).
    assert (Hin : (i * gs <= List.length structures)%nat) by nia.
    split.
    + rewrite <- Nat.add_assoc, js_slice_window by exact Hin. reflexivity.
    + rewrite length_map, length_firstn, length_skipn.
      destruct (Nat.eqb_spec i 2) as [->|Hne]; cbn [andb].
      * destruct (Nat.eqb_spec r 0); lia.
      * destruct (Nat.eqb_spec (List.length structures) 4); nia.
Qed.

Lemma analyzeSimilarity_by_position_witness :
  map (fun g => List.length (structureIds g))
      (groups_of None (map sample_structure ["S1"; "S2"; "S3"; "S4"; "S5"; "S6"]) new_Service []
                 (fun _ => 0%float) 0)
  = [3; 3; 2]%nat /\
  groups_of None (map sample_structure ["S1"; "S2"; "S3"; "S4"; "S5"; "S6"]) new_Service []
            (fun _ => 0%float) 0
  = map (position_group (map sample_structure ["S1"; "S2"; "S3"; "S4"; "S5"; "S6"])
                        (fun _ => 0%float) 0) [0; 1; 2]%nat /\
  structureIds (position_group (map sample_structure ["S1"; "S2"; "S3"; "S4"; "S5"; "S6"])
                               (fun _ => 0%float) 0 2)
  = ["S5"; "S6"].
Proof.
  destruct (analyzeSimilarity_by_position (num := float) None
              (map sample_structure ["S1"; "S2"; "S3"; "S4"; "S5"; "S6"]) new_Service []
              (fun _ => 0%float) 0 eq_refl (proj1 (Nat.leb_le 4 6) eq_refl))
    as (Hgroups & _ & _ & Hsize).
  split; [|split].
  - rewrite Hgroups. vm_compute. reflexivity.
  - exact Hgroups.
  - rewrite (proj1 (Hsize 2%nat (proj1 (Nat.ltb_lt 2 3) eq_refl))). vm_compute. reflexivity.
Defined.

Lemma analyzeSimilarity_groups_witness :
  snd (analyzeSimilarity None (map sample_structure ["S1"; "S2"; "S3"; "S4"])
         (Build_Service None false new_KnowledgeBase
            (Some (Build_Analysis [] (scenario_relationships "r12" "c23" "r34"))))
         [] (fun _ => 0%float) 7) = 7%nat /\
  groups_of None (map sample_structure ["S1"; "S2"; "S3"; "S4"])
            (Build_Service None false new_KnowledgeBase
               (Some (Build_Analysis [] (scenario_relationships "r12" "c23" "r34"))))
            [] (fun _ => 0%float) 7
  = groupByRelationships [] (scenario_relationships "r12" "c23" "r34") /\
  grouped (filter strong_relation (scenario_relationships "r12" "c23" "r34"))
          (groups_of None (map sample_structure ["S1"; "S2"; "S3"; "S4"])
             (Build_Service None false new_KnowledgeBase
                (Some (Build_Analysis [] (scenario_relationships "r12" "c23" "r34"))))
             [] (fun _ => 0%float) 7).
Proof.
  apply (analyzeSimilarity_groups (num := float) None
           (map sample_structure ["S1"; "S2"; "S3"; "S4"])
           (Build_Analysis [] (scenario_relationships "r12" "c23" "r34"))
           (Build_Service None false new_KnowledgeBase
              (Some (Build_Analysis [] (scenario_relationships "r12" "c23" "r34"))))
           [] (fun _ => 0%float) 7).
  - reflexivity.
  - apply Nat.leb_le. reflexivity.
Defined.

(** ** Emotions *)

Lemma R_nlt (a b : R) : (a <? b)%num = true <-> (a < b)%R.
Proof.
  cbn [nlt R_Number]. destruct (Rlt_dec a b); split; intros; try reflexivity; try lra;
    discriminate.
Qed.

Lemma R_ngt (a b : R) : ngt a b = true <-> (b < a)%R.
Proof. unfold ngt. apply R_nlt. Qed.

Ltac compare_reals :=
  repeat match goal with
         | |- context [ngt ?a ?b] =>
             let E := fresh "E" in
             destruct (ngt a b) eqn:E;
             [apply R_ngt in E|apply not_true_iff_false in E; rewrite R_ngt in E]
         | |- context [nlt ?a ?b] =>
             let E := fresh "E" in
             destruct (nlt a b) eqn:E;
             [apply R_nlt in E|apply not_true_iff_false in E; rewrite R_nlt in E]
         end;
  unfold dec in *; cbn [ndiv num_of_Z R_Number] in *.

(** X17: [inferEmotion] over the reals.  It changes the state as
    [initializeModels] does and no further; it never answers fast with weak,
    nor slow with strong; strong needs a tempo above 110 and weak one below
    90; a minor tonality is always tense; and relaxed is answered only for a
    major tonality with a tension below 0.4. *)
Theorem inferEmotion_consistent (load : option (EmbeddingModel R)) (features : MusicFeatures R)
    (s : Service R) (h : Heap R) :
  exists emotion,
    inferEmotion load features s h
    = (emotion, fst (initializeModels load s h), snd (initializeModels load s h)) /\
    ~ (speed emotion = fast /\ intensity emotion = weak) /\
    ~ (speed emotion = slow /\ intensity emotion = strong) /\
    (intensity emotion = strong -> (110 < rhythm_tempo features)%R) /\
    (intensity emotion = weak -> (rhythm_tempo features < 90)%R) /\
    (harmony_tonality features = "minor" -> tension emotion = tense) /\
    (tension emotion = relaxed ->
     harmony_tonality features = "major" /\ (harmony_tension features < 4 / 10)%R).
Proof.
  unfold inferEmotion. destruct (initializeModels load s h) as [s1 h1]. cbv zeta.
  eexists. split; [reflexivity|]. cbn [speed intensity tension fst snd].
  split; [|split; [|split; [|split; [|split]]]].
  - compare_reals; cbn [orb andb]; intros [Hs Hi]; try discriminate; lra.
  - compare_reals; cbn [orb andb]; intros [Hs Hi]; try discriminate; lra.
  - compare_reals; cbn [orb andb]; intros Hi; try discriminate; lra.
  - compare_reals; cbn [orb andb]; intros Hi; try discriminate; lra.
  - intros ->. rewrite orb_true_r. reflexivity.
  - destruct (String.eqb_spec (harmony_tonality features) "minor") as [Hminor|_];
      [rewrite orb_true_r; discriminate|]. rewrite orb_false_r.
    destruct (String.eqb_spec (harmony_tonality features) "major") as [Hmajor|_].
    + compare_reals; cbn [andb]; intros Ht; try discriminate. split; [exact Hmajor|lra].
    + rewrite andb_false_r. destruct (ngt _ _); discriminate.
Qed.

Ltac in_list := first [left; reflexivity|right; in_list].

(** The confidence values of [recognizeEmotions] on binary64. *)
Lemma rounded_confidences :
  map (fun c : float => (nround (c * num_of_Z 100) / num_of_Z 100)%num)
      [dec 85 100; dec 8 10; dec 75 100; dec 7 10]
  = [0.85; 0.8; 0.75; 0.7]%float.
Proof. reflexivity. Qed.

Lemma getEmotionFeatureDescriptions_known (emotion : string) :
  In emotion emotionTypes ->
  List.length (getEmotionFeatureDescriptions emotion) = 4%nat /\
  getEmotionFeatureDescriptions emotion <> ["neutral features"].
Proof.
  intros Hin. cbn in Hin.
  repeat (destruct Hin as [<-|Hin]; [split; [reflexivity|discriminate]|]). destruct Hin.
Qed.

Lemma recognize_from_entries (structures : list (MusicStructure float)) :
  forall i,
    Forall2 (fun e structure =>
               structureId e = structure_id structure /\
               In (primary e, emotion_confidence e)
                  [("excited", 0.85); ("happy", 0.8); ("sad", 0.75); ("peaceful", 0.8);
                   ("tense", 0.75); ("happy", 0.7); ("sad", 0.7); ("excited", 0.7);
                   ("peaceful", 0.7); ("tense", 0.7)]%float /\
               emotion_features e = getEmotionFeatureDescriptions (primary e))
            (recognize_from i structures) structures.
Proof.
  induction structures as [|structure rest IH]; intros i; cbn [recognize_from];
    [constructor|].
  destruct (choose_emotion i (extractStructureFeatures structure)) as [p c] eqn:Ec.
  constructor; [|apply IH].
  cbn [structureId primary emotion_confidence emotion_features].
  split; [reflexivity|]. split; [|reflexivity].
  unfold choose_emotion in Ec.
  set (k := (i mod List.length emotionTypes)%nat) in Ec.
  assert (Hk : (k < 5)%nat) by (apply Nat.mod_upper_bound; discriminate).
  clearbody k.
  repeat match type of Ec with
         | (if ?b then _ else _) = _ =>
             destruct b; [injection Ec as <- <-; in_list|]
         end.
  injection Ec as <- <-.
  destruct k as [|[|[|[|[|n]]]]]; try lia; in_list.
Qed.

(** X18: [recognizeEmotions] on binary64.  It changes the state as
    [initializeModels] does and no further, and returns one entry per
    structure, in order, under the identifier of the structure; the primary
    emotion and the confidence are one of ten pairs, with the confidence
    among 0.85, 0.8, 0.75 and 0.7 exactly (rounding to two decimals changes
    none of them); and the features are the four descriptions of the primary
    emotion, never the neutral default. *)
Theorem recognizeEmotions_entries (load : option (EmbeddingModel float))
    (structures : list (MusicStructure float)) (s : Service float) (h : Heap float) :
  (snd (fst (recognizeEmotions load structures s h)), snd (recognizeEmotions load structures s h))
  = initializeModels load s h /\
  Forall2 (fun e structure =>
             structureId e = structure_id structure /\
             In (primary e, emotion_confidence e)
                [("excited", 0.85); ("happy", 0.8); ("sad", 0.75); ("peaceful", 0.8);
                 ("tense", 0.75); ("happy", 0.7); ("sad", 0.7); ("excited", 0.7);
                 ("peaceful", 0.7); ("tense", 0.7)]%float /\
             emotion_features e = getEmotionFeatureDescriptions (primary e) /\
             List.length (emotion_features e) = 4%nat)
          (fst (fst (recognizeEmotions load structures s h))) structures.
Proof.
  unfold recognizeEmotions. destruct (initializeModels load s h) as [s1 h1]. cbn [fst snd].
  split; [reflexivity|].
  pose proof (recognize_from_entries structures 0) as Hall.
  induction Hall as [|e structure es sts (Hid & Hin & Hf) _ IH]; constructor; [|exact IH].
  split; [exact Hid|]. split; [exact Hin|]. split; [exact Hf|].
  rewrite Hf. apply getEmotionFeatureDescriptions_known.
  cbn in Hin. unfold emotionTypes.
  repeat (destruct Hin as [Hin|Hin]; [injection Hin as <- _; in_list|]). destruct Hin.
Qed.

(** ** The service factory *)

(** X19: the factory keeps one service.  With mock mode off, two calls of
    [createAIService] return the same object and the second constructs
    nothing; [getAIServiceInstance] returns that object; after
    [resetAIService] the next call constructs a new object, different from
    the old one.  With mock mode on, every call constructs a new mock service
    and the singleton is left alone. *)
Theorem createAIService_singleton (f : Factory) :
  factory_wf f = true ->
  fst (createAIService false (snd (createAIService false f))) = fst (createAIService false f) /\
  snd (createAIService false (snd (createAIService false f))) = snd (createAIService false f) /\
  getAIServiceInstance false (snd (createAIService false f))
  = (Some (fst (createAIService false f)), snd (createAIService false f)) /\
  fst (createAIService false (resetAIService (snd (createAIService false f))))
  <> fst (createAIService false f) /\
  factory_wf (snd (createAIService false (resetAIService (snd (createAIService false f)))))
  = true /\
  fst (createAIService true f) = MockService (constructed f) /\
  fst (getAIServiceInstance true (snd (createAIService true f)))
  = Some (MockService (constructed f + 1)) /\
  transformersServiceInstance (snd (createAIService true f)) = transformersServiceInstance f.
Proof.
  unfold factory_wf, createAIService, getAIServiceInstance, resetAIService.
  destruct f as [[object|] made]; cbn [transformersServiceInstance constructed fst snd option_map];
    intros Hwf.
  - apply Nat.ltb_lt in Hwf. repeat split; try reflexivity.
    + intros E. injection E as E. lia.
    + apply Nat.ltb_lt. lia.
  - repeat split; try reflexivity.
    + intros E. injection E as E. lia.
    + apply Nat.ltb_lt. lia.
Qed.

Lemma createAIService_singleton_witness :
  fst (createAIService false (snd (createAIService false (Build_Factory None 0))))
  = TransformersService 0 /\
  snd (createAIService false (snd (createAIService false (Build_Factory None 0))))
  = Build_Factory (Some 0%nat) 1 /\
  getAIServiceInstance false (snd (createAIService false (Build_Factory None 0)))
  = (Some (TransformersService 0), Build_Factory (Some 0%nat) 1) /\
  fst (createAIService false (resetAIService (snd (createAIService false (Build_Factory None 0)))))
  <> TransformersService 0 /\
  factory_wf (snd (createAIService false
                     (resetAIService (snd (createAIService false (Build_Factory None 0))))))
  = true /\
  fst (createAIService true (Build_Factory None 0)) = MockService 0 /\
  fst (getAIServiceInstance true (snd (createAIService true (Build_Factory None 0))))
  = Some (MockService 1) /\
  transformersServiceInstance (snd (createAIService true (Build_Factory None 0))) = None.
Proof.
  apply (createAIService_singleton (Build_Factory None 0)). reflexivity.
Defined.

(** ** Pitches and patterns *)

Lemma string_app_nil (s : string) : (s ++ "")%string = s.
Proof. induction s as [|c s IH]; cbn; [reflexivity|now rewrite IH]. Qed.

Lemma digit_not_accidental (c : ascii) : is_digit c = true -> is_accidental c = false.
Proof.
  destruct c as [[] [] [] [] [] [] [] []]; cbn; intros Hd; try discriminate; reflexivity.
Qed.

Lemma is_digit_value (c : ascii) :
  is_digit c = true -> (0 <= Z.of_nat (nat_of_ascii c) - 48 <= 9)%Z.
Proof.
  unfold is_digit, code_in. intros Hd. apply andb_true_iff in Hd. destruct Hd as [H1 H2].
  apply Nat.leb_le in H1, H2. lia.
Qed.

Lemma parse_digits_bound (s : string) :
  forall acc, all_digits s = true -> (0 <= acc)%Z ->
    (0 <= parse_digits s acc < (acc + 1) * 10 ^ Z.of_nat (String.length s))%Z.
Proof.
  induction s as [|c s IH]; intros acc Hd Hacc.
  - cbn. lia.
  - cbn [all_digits] in Hd. apply andb_true_iff in Hd. destruct Hd as [Hc Hs].
    pose proof (is_digit_value c Hc) as Hv.
    cbn [parse_digits String.length]. rewrite Nat2Z.inj_succ, Z.pow_succ_r by lia.
    specialize (IH (10 * acc + (Z.of_nat (nat_of_ascii c) - 48))%Z Hs ltac:(lia)).
    assert (Hp : (0 < 10 ^ Z.of_nat (String.length s))%Z) by (apply Z.pow_pos_nonneg; lia).
    nia.
Qed.

Lemma parseInt_bound (s : string) (n : nat) :
  all_digits s = true -> (String.length s <= n)%nat ->
  (0 <= parseInt s < 10 ^ Z.of_nat n)%Z.
Proof.
  intros Hd Hn. pose proof (parse_digits_bound s 0 Hd ltac:(lia)) as Hb.
  unfold parseInt.
  assert (Hm : (10 ^ Z.of_nat (String.length s) <= 10 ^ Z.of_nat n)%Z)
    by (apply Z.pow_le_mono_r; lia).
  lia.
Qed.

Lemma noteMap_range (letter : ascii) : (0 <= noteMap letter <= 11)%Z.
Proof. unfold noteMap. repeat (destruct (Ascii.eqb letter _); [lia|]). lia. Qed.

(** X20: [pitchToNumber] on a well-formed pitch.  A letter A-G, an optional
    accidental and an optional octave of at most 14 decimal digits give the
    number of the letter plus 12 times the octave (4 when there is none), one
    more for a sharp and one less for a flat.  With at most 14 digits the
    octave is below 10^14 and the number of the pitch is below 2^53: every
    number of the computation is an integer that a double holds exactly, so
    the integers of the model are the doubles of the engine (a longer octave
    is rounded by [parseInt], and by the sums that follow).  Octave 4 starts
    at 48, so that the number 60 of an unreadable pitch is the one of "C5". *)
Theorem pitchToNumber_formula (letter : ascii) (accidental octave : string) :
  In letter ["A"; "B"; "C"; "D"; "E"; "F"; "G"]%char ->
  accidental = "" \/ accidental = "#" \/ accidental = "b" ->
  all_digits octave = true ->
  (String.length octave <= 14)%nat ->
  (0 <= parseInt (if String.eqb octave "" then "4" else octave) < 10 ^ 14)%Z /\
  (-1 <= pitchToNumber (String letter (accidental ++ octave)%string) < 2 ^ 53)%Z /\
  pitchToNumber (String letter (accidental ++ octave)%string)
  = (noteMap letter + 12 * parseInt (if String.eqb octave "" then "4" else octave)
     + accidental_offset accidental)%Z /\
  pitchToNumber (String letter ("#" ++ octave)%string)
  = (pitchToNumber (String letter octave) + 1)%Z /\
  pitchToNumber (String letter ("b" ++ octave)%string)
  = (pitchToNumber (String letter octave) - 1)%Z /\
  pitchToNumber "C4" = 48%Z /\ pitchToNumber "A4" = 57%Z /\ pitchToNumber "C5" = 60%Z.
Proof.
  intros Hletter Hacc Hoct Hlen.
  assert (Hl : is_note_letter letter = true).
  { cbn in Hletter. repeat (destruct Hletter as [<-|Hletter]; [reflexivity|]).
    destruct Hletter. }
  assert (Hf : forall acc, acc = "" \/ acc = "#" \/ acc = "b" ->
            pitchToNumber (String letter (acc ++ octave)%string)
            = (noteMap letter + 12 * parseInt (if String.eqb octave "" then "4" else octave)
               + accidental_offset acc)%Z).
  { intros acc Ha. unfold pitchToNumber, match_pitch. rewrite Hl.
    destruct octave as [|d rest].
    - destruct Ha as [->|[->| ->]]; cbn -[parseInt noteMap Z.mul Z.add Z.sub]; lia.
    - pose proof Hoct as Hoct'. cbn [all_digits] in Hoct'.
      apply andb_true_iff in Hoct'. destruct Hoct' as [Hd _].
      pose proof (digit_not_accidental d Hd) as Hna.
      destruct Ha as [->|[->| ->]]; cbn [String.append].
      + rewrite Hna, Hoct. cbn -[parseInt noteMap Z.mul Z.add Z.sub]. lia.
      + replace (is_accidental "#") with true by reflexivity. rewrite Hoct.
        cbn -[parseInt noteMap Z.mul Z.add Z.sub]. lia.
      + replace (is_accidental "b") with true by reflexivity. rewrite Hoct.
        cbn -[parseInt noteMap Z.mul Z.add Z.sub]. lia. }
  assert (Hb : (0 <= parseInt (if String.eqb octave "" then "4" else octave) < 10 ^ 14)%Z).
  { destruct (String.eqb octave ""); [vm_compute; split; [discriminate|reflexivity]|].
    apply (parseInt_bound octave 14 Hoct Hlen). }
  split; [exact Hb|]. split.
  { rewrite (Hf accidental Hacc). pose proof (noteMap_range letter) as Hn.
    assert (Ho : (-1 <= accidental_offset accidental <= 1)%Z)
      by (destruct Hacc as [->|[->| ->]]; vm_compute; split; discriminate).
    change (2 ^ 53)%Z with 9007199254740992%Z.
    change (10 ^ 14)%Z with 100000000000000%Z in Hb. lia. }
  split; [apply Hf, Hacc|].
  pose proof (Hf "" (or_introl eq_refl)) as H0. cbn [String.append] in H0.
  split; [|split].
  - rewrite (Hf "#"), H0 by tauto. cbn [accidental_offset String.eqb Ascii.eqb Bool.eqb]. lia.
  - rewrite (Hf "b"), H0 by tauto. cbn. lia.
  - repeat split; reflexivity.
Qed.

Lemma pitchToNumber_formula_witness :
  (0 <= parseInt "10" < 10 ^ 14)%Z /\
  (-1 <= pitchToNumber "G#10" < 2 ^ 53)%Z /\
  pitchToNumber "G#10" = (7 + 12 * 10 + 1)%Z /\
  pitchToNumber "G#10" = (pitchToNumber "G10" + 1)%Z /\
  pitchToNumber "Gb10" = (pitchToNumber "G10" - 1)%Z /\
  pitchToNumber "C4" = 48%Z /\ pitchToNumber "A4" = 57%Z /\ pitchToNumber "C5" = 60%Z.
Proof.
  apply (pitchToNumber_formula "G"%char "#" "10").
  - cbn. tauto.
  - tauto.
  - reflexivity.
  - apply Nat.leb_le. reflexivity.
Defined.

Section RepetitionFacts.
Context {A : Type}.

Lemma firstn_prefix (a b : list A) : firstn (List.length a) (a ++ b) = a.
Proof. induction a as [|x a IH]; cbn; [reflexivity|now rewrite IH]. Qed.

Lemma skipn_prefix (a b : list A) : skipn (List.length a) (a ++ b) = b.
Proof. induction a as [|x a IH]; cbn; [reflexivity|exact IH]. Qed.

Lemma js_slice_inside (a w : nat) (l : list A) :
  (a + w <= List.length l)%nat ->
  js_slice (Z.of_nat a) (Z.of_nat (a + w)) l = firstn w (skipn a l).
Proof.
  intros Hle. rewrite <- (js_slice_window a w l) by lia.
  now rewrite Nat.min_l by exact Hle.
Qed.

End RepetitionFacts.

Lemma count_pattern_repeated (pattern rest : list string) :
  (1 <= List.length pattern)%nat ->
  (2 <= count_pattern (pattern ++ pattern ++ rest) (List.length pattern))%nat.
Proof.
  intros Hp. unfold count_pattern. cbv zeta.
  set (p := List.length pattern) in *. set (pitches := pattern ++ pattern ++ rest).
  assert (Hn : List.length pitches = (p + (p + List.length rest))%nat)
    by (unfold pitches; now rewrite !length_app).
  assert (H0 : js_slice 0 (Z.of_nat p) pitches = pattern).
  { change (js_slice (Z.of_nat 0) (Z.of_nat (0 + p)) pitches = pattern).
    rewrite js_slice_inside by lia. apply firstn_prefix. }
  assert (H1 : js_slice (Z.of_nat (1 * p)) (Z.of_nat (1 * p + p)) pitches = pattern).
  { rewrite js_slice_inside by lia. rewrite Nat.mul_1_l. unfold pitches, p.
    rewrite skipn_prefix. apply firstn_prefix. }
  assert (Hk : exists k, ((List.length pitches - p) / p + 1 = S (S k))%nat).
  { assert (1 <= (List.length pitches - p) / p)%nat.
    { apply Nat.div_le_lower_bound; lia. }
    exists ((List.length pitches - p) / p - 1)%nat. lia. }
  destruct Hk as [k ->]. cbn [seq map filter].
  change (0 * p)%nat with 0%nat. change (Z.of_nat (0 + p)) with (Z.of_nat p).
  change (Z.of_nat 0) with 0%Z.
  rewrite H0, String.eqb_refl. cbn [filter]. rewrite H1, String.eqb_refl. cbn [List.length].
  lia.
Qed.

(** X21: [detectRepetition] finds an immediately repeated opening.  A melody
    that starts with a pattern of 2, 3 or 4 pitches played twice in a row is
    repetitive, whatever follows; a melody of fewer than 4 pitches never is. *)
Theorem detectRepetition_repeated_prefix (pattern rest short : list string) :
  (2 <= List.length pattern <= 4)%nat ->
  (List.length short < 4)%nat ->
  detectRepetition (pattern ++ pattern ++ rest) = true /\
  detectRepetition short = false.
Proof.
  intros Hp Hshort. split.
  - unfold detectRepetition.
    destruct (Nat.ltb_spec (List.length (pattern ++ pattern ++ rest)) 4) as [Hlt|_].
    { rewrite !length_app in Hlt. lia. }
    apply existsb_exists. exists (List.length pattern). split.
    + cbn. lia.
    + apply Nat.leb_le. apply count_pattern_repeated. lia.
  - unfold detectRepetition.
    destruct (Nat.ltb_spec (List.length short) 4); [reflexivity|lia].
Qed.

Lemma detectRepetition_repeated_prefix_witness :
  detectRepetition (["C4"; "E4"; "G4"] ++ ["C4"; "E4"; "G4"] ++ ["B4"]) = true /\
  detectRepetition ["C4"; "C4"; "C4"] = false.
Proof.
  apply (detectRepetition_repeated_prefix ["C4"; "E4"; "G4"] ["B4"] ["C4"; "C4"; "C4"]);
    cbn; lia.
Defined.

(** ** Configuration *)

(** X22: the service agrees with the configuration.  The palette of every
    emotion is one of the four palettes of [config.visual]; the number of
    schemes is [DEFAULT_RECOMMENDATIONS]; the first element of every scheme
    has the animation duration [DEFAULT_ANIMATION_DURATION] and every duration
    lies between [MIN_ANIMATION_DURATION] and [MAX_ANIMATION_DURATION]; and
    the number of rules that the service asks of the knowledge base is
    [TOP_K_RULES]. *)
Theorem service_agrees_with_config {num : Type} `{Number num}
    (load : option (EmbeddingModel num)) (emotion : EmotionFeatures) (structureLevel : string)
    (preferences : option (UserPreferences num)) (structureId : option string)
    (s : Service num) (h : Heap num) (query : string) :
  In (getColorsForEmotion emotion)
     [Config.WARM_COLORS; Config.COOL_COLORS; Config.TENSE_COLORS; Config.BALANCED_COLORS] /\
  List.length (schemes_of load emotion structureLevel preferences structureId s h)
  = Config.DEFAULT_RECOMMENDATIONS /\
  Forall (fun scheme =>
            option_map (fun e => animation_duration (animation e)) (hd_error (elements scheme))
            = Some Config.DEFAULT_ANIMATION_DURATION /\
            Forall (fun e => (Config.MIN_ANIMATION_DURATION
                              <= animation_duration (animation e)
                              <= Config.MAX_ANIMATION_DURATION)%Z)
                   (elements scheme))
         (schemes_of load emotion structureLevel preferences structureId s h) /\
  retrieveRelevantRules s query h
  = searchRules (knowledgeBase s) (generateEmbedding s query) (Some Config.TOP_K_RULES) h.
Proof.
  split; [destruct emotion as [[] [] []]; cbn; tauto|].
  unfold schemes_of, recommendVisuals. destruct (initializeModels load s h) as [s1 h1].
  cbn [fst]. split; [now rewrite length_map, length_seq|]. split; [|reflexivity].
  apply Forall_forall. intros scheme Hin. apply in_map_iff in Hin.
  destruct Hin as (i & <- & _). cbn [make_scheme elements].
  set (count := if String.eqb structureLevel "motive" then 1%nat
                else if String.eqb structureLevel "phrase"
                        || String.eqb structureLevel "sub_phrase" then 3%nat else 3%nat).
  assert (Hcount : count = 1%nat \/ count = 3%nat).
  { unfold count. destruct (String.eqb structureLevel "motive"); [now left|].
    destruct (_ || _); now right. }
  split.
  - destruct Hcount as [-> | ->]; reflexivity.
  - apply Forall_forall. intros e He. apply in_map_iff in He. destruct He as (j & <- & Hj).
    apply in_seq in Hj. cbn [make_element animation animation_duration].
    unfold Config.MIN_ANIMATION_DURATION, Config.MAX_ANIMATION_DURATION.
    destruct Hcount as [Hc|Hc]; rewrite Hc in Hj; lia.
Qed.

Lemma leb_8_truthy (memory : float) :
  PrimFloat.leb 8 memory = true -> FloatNum.truthy memory = true.
Proof.
  unfold FloatNum.truthy, PrimFloat.is_zero, PrimFloat.is_nan.
  rewrite leb_spec, !eqb_spec.
  replace (Prim2SF 8) with (S754_finite false 4503599627370496 (-49)) by reflexivity.
  replace (Prim2SF PrimFloat.zero) with (S754_zero false) by reflexivity.
  destruct (Prim2SF memory) as [sg|sg| |sg m e]; cbn [SFleb SFeqb SFcompare];
    try discriminate.
  - destruct sg; [discriminate|reflexivity].
  - destruct sg; [discriminate|]. intros _.
    rewrite Z.compare_refl. cbn [negb orb].
    now rewrite Pos.compare_cont_refl.
Qed.

(** X23: the recommended audio model.  [getRecommendedAudioModel] answers the
    full model exactly when the browser reports a device memory of at least 8
    and is not a mobile one; in every other case, a browser that does not
    report its memory among them, it answers the lite model (the standard
    tier has no model of its own).  The lite tier needs a reported memory
    that is neither 0 nor NaN and is not at least 4. *)
Theorem getRecommendedAudioModel_full (navigator : option Config.Navigator) :
  (Config.getRecommendedAudioModel navigator
   = (Config.AUDIO_MODEL_FULL, Config.AUDIO_MODEL_FULL_SIZE) <->
   exists nav memory,
     navigator = Some nav /\ Config.isMobile nav = false /\
     Config.deviceMemory nav = Some memory /\ PrimFloat.leb 8 memory = true) /\
  (Config.getRecommendedAudioModel navigator
   = (Config.AUDIO_MODEL_FULL, Config.AUDIO_MODEL_FULL_SIZE) \/
   Config.getRecommendedAudioModel navigator
   = (Config.AUDIO_MODEL_LITE, Config.AUDIO_MODEL_LITE_SIZE)) /\
  (Config.getModelTier navigator = Config.lite ->
   exists nav memory,
     navigator = Some nav /\ Config.deviceMemory nav = Some memory /\
     FloatNum.truthy memory = true /\ PrimFloat.leb 4 memory = false).
Proof.
  assert (Hdefault : PrimFloat.leb 8 4 = false /\ PrimFloat.leb 4 4 = true)
    by (split; reflexivity).
  destruct Hdefault as [H84 H44].
  unfold Config.getRecommendedAudioModel, Config.getModelTier, Config.getDeviceMemory,
    Config.float_ge.
  destruct navigator as [[[memory|] mobile]|]; cbn [Config.deviceMemory Config.isMobile].
  - unfold num_or. cbn [truthy float_Number].
    destruct (FloatNum.truthy memory) eqn:Ht.
    + destruct (PrimFloat.leb 8 memory) eqn:H8; destruct mobile; cbn [andb negb].
      * destruct (PrimFloat.leb 4 memory) eqn:H4.
        -- split; [|split; [now right|discriminate]]. split; [discriminate|].
           intros (nav & m & E & Hm & _). injection E as <-. discriminate Hm.
        -- split; [|split; [now right|]].
           ++ split; [discriminate|].
              intros (nav & m & E & Hm & _). injection E as <-. discriminate Hm.
           ++ intros _. eexists _, memory. repeat split; assumption.
      * split; [|split; [now left|discriminate]]. split; [|reflexivity].
        intros _. eexists _, memory. repeat split. exact H8.
      * destruct (PrimFloat.leb 4 memory) eqn:H4.
        -- split; [|split; [now right|discriminate]]. split; [discriminate|].
           intros (nav & m & E & Hm & _). injection E as <-. discriminate Hm.
        -- split; [|split; [now right|]].
           ++ split; [discriminate|].
              intros (nav & m & E & Hm & _). injection E as <-. discriminate Hm.
           ++ intros _. eexists _, memory. repeat split; assumption.
      * destruct (PrimFloat.leb 4 memory) eqn:H4.
        -- split; [|split; [now right|discriminate]]. split; [discriminate|].
           intros (nav & m & E & _ & Em & Hm). injection E as <-.
           cbn [Config.deviceMemory] in Em. injection Em as <-. congruence.
        -- split; [|split; [now right|]].
           ++ split; [discriminate|].
              intros (nav & m & E & _ & Em & Hm). injection E as <-.
              cbn [Config.deviceMemory] in Em. injection Em as <-. congruence.
           ++ intros _. eexists _, memory. repeat split; assumption.
    + rewrite H84, H44. cbn [andb].
      split; [|split; [now right|discriminate]]. split; [discriminate|].
      intros (nav & m & E & _ & Em & Hm). injection E as <-.
      cbn [Config.deviceMemory] in Em. injection Em as <-.
      apply leb_8_truthy in Hm. congruence.
  - rewrite H84, H44. cbn [andb].
    split; [|split; [now right|discriminate]]. split; [discriminate|].
    intros (nav & m & E & _ & Em & _). injection E as <-. discriminate Em.
  - rewrite H84, H44. cbn [andb].
    split; [|split; [now right|discriminate]]. split; [discriminate|].
    intros (nav & m & E & _). discriminate E.
Qed.

(** ** The user store *)

Section UserStoreFacts.
Context {learner userAction : Type}.
Variable recordAction : userAction -> learner -> learner.
Variable clear : learner -> learner.

Lemma step_keeps_dialog_hidden (st : UserStore.State learner)
    (a : UserStore.Action userAction) :
  UserStore.isApiKeyDialogVisible st = false ->
  UserStore.isApiKeyDialogVisible (UserStore.step recordAction clear st a) = false /\
  UserStore.apiKey (UserStore.step recordAction clear st a) = UserStore.apiKey st.
Proof. intros Hd. destruct a; cbn; auto. Qed.

Lemma run_keeps_dialog_hidden (actions : list (UserStore.Action userAction)) :
  forall st : UserStore.State learner,
    UserStore.isApiKeyDialogVisible st = false ->
    UserStore.isApiKeyDialogVisible (UserStore.run recordAction clear st actions) = false /\
    UserStore.apiKey (UserStore.run recordAction clear st actions) = UserStore.apiKey st.
Proof.
  induction actions as [|a actions IH]; intros st Hd; cbn [UserStore.run fold_left]; [auto|].
  destruct (step_keeps_dialog_hidden st a Hd) as [Hd' Hk].
  destruct (IH _ Hd') as [Hd'' Hk'']. unfold UserStore.run in *. split; congruence.
Qed.

End UserStoreFacts.

(** X24: the user store.  Whatever actions have run, the API key dialog is
    hidden and the API key is 'local-transformers'; [setModelReady] gives the
    ready status with no error; and [setModelError] after it records the
    error but leaves the model marked as ready. *)
Theorem user_store_invariant {learner userAction : Type}
    (recordAction : userAction -> learner -> learner) (clear : learner -> learner)
    (fresh : learner) (actions : list (UserStore.Action userAction)) (message : string) :
  UserStore.isApiKeyDialogVisible
    (UserStore.run recordAction clear (UserStore.initial fresh) actions) = false /\
  UserStore.apiKey (UserStore.run recordAction clear (UserStore.initial fresh) actions)
  = "local-transformers" /\
  UserStore.modelStatus
    (UserStore.run recordAction clear (UserStore.initial fresh)
       (actions ++ [UserStore.setModelReady]))
  = {| UserStore.isLoading := false; UserStore.isReady := true; UserStore.progress := 100;
       UserStore.currentModel := "Ready"; UserStore.error := None |} /\
  UserStore.modelStatus
    (UserStore.run recordAction clear (UserStore.initial fresh)
       (actions ++ [UserStore.setModelReady; UserStore.setModelError message]))
  = {| UserStore.isLoading := false; UserStore.isReady := true; UserStore.progress := 100;
       UserStore.currentModel := "Ready"; UserStore.error := Some message |} /\
  UserStore.isModelReady
    (UserStore.run recordAction clear (UserStore.initial fresh)
       (actions ++ [UserStore.setModelReady; UserStore.setModelError message])) = true.
Proof.
  destruct (run_keeps_dialog_hidden recordAction clear actions (UserStore.initial fresh)
              eq_refl) as [Hd Hk].
  split; [exact Hd|]. split; [exact Hk|].
  unfold UserStore.run, UserStore.isModelReady. rewrite !fold_left_app. cbn. auto.
Qed.

(** ** The number of rules that a query returns *)

Section CountFacts.
Context {num : Type} `{Number num}.

Lemma js_slice_from_start_length {A : Type} (k : Z) (l : list A) :
  List.length (js_slice 0 k l)
  = (if (k <? 0)%Z then Z.to_nat (Z.of_nat (List.length l) + k)
     else Nat.min (Z.to_nat k) (List.length l)).
Proof.
  unfold js_slice. cbv zeta. replace (0 <? 0)%Z with false by reflexivity.
  assert (H0 : Z.min 0 (Z.of_nat (List.length l)) = 0%Z) by lia.
  rewrite H0. cbn [Z.to_nat skipn]. rewrite length_firstn, Z.sub_0_r.
  destruct (Z.ltb_spec k 0); lia.
Qed.

Lemma searchRules_count (kb : KnowledgeBase) (queryEmbedding : list num) (topK : option Z)
    (h : Heap num) :
  kb_wf kb h = true ->
  exists results copies,
    searchRules kb queryEmbedding topK h = Some (results, h ++ copies) /\
    results = seq (List.length h) (List.length copies) /\
    List.length copies
    = List.length (js_slice 0 (match topK with Some k => k | None => 5%Z end) (rules kb)) /\
    Forall (fun copy => exists l r,
                In l (rules kb) /\ deref h l = Some r /\
                copy = with_similarity r
                         (cosineSimilarity queryEmbedding (embedding_or_empty r))) copies.
Proof.
  intros Hwf.
  destruct (searchRules_outcome kb queryEmbedding topK h Hwf)
    as (scored & copies' & Hscored & Hcopied & Hsearch').
  destruct (searchRules_copies kb queryEmbedding topK h [] Hwf)
    as (copies & Hsearch & Hcopies).
  rewrite app_nil_r in Hsearch.
  assert (Hsame : copies' = copies).
  { rewrite Hsearch in Hsearch'. injection Hsearch' as _ Happ.
    now apply app_inv_head in Happ. }
  subst copies'. exists (seq (List.length h) (List.length copies)), copies.
  split; [exact Hsearch|]. split; [reflexivity|]. split; [|exact Hcopies].
  rewrite <- (Forall2_length Hcopied), !js_slice_from_start_length.
  rewrite (Permutation_length (js_sort_perm _ scored)), <- (Forall2_length Hscored).
  reflexivity.
Qed.

End CountFacts.

(** X25: the number of rules that [searchRules] returns.  On a well-formed
    catalog of [n] rules it returns [min(5, n)] rules when [topK] is left out,
    [min(topK, n)] for a [topK >= 0], and [n - |topK|] rules (none when
    that is negative) for a negative [topK]; the store grows by one object
    per rule returned. *)
Theorem searchRules_result_count {num : Type} `{Number num} (kb : KnowledgeBase)
    (queryEmbedding : list num) (topK : option Z) (h : Heap num) :
  kb_wf kb h = true ->
  exists results h',
    searchRules kb queryEmbedding topK h = Some (results, h') /\
    List.length h' = (List.length h + List.length results)%nat /\
    List.length results
    = match topK with
      | None => Nat.min 5 (getRulesCount kb)
      | Some k =>
          if (k <? 0)%Z then (getRulesCount kb - Z.to_nat (- k))%nat
          else Nat.min (Z.to_nat k) (getRulesCount kb)
      end.
Proof.
  intros Hwf.
  destruct (searchRules_count kb queryEmbedding topK h Hwf)
    as (results & copies & Hsearch & -> & Hlen & _).
  eexists _, _. split; [exact Hsearch|].
  rewrite length_app, length_seq. split; [reflexivity|].
  rewrite Hlen, js_slice_from_start_length. unfold getRulesCount.
  destruct topK as [k|]; [|reflexivity].
  destruct (Z.ltb_spec k 0); lia.
Qed.

Lemma searchRules_result_count_witness :
  exists results h',
    searchRules sample_kb [1; 0]%float (Some (-1)%Z) (@sample_store float _)
    = Some (results, h') /\
    List.length h' = (3 + List.length results)%nat /\
    List.length results = 2%nat.
Proof.
  apply (searchRules_result_count (num := float) sample_kb [1; 0]%float (Some (-1)%Z)
           (@sample_store float _)).
  reflexivity.
Defined.

(** ** Queries by the model, rules by the hash *)

Section ModelFacts.
Context {num : Type} `{Number num}.

Lemma initializeModels_fresh (load : option (EmbeddingModel num)) (h : Heap num) :
  initializeModels load new_Service h
  = (Build_Service (match load with Some model => Some model | None => None end) true
       {| rules := seq (List.length h) (List.length (@createTheoryRules num _));
          isInitialized := true |} None,
     h ++ map embedded createTheoryRules).
Proof.
  unfold initializeModels, new_Service.
  cbn [isModelLoaded knowledgeBase embeddingModel lastAnalysis].
  now rewrite (initialize_fresh new_KnowledgeBase h eq_refl).
Qed.

Lemma new_copies (h copies : Heap num) (P : TheoryRule num -> Prop) :
  Forall P copies ->
  Forall (fun l => exists copy, deref (h ++ copies) l = Some copy /\ P copy)
         (seq (List.length h) (List.length copies)).
Proof.
  intros Hall. apply Forall_forall. intros l Hl. apply in_seq in Hl.
  unfold deref. rewrite nth_error_app2 by lia.
  destruct (nth_error copies (l - List.length h)) as [copy|] eqn:E.
  - exists copy. split; [reflexivity|]. rewrite Forall_forall in Hall.
    apply Hall. eapply nth_error_In, E.
  - apply nth_error_None in E. lia.
Qed.

End ModelFacts.

(** X26: queries by the model, rules by the hash.  The loaded model plays no
    part in the embeddings of the catalog: a new service leaves the same store
    with a model as without.  The query is embedded by the model, so when the
    model answers a vector that has not 384 dimensions the query of a
    structure still returns 5 rules, each with similarity 0. *)
Theorem model_query_meets_hashed_rules {num : Type} `{Number num}
    (model : EmbeddingModel num) (h : Heap num) (query : string) (output : list num) :
  model query = Some output ->
  List.length output <> 384%nat ->
  snd (initializeModels (Some model) new_Service h)
  = snd (initializeModels None new_Service h) /\
  generateEmbedding (fst (initializeModels (Some model) new_Service h)) query = output /\
  exists results h',
    retrieveRelevantRules (fst (initializeModels (Some model) new_Service h)) query
      (snd (initializeModels (Some model) new_Service h)) = Some (results, h') /\
    List.length results = 5%nat /\
    Forall (fun l => exists copy, deref h' l = Some copy /\ similarity copy = Some zero)
           results.
Proof.
  intros Hout Hlen. rewrite !initializeModels_fresh. cbn [fst snd].
  split; [reflexivity|]. unfold retrieveRelevantRules, generateEmbedding.
  cbn [embeddingModel knowledgeBase]. rewrite Hout. split; [reflexivity|].
  set (kb := {| rules := seq (List.length h) (List.length (@createTheoryRules num _));
                isInitialized := true |}).
  set (store0 := h ++ map embedded createTheoryRules).
  assert (Hwf : kb_wf kb store0 = true).
  { unfold kb_wf, kb, store0. cbn [rules]. apply forallb_forall.
    intros l Hl. apply in_seq in Hl. apply Nat.ltb_lt. rewrite length_app, length_map. lia. }
  destruct (searchRules_count kb output (Some 5%Z) store0 Hwf)
    as (results & copies & Hsearch & -> & Hcount & Hcopies).
  eexists _, _. split; [exact Hsearch|]. split.
  - rewrite length_seq, Hcount, js_slice_from_start_length. unfold kb. cbn [rules].
    rewrite length_seq. reflexivity.
  - apply new_copies. eapply Forall_impl; [|exact Hcopies].
    intros copy (l & r & Hl & Hr & ->). cbn [with_similarity similarity]. f_equal.
    apply cosineSimilarity_length_differs.
    unfold kb in Hl. cbn [rules] in Hl. apply in_seq in Hl.
    unfold store0, deref in Hr. rewrite nth_error_app2 in Hr by lia.
    rewrite nth_error_map in Hr.
    destruct (nth_error createTheoryRules (l - List.length h)) as [r0|]; [|discriminate].
    injection Hr as <-. unfold embedded, embedding_or_empty. cbn [set_embedding embedding].
    rewrite generateSimpleEmbedding_length. exact Hlen.
Qed.

Lemma model_query_meets_hashed_rules_witness :
  snd (initializeModels (Some (fun _ => Some [1; 2]%float)) new_Service [])
  = snd (initializeModels None new_Service []) /\
  generateEmbedding (fst (initializeModels (Some (fun _ => Some [1; 2]%float)) new_Service []))
                    "phrase" = [1; 2]%float /\
  exists results h',
    retrieveRelevantRules
      (fst (initializeModels (Some (fun _ => Some [1; 2]%float)) new_Service [])) "phrase"
      (snd (initializeModels (Some (fun _ => Some [1; 2]%float)) new_Service []))
    = Some (results, h') /\
    List.length results = 5%nat /\
    Forall (fun l => exists copy, deref h' l = Some copy /\ similarity copy = Some (@zero float _))
           results.
Proof.
  apply (model_query_meets_hashed_rules (num := float) (fun _ => Some [1; 2]%float) []
           "phrase" [1; 2]%float).
  - reflexivity.
  - discriminate.
Defined.

(** ** Contour *)

Lemma count_steps_rises_falls (rest : list Z) :
  forall prev ascending descending,
    count_steps prev rest ascending descending
    = ((ascending + rises (prev :: rest))%nat, (descending + falls (prev :: rest))%nat).
Proof.
  induction rest as [|p rest IH]; intros prev a d; cbn [count_steps].
  - cbn. f_equal; lia.
  - change (rises (prev :: p :: rest))
      with ((if (prev <? p)%Z then 1 else 0) + rises (p :: rest))%nat.
    change (falls (prev :: p :: rest))
      with ((if (p <? prev)%Z then 1 else 0) + falls (p :: rest))%nat.
    destruct (Z.ltb_spec prev p) as [Hlt|Hge].
    + rewrite IH. destruct (Z.ltb_spec p prev); [lia|]. f_equal; lia.
    + destruct (Z.ltb_spec p prev); rewrite IH; f_equal; lia.
Qed.

Lemma rises_snoc (l : list Z) (x : Z) :
  rises (l ++ [x])
  = (rises l + match hd_error (rev l) with
               | Some y => if (y <? x)%Z then 1 else 0
               | None => 0
               end)%nat.
Proof.
  induction l as [|a l IH]; [reflexivity|].
  destruct l as [|b l].
  - cbn. lia.
  - change ((a :: b :: l) ++ [x]) with (a :: (b :: l) ++ [x]).
    change (rises (a :: (b :: l) ++ [x]))
      with ((if (a <? b)%Z then 1 else 0) + rises ((b :: l) ++ [x]))%nat.
    rewrite IH.
    change (rises (a :: b :: l)) with ((if (a <? b)%Z then 1 else 0) + rises (b :: l))%nat.
    assert (Hhd : hd_error (rev (a :: b :: l)) = hd_error (rev (b :: l))).
    { change (rev (a :: b :: l)) with (rev (b :: l) ++ [a]).
      destruct (rev (b :: l)) as [|z zs] eqn:E; [|reflexivity].
      apply (f_equal (@List.length Z)) in E. rewrite length_rev in E. discriminate. }
    rewrite Hhd. lia.
Qed.

Lemma rises_rev (l : list Z) : rises (rev l) = falls l.
Proof.
  induction l as [|x l IH]; [reflexivity|].
  cbn [rev]. rewrite rises_snoc, rev_involutive, IH.
  destruct l as [|y l]; [reflexivity|].
  change (falls (x :: y :: l)) with ((if (y <? x)%Z then 1 else 0) + falls (y :: l))%nat.
  cbn [hd_error]. lia.
Qed.

Lemma falls_rev (l : list Z) : falls (rev l) = rises l.
Proof. rewrite <- (rev_involutive l) at 2. now rewrite rises_rev. Qed.

Lemma detectContour_steps (pitches : list string) :
  detectContour pitches
  = if (List.length pitches <? 2)%nat then "stable"
    else if (3 * falls (map pitchToNumber pitches) <? 2 * rises (map pitchToNumber pitches))%nat
         then "ascending"
    else if (3 * rises (map pitchToNumber pitches) <? 2 * falls (map pitchToNumber pitches))%nat
         then "descending"
    else "wave".
Proof.
  unfold detectContour. destruct (Nat.ltb_spec (List.length pitches) 2) as [|Hlen];
    [reflexivity|].
  destruct (map pitchToNumber pitches) as [|first rest] eqn:E.
  - apply (f_equal (@List.length Z)) in E. rewrite length_map in E. cbn in E. lia.
  - rewrite count_steps_rises_falls. reflexivity.
Qed.

Lemma sorted_rises (l : list Z) :
  StronglySorted Z.lt l -> rises l = (List.length l - 1)%nat /\ falls l = 0%nat.
Proof.
  induction 1 as [|x l Hs IH Hx]; [split; reflexivity|].
  destruct l as [|y l]; [split; reflexivity|].
  change (rises (x :: y :: l)) with ((if (x <? y)%Z then 1 else 0) + rises (y :: l))%nat.
  change (falls (x :: y :: l)) with ((if (y <? x)%Z then 1 else 0) + falls (y :: l))%nat.
  destruct IH as [-> ->].
  inversion Hx as [|? ? Hxy _]; subst.
  destruct (Z.ltb_spec x y); [|lia]. destruct (Z.ltb_spec y x); [lia|].
  cbn [List.length]. split; lia.
Qed.

(** X27: the contour of a melody played backwards is the mirror of its
    contour: ascending and descending change places, stable and wave stay.  A
    melody of at least two pitches with strictly rising numbers is ascending,
    and descending when played backwards.  The pitches are those whose number
    is below 2^53: there the doubles that the engine compares are the exact
    integers of the model (above, two pitches with different integers can
    have the same double). *)
Theorem detectContour_mirror (pitches : list string) :
  Forall (fun pitch => (pitchToNumber pitch < 2 ^ 53)%Z) pitches ->
  detectContour (rev pitches) = mirror_contour (detectContour pitches) /\
  ((2 <= List.length pitches)%nat ->
   StronglySorted Z.lt (map pitchToNumber pitches) ->
   detectContour pitches = "ascending" /\ detectContour (rev pitches) = "descending").
Proof.
  intros _.
  assert (Hmirror : detectContour (rev pitches) = mirror_contour (detectContour pitches)).
  { rewrite !detectContour_steps, length_rev, map_rev, rises_rev, falls_rev.
    destruct (List.length pitches <? 2)%nat; [reflexivity|].
    destruct (Nat.ltb_spec (3 * falls (map pitchToNumber pitches))
                           (2 * rises (map pitchToNumber pitches)));
      destruct (Nat.ltb_spec (3 * rises (map pitchToNumber pitches))
                             (2 * falls (map pitchToNumber pitches)));
      try reflexivity. lia. }
  split; [exact Hmirror|]. intros Hlen Hsorted.
  assert (Ha : detectContour pitches = "ascending").
  { rewrite detectContour_steps.
    destruct (Nat.ltb_spec (List.length pitches) 2); [lia|].
    destruct (sorted_rises _ Hsorted) as [-> ->]. rewrite length_map.
    destruct (Nat.ltb_spec (3 * 0) (2 * (List.length pitches - 1))); [reflexivity|lia]. }
  split; [exact Ha|]. rewrite Hmirror, Ha. reflexivity.
Qed.

Lemma detectContour_mirror_witness :
  detectContour (rev ["C4"; "E4"; "G4"; "F4"; "C5"])
  = mirror_contour (detectContour ["C4"; "E4"; "G4"; "F4"; "C5"]) /\
  detectContour ["C4"; "E4"; "G4"] = "ascending" /\
  detectContour (rev ["C4"; "E4"; "G4"]) = "descending".
Proof.
  assert (H5 : Forall (fun pitch => (pitchToNumber pitch < 2 ^ 53)%Z)
                     ["C4"; "E4"; "G4"; "F4"; "C5"]).
  { repeat (apply Forall_cons; [reflexivity|]). apply Forall_nil. }
  assert (H3 : Forall (fun pitch => (pitchToNumber pitch < 2 ^ 53)%Z) ["C4"; "E4"; "G4"]).
  { repeat (apply Forall_cons; [reflexivity|]). apply Forall_nil. }
  split; [exact (proj1 (detectContour_mirror _ H5))|].
  apply (proj2 (detectContour_mirror _ H3)).
  - apply Nat.leb_le. reflexivity.
  - repeat (apply SSorted_cons;
            [|repeat (apply Forall_cons; [reflexivity|]); apply Forall_nil]).
    apply SSorted_nil.
Defined.

(** ** Features of a structure, over the reals *)

Lemma sum_nonneg (l : list R) : Forall (fun x => 0 <= x)%R l -> (0 <= sum l)%R.
Proof.
  unfold sum. change (@zero R _) with 0%R.
  assert (Hgen : forall a : R, (0 <= a)%R -> Forall (fun x => 0 <= x)%R l ->
                               (0 <= fold_left nadd l a)%R); [|apply Hgen; lra].
  induction l as [|x l IH]; intros a Ha Hl; cbn [fold_left]; [exact Ha|].
  inversion Hl as [|? ? Hx Hrest]; subst. apply IH; [|exact Hrest].
  cbn [nadd R_Number]. lra.
Qed.

Lemma intervals_from_nonneg (rest : list R) :
  forall prev : R, Forall (fun x => 0 <= x)%R (intervals_from prev rest).
Proof.
  induction rest as [|p rest IH]; intros prev; cbn [intervals_from]; constructor; [|apply IH].
  cbn [nabs nsub R_Number]. apply Rabs_pos.
Qed.

Lemma ratio_nonneg (a : R) (n : nat) : (0 <= a)%R -> (0 <= a / IZR (Z.of_nat n))%R.
Proof.
  intros Ha. destruct n as [|n].
  - cbn. unfold Rdiv. rewrite Rinv_0. lra.
  - apply Rmult_le_pos; [exact Ha|]. left. apply Rinv_0_lt_compat. apply IZR_lt. lia.
Qed.

(** X28: the features of a structure, over the reals.  For a structure whose
    end measure is not before its start measure, energy, brightness and
    tension lie in [0, 1]; without notes they are 0, 1/3 and 1/2, and the
    emotion chosen is 'sad' with confidence 0.75 at every index. *)
Theorem extractStructureFeatures_ranges (structure : MusicStructure R) (i : nat) :
  (startMeasure structure <= endMeasure structure)%Z ->
  (0 <= energy (extractStructureFeatures structure) <= 1)%R /\
  (0 <= brightness (extractStructureFeatures structure) <= 1)%R /\
  (0 <= feature_tension (extractStructureFeatures structure) <= 1)%R /\
  (structure_notes structure = None \/ structure_notes structure = Some [] ->
   energy (extractStructureFeatures structure) = 0%R /\
   brightness (extractStructureFeatures structure) = (1 / 3)%R /\
   feature_tension (extractStructureFeatures structure) = (1 / 2)%R /\
   choose_emotion i (extractStructureFeatures structure) = ("sad", (75 / 100)%R)).
Proof.
  intros Hle.
  assert (Hempty : structure_notes structure = None \/ structure_notes structure = Some [] ->
            energy (extractStructureFeatures structure) = 0%R /\
            brightness (extractStructureFeatures structure) = (1 / 3)%R /\
            feature_tension (extractStructureFeatures structure) = (1 / 2)%R).
  { intros Hnotes. unfold extractStructureFeatures. cbv zeta.
    cbn [energy brightness feature_tension].
    unfold one, zero, dec, of_nat. cbn [nmin nmax ndiv nsub num_of_Z R_Number].
    assert (Hn : match structure_notes structure with Some ns => ns | None => [] end = [])
      by (destruct Hnotes as [-> | ->]; reflexivity).
    rewrite Hn. cbn [List.length map Nat.ltb Nat.leb Z.of_nat].
    split; [|split; [|lra]].
    - unfold Rdiv. rewrite !Rmult_0_l. apply Rmin_right. lra.
    - rewrite Rmax_right by lra. rewrite Rmin_right by lra. lra. }
  split; [|split; [|split; [|]]].
  - unfold extractStructureFeatures. cbv zeta. cbn [energy].
    unfold one, of_nat. cbn [nmin ndiv num_of_Z R_Number].
    split; [|apply Rmin_l]. apply Rmin_glb; [lra|]. apply Rmult_le_pos; [|lra].
    apply Rmult_le_pos; [apply IZR_le; lia|].
    left. apply Rinv_0_lt_compat. apply IZR_lt. lia.
  - unfold extractStructureFeatures. cbv zeta. cbn [brightness].
    unfold one, zero. cbn [nmin nmax num_of_Z R_Number].
    split; [|apply Rmin_l]. apply Rmin_glb; [lra|apply Rmax_l].
  - unfold extractStructureFeatures. cbv zeta. cbn [feature_tension].
    unfold one, dec, of_nat. cbn [nmin ndiv num_of_Z R_Number].
    destruct (1 <? List.length _)%nat; [|lra].
    split; [|apply Rmin_l]. apply Rmin_glb; [lra|].
    apply Rmult_le_pos; [|lra]. apply ratio_nonneg, sum_nonneg.
    destruct (map _ _) as [|first rest]; [constructor|apply intervals_from_nonneg].
  - intros Hnotes. destruct (Hempty Hnotes) as (He & Hb & Ht).
    split; [exact He|]. split; [exact Hb|]. split; [exact Ht|].
    unfold choose_emotion. rewrite He, Hb, Ht.
    assert (H1 : ngt 0%R (dec 7 10) = false).
    { apply not_true_iff_false. rewrite R_ngt. unfold dec. cbn [ndiv num_of_Z R_Number]. lra. }
    assert (H2 : ngt 0%R (dec 5 10) = false).
    { apply not_true_iff_false. rewrite R_ngt. unfold dec. cbn [ndiv num_of_Z R_Number]. lra. }
    assert (H3 : (0%R <? dec 3 10)%num = true).
    { apply R_nlt. unfold dec. cbn [ndiv num_of_Z R_Number]. lra. }
    assert (H4 : ((1 / 3)%R <? dec 4 10)%num = true).
    { apply R_nlt. unfold dec. cbn [ndiv num_of_Z R_Number]. lra. }
    rewrite H1, H2, H3, H4. cbn [andb]. reflexivity.
Qed.

Lemma extractStructureFeatures_ranges_witness :
  (0 <= energy (extractStructureFeatures (@sample_structure R _ "S1")) <= 1)%R /\
  (0 <= brightness (extractStructureFeatures (@sample_structure R _ "S1")) <= 1)%R /\
  (0 <= feature_tension (extractStructureFeatures (@sample_structure R _ "S1")) <= 1)%R /\
  (structure_notes (@sample_structure R _ "S1") = None \/
   structure_notes (@sample_structure R _ "S1") = Some [] ->
   energy (extractStructureFeatures (@sample_structure R _ "S1")) = 0%R /\
   brightness (extractStructureFeatures (@sample_structure R _ "S1")) = (1 / 3)%R /\
   feature_tension (extractStructureFeatures (@sample_structure R _ "S1")) = (1 / 2)%R /\
   choose_emotion 0 (extractStructureFeatures (@sample_structure R _ "S1"))
   = ("sad", (75 / 100)%R)).
Proof.
  apply (extractStructureFeatures_ranges (@sample_structure R _ "S1") 0).
  cbn. lia.
Defined.
